(** * Pytopt.FE: finite-element assembly and Newton-Raphson solver

    A shallow embedding of [src/Pytopt/FE.py] (class [FE]: [__init__],
    [fe], [fe_nl]).  Floating-point numbers are idealised as real numbers;
    numpy column vectors of shape (n,1) are lists of reals; numpy integer
    arrays are lists of [Z].  Arrays that the program mutates in place live
    in an explicit store, so that aliasing between the caller's arrays and
    the solver's own is visible. *)

From Stdlib Require Import Reals Lra Lia ZArith List String.
From stdpp Require Import base option list gmap strings.

Local Open Scope Z_scope.

(** ** Exceptions and the two monads *)

Inductive exn : Type :=
  | IndexError
  | ValueError
  | KeyError
  | Exception (msg : string).

Inductive result (A : Type) : Type :=
  | Ok (a : A)
  | Raise (e : exn).
Arguments Ok {A} a.
Arguments Raise {A} e.

Definition rbind {A B} (r : result A) (k : A -> result B) : result B :=
  match r with
  | Ok a => k a
  | Raise e => Raise e
  end.

(** The store: one cell per numpy array that is mutated in place.  A
    location is the index of its cell; allocation appends a cell. *)
Abbreviation loc := nat (only parsing).
Abbreviation store := (list (list R)) (only parsing).

Definition M (A : Type) : Type := store -> result A * store.

Definition ret {A} (a : A) : M A := fun s => (Ok a, s).
Definition raise {A} (e : exn) : M A := fun s => (Raise e, s).
Definition lift {A} (r : result A) : M A := fun s => (r, s).
Definition bind {A B} (m : M A) (k : A -> M B) : M B :=
  fun s =>
    match m s with
    | (Ok a, s') => k a s'
    | (Raise e, s') => (Raise e, s')
    end.

Declare Scope py_scope.
Delimit Scope py_scope with py.
Notation "'let*' x ':=' m 'in' k" := (bind m (fun x => k))
  (at level 10, x pattern, m at level 100, k at level 200) : py_scope.
Notation "'let?' x ':=' r 'in' k" := (rbind r (fun x => k))
  (at level 10, x pattern, r at level 100, k at level 200) : py_scope.
Local Open Scope py_scope.

Definition alloc (v : list R) : M loc := fun s => (Ok (length s), s ++ [v]).
(** Reading a location that was never allocated yields the empty array;
    every location the program itself creates is allocated. *)
Definition load (l : loc) : M (list R) := fun s => (Ok (default [] (s !! l)), s).
Definition write (l : loc) (v : list R) : M unit := fun s => (Ok tt, <[l:=v]> s).

(** ** Python and numpy primitives *)

(** [a[i]] for a sequence of length [n]: negative indices count from the
    end, anything else out of range is an IndexError. *)
Definition py_idx (n : nat) (i : Z) : result nat :=
  if (0 <=? i) && (i <? Z.of_nat n) then Ok (Z.to_nat i)
  else if (- Z.of_nat n <=? i) && (i <? 0) then Ok (Z.to_nat (Z.of_nat n + i))
  else Raise IndexError.

Definition py_get {A} (l : list A) (i : Z) : result A :=
  rbind (py_idx (length l) i) (fun k =>
    match l !! k with Some a => Ok a | None => Raise IndexError end).

(** [range(n)] *)
Definition py_range (n : Z) : list Z := Z.of_nat <$> seq 0 (Z.to_nat n).

(** [a[np.ix_(idx)]] on a column vector (a gather) *)
Fixpoint np_take (a : list R) (idx : list Z) : result (list R) :=
  match idx with
  | [] => Ok []
  | i :: idx' =>
      rbind (py_get a i) (fun v =>
      rbind (np_take a idx') (fun vs => Ok (v :: vs)))
  end.

(** numpy broadcasting of a column [v] against a column of length [n],
    for an in-place operation whose target has length [n] *)
Definition broadcast (n : nat) (v : list R) : result (list R) :=
  if (length v =? n)%nat then Ok v
  else match v with
       | [c] => Ok (replicate n c)
       | _ => Raise ValueError
       end.

(** [a[np.ix_(idx)] = v]: the indices are checked first, then the entries
    are written one after the other (a later duplicate index wins). *)
Fixpoint np_put_seq (a : list R) (ks : list nat) (v : list R) : list R :=
  match ks, v with
  | k :: ks', c :: v' => np_put_seq (<[k:=c]> a) ks' v'
  | _, _ => a
  end.

Fixpoint py_idxs (n : nat) (idx : list Z) : result (list nat) :=
  match idx with
  | [] => Ok []
  | i :: idx' =>
      rbind (py_idx n i) (fun k =>
      rbind (py_idxs n idx') (fun ks => Ok (k :: ks)))
  end.

Definition np_put (a : list R) (idx : list Z) (v : list R) : result (list R) :=
  rbind (py_idxs (length a) idx) (fun ks =>
  rbind (broadcast (length idx) v) (fun v' =>
  Ok (np_put_seq a ks v'))).

(** [a[np.ix_(idx)] += v]: gather, add, scatter *)
Definition np_iadd (a : list R) (idx : list Z) (v : list R) : result (list R) :=
  rbind (np_take a idx) (fun old =>
  rbind (broadcast (length idx) v) (fun v' =>
  np_put a idx (zip_with Rplus old v'))).

Definition scale (c : R) (v : list R) : list R := (fun y => (y * c)%R) <$> v.

Definition py_nth {A} (l : list A) (k : nat) : result A :=
  match l !! k with
  | Some a => Ok a
  | None => Raise IndexError
  end.

(** [a[k] = c] for [k] produced by [range] *)
Definition py_set {A} (l : list A) (k : nat) (c : A) : result (list A) :=
  if (k <? length l)%nat then Ok (<[k:=c]> l) else Raise IndexError.

(** [v.reshape(n,)] and [v.reshape(n,1)] *)
Definition reshape (n : nat) (v : list R) : result (list R) :=
  if (length v =? n)%nat then Ok v else Raise ValueError.

(** [a - b] on two columns, with numpy broadcasting of a length-one operand *)
Definition np_sub (a b : list R) : result (list R) :=
  if (length a =? length b)%nat then Ok (zip_with Rminus a b)
  else match a, b with
       | [c], _ => Ok ((fun y => (c - y)%R) <$> b)
       | _, [c] => Ok ((fun y => (y - c)%R) <$> a)
       | _, _ => Raise ValueError
       end.

(** [np.max] of an integer array and the builtin [max] of a sequence of
    floats: both fail on an empty argument. *)
Definition np_max (l : list Z) : result Z :=
  match l with
  | [] => Raise ValueError
  | a :: l' => Ok (foldl Z.max a l')
  end.

Definition py_max (l : list R) : result R :=
  match l with
  | [] => Raise ValueError
  | a :: l' => Ok (foldl Rmax a l')
  end.

(** [np.linalg.norm] of a column *)
Definition norm (v : list R) : R :=
  sqrt (foldr (fun y acc => (y * y + acc)%R) 0%R v).

(** [np.size(a, 1)] of a two-dimensional array kept as its list of rows *)
Definition np_size1 {A} (a : list (list A)) : nat :=
  match a with
  | [] => O
  | r :: _ => length r
  end.

(** [l[0:8:2]] *)
Fixpoint every_other {A} (l : list A) : list A :=
  match l with
  | a :: _ :: l' => a :: every_other l'
  | [a] => [a]
  | [] => []
  end.
Definition slice_0_8_2 {A} (l : list A) : list A := every_other (take 8 l).

(** [np.ceil(d * 0.5) - 1] as an integer *)
Definition node_of_dof (d : Z) : Z := - ((- d) / 2) - 1.

(** ** Sparse matrices

    [coo_matrix((data, (row, col)), shape)] keeps the triplets; [tocsc]
    sums the entries that share a position.  The compressed matrix is kept
    as its dense table of values. *)

Record coo : Type := Coo {
  coo_shape : Z * Z;
  coo_row : list Z;
  coo_col : list Z;
  coo_data : list R;
}.

Definition coo_matrix (data : list R) (row col : list Z) (shape : Z * Z) : result coo :=
  if negb ((0 <=? shape.1) && (0 <=? shape.2)) then Raise ValueError
  else if negb ((length row =? length data)%nat && (length col =? length data)%nat)
  then Raise ValueError
  else if forallb (fun r => (0 <=? r) && (r <? shape.1)) row
          && forallb (fun c => (0 <=? c) && (c <? shape.2)) col
  then Ok (Coo shape row col data)
  else Raise ValueError.

Fixpoint coo_sum (row col : list Z) (data : list R) (i j : Z) : R :=
  match row, col, data with
  | r :: row', c :: col', d :: data' =>
      ((if (r =? i) && (c =? j) then d else 0) + coo_sum row' col' data' i j)%R
  | _, _, _ => 0%R
  end.

Definition tocsc (m : coo) : list (list R) :=
  (fun i => (fun j => coo_sum (coo_row m) (coo_col m) (coo_data m) i j)
              <$> py_range (coo_shape m).2)
    <$> py_range (coo_shape m).1.

(** [K[np.ix_(rows, cols)]] *)
Fixpoint np_take_rows (K : list (list R)) (rows cols : list Z) : result (list (list R)) :=
  match rows with
  | [] => Ok []
  | i :: rows' =>
      let? r := py_get K i in
      let? r' := np_take r cols in
      let? rest := np_take_rows K rows' cols in
      Ok (r' :: rest)
  end.

(** [K.T] *)
Definition transpose (ncols : nat) (K : list (list R)) : list (list R) :=
  (fun j => (fun r => default 0%R (r !! j)) <$> K) <$> seq 0 ncols.

(** ** The element-function interface

    [elementFun(ue, ex, ey, ep, mp, materialFun, eq)] returns
    [(Ke, fint, fext, stress, epsilon)].  The material function and the
    body force are only handed through. *)

Record elem_out : Type := ElemOut {
  Ke : list (list R);
  fint : list R;
  fext : list R;
  sig : list R;
  epsilon : list R;
}.

Definition material_fun : Type := list R -> gmap string R -> list R * list (list R).

Definition element_fun : Type :=
  list R -> list R -> list R -> list R -> gmap string R ->
  material_fun -> option (list R) -> elem_out.


(** * The material routines and the element-routine selection

    [src/Pytopt/Material_Elastic.py], [src/ErikTestMaterial.py] and
    [src/Pytopt/Element_Routine_Selection.py].  The entries of [mp] and the
    moduli passed to [Dfun] are Python floats, whose division by zero raises
    ZeroDivisionError; strains are one-dimensional arrays. *)

Inductive py_exn : Type :=
  | ZeroDivisionError
  | Builtin (e : exn).

Inductive outcome (A : Type) : Type :=
  | Return (a : A)
  | Throw (e : py_exn).
Arguments Return {A} a.
Arguments Throw {A} e.

Definition obind {A B} (r : outcome A) (k : A -> outcome B) : outcome B :=
  match r with
  | Return a => k a
  | Throw e => Throw e
  end.

Definition of_result {A} (r : result A) : outcome A :=
  match r with
  | Ok a => Return a
  | Raise e => Throw (Builtin e)
  end.

Notation "'let!' x ':=' r 'in' k" := (obind r (fun x => k))
  (at level 10, x pattern, r at level 100, k at level 200) : py_scope.

(** [a / b] on Python floats *)
Definition py_div (a b : R) : outcome R :=
  if Req_dec_T b 0 then Throw ZeroDivisionError else Return (a / b)%R.

(** [d[k]] on a dict *)
Definition getitem (d : gmap string R) (k : string) : result R :=
  match d !! k with
  | Some a => Ok a
  | None => Raise KeyError
  end.

(** What [print] writes: a string or the digits of a float *)
Inductive printed : Type :=
  | PStr (s : string)
  | PFloat (r : R).

(** ** Small matrices as lists of rows *)

Definition dot (r v : list R) : R := foldr Rplus 0%R (zip_with Rmult r v).

(** [np.matmul(D, v)] for a matrix and a one-dimensional array: the row
    length of [D] has to be the length of [v]. *)
Definition matmul (D : list (list R)) (v : list R) : result (list R) :=
  if forallb (fun r => (length r =? length v)%nat) D
  then Ok ((fun r => dot r v) <$> D)
  else Raise ValueError.

(** [c * M], [M * c], [M + N] and [M - N] on arrays of one shape *)
Definition scal_l (c : R) (M : list (list R)) : list (list R) :=
  (fun r : list R => (fun y => (c * y)%R) <$> r) <$> M.
Definition scal_r (M : list (list R)) (c : R) : list (list R) :=
  (fun r : list R => (fun y => (y * c)%R) <$> r) <$> M.
Definition mat_add (M N : list (list R)) : list (list R) :=
  zip_with (zip_with Rplus) M N.
Definition mat_sub (M N : list (list R)) : list (list R) :=
  zip_with (zip_with Rminus) M N.

(** [v * c] for [v] of shape (n,) and [c] of shape (m,1): numpy broadcasts
    both to shape (m,n), entry (i,j) being [v[j] * c[i]]. *)
Definition row_times_col (v c : list R) : list (list R) :=
  (fun ci => (fun vj => (vj * ci)%R) <$> v) <$> c.

(** [np.diag(d)] *)
Definition np_diag (d : list R) : list (list R) :=
  imap (fun i di => <[i:=di]> (replicate (length d) 0%R)) d.

(** [a[:k] = w] *)
Definition set_prefix (a : list R) (k : nat) (w : list R) : result (list R) :=
  let m := Nat.min k (length a) in
  let? w' := broadcast m w in
  Ok (w' ++ drop m a).

Module Material_Elastic.

Local Open Scope R_scope.

(** Lines 27-30: [I_v] has shape (6,), [I_vT] is the column of shape
    (6,1) with the same entries, and [1/3*I_v*I_vT] is the product of the
    row [1/3*I_v] with that column. *)
Definition I_v : list R := [1; 1; 1; 0; 0; 0].
Definition I_vT : list R := [1; 1; 1; 0; 0; 0].
Definition I_s : list (list R) := np_diag [1; 1; 1; 0.5; 0.5; 0.5].
Definition I_sdev : list (list R) :=
  mat_sub I_s (row_times_col ((fun y => 1 / 3 * y) <$> I_v) I_vT).

(** Lines 22-39.  The two arrays of zeros that lines 32-33 create are
    replaced before they are read. *)
Definition elastic (eps : list R) (mp : gmap string R)
    : outcome (list R * list (list R)) :=
  let! E := of_result (getitem mp "E") in
  let! nu := of_result (getitem mp "nu") in
  let! G := py_div E (2 * (1 + nu)) in
  let! K := py_div E (3 * (1 - 2 * nu)) in
  let D := mat_add (row_times_col ((fun y => K * y) <$> I_v) I_vT)
                   (scal_l (2 * G) I_sdev) in
  let! sigma := of_result (matmul D eps) in
  let! sigma := of_result (reshape 6 sigma) in
  Return (sigma, D).

End Material_Elastic.

Module ErikTestMaterial.

Local Open Scope R_scope.

(** Line 46 *)
Definition Dfun (E nu : R) : outcome (list (list R)) :=
  let! c := py_div E ((1 + nu) * (1 - 2 * nu)) in
  Return (scal_l c [[1 - nu; nu; nu; 0];
                    [nu; 1 - nu; nu; 0];
                    [nu; nu; 1 - nu; 0];
                    [0; 0; 0; (1 - 2 * nu) / 2]]).

(** A computation that prints: what it has written, and how it ends *)
Definition Printer (A : Type) : Type := list printed * outcome A.

Definition pret {A} (a : A) : Printer A := ([], Return a).
Definition plift {A} (r : outcome A) : Printer A := ([], r).
Definition print (x : printed) : Printer unit := ([x], Return tt).
Definition pbind {A B} (m : Printer A) (k : A -> Printer B) : Printer B :=
  match m with
  | (out, Return a) => (out ++ (k a).1, (k a).2)
  | (out, Throw e) => (out, Throw e)
  end.

Notation "'let+' x ':=' m 'in' k" := (pbind m (fun x => k))
  (at level 10, x pattern, m at level 100, k at level 200) : py_scope.

(** [sum(eps[:2])/3] *)
Definition eps_h (eps : list R) : R := foldl Rplus 0 (take 2 eps) / 3.

(** Lines 23-35: the branch on the hydrostatic strain, which sets
    [ten_quote] *)
Definition ten_quote (eps_h low_lim : R) : Printer R :=
  if Rlt_dec eps_h low_lim then
    let+ _ := print (PStr "comp") in
    pret 0
  else
    let+ _ := print (PStr "ten") in
    let x := 4500 * (eps_h - low_lim) in
    let ten_quote := 1 - exp (- x + 4) / (1 + exp (- x + 4)) in
    let+ _ := print (PFloat ten_quote) in
    pret ten_quote.

(** Lines 7-42.  [mp] is a sequence whose first entry is the modulus in
    tension. *)
Definition mat (eps : list R) (mp : list R)
    : Printer (list R * list (list R)) :=
  let sigma := replicate (length eps) 0 in
  let+ E_ten := plift (of_result (py_get mp 0)) in
  let E_com := E_ten * 3 in
  let nu_ten := 0.3 in
  let nu_com := 0.3 in
  let low_lim := 0.0005 in
  let high_lim := 0.0025 in
  let eps_h := eps_h eps in
  let+ D_ten := plift (Dfun E_ten nu_ten) in
  let+ D_com := plift (Dfun E_com nu_com) in
  let+ ten_quote := ten_quote eps_h low_lim in
  let comp_quote := 1 - ten_quote in
  let D := mat_add (scal_r D_com comp_quote) (scal_r D_ten ten_quote) in
  let+ s4 := plift (of_result (matmul D (take 4 eps))) in
  let+ sigma := plift (of_result (set_prefix sigma 4 s4)) in
  let+ sigma := plift (of_result (reshape 6 sigma)) in
  pret (sigma, D).

End ErikTestMaterial.

Module Element_Routine_Selection.

(** The element routines proper live in [Element_Tri_Routine] and
    [Element_Quad_Routine]; [hooke], [plante] and [plani4e] are functions
    of the calfem library.  The selection is modelled for any such
    functions. *)
Section Selection.

Variable Element_Tri_Routine Element_Quad_Routine :
  list R -> list R -> list R -> list R -> gmap string R ->
  material_fun -> list R -> result elem_out.
Variable hooke : R -> R -> R -> result (list (list R)).
Variable plante plani4e :
  list R -> list R -> list R -> list (list R) -> list R
  -> result (list (list R) * list R).

(** [if eq==None: eq=[0,0]] *)
Definition eq_or_zero (eq : option (list R)) : list R := default [0%R; 0%R] eq.

(** Lines 12-15 *)
Definition Tri (ue ex ey ep : list R) (mp : gmap string R)
    (materialFun : material_fun) (eq : option (list R)) : result elem_out :=
  let eq := eq_or_zero eq in
  Element_Tri_Routine ue ex ey ep mp materialFun eq.

(** Lines 17-20 *)
Definition Quad (ue ex ey ep : list R) (mp : gmap string R)
    (materialFun : material_fun) (eq : option (list R)) : result elem_out :=
  let eq := eq_or_zero eq in
  Element_Quad_Routine ue ex ey ep mp materialFun eq.

(** Lines 22-27.  The arguments of [cfc.hooke] are evaluated from left to
    right before the call. *)
Definition LinTri (ue ex ey ep : list R) (mp : gmap string R)
    (materialFun : material_fun) (eq : option (list R)) : result elem_out :=
  let eq := eq_or_zero eq in
  let? ep0 := py_get ep 0 in
  let? E := getitem mp "E" in
  let? nu := getitem mp "nu" in
  let? D := hooke ep0 E nu in
  let? Kf := plante ex ey (take 2 ep) D eq in
  let? fe := reshape 6 Kf.2 in
  Ok (ElemOut Kf.1 [] fe [] []).

(** Lines 29-34 *)
Definition LinQuad (ue ex ey ep : list R) (mp : gmap string R)
    (materialFun : material_fun) (eq : option (list R)) : result elem_out :=
  let eq := eq_or_zero eq in
  let? ep0 := py_get ep 0 in
  let? E := getitem mp "E" in
  let? nu := getitem mp "nu" in
  let? D := hooke ep0 E nu in
  let? Kf := plani4e ex ey ep D eq in
  let? fe := reshape 8 Kf.2 in
  Ok (ElemOut Kf.1 [] fe [] []).

End Selection.

End Element_Routine_Selection.

(** ** Reference quantities for the material routines *)

(** Hooke's law for an isotropic material in Voigt notation, with Lame's
    first parameter [lam] and the shear modulus [mu]; the shear strains are
    engineering strains. *)
Definition lame_mu (E nu : R) : R := (E / (2 * (1 + nu)))%R.
Definition lame_lam (E nu : R) : R := (E * nu / ((1 + nu) * (1 - 2 * nu)))%R.

Definition isotropic (E nu : R) : list (list R) :=
  let mu := lame_mu E nu in
  let lam := lame_lam E nu in
  [[lam + 2 * mu; lam; lam; 0; 0; 0];
   [lam; lam + 2 * mu; lam; 0; 0; 0];
   [lam; lam; lam + 2 * mu; 0; 0; 0];
   [0; 0; 0; mu; 0; 0];
   [0; 0; 0; 0; mu; 0];
   [0; 0; 0; 0; 0; mu]]%R.

Definition isotropic_stress (E nu : R) (eps : list R) : list R :=
  let mu := lame_mu E nu in
  let lam := lame_lam E nu in
  let e := fun k : nat => default 0%R (eps !! k) in
  let tr := (e 0%nat + e 1%nat + e 2%nat)%R in
  [lam * tr + 2 * mu * e 0%nat;
   lam * tr + 2 * mu * e 1%nat;
   lam * tr + 2 * mu * e 2%nat;
   mu * e 3%nat; mu * e 4%nat; mu * e 5%nat]%R.

(** The weight that [mat] gives to the stiffness in tension, as a function
    of the hydrostatic strain: zero below the limit 0.0005, a logistic
    curve from there on *)
Definition tension_weight (eh : R) : R :=
  if Rlt_dec eh 0.0005 then 0%R
  else (1 / (1 + exp (4 - 4500 * (eh - 0.0005))))%R.

(** The modulus of the stiffness that [mat] returns *)
Definition effective_modulus (E_ten eh : R) : R :=
  ((3 - 2 * tension_weight eh) * E_ten)%R.

(** Stand-ins for the calfem functions, for running the linear routines
    on concrete data: a unit stiffness and a unit body force *)
Definition ex_hooke : R -> R -> R -> result (list (list R)) :=
  fun _ _ _ => Ok (np_diag [1; 1; 1]%R).
Definition ex_plante
    : list R -> list R -> list R -> list (list R) -> list R
      -> result (list (list R) * list R) :=
  fun _ _ _ _ _ => Ok (np_diag (replicate 6 1%R), replicate 6 1%R).
(** The element function that [LinTri] is with these *)
Definition ex_LinTri : element_fun :=
  fun _ _ _ _ _ _ _ => ElemOut (np_diag (replicate 6 1%R)) [] (replicate 6 1%R) [] [].

Module FE.

(** The attributes that [__init__] sets.  [self.U] is a numpy array that
    [fe] and [fe_nl] update in place: it is a location of the store.
    [self.K] is set to an empty matrix and never read again. *)
Record self : Type := Self {
  mp : gmap string R;
  E : R;
  v : R;
  ndof : Z;
  nElem : nat;
  U : loc;
  elemX : list (list R);
  elemY : list (list R);
  freedofs : list Z;
  edof : list (list Z);
}.

Definition dict_get (d : gmap string R) (k : string) : result R :=
  match d !! k with
  | Some a => Ok a
  | None => Raise KeyError
  end.

(** The loop [for elem in range(self.nElem)] of [__init__]: rows [elem] of
    the two coordinate tables are [nx[nNode[0:8:2]]] and [ny[nNode[0:8:2]]]. *)
Fixpoint elem_coords (nx ny : list R) (rows : list (list Z))
    : result (list (list R) * list (list R)) :=
  match rows with
  | [] => Ok ([], [])
  | r :: rows' =>
      let nNode := node_of_dof <$> r in
      let? cx := np_take nx (slice_0_8_2 nNode) in
      let? cy := np_take ny (slice_0_8_2 nNode) in
      let? rest := elem_coords nx ny rows' in
      Ok (cx :: rest.1, cy :: rest.2)
  end.

(** [np.setdiff1d(range(ndof), fixdofs)] *)
Definition setdiff1d (a b : list Z) : list Z :=
  List.filter (fun d => negb (bool_decide (d ∈ b))) a.

(** Lines 31-68.  The empty matrix [self.K] and the zero vector [self.U]
    are created with [ndof] rows, which fails for a negative [ndof]; the
    loop fills the coordinate tables row by row. *)
Definition __init__ (edof : list (list Z)) (coords : list (R * R))
    (mp : gmap string R) (fixdofs : list Z) : M self :=
  let* E := lift (dict_get mp "E") in
  let* v := lift (dict_get mp "nu") in
  let* ndof := lift (np_max (concat edof)) in
  let nElem := length edof in
  let nx := fst <$> coords in
  let ny := snd <$> coords in
  let* _ := (if ndof <? 0 then raise ValueError else ret tt) in
  let* U := alloc (replicate (Z.to_nat ndof) 0%R) in
  let* row0 := lift (py_nth edof 0) in
  let* _ := (if (length row0 =? 6)%nat then ret tt
             else if (length row0 =? 8)%nat then ret tt
             else raise (Exception "Unrecognized Element Shape, Check eDof Matrix")) in
  let* tables := lift (elem_coords nx ny edof) in
  let elemX := tables.1 in
  let elemY := tables.2 in
  let alldofs := py_range ndof in
  let freedofs := setdiff1d alldofs fixdofs in
  ret (Self mp E v ndof nElem U elemX elemY freedofs edof).

Section Solvers.

(** [x ** p] on floats and [scipy.sparse.linalg.spsolve] are library
    functions; the development holds for any such pair.  Both return real
    numbers here.  A run in which the solver meets a singular system and
    returns nan is outside the model: there the residual norm is nan, the
    loop test [err > TOL] is false and the Newton loop is left at once. *)
Variable power : R -> R -> R.
Variable spsolve : list (list R) -> list R -> list R.

(** In-place operations on an array of the store *)
Definition iadd_at (l : loc) (idx : list Z) (w : list R) : M unit :=
  let* a := load l in
  let* a' := lift (np_iadd a idx w) in
  write l a'.

Definition put_at (l : loc) (idx : list Z) (w : list R) : M unit :=
  let* a := load l in
  let* a' := lift (np_put a idx w) in
  write l a'.

Definition take_at (l : loc) (idx : list Z) : M (list R) :=
  let* a := load l in
  lift (np_take a idx).

(** [a.copy()] and [np.zeros(a.shape)] *)
Definition np_copy (l : loc) : M loc :=
  let* a := load l in
  alloc a.

Definition np_zeros_like (l : loc) : M loc :=
  let* a := load l in
  alloc (replicate (length a) 0%R).

(** The three lists [row], [col], [data] that the element loops extend *)
Record triplets : Type := Triplets {
  t_row : list Z;
  t_col : list Z;
  t_data : list R;
}.

Definition extend_triplets (t : triplets) (edofIndex : list Z)
    (Ke : list (list R)) (c : R) : triplets :=
  let n := length edofIndex in
  Triplets (t_row t ++ concat (replicate n edofIndex))
           (t_col t ++ (edofIndex ≫= replicate n))
           (t_data t ++ ((fun k => (k * c)%R) <$> concat Ke)).

(** One pass of the element loop of [fe] (lines 114-126) *)
Definition fe_elem (s : self) (x : list R) (SIMP_penal : R) (epLin : list R)
    (elementFun : element_fun) (materialFun : material_fun) (eq : option (list R))
    (fextGlobal fext_tilde : loc) (t : triplets) (elem : nat) : M triplets :=
  let* erow := lift (py_nth (edof s) elem) in
  let edofIndex := (fun d => d - 1) <$> erow in
  let* ex := lift (py_nth (elemX s) elem) in
  let* ey := lift (py_nth (elemY s) elem) in
  let out := elementFun (replicate (np_size1 (edof s)) 0%R) ex ey epLin (mp s)
                        materialFun eq in
  let* xe := lift (py_nth x elem) in
  let t' := extend_triplets t edofIndex (Ke out) (power xe SIMP_penal) in
  let* _ := iadd_at fextGlobal edofIndex (scale xe (fext out)) in
  let* _ := iadd_at fext_tilde edofIndex (fext out) in
  ret t'.

Fixpoint for_elems {A} (body : A -> nat -> M A) (a : A) (elems : list nat) : M A :=
  match elems with
  | [] => ret a
  | e :: elems' =>
      let* a' := body a e in
      for_elems body a' elems'
  end.

(** [epLin = ep.copy(); epLin[3] = 1] *)
Definition force_linear (ep : list R) : result (list R) := py_set ep 3 1%R.

(** [self.U[np.ix_(self.freedofs)] = spsolve(K[free, free], b[free])
      .reshape(len(self.freedofs), 1)] *)
Definition solve_free (s : self) (K : list (list R)) (b : list R) : result (list R) :=
  let? Kff := np_take_rows K (freedofs s) (freedofs s) in
  let? bf := np_take b (freedofs s) in
  reshape (length (freedofs s)) (spsolve Kff bf).

(** Lines 103-135.  [F] is the caller's array, a location of the store. *)
Definition fe (s : self) (x : list R) (SIMP_penal : R) (F : loc) (ep : list R)
    (elementFun : element_fun) (materialFun : material_fun) (eq : option (list R))
    : M (loc * loc * loc * list (list R)) :=
  let* epLin := lift (force_linear ep) in
  let* fextGlobal := np_copy F in
  let* fext_tilde := np_zeros_like F in
  let* t := for_elems
              (fe_elem s x SIMP_penal epLin elementFun materialFun eq
                       fextGlobal fext_tilde)
              (Triplets [] [] []) (seq 0 (nElem s)) in
  let* K := lift (coo_matrix (t_data t) (t_row t) (t_col t) (ndof s, ndof s)) in
  let K := tocsc K in
  let* fg := load fextGlobal in
  let* sol := lift (solve_free s K fg) in
  let* _ := put_at (U s) (freedofs s) sol in
  ret (U s, fext_tilde, fextGlobal, K).

(** *** The nonlinear solver *)

(** The local variables of [fe_nl] at the head of the Newton loop.  [R],
    [dR] and [fintGlobal] are bound by the first iteration only; before it
    they hold placeholders that nothing reads. *)
Record nl_state : Type := NlState {
  err : R;
  TOL : R;
  newtonIt : Z;
  R_ : list R;
  dR : list (list R);
  sig_VM : list R;
  eps_h : list R;
  fext_tilde : loc;
  fextGlobal : loc;
  fintGlobal : loc;
  K : list (list R);
}.

(** What [fe_nl] returns:
    [U, dR, sig_VM, fext_tilde, fextGlobal, eps_h, self.freedofs, K] *)
Record nl_out : Type := NlOut {
  out_U : loc;
  out_dR : list (list R);
  out_sig_VM : list R;
  out_fext_tilde : loc;
  out_fextGlobal : loc;
  out_eps_h : list R;
  out_freedofs : list Z;
  out_K : list (list R);
}.

(** Line 223 *)
Definition von_mises (sig : list R) : result R :=
  let? s0 := py_nth sig 0 in
  let? s1 := py_nth sig 1 in
  let? s2 := py_nth sig 2 in
  let? s3 := py_nth sig 3 in
  let? s4 := py_nth sig 4 in
  let? s5 := py_nth sig 5 in
  Ok (sqrt (((s0 - s1) ^ 2 + (s1 - s2) ^ 2 + (s2 - s0) ^ 2) / 2
            + 3 * (s3 ^ 2 + s4 ^ 2 + s5 ^ 2)))%R.

(** Line 224: [sum(epsilon[:2])/3] *)
Definition hydrostatic (epsilon : list R) : R :=
  (foldl Rplus 0 (take 2 epsilon) / 3)%R.

(** The accumulators of one pass over the elements inside the Newton loop *)
Record nl_acc : Type := NlAcc {
  a_t : triplets;
  a_dR : list (list R);
  a_sig_VM : list R;
  a_eps_h : list R;
}.

(** One pass of the element loop of [fe_nl] (lines 206-224).  What the
    element function returns are arrays here.  Where it returns the Python
    list [[]] as internal force, the program raises TypeError at
    [fint*x[elem][0]**SIMP_const] and the model ValueError at the [+=] of
    the same line 215: the two differ in the kind of exception only. *)
Definition fe_nl_elem (s : self) (x : list R) (SIMP_const : R) (ep : list R)
    (elementFun : element_fun) (materialFun : material_fun) (eq : option (list R))
    (fextGlobal fintGlobal fext_tilde : loc) (a : nl_acc) (elem : nat) : M nl_acc :=
  let* erow := lift (py_nth (edof s) elem) in
  let edofIndexList := (fun d => d - 1) <$> erow in
  let* Ue := take_at (U s) edofIndexList in
  let* ue := lift (reshape (np_size1 (edof s)) Ue) in
  let* ex := lift (py_nth (elemX s) elem) in
  let* ey := lift (py_nth (elemY s) elem) in
  let out := elementFun ue ex ey ep (mp s) materialFun eq in
  let* xe := lift (py_nth x elem) in
  let* _ := iadd_at fextGlobal edofIndexList (scale xe (fext out)) in
  let* _ := iadd_at fintGlobal edofIndexList (scale (power xe SIMP_const) (fint out)) in
  let* _ := iadd_at fext_tilde edofIndexList (fext out) in
  let* lhs := lift (reshape (np_size1 (edof s))
                ((fun y => (SIMP_const * power xe (SIMP_const - 1) * y)%R) <$> fint out)) in
  let* rhs := lift (reshape (np_size1 (edof s)) (fext out)) in
  let* dR' := lift (py_set (a_dR a) elem (zip_with Rminus lhs rhs)) in
  let t' := extend_triplets (a_t a) edofIndexList (Ke out) (power xe SIMP_const) in
  let* vm := lift (von_mises (sig out)) in
  let* sig_VM' := lift (py_set (a_sig_VM a) elem vm) in
  let* eps_h' := lift (py_set (a_eps_h a) elem (hydrostatic (epsilon out))) in
  ret (NlAcc t' dR' sig_VM' eps_h').

(** Lines 194-231: everything one iteration does up to and including the
    computation of [err] *)
Definition newton_assemble (s : self) (x : list R) (SIMP_const : R) (F : loc)
    (ep : list R) (elementFun : element_fun) (materialFun : material_fun)
    (eq : option (list R)) (st : nl_state) : M nl_state :=
  let newtonIt := newtonIt st + 1 in
  let dR := replicate (nElem s) (replicate (np_size1 (edof s)) 0%R) in
  let* fext_tilde := np_zeros_like (U s) in
  let* fextGlobal := np_copy F in
  let* fintGlobal := np_zeros_like (U s) in
  let* a := for_elems
              (fe_nl_elem s x SIMP_const ep elementFun materialFun eq
                          fextGlobal fintGlobal fext_tilde)
              (NlAcc (Triplets [] [] []) dR (sig_VM st) (eps_h st))
              (seq 0 (nElem s)) in
  let t := a_t a in
  let* K := lift (coo_matrix (t_data t) (t_row t) (t_col t) (ndof s, ndof s)) in
  let K := tocsc K in
  let* fi := load fintGlobal in
  let* fg := load fextGlobal in
  let* R_ := lift (np_sub fi fg) in
  let* Rf := lift (np_take R_ (freedofs s)) in
  let err := norm Rf in
  ret (NlState err (TOL st) newtonIt R_ (a_dR a) (a_sig_VM a) (a_eps_h a)
               fext_tilde fextGlobal fintGlobal K).

(** Lines 236-238: the new tolerance and the Newton step.  The right-hand
    side of line 238 is evaluated from left to right: [U[index1D]], then the
    arguments of [spsolve], then the reshape. *)
Definition newton_update (s : self) (st : nl_state) : M nl_state :=
  let* fg := load (fextGlobal st) in
  let* m := lift (py_max (Rabs <$> fg)) in
  let TOL := (1e-11 * Rmax m 1e4)%R in
  let* Uf := take_at (U s) (freedofs s) in
  let* Kff := lift (np_take_rows (K st) (freedofs s) (freedofs s)) in
  let* Rf := lift (np_take (R_ st) (freedofs s)) in
  let* step := lift (reshape (length (freedofs s)) (spsolve Kff Rf)) in
  let* _ := put_at (U s) (freedofs s) (zip_with Rminus Uf step) in
  ret (NlState (err st) TOL (newtonIt st) (R_ st) (dR st) (sig_VM st) (eps_h st)
               (fext_tilde st) (fextGlobal st) (fintGlobal st) (K st)).

(** The loop [while err>TOL: ...] with its [break].  Each iteration uses
    one unit of [fuel]; [None] means the fuel ran out before the loop
    was left.  The local [U] of [fe_nl] is the array [self.U] that [fe]
    has returned. *)
Fixpoint newton (fuel : nat) (s : self) (x : list R) (SIMP_const : R) (F : loc)
    (ep : list R) (elementFun : element_fun) (materialFun : material_fun)
    (eq : option (list R)) (st : nl_state) (h : store)
    : option (result nl_state * store) :=
  if Rgt_dec (err st) (TOL st) then
    match fuel with
    | O => None
    | S fuel' =>
        match newton_assemble s x SIMP_const F ep elementFun materialFun eq st h with
        | (Raise e, h1) => Some (Raise e, h1)
        | (Ok st1, h1) =>
            if newtonIt st1 =? 100 then Some (Ok st1, h1)
            else
              match newton_update s st1 h1 with
              | (Raise e, h2) => Some (Raise e, h2)
              | (Ok st2, h2) =>
                  newton fuel' s x SIMP_const F ep elementFun materialFun eq st2 h2
              end
        end
    end
  else Some (Ok st, h).

(** The state in which [fe_nl] enters the Newton loop *)
Definition nl_init (x : list R) (ft0 fg0 : loc) (K0 : list (list R)) : nl_state :=
  let err0 := 1e9%R in
  let TOL0 := 1e-11%R in
  let newtonIt0 := 0 in
  let sig_VM0 := replicate (length x) 0%R in
  let eps_h0 := sig_VM0 in
  NlState err0 TOL0 newtonIt0 [] [] sig_VM0 eps_h0 ft0 fg0 fg0 K0.

Definition nl_return (s : self) (U0 : loc) (st : nl_state) : nl_out :=
  NlOut U0 (dR st) (sig_VM st) (fext_tilde st) (fextGlobal st) (eps_h st)
        (freedofs s) (K st).

(** Lines 174-245: the value returned or the exception raised, and the
    final store.  The two [print] calls before the return report
    [newtonIt] and [err] on the console; [fe_nl_console] below is the
    function together with this output. *)
Definition fe_nl (fuel : nat) (s : self) (x : list R) (SIMP_const : R) (F : loc)
    (ep : list R) (elementFun : element_fun) (materialFun : material_fun)
    (eq : option (list R)) (h : store) : option (result nl_out * store) :=
  match fe s x SIMP_const F ep elementFun materialFun eq h with
  | (Raise e, h1) => Some (Raise e, h1)
  | (Ok (U0, ft0, fg0, K0), h1) =>
      let st0 := nl_init x ft0 fg0 K0 in
      match py_nth ep 3 with
      | Raise e => Some (Raise e, h1)
      | Ok flag =>
          if Req_dec_T flag 1 then
            Some (Ok (NlOut U0 [] [] ft0 fg0 (eps_h st0) (freedofs s) K0), h1)
          else
            match newton fuel s x SIMP_const F ep elementFun materialFun eq st0 h1 with
            | None => None
            | Some (Raise e, h2) => Some (Raise e, h2)
            | Some (Ok st, h2) => Some (Ok (nl_return s U0 st), h2)
            end
      end
  end.

(** What [fe_nl] itself writes to the console (lines 243-244): twice a
    text followed by [str] of a number.  The text that [str] makes of a
    number is kept as the number. *)
Inductive py_number : Type :=
  | PyInt (n : Z)
  | PyFloat (r : R).

Definition console_line : Type := string * py_number.

Definition fe_nl_prints (st : nl_state) : list console_line :=
  [("N.iters:    ", PyInt (newtonIt st)); ("Final error:", PyFloat (err st))].

(** Lines 174-245 with the console: the lines printed, the value returned
    or the exception raised, and the final store.  The two prints follow
    the loop; the linear branch returns before them and an exception
    leaves the function before them. *)
Definition fe_nl_console (fuel : nat) (s : self) (x : list R) (SIMP_const : R)
    (F : loc) (ep : list R) (elementFun : element_fun) (materialFun : material_fun)
    (eq : option (list R)) (h : store)
    : option (list console_line * result nl_out * store) :=
  match fe s x SIMP_const F ep elementFun materialFun eq h with
  | (Raise e, h1) => Some ([], Raise e, h1)
  | (Ok (U0, ft0, fg0, K0), h1) =>
      let st0 := nl_init x ft0 fg0 K0 in
      match py_nth ep 3 with
      | Raise e => Some ([], Raise e, h1)
      | Ok flag =>
          if Req_dec_T flag 1 then
            Some ([], Ok (NlOut U0 [] [] ft0 fg0 (eps_h st0) (freedofs s) K0), h1)
          else
            match newton fuel s x SIMP_const F ep elementFun materialFun eq st0 h1 with
            | None => None
            | Some (Raise e, h2) => Some ([], Raise e, h2)
            | Some (Ok st, h2) =>
                Some (fe_nl_prints st, Ok (nl_return s U0 st), h2)
            end
      end
  end.

End Solvers.

(** ** Which cells of the store a call may change

    [upd n Q u h h']: going from store [h] to [h'], no cell is lost, every
    cell below [n] other than [u] is unchanged, and the content of cell
    [u] changes only in a way allowed by [Q].  Cells from [n] on are
    scratch space. *)

Definition upd (n : nat) (Q : list R -> list R -> Prop) (u : loc)
    (h h' : store) : Prop :=
  (length h <= length h')%nat
  /\ (forall l, (l < n)%nat -> l <> u -> h' !! l = h !! l)
  /\ (forall a, (u < n)%nat -> h !! u = Some a -> exists a', h' !! u = Some a' /\ Q a a').

(** [keeps n Q u P m]: the computation [m], started in a store with at
    least [n] cells, changes the store as [upd] allows and returns a value
    satisfying [P]. *)
Definition keeps {A} (n : nat) (Q : list R -> list R -> Prop) (u : loc)
    (P : A -> Prop) (m : M A) : Prop :=
  forall h, (n <= length h)%nat ->
    upd n Q u h (m h).2 /\ (forall a, (m h).1 = Ok a -> P a).

(** The changes [Q] that a write through the free DOFs may make *)
Record update_rel (free : list Z) (Q : list R -> list R -> Prop) : Prop := {
  Q_refl : forall a, Q a a;
  Q_trans : forall a b c, Q a b -> Q b c -> Q a c;
  Q_put : forall a w a', np_put a free w = Ok a' -> Q a a';
}.

(** The write [U[np.ix_(free)] = w] leaves every entry at a position
    outside [free] as it was. *)
Definition unchanged_off (free : list Z) (a a' : list R) : Prop :=
  forall k : nat, Z.of_nat k ∉ free -> a' !! k = a !! k.

Definition only_free_assigned (free : list Z) (u : loc) (h h' : store) : Prop :=
  forall a, h !! u = Some a -> exists a', h' !! u = Some a' /\ unchanged_off free a a'.

(** The array at [u] is zero at the fixed DOFs *)
Definition zero_at (fixdofs : list Z) (u : loc) (h : store) : Prop :=
  forall a (k : nat) c,
    h !! u = Some a -> Z.of_nat k ∈ fixdofs -> a !! k = Some c -> c = 0%R.

(** ** Reference quantities for the assembly theorems *)

Definition ok_or {A} (d : A) (r : result A) : A :=
  match r with
  | Ok a => a
  | Raise _ => d
  end.

(** The 0-based DOF indices of element [elem]: [self.edof[elem,:] - 1] *)
Definition edofIndex (s : self) (elem : nat) : list Z :=
  (fun d => d - 1) <$> default [] (edof s !! elem).

(** What the element function returns for element [elem] in [fe] (a
    zero-displacement probe with the properties [epLin]) and in an iteration
    of [fe_nl] that starts with displacements [u] *)
Definition lin_out (s : self) (epLin : list R) (elementFun : element_fun)
    (materialFun : material_fun) (eq : option (list R)) (elem : nat) : elem_out :=
  elementFun (replicate (np_size1 (edof s)) 0%R)
             (default [] (elemX s !! elem)) (default [] (elemY s !! elem))
             epLin (mp s) materialFun eq.

Definition nl_elem_out (s : self) (ep : list R) (elementFun : element_fun)
    (materialFun : material_fun) (eq : option (list R)) (u : list R)
    (elem : nat) : elem_out :=
  elementFun (ok_or [] (np_take u (edofIndex s elem)))
             (default [] (elemX s !! elem)) (default [] (elemY s !! elem))
             ep (mp s) materialFun eq.

Definition density (x : list R) (elem : nat) : R := default 0%R (x !! elem).

(** A sequence of in-place additions [g[np.ix_(idx)] += w] *)
Fixpoint iadd_all (g : list R) (cs : list (list Z * list R)) : result (list R) :=
  match cs with
  | [] => Ok g
  | (idx, w) :: cs' =>
      let? g' := np_iadd g idx w in
      iadd_all g' cs'
  end.

(** [acc_inv l g0 cs h]: cell [l] of [h] holds what the additions [cs]
    make of [g0] *)
Definition acc_inv (l : loc) (g0 : list R) (cs : list (list Z * list R))
    (h : store) : Prop :=
  exists g, h !! l = Some g /\ iadd_all g0 cs = Ok g.

Definition Rsum (l : list R) : R := foldr Rplus 0%R l.

(** The sum of the entries of [w] that the index list [idx] sends to
    position [i] *)
Fixpoint scatter (idx : list Z) (w : list R) (i : Z) : R :=
  match idx, w with
  | d :: idx', y :: w' => ((if d =? i then y else 0) + scatter idx' w' i)%R
  | _, _ => 0%R
  end.

Definition entry (a : list R) (i : nat) : R := default 0%R (a !! i).
Definition mat_entry (K : list (list R)) (i j : nat) : R :=
  default 0%R (K !! i ≫= (.!! j)).

(** The triplets after the first [k] elements *)
Definition triplets_upto (idx : nat -> list Z) (Ke : nat -> list (list R))
    (c : nat -> R) (k : nat) : triplets :=
  foldl (fun t e => extend_triplets t (idx e) (Ke e) (c e))
        (Triplets [] [] []) (seq 0 k).

(** The value that element [e] adds to position [(i, j)] of the global
    stiffness matrix: entry [(a, b)] of [Ke], scaled by [c], goes to row
    [idx[b]] and column [idx[a]]. *)
Definition block_sum (idx : list Z) (Ke : list (list R)) (c : R) (i j : Z) : R :=
  Rsum ((fun a =>
    Rsum ((fun b =>
      if (default (-1) (idx !! b) =? i) && (default (-1) (idx !! a) =? j)
      then (mat_entry Ke a b * c)%R else 0%R) <$> seq 0 (length idx)))
    <$> seq 0 (length idx)).

(** An [n] by [n] table *)
Definition square (n : nat) (K : list (list R)) : Prop :=
  length K = n /\ Forall (fun r => length r = n) K.

(** The additions [(idx e, w e)] of the first [n] elements *)
Definition adds (idx : nat -> list Z) (w : nat -> list R) (n : nat)
    : list (list Z * list R) :=
  (fun e => (idx e, w e)) <$> seq 0 n.

(** Row [e] of the table [dR]:
    [SIMP_const * x[e] ** (SIMP_const - 1) * fint - fext] *)
Definition dR_row (power : R -> R -> R) (p xe : R) (o : elem_out) : list R :=
  zip_with Rminus ((fun y => (p * power xe (p - 1) * y)%R) <$> fint o) (fext o).

(** ** Well-formed calls

    What a call of [fe] or [fe_nl] needs in order not to fail: a mesh whose
    rows have one length and hold DOF numbers between 1 and [ndof], tables
    and a density field that cover every element, free DOFs inside the
    vector, an [ep] with a linear flag, an element function that returns,
    for displacements of the element's size, arrays of that size and a
    six-component stress, and a solver
    that returns one unknown per equation. *)
Record well_formed (spsolve : list (list R) -> list R -> list R)
    (s : self) (x : list R) (ep : list R) (elementFun : element_fun)
    (materialFun : material_fun) (eq : option (list R)) : Prop := {
  wf_ndof : 0 < ndof s;
  wf_nElem : length (edof s) = nElem s;
  wf_rows :
    Forall (fun r => length r = np_size1 (edof s)
                     /\ Forall (fun d => 1 <= d <= ndof s) r) (edof s);
  wf_elemX : length (elemX s) = nElem s;
  wf_elemY : length (elemY s) = nElem s;
  wf_x : (nElem s <= length x)%nat;
  wf_free : Forall (fun d => 0 <= d < ndof s) (freedofs s);
  wf_ep : (3 < length ep)%nat;
  wf_elem : forall ue ex ey ep',
    length ue = np_size1 (edof s) ->
    let o := elementFun ue ex ey ep' (mp s) materialFun eq in
    length (concat (Ke o)) = (np_size1 (edof s) * np_size1 (edof s))%nat
    /\ length (fint o) = np_size1 (edof s)
    /\ length (fext o) = np_size1 (edof s)
    /\ (6 <= length (sig o))%nat;
  wf_solve : forall K b, length (spsolve K b) = length b;
}.

(** Cell [l] of the store holds an array of length [n] *)
Definition arr (h : store) (l : loc) (n : nat) : Prop :=
  exists a, h !! l = Some a /\ length a = n.

(** No cell is lost and no array changes its length *)
Definition same_shape (h h' : store) : Prop :=
  (length h <= length h')%nat /\ forall l n, arr h l n -> arr h' l n.

Definition triplets_wf (nd : Z) (t : triplets) : Prop :=
  length (t_row t) = length (t_data t)
  /\ length (t_col t) = length (t_data t)
  /\ Forall (fun d => 0 <= d < nd) (t_row t)
  /\ Forall (fun d => 0 <= d < nd) (t_col t).

Definition table (n m : nat) (K : list (list R)) : Prop :=
  length K = n /\ Forall (fun r => length r = m) K.

Definition acc_wf (s : self) (a : nl_acc) : Prop :=
  triplets_wf (ndof s) (a_t a)
  /\ (nElem s <= length (a_dR a))%nat
  /\ (nElem s <= length (a_sig_VM a))%nat
  /\ (nElem s <= length (a_eps_h a))%nat.

(** What the Newton loop keeps true of its state and of the store *)
Definition loop_inv (s : self) (F : loc) (st : nl_state) (h : store) : Prop :=
  arr h (U s) (Z.to_nat (ndof s))
  /\ arr h F (Z.to_nat (ndof s))
  /\ (nElem s <= length (sig_VM st))%nat
  /\ (nElem s <= length (eps_h st))%nat.

(** ** A one-triangle model, used to run the functions on concrete data *)

Definition ex_edof : list (list Z) := [[1; 2; 3; 4; 5; 6]].
Definition ex_coords : list (R * R) := [(0, 0); (1, 0); (0, 1)]%R.
Definition ex_mp : gmap string R := <["E" := 1%R]> (<["nu" := (3 / 10)%R]> ∅).
Definition ex_fixdofs : list Z := [0; 1; 2; 3; 4].

(** The object that [__init__] builds from these, with [self.U] in cell 0 *)
Definition ex_self : self :=
  Self ex_mp 1 (3 / 10) 6 1 0 [[0; 1; 0]%R] [[0; 0; 1]%R] [5] ex_edof.

(** A store holding [self.U] (cell 0) and a load vector [F] (cell 1) *)
Definition ex_store : store :=
  [replicate 6 0%R; [0; 0; 0; 0; 0; 1]%R].

Definition identity (n : nat) : list (list R) :=
  (fun i => (fun j => if (i =? j)%nat then 1%R else 0%R) <$> seq 0 n) <$> seq 0 n.

(** An element function with a unit stiffness, an internal force equal to
    the displacement plus a fixed offset at the last DOF, and a unit body
    force *)
Definition ex_elementFun (offset : R) : element_fun :=
  fun ue ex ey ep mp materialFun eq =>
    ElemOut (identity 6)
            (zip_with Rplus ue [0; 0; 0; 0; 0; offset]%R)
            (replicate 6 1%R)
            [1; 2; 3; 0; 0; 0]%R
            [3; 6; 0; 0; 0; 0]%R.

Definition ex_materialFun : material_fun := fun eps mp => (eps, []).

(** A solver for systems with a diagonal matrix *)
Definition diag_solve (K : list (list R)) (b : list R) : list R :=
  imap (fun i bi => (bi / default 0 (K !! i ≫= (.!! i)))%R) b.

Definition ex_ep_linear : list R := [1; 1; 2; 1]%R.
Definition ex_ep_nonlinear : list R := [1; 1; 2; 0]%R.

(** A store in which the displacement at the free DOF is 2, and the state
    in which [fe_nl] enters its loop *)
Definition ex_nl_store : store :=
  [[0; 0; 0; 0; 0; 2]%R; [0; 0; 0; 0; 0; 1]%R].
Definition ex_st0 : nl_state := nl_init [1%R] 1%nat 1%nat [].

(** An element function whose internal force does not depend on the
    displacement, so that no Newton step can bring the residual down *)
Definition ex_stuck_elementFun : element_fun :=
  fun ue ex ey ep mp materialFun eq =>
    ElemOut (identity 6)
            [0; 0; 0; 0; 0; 3]%R
            (replicate 6 1%R)
            [1; 2; 3; 0; 0; 0]%R
            [3; 6; 0; 0; 0; 0]%R.

(** What holds at the head of the loop, and after the assembly, in the
    run with [ex_stuck_elementFun] *)
Definition ex_stuck_head (st : nl_state) (h : store) : Prop :=
  (exists u, h !! 0%nat = Some u /\ length u = 6%nat)
  /\ h !! 1%nat = Some [0; 0; 0; 0; 0; 1]%R
  /\ (TOL st < 1)%R.

Definition ex_stuck_mid (st : nl_state) (h : store) : Prop :=
  (exists u, h !! 0%nat = Some u /\ length u = 6%nat)
  /\ h !! 1%nat = Some [0; 0; 0; 0; 0; 1]%R
  /\ err st = 1%R
  /\ (TOL st < 1)%R
  /\ fextGlobal st <> 0%nat
  /\ h !! fextGlobal st
     = Some [0 + 1 * 1; 0 + 1 * 1; 0 + 1 * 1; 0 + 1 * 1; 0 + 1 * 1; 1 + 1 * 1]%R.

(** An element function whose internal force at the free DOF switches with
    the displacement there: it is 3 where the displacement equals 2, and
    [a] anywhere else *)
Definition ex_switch_elementFun (a : R) : element_fun :=
  fun ue ex ey ep mp materialFun eq =>
    ElemOut (identity 6)
            [0; 0; 0; 0; 0; if Req_dec_T (entry ue 5) 2 then 3 else a]%R
            (replicate 6 1%R)
            [1; 2; 3; 0; 0; 0]%R
            [3; 6; 0; 0; 0; 0]%R.

(** What holds at the head of the loop, and after the assembly, in the
    run with [ex_switch_elementFun 1] and penalty 2: the displacement at
    the free DOF goes back and forth between 2 and 1. *)
Definition ex_cycle_head (st : nl_state) (h : store) : Prop :=
  (exists u5, h !! 0%nat = Some [0; 0; 0; 0; 0; u5]%R
     /\ ((Z.even (newtonIt st) = true /\ u5 = 2%R)
         \/ (Z.even (newtonIt st) = false /\ u5 = 1%R)))
  /\ h !! 1%nat = Some [0; 0; 0; 0; 0; 1]%R
  /\ length (sig_VM st) = 1%nat /\ length (eps_h st) = 1%nat
  /\ (TOL st < 1)%R /\ (err st > TOL st)%R.

Definition ex_cycle_mid (st : nl_state) (h : store) : Prop :=
  (exists u5 f5, h !! 0%nat = Some [0; 0; 0; 0; 0; u5]%R
     /\ R_ st = [-1; -1; -1; -1; -1; f5 - 2]%R
     /\ dR st = [[-1; -1; -1; -1; -1; 2 * f5 - 1]]%R
     /\ ((Z.even (newtonIt st) = false /\ u5 = 2%R /\ f5 = 3%R)
         \/ (Z.even (newtonIt st) = true /\ u5 = 1%R /\ f5 = 1%R)))
  /\ h !! 1%nat = Some [0; 0; 0; 0; 0; 1]%R
  /\ err st = 1%R /\ (TOL st < 1)%R
  /\ K st = identity 6
  /\ sig_VM st = [sqrt 3] /\ eps_h st = [3%R]
  /\ fextGlobal st <> 0%nat /\ fext_tilde st <> 0%nat
  /\ h !! fext_tilde st = Some [1; 1; 1; 1; 1; 1]%R
  /\ h !! fextGlobal st = Some [1; 1; 1; 1; 1; 2]%R.

(** ** Statements of the specification that the code does not satisfy *)

(** C5 as the specification words it: all of the residual-derivative,
    stress and strain outputs are empty in the linear case *)
Definition linear_outputs_all_empty : Prop :=
  forall (power : R -> R -> R) (spsolve : list (list R) -> list R -> list R)
         fuel s x p F ep elementFun materialFun eq h out h',
    ep !! 3%nat = Some 1%R ->
    fe_nl power spsolve fuel s x p F ep elementFun materialFun eq h
    = Some (Ok out, h') ->
    out_dR out = [] /\ out_sig_VM out = [] /\ out_eps_h out = [].

(** C1 as the specification words it: [fe] adds the element external
    force times [x[e] ** SIMP_penal] to the copy of [F] *)
Definition fe_force_scaled_by_penalty : Prop :=
  forall (power : R -> R -> R) (spsolve : list (list R) -> list R -> list R)
         s x p F ep elementFun materialFun eq epLin h h' f U0 ft fg K0,
    h !! F = Some f ->
    (U s < length h)%nat ->
    force_linear ep = Ok epLin ->
    Forall NoDup (edof s) ->
    (forall e, (e < nElem s)%nat ->
       square (length (edofIndex s e)) (Ke (lin_out s epLin elementFun materialFun eq e))
       /\ length (fext (lin_out s epLin elementFun materialFun eq e))
          = length (edofIndex s e)) ->
    fe power spsolve s x p F ep elementFun materialFun eq h = (Ok (U0, ft, fg, K0), h') ->
    exists g, h' !! fg = Some g
      /\ forall i, (i < length f)%nat ->
           entry g i
           = (entry f i
              + Rsum ((fun e => scatter (edofIndex s e)
                        (scale (power (density x e) p)
                               (fext (lin_out s epLin elementFun materialFun eq e)))
                        (Z.of_nat i)) <$> seq 0 (nElem s)))%R.

(** C3 as the specification words it: the residual computed in an
    iteration is tested against the tolerance that was in force before
    that iteration's update, so the loop is left after an iteration exactly
    when that residual is within the earlier tolerance. *)
Definition tolerance_governs_next_check : Prop :=
  forall (power : R -> R -> R) (spsolve : list (list R) -> list R -> list R)
         fuel s x p F ep elementFun materialFun eq st h st1 h1 st2 h2,
    (err st > TOL st)%R ->
    newton_assemble power s x p F ep elementFun materialFun eq st h = (Ok st1, h1) ->
    newtonIt st1 <> 100 ->
    newton_update spsolve s st1 h1 = (Ok st2, h2) ->
    (newton power spsolve (S (S fuel)) s x p F ep elementFun materialFun eq st h
     = Some (Ok st2, h2)
     <-> ~ (err st1 > TOL st)%R).

(** C10 as the specification words it: every call to [fe] and to [fe_nl]
    leaves the array [F] that it is given as it was *)
Definition load_vector_kept_by_every_call : Prop :=
  forall (power : R -> R -> R) (spsolve : list (list R) -> list R -> list R)
         s x p F ep elementFun materialFun eq h,
    (F < length h)%nat ->
    (fe power spsolve s x p F ep elementFun materialFun eq h).2 !! F = h !! F
    /\ (forall fuel r h',
          fe_nl power spsolve fuel s x p F ep elementFun materialFun eq h
          = Some (r, h') ->
          h' !! F = h !! F).

(** The eight values of the tuple that [fe_nl] returns, the arrays by
    their content in the final store *)
Definition returned_values (out : nl_out) (h : store)
    : option (list R) * list (list R) * list R * option (list R)
      * option (list R) * list R * list Z * list (list R) :=
  (h !! out_U out, out_dR out, out_sig_VM out, h !! out_fext_tilde out,
   h !! out_fextGlobal out, out_eps_h out, out_freedofs out, out_K out).

(** C4 as the specification words it: a call whose loop the cap has
    stopped with the tolerance unmet returns, with its outputs, a status
    that says so, and a call whose loop has ended before the cap returns
    none.  Whatever form the status takes, it is read off the values
    returned. *)
Definition max_iterations_status : Prop :=
  exists status : option (list R) * list (list R) * list R * option (list R)
                  * option (list R) * list R * list Z * list (list R) -> bool,
    forall (power : R -> R -> R) (spsolve : list (list R) -> list R -> list R)
           s x p F ep elementFun materialFun eq h ft0 fg0 K0 h1 st' out h',
      ep !! 3%nat <> Some 1%R ->
      fe power spsolve s x p F ep elementFun materialFun eq h
      = (Ok (U s, ft0, fg0, K0), h1) ->
      newton power spsolve 100 s x p F ep elementFun materialFun eq
             (nl_init x ft0 fg0 K0) h1 = Some (Ok st', h') ->
      fe_nl power spsolve 100 s x p F ep elementFun materialFun eq h
      = Some (Ok out, h') ->
      (newtonIt st' = 100 -> (err st' > TOL st')%R ->
       status (returned_values out h') = true)
      /\ (newtonIt st' < 100 -> status (returned_values out h') = false).

(** ** Reference notions for further properties of the class *)

(** A list of integers in strictly increasing order *)
Definition increasing (l : list Z) : Prop :=
  forall i j a b, (i < j)%nat -> l !! i = Some a -> l !! j = Some b -> a < b.

(** [fails_clean n m]: when the computation [m], started in a store with
    at least [n] cells, raises an exception, these [n] cells are as they
    were. *)
Definition fails_clean {A} (n : nat) (m : M A) : Prop :=
  forall h e, (n <= length h)%nat -> (m h).1 = Raise e ->
    forall l, (l < n)%nat -> (m h).2 !! l = h !! l.

(** The changes that a write through the free DOFs may make to an array:
    its length stays and the entries off the free DOFs stay *)
Definition free_write (free : list Z) (a a' : list R) : Prop :=
  length a' = length a /\ unchanged_off free a a'.

(** In the store [h], the displacement array of [s] has [ndof] entries and
    is zero at every fixed DOF of the range *)
Definition fixed_dofs_zero (s : self) (fixdofs : list Z) (h : store) : Prop :=
  exists u, h !! U s = Some u /\ length u = Z.to_nat (ndof s)
    /\ forall d, d ∈ fixdofs -> 0 <= d < ndof s -> u !! Z.to_nat d = Some 0%R.

(** ** Generic facts about the monads and the numpy primitives *)

Lemma rbind_Ok {A B} (r : result A) (k : A -> result B) (b : B) :
  rbind r k = Ok b -> exists a, r = Ok a /\ k a = Ok b.
Proof. destruct r as [a|e]; simpl; intros H; [eauto | discriminate]. Qed.

Lemma bind_Ok {A B} (m : M A) (k : A -> M B) (h h' : store) (b : B) :
  bind m k h = (Ok b, h') ->
  exists a h1, m h = (Ok a, h1) /\ k a h1 = (Ok b, h').
Proof.
  unfold bind. destruct (m h) as [[a|e] h1]; intros H; [eauto | discriminate].
Qed.

Lemma lift_Ok {A} (r : result A) (h h' : store) (a : A) :
  lift r h = (Ok a, h') -> r = Ok a /\ h' = h.
Proof. unfold lift. intros H. by inversion H. Qed.

Lemma ret_Ok {A} (a b : A) (h h' : store) :
  ret a h = (Ok b, h') -> b = a /\ h' = h.
Proof. unfold ret. intros H. by inversion H. Qed.

Lemma py_nth_Ok {A} (l : list A) (k : nat) (a : A) :
  py_nth l k = Ok a <-> l !! k = Some a.
Proof.
  unfold py_nth. destruct (l !! k); split; intros H; by inversion H.
Qed.

Lemma py_set_Ok {A} (l l' : list A) (k : nat) (c : A) :
  py_set l k c = Ok l' -> (k < length l)%nat /\ l' = <[k:=c]> l.
Proof.
  unfold py_set. destruct (k <? length l)%nat eqn:Hk; intros H; inversion H; subst.
  apply Nat.ltb_lt in Hk. split; [exact Hk | reflexivity].
Qed.

Lemma reshape_Ok (n : nat) (w w' : list R) :
  reshape n w = Ok w' -> w' = w /\ length w = n.
Proof.
  unfold reshape. destruct (length w =? n)%nat eqn:Hn; intros H; inversion H; subst.
  apply Nat.eqb_eq in Hn. split; [reflexivity | exact Hn].
Qed.

(** Inversion of a successful run, one monadic step at a time *)
Ltac inv_ok :=
  repeat match goal with
  | H : bind _ _ _ = (Ok _, _) |- _ =>
      let a := fresh "a" in let h := fresh "h" in
      let H1 := fresh "Hm" in let H2 := fresh "Hk" in
      apply bind_Ok in H as (a & h & H1 & H2)
  | H : lift _ _ = (Ok _, _) |- _ =>
      let H1 := fresh "Hr" in apply lift_Ok in H as [H1 ->]
  | H : ret _ _ = (Ok _, _) |- _ => unfold ret in H; inversion H; subst; clear H
  | H : rbind _ _ = Ok _ |- _ =>
      let a := fresh "a" in
      let H1 := fresh "Hr" in let H2 := fresh "Hk" in
      apply rbind_Ok in H as (a & H1 & H2)
  | H : Ok _ = Ok _ |- _ => inversion H; subst; clear H
  | H : (Ok _, _) = (Ok _, _) |- _ => inversion H; subst; clear H
  end.

(** Runs a concrete call: the lists, integers and control flow are
    computed and the real-number expressions are left as they are. *)
Ltac py_eval :=
  cbv - [IZR Rplus Rmult Rminus Rdiv Rinv Ropp Rabs Rmax sqrt Rpower pow
         Rgt_dec Req_dec_T ex_mp].

Ltac py_eval_in H :=
  cbv - [IZR Rplus Rmult Rminus Rdiv Rinv Ropp Rabs Rmax sqrt Rpower pow
         Rgt_dec Req_dec_T ex_mp] in H.

(** ** The model initializer *)

Lemma foldl_max_ge (l : list Z) (a : Z) : a <= foldl Z.max a l.
Proof.
  revert a. induction l as [|b l IH]; intros a; simpl; [lia|].
  specialize (IH (Z.max a b)). lia.
Qed.

Lemma node_of_dof_range (d : Z) (n : nat) :
  1 <= d <= 2 * Z.of_nat n -> 0 <= node_of_dof d < Z.of_nat n.
Proof. unfold node_of_dof. intros Hd. Z.to_euclidean_division_equations. lia. Qed.

Lemma py_get_in_range {A} (l : list A) (i : Z) :
  0 <= i < Z.of_nat (length l) -> exists a, py_get l i = Ok a.
Proof.
  intros Hi. unfold py_get, py_idx.
  replace ((0 <=? i) && (i <? Z.of_nat (length l))) with true
    by (symmetry; apply andb_true_iff; split; [apply Z.leb_le | apply Z.ltb_lt]; lia).
  simpl. destruct (lookup_lt_is_Some_2 l (Z.to_nat i)) as [a Ha]; [lia|].
  rewrite Ha. eauto.
Qed.

Lemma np_take_in_range (a : list R) (idx : list Z) :
  Forall (fun i => 0 <= i < Z.of_nat (length a)) idx ->
  exists w, np_take a idx = Ok w.
Proof.
  induction 1 as [|i idx Hi _ [w Hw]]; simpl; [eauto|].
  destruct (py_get_in_range a i Hi) as [c ->]. simpl. rewrite Hw. simpl. eauto.
Qed.

Lemma every_other_Forall {A} (P : A -> Prop) (l : list A) :
  Forall P l -> Forall P (every_other l).
Proof.
  revert l. fix IH 1. intros [|a [|b l]] H; simpl.
  - constructor.
  - exact H.
  - inversion H as [|? ? Ha H']; subst. inversion H' as [|? ? _ H'']; subst.
    constructor; [exact Ha | apply IH, H''].
Qed.

Lemma slice_0_8_2_Forall {A} (P : A -> Prop) (l : list A) :
  Forall P l -> Forall P (slice_0_8_2 l).
Proof. intros H. apply every_other_Forall, Forall_take, H. Qed.

Lemma elem_coords_in_range (nx ny : list R) (rows : list (list Z)) :
  length ny = length nx ->
  Forall (Forall (fun d => 1 <= d <= 2 * Z.of_nat (length nx))) rows ->
  exists t, elem_coords nx ny rows = Ok t.
Proof.
  intros Hlen. induction 1 as [|r rows Hr _ [t Ht]]; simpl; [eauto|].
  assert (Hn : Forall (fun i => 0 <= i < Z.of_nat (length nx))
                 (slice_0_8_2 (node_of_dof <$> r))).
  { apply slice_0_8_2_Forall, Forall_fmap.
    eapply Forall_impl; [exact Hr|]. intros d Hd. simpl.
    by apply node_of_dof_range. }
  destruct (np_take_in_range nx _ Hn) as [cx ->]. simpl.
  rewrite <- Hlen in Hn.
  destruct (np_take_in_range ny _ Hn) as [cy ->]. simpl.
  rewrite Ht. simpl. eauto.
Qed.

Lemma py_get_Raise {A} (l : list A) (i : Z) (e : exn) :
  py_get l i = Raise e -> e = IndexError.
Proof.
  unfold py_get, py_idx. intros Hr.
  repeat (case_match; simpl in Hr); by inversion Hr.
Qed.

Lemma np_take_Raise (a : list R) (idx : list Z) (e : exn) :
  np_take a idx = Raise e -> e = IndexError.
Proof.
  induction idx as [|i idx IH]; simpl; [discriminate|].
  destruct (py_get a i) eqn:Hg; simpl.
  - destruct (np_take a idx); simpl; [discriminate|].
    intros H. inversion H; subst. by apply IH.
  - intros H. inversion H; subst. by eapply py_get_Raise.
Qed.

Lemma elem_coords_Raise (nx ny : list R) (rows : list (list Z)) (e : exn) :
  elem_coords nx ny rows = Raise e -> e = IndexError.
Proof.
  induction rows as [|r rows IH]; simpl; [discriminate|].
  destruct (np_take nx _) eqn:Hx; simpl;
    [|intros H; inversion H; subst; by eapply np_take_Raise].
  destruct (np_take ny _) eqn:Hy; simpl;
    [|intros H; inversion H; subst; by eapply np_take_Raise].
  destruct (elem_coords nx ny rows); simpl; [discriminate|].
  intros H. inversion H; subst. by apply IH.
Qed.

(** C7. Constructing the model with a connectivity array whose rows have
    a length other than 6 or 8 raises the exception "Unrecognized Element
    Shape, Check eDof Matrix"; with rows of length 6 or 8 that exception is
    never raised, and construction succeeds when every DOF index names a
    node of the coordinate table.  The material parameters are assumed to
    hold E and nu and the array to have 1-based entries and non-empty
    rows, so that the statements before the shape test do not fail. *)
Theorem init_element_shape (edof : list (list Z)) (coords : list (R * R))
    (mp : gmap string R) (fixdofs : list Z) (h : store)
    (r0 : list Z) (rest : list (list Z)) (e nu : R) :
  mp !! "E" = Some e ->
  mp !! "nu" = Some nu ->
  edof = r0 :: rest ->
  r0 <> [] ->
  Forall (Forall (fun d => 1 <= d)) edof ->
  (length r0 <> 6%nat -> length r0 <> 8%nat ->
     (__init__ edof coords mp fixdofs h).1
     = Raise (Exception "Unrecognized Element Shape, Check eDof Matrix"))
  /\ (length r0 = 6%nat \/ length r0 = 8%nat ->
      (forall msg, (__init__ edof coords mp fixdofs h).1 <> Raise (Exception msg))
      /\ (Forall (Forall (fun d => d <= 2 * Z.of_nat (length coords))) edof ->
          exists s, (__init__ edof coords mp fixdofs h).1 = Ok s
                    /\ FE.edof s = edof /\ nElem s = length edof)).
Proof.
  intros HE Hnu -> Hr0 Hpos.
  destruct r0 as [|d r0']; [done|].
  assert (Hmax : 0 <= foldl Z.max d (r0' ++ concat rest)).
  { pose proof (foldl_max_ge (r0' ++ concat rest) d) as Hge.
    inversion Hpos as [|? ? Hrow _]; subst. inversion Hrow; subst. lia. }
  assert (Hneg : (foldl Z.max d (r0' ++ concat rest) <? 0) = false)
    by (apply Z.ltb_ge; exact Hmax).
  unfold __init__, bind, lift, dict_get. rewrite HE, Hnu.
  set (ec := elem_coords _ _ _).
  assert (Hec : ec = elem_coords (coords.*1) (coords.*2) ((d :: r0') :: rest))
    by reflexivity.
  clearbody ec. simpl. rewrite Hneg. simpl. split.
  - intros H6 H8.
    destruct (Nat.eqb_spec (length r0') 5); [lia|].
    destruct (Nat.eqb_spec (length r0') 7); [lia|].
    reflexivity.
  - intros H68.
    assert (Hchk : (if (length r0' =? 5)%nat then ret ()
                    else if (length r0' =? 7)%nat then ret ()
                    else raise (Exception "Unrecognized Element Shape, Check eDof Matrix"))
                   = ret ()).
    { destruct (Nat.eqb_spec (length r0') 5); [done|].
      destruct (Nat.eqb_spec (length r0') 7); [done|]. lia. }
    rewrite Hchk. unfold ret at 1. split.
    + intros msg. destruct ec as [t|ex]; simpl; [discriminate|].
      intros Heq. inversion Heq; subst. clear Heq.
      symmetry in Hec. by apply elem_coords_Raise in Hec.
    + intros Hup.
      destruct (elem_coords_in_range (coords.*1) (coords.*2) ((d :: r0') :: rest))
        as [t Ht].
      * by rewrite !length_fmap.
      * rewrite length_fmap. apply Forall_forall. intros r Hr.
        rewrite Forall_forall in Hpos, Hup.
        specialize (Hpos r Hr). specialize (Hup r Hr).
        rewrite Forall_forall in Hpos, Hup. apply Forall_forall. intros d' Hd'.
        specialize (Hpos d' Hd'). specialize (Hup d' Hd'). lia.
      * rewrite Hec, Ht. simpl. eauto.
Qed.

Section Frame.
Context (n : nat) (Q : list R -> list R -> Prop) (u : loc) (free : list Z).
Context (HQ : update_rel free Q).

Lemma upd_refl (h : store) : upd n Q u h h.
Proof using HQ.
  split; [lia|]. split; [done|]. intros a _ Ha. exists a. split; [done|].
  apply (Q_refl _ _ HQ).
Qed.

Lemma upd_trans (h1 h2 h3 : store) :
  upd n Q u h1 h2 -> upd n Q u h2 h3 -> upd n Q u h1 h3.
Proof using HQ.
  intros (Hl1 & Ho1 & Hu1) (Hl2 & Ho2 & Hu2). split; [lia|]. split.
  - intros l Hl Hne. rewrite Ho2, Ho1; done.
  - intros a Hun Ha. destruct (Hu1 a Hun Ha) as (b & Hb & Hab).
    destruct (Hu2 b Hun Hb) as (c & Hc & Hbc). exists c. split; [done|].
    by apply (Q_trans _ _ HQ a b c).
Qed.

Lemma upd_alloc (h : store) (w : list R) :
  (n <= length h)%nat -> upd n Q u h (h ++ [w]).
Proof using HQ.
  intros Hn. split; [rewrite length_app; lia|]. split.
  - intros l Hl _. apply lookup_app_l. lia.
  - intros a Hun Ha. exists a. split; [|apply (Q_refl _ _ HQ)].
    rewrite lookup_app_l; [done|lia].
Qed.

Lemma upd_write_scratch (h : store) (l : loc) (w : list R) :
  (n <= l)%nat -> upd n Q u h (<[l:=w]> h).
Proof using HQ.
  intros Hl. split; [by rewrite length_insert|]. split.
  - intros l' Hl' _. apply list_lookup_insert_ne. lia.
  - intros a Hun Ha. exists a. split; [|apply (Q_refl _ _ HQ)].
    rewrite list_lookup_insert_ne; [done|lia].
Qed.

Lemma upd_write_own (h : store) (a w : list R) :
  h !! u = Some a -> Q a w -> upd n Q u h (<[u:=w]> h).
Proof using HQ.
  intros Ha Hq. split; [by rewrite length_insert|]. split.
  - intros l' Hl' Hne. by apply list_lookup_insert_ne.
  - intros a0 Hun Ha0. exists w. split.
    + apply list_lookup_insert_eq. by eapply lookup_lt_Some.
    + congruence.
Qed.

Lemma keeps_ret {A} (P : A -> Prop) (a : A) : P a -> keeps n Q u P (ret a).
Proof using HQ.
  intros Ha h Hn. split; [apply upd_refl|]. simpl. intros b Hb.
  inversion Hb; subst. exact Ha.
Qed.

Lemma keeps_raise {A} (P : A -> Prop) (e : exn) : keeps n Q u P (raise e).
Proof using HQ. intros h Hn. split; [apply upd_refl|]. simpl. discriminate. Qed.

Lemma keeps_lift {A} (r : result A) :
  keeps n Q u (fun a => r = Ok a) (lift r).
Proof using HQ.
  intros h Hn. split; [apply upd_refl|]. simpl. intros a Ha. exact Ha.
Qed.

Lemma keeps_bind {A B} (P : A -> Prop) (P' : B -> Prop) (m : M A) (k : A -> M B) :
  keeps n Q u P m -> (forall a, P a -> keeps n Q u P' (k a)) ->
  keeps n Q u P' (bind m k).
Proof using HQ.
  intros Hm Hk h Hn. destruct (Hm h Hn) as [Hu HP]. unfold bind.
  destruct (m h) as [[a|e] h1] eqn:Hmh; simpl in *.
  - destruct Hu as (Hl & Ho & Hu).
    destruct (Hk a (HP a eq_refl) h1 ltac:(lia)) as [Hu' HP'].
    split; [|exact HP'].
    eapply upd_trans; [|exact Hu']. by split.
  - split; [exact Hu|]. discriminate.
Qed.

Lemma keeps_weaken {A} (P P' : A -> Prop) (m : M A) :
  keeps n Q u P m -> (forall a, P a -> P' a) -> keeps n Q u P' m.
Proof using Type.
  intros Hm HP h Hn. destruct (Hm h Hn) as [Hu Hp]. split; [exact Hu|].
  intros a Ha. by apply HP, Hp.
Qed.

Lemma keeps_alloc (w : list R) : keeps n Q u (fun l => (n <= l)%nat) (alloc w).
Proof using HQ.
  intros h Hn. split; [by apply upd_alloc|]. simpl. intros l Hl.
  inversion Hl; subst. exact Hn.
Qed.

Lemma keeps_load (l : loc) : keeps n Q u (fun _ => True) (load l).
Proof using HQ. intros h Hn. split; [apply upd_refl|]. done. Qed.

Lemma keeps_write_scratch (l : loc) (w : list R) :
  (n <= l)%nat -> keeps n Q u (fun _ => True) (write l w).
Proof using HQ. intros Hl h Hn. split; [by apply upd_write_scratch|]. done. Qed.

Lemma keeps_np_copy (l : loc) : keeps n Q u (fun l' => (n <= l')%nat) (np_copy l).
Proof using HQ.
  unfold np_copy. eapply keeps_bind; [apply keeps_load|].
  intros a _. apply keeps_alloc.
Qed.

Lemma keeps_np_zeros_like (l : loc) :
  keeps n Q u (fun l' => (n <= l')%nat) (np_zeros_like l).
Proof using HQ.
  unfold np_zeros_like. eapply keeps_bind; [apply keeps_load|].
  intros a _. apply keeps_alloc.
Qed.

Lemma keeps_take_at (l : loc) (idx : list Z) :
  keeps n Q u (fun _ => True) (take_at l idx).
Proof using HQ.
  unfold take_at. eapply keeps_bind; [apply keeps_load|].
  intros a _. eapply keeps_weaken; [apply keeps_lift|done].
Qed.

Lemma keeps_iadd_at (l : loc) (idx : list Z) (w : list R) :
  (n <= l)%nat -> keeps n Q u (fun _ => True) (iadd_at l idx w).
Proof using HQ.
  intros Hl. unfold iadd_at. eapply keeps_bind; [apply keeps_load|].
  intros a _. eapply keeps_bind; [apply keeps_lift|].
  intros a' _. by apply keeps_write_scratch.
Qed.

(** The one write to the array [u] itself: [u[np.ix_(free)] = w] *)
Lemma keeps_put_at_own (w : list R) :
  keeps n Q u (fun _ => True) (put_at u free w).
Proof using HQ.
  intros h Hn. split; [|done]. unfold put_at, bind, load, lift, write.
  destruct (np_put (default [] (h !! u)) free w) as [a'|e] eqn:Hput; simpl;
    [|apply upd_refl].
  destruct (h !! u) as [a|] eqn:Ha; simpl in Hput.
  - eapply upd_write_own; [exact Ha|]. by eapply (Q_put _ _ HQ).
  - rewrite list_insert_ge; [apply upd_refl|]. by apply lookup_ge_None.
Qed.

Lemma keeps_for_elems {A} (body : A -> nat -> M A) (elems : list nat) (a0 : A) :
  (forall a e, keeps n Q u (fun _ => True) (body a e)) ->
  keeps n Q u (fun _ => True) (for_elems body a0 elems).
Proof using HQ.
  intros Hbody. revert a0. induction elems as [|e elems IH]; intros a0; simpl.
  - by apply keeps_ret.
  - eapply keeps_bind; [apply Hbody|]. intros a _. apply IH.
Qed.

End Frame.

Section FrameSolvers.
Context (power : R -> R -> R) (spsolve : list (list R) -> list R -> list R).
Context (s : self) (x : list R) (p : R) (F : loc) (ep : list R).
Context (elementFun : element_fun) (materialFun : material_fun).
Context (eq : option (list R)).
Context (n : nat) (Q : list R -> list R -> Prop).
Context (HQ : update_rel (freedofs s) Q).

Local Ltac kbind := eapply (keeps_bind _ _ _ _ HQ).
Local Ltac klift :=
  eapply (keeps_bind _ _ _ _ HQ); [apply (keeps_lift _ _ _ _ HQ)|]; intros ? _.

Lemma fe_elem_keeps (epLin : list R) (fg ft : loc) (t : triplets) (elem : nat) :
  (n <= fg)%nat -> (n <= ft)%nat ->
  keeps n Q (U s) (fun _ => True)
    (fe_elem power s x p epLin elementFun materialFun eq fg ft t elem).
Proof using HQ.
  intros Hfg Hft. unfold fe_elem. do 4 klift.
  kbind; [by apply (keeps_iadd_at _ _ _ _ HQ)|]; intros _ _.
  kbind; [by apply (keeps_iadd_at _ _ _ _ HQ)|]; intros _ _.
  by apply (keeps_ret _ _ _ _ HQ).
Qed.

Lemma fe_keeps :
  keeps n Q (U s) (fun r => r.1.1.1 = U s /\ (n <= r.1.1.2)%nat /\ (n <= r.1.2)%nat)
    (fe power spsolve s x p F ep elementFun materialFun eq).
Proof using HQ.
  unfold fe. klift.
  kbind; [apply (keeps_np_copy _ _ _ _ HQ)|]; intros fg Hfg.
  kbind; [apply (keeps_np_zeros_like _ _ _ _ HQ)|]; intros ft Hft.
  kbind; [apply (keeps_for_elems _ _ _ _ HQ); intros; by apply fe_elem_keeps|].
  intros t _. klift.
  kbind; [apply (keeps_load _ _ _ _ HQ)|]; intros fgv _. klift.
  kbind; [apply (keeps_put_at_own _ _ _ _ HQ)|]; intros _ _.
  by apply (keeps_ret _ _ _ _ HQ).
Qed.

Lemma fe_nl_elem_keeps (fg fi ft : loc) (a : nl_acc) (elem : nat) :
  (n <= fg)%nat -> (n <= fi)%nat -> (n <= ft)%nat ->
  keeps n Q (U s) (fun _ => True)
    (fe_nl_elem power s x p ep elementFun materialFun eq fg fi ft a elem).
Proof using HQ.
  intros Hfg Hfi Hft. unfold fe_nl_elem. klift.
  kbind; [apply (keeps_take_at _ _ _ _ HQ)|]; intros Ue _.
  do 4 klift.
  kbind; [by apply (keeps_iadd_at _ _ _ _ HQ)|]; intros _ _.
  kbind; [by apply (keeps_iadd_at _ _ _ _ HQ)|]; intros _ _.
  kbind; [by apply (keeps_iadd_at _ _ _ _ HQ)|]; intros _ _.
  do 6 klift. by apply (keeps_ret _ _ _ _ HQ).
Qed.

Lemma newton_assemble_keeps (st : nl_state) :
  keeps n Q (U s) (fun _ => True)
    (newton_assemble power s x p F ep elementFun materialFun eq st).
Proof using HQ.
  unfold newton_assemble.
  kbind; [apply (keeps_np_zeros_like _ _ _ _ HQ)|]; intros ft Hft.
  kbind; [apply (keeps_np_copy _ _ _ _ HQ)|]; intros fg Hfg.
  kbind; [apply (keeps_np_zeros_like _ _ _ _ HQ)|]; intros fi Hfi.
  kbind; [apply (keeps_for_elems _ _ _ _ HQ); intros; by apply fe_nl_elem_keeps|].
  intros a _. klift.
  kbind; [apply (keeps_load _ _ _ _ HQ)|]; intros fiv _.
  kbind; [apply (keeps_load _ _ _ _ HQ)|]; intros fgv _.
  do 2 klift. by apply (keeps_ret _ _ _ _ HQ).
Qed.

Lemma newton_update_keeps (st : nl_state) :
  keeps n Q (U s) (fun _ => True) (newton_update spsolve s st).
Proof using HQ.
  unfold newton_update.
  kbind; [apply (keeps_load _ _ _ _ HQ)|]; intros fgv _. klift.
  kbind; [apply (keeps_take_at _ _ _ _ HQ)|]; intros Uf _. do 3 klift.
  kbind; [apply (keeps_put_at_own _ _ _ _ HQ)|]; intros _ _.
  by apply (keeps_ret _ _ _ _ HQ).
Qed.

Lemma newton_keeps (fuel : nat) (st : nl_state) (h h' : store) (r : result nl_state) :
  (n <= length h)%nat ->
  newton power spsolve fuel s x p F ep elementFun materialFun eq st h = Some (r, h') ->
  upd n Q (U s) h h'.
Proof using HQ.
  revert st h. induction fuel as [|fuel IH]; intros st h Hn; simpl;
    destruct (Rgt_dec (err st) (TOL st)); intros Hrun;
    try discriminate;
    try (inversion Hrun; subst; by apply (upd_refl _ _ _ _ HQ)).
  destruct (newton_assemble_keeps st h Hn) as [Hu1 _].
  destruct (newton_assemble _ _ _ _ _ _ _ _ _ _ h) as [[st1|e] h1];
    simpl in Hu1; [|inversion Hrun; by subst].
  destruct (newtonIt st1 =? 100); [inversion Hrun; by subst|].
  assert (Hn1 : (n <= length h1)%nat) by (destruct Hu1; lia).
  destruct (newton_update_keeps st1 h1 Hn1) as [Hu2 _].
  destruct (newton_update _ _ _ h1) as [[st2|e] h2]; simpl in Hu2.
  - eapply (upd_trans _ _ _ _ HQ); [exact Hu1|].
    eapply (upd_trans _ _ _ _ HQ); [exact Hu2|].
    eapply IH; [|exact Hrun]. destruct Hu2; lia.
  - inversion Hrun; subst. by eapply (upd_trans _ _ _ _ HQ).
Qed.

Lemma fe_nl_keeps (fuel : nat) (h h' : store) (r : result nl_out) :
  (n <= length h)%nat ->
  fe_nl power spsolve fuel s x p F ep elementFun materialFun eq h = Some (r, h') ->
  upd n Q (U s) h h'.
Proof using HQ.
  intros Hn. unfold fe_nl. destruct (fe_keeps h Hn) as [Hu1 _].
  destruct (fe _ _ _ _ _ _ _ _ _ _ h) as [[[[[U0 ft0] fg0] K0]|e] h1];
    simpl in Hu1; [|intros Hrun; inversion Hrun; by subst].
  destruct (py_nth ep 3) as [flag|e]; [|intros Hrun; inversion Hrun; by subst].
  destruct (Req_dec_T flag 1); [intros Hrun; inversion Hrun; by subst|].
  destruct (newton _ _ _ _ _ _ _ _ _ _ _ _ h1) as [[[st|e] h2]|] eqn:Hnewton;
    intros Hrun; inversion Hrun; subst;
    (eapply (upd_trans _ _ _ _ HQ); [exact Hu1|]);
    (eapply newton_keeps; [|exact Hnewton]); destruct Hu1; lia.
Qed.

End FrameSolvers.

(** ** The caller's load vector and the fixed DOFs *)

Lemma true_update_rel (free : list Z) : update_rel free (fun _ _ => True).
Proof. by split. Qed.

(** C10 (as amended). A call to [fe] or [fe_nl] whose load vector [F] is an
    array of the store other than the object's own displacement array
    [self.U] leaves [F] as it was, also when it raises: forces are
    accumulated in arrays that the call has created itself (the copy of [F]
    and the zeroed vectors), which are distinct from [F].  The array
    [self.U] is the one array that the call writes in place. *)
Theorem load_vector_unchanged (power : R -> R -> R)
    (spsolve : list (list R) -> list R -> list R)
    (s : self) (x : list R) (p : R) (F : loc) (ep : list R)
    (elementFun : element_fun) (materialFun : material_fun)
    (eq : option (list R)) (h : store) :
  (F < length h)%nat ->
  F <> U s ->
  (fe power spsolve s x p F ep elementFun materialFun eq h).2 !! F = h !! F
  /\ (forall U0 ft fg K0,
        (fe power spsolve s x p F ep elementFun materialFun eq h).1
        = Ok (U0, ft, fg, K0) -> fg <> F /\ ft <> F)
  /\ (forall st, (newton_assemble power s x p F ep elementFun materialFun eq st h).2 !! F
                 = h !! F)
  /\ (forall fuel r h',
        fe_nl power spsolve fuel s x p F ep elementFun materialFun eq h = Some (r, h') ->
        h' !! F = h !! F).
Proof.
  intros HF Hne.
  pose proof (true_update_rel (freedofs s)) as HQ.
  destruct (fe_keeps power spsolve s x p F ep elementFun materialFun eq
              (length h) _ HQ h (le_n _)) as [(_ & Hfe & _) Hret].
  split; [by apply Hfe|]. split.
  - intros U0 ft fg K0 Heq. destruct (Hret _ Heq) as (_ & Hft & Hfg).
    simpl in *. lia.
  - split.
    + intros st.
      destruct (newton_assemble_keeps power s x p F ep elementFun materialFun eq
                  (length h) _ HQ st h (le_n _)) as [(_ & Hna & _) _].
      by apply Hna.
    + intros fuel r h' Hrun.
      destruct (fe_nl_keeps power spsolve s x p F ep elementFun materialFun eq
                  (length h) _ HQ fuel h h' r (le_n _) Hrun) as (_ & Hnl & _).
      by apply Hnl.
Qed.

Lemma elem_of_py_range (d n : Z) : d ∈ py_range n -> 0 <= d < n.
Proof.
  unfold py_range. intros Hd. apply list_elem_of_fmap in Hd as (k & -> & Hk).
  apply list_elem_of_In, in_seq in Hk. lia.
Qed.

Lemma elem_of_setdiff1d (d : Z) (a b : list Z) :
  d ∈ setdiff1d a b <-> d ∈ a /\ d ∉ b.
Proof.
  unfold setdiff1d. rewrite list_elem_of_In, filter_In, <- list_elem_of_In.
  rewrite negb_true_iff, bool_decide_eq_false. done.
Qed.

Lemma py_idx_nonneg (n : nat) (i : Z) (k : nat) :
  0 <= i -> py_idx n i = Ok k -> k = Z.to_nat i /\ (k < n)%nat.
Proof.
  intros Hi. unfold py_idx.
  destruct ((0 <=? i) && (i <? Z.of_nat n)) eqn:H1.
  - intros H. inversion H; subst. apply andb_true_iff in H1 as [_ H1%Z.ltb_lt]. lia.
  - destruct ((- Z.of_nat n <=? i) && (i <? 0)) eqn:H2; [|discriminate].
    apply andb_true_iff in H2 as [_ H2%Z.ltb_lt]. lia.
Qed.

Lemma py_idxs_nonneg (n : nat) (idx : list Z) (ks : list nat) :
  Forall (fun d => 0 <= d) idx ->
  py_idxs n idx = Ok ks ->
  ks = Z.to_nat <$> idx /\ Forall (fun k => (k < n)%nat) ks.
Proof.
  intros Hidx. revert ks. induction Hidx as [|i idx Hi _ IH]; intros ks Hks;
    simpl in Hks; inv_ok; [done|].
  destruct (py_idx_nonneg _ _ _ Hi Hr) as [-> Hlt].
  destruct (IH _ Hr0) as [-> Hall]. split; [done|]. by constructor.
Qed.

Lemma np_put_seq_notin (a : list R) (ks : list nat) (w : list R) (k : nat) :
  k ∉ ks -> np_put_seq a ks w !! k = a !! k.
Proof.
  revert a w. induction ks as [|k0 ks IH]; intros a w Hk; [done|].
  destruct w as [|c w]; [done|]. simpl.
  apply not_elem_of_cons in Hk as [Hne Hk].
  rewrite IH by done. by apply list_lookup_insert_ne.
Qed.

Lemma free_update_rel (free : list Z) :
  Forall (fun d => 0 <= d) free -> update_rel free (unchanged_off free).
Proof.
  intros Hfree. split.
  - by intros a k _.
  - intros a b c Hab Hbc k Hk. by rewrite Hbc, Hab.
  - intros a w a' Hput k Hk. unfold np_put in Hput. inv_ok.
    destruct (py_idxs_nonneg _ _ _ Hfree Hr) as [-> _].
    apply np_put_seq_notin. intros Hin.
    apply list_elem_of_fmap in Hin as (d & -> & Hd).
    rewrite Forall_forall in Hfree. specialize (Hfree d Hd).
    rewrite Z2Nat.id in Hk by lia. done.
Qed.

Lemma only_free_zero (fixdofs free : list Z) (u : loc) (h h' : store) :
  (forall d, d ∈ free -> d ∉ fixdofs) ->
  only_free_assigned free u h h' ->
  is_Some (h !! u) ->
  zero_at fixdofs u h -> zero_at fixdofs u h'.
Proof.
  intros Hdisj Hofa [a Ha] Hz a' k c Ha' Hk Hc.
  destruct (Hofa a Ha) as (a'' & Ha'' & Hun).
  rewrite Ha' in Ha''. inversion Ha''; subst a''.
  eapply (Hz a k c); [done..|]. rewrite <- Hun; [done|].
  intros Hin. by apply (Hdisj _ Hin).
Qed.

(** C6. If [self.U] is zero at the fixed DOFs before the call, it is zero
    there after [fe], after every part of a Newton iteration (assembly and
    Newton step) and after [fe_nl], however many iterations it runs: the
    linear solve and the Newton step assign entries at free DOFs only. *)
Theorem fixed_dofs_stay_zero (power : R -> R -> R)
    (spsolve : list (list R) -> list R -> list R)
    (s : self) (x : list R) (p : R) (F : loc) (ep : list R)
    (elementFun : element_fun) (materialFun : material_fun)
    (eq : option (list R)) (fixdofs : list Z) (h : store) :
  freedofs s = setdiff1d (py_range (ndof s)) fixdofs ->
  (U s < length h)%nat ->
  zero_at fixdofs (U s) h ->
  (only_free_assigned (freedofs s) (U s) h
     (fe power spsolve s x p F ep elementFun materialFun eq h).2
   /\ zero_at fixdofs (U s) (fe power spsolve s x p F ep elementFun materialFun eq h).2)
  /\ (forall st,
        only_free_assigned (freedofs s) (U s) h
          (newton_assemble power s x p F ep elementFun materialFun eq st h).2
        /\ zero_at fixdofs (U s)
             (newton_assemble power s x p F ep elementFun materialFun eq st h).2)
  /\ (forall st,
        only_free_assigned (freedofs s) (U s) h (newton_update spsolve s st h).2
        /\ zero_at fixdofs (U s) (newton_update spsolve s st h).2)
  /\ (forall fuel r h',
        fe_nl power spsolve fuel s x p F ep elementFun materialFun eq h = Some (r, h') ->
        only_free_assigned (freedofs s) (U s) h h' /\ zero_at fixdofs (U s) h').
Proof.
  intros Hfree HU Hz.
  assert (Hnn : Forall (fun d => 0 <= d) (freedofs s)).
  { rewrite Hfree. apply Forall_forall. intros d Hd.
    apply elem_of_setdiff1d in Hd as [Hd _]. apply elem_of_py_range in Hd. lia. }
  assert (Hdisj : forall d, d ∈ freedofs s -> d ∉ fixdofs).
  { intros d Hd. rewrite Hfree in Hd. by apply elem_of_setdiff1d in Hd as [_ Hd]. }
  pose proof (free_update_rel _ Hnn) as HQ.
  assert (HUs : is_Some (h !! U s)) by (by apply lookup_lt_is_Some_2).
  assert (Hgen : forall h', upd (length h) (unchanged_off (freedofs s)) (U s) h h' ->
            only_free_assigned (freedofs s) (U s) h h' /\ zero_at fixdofs (U s) h').
  { intros h' (_ & _ & Hown).
    assert (Hofa : only_free_assigned (freedofs s) (U s) h h')
      by (intros a Ha; by apply Hown).
    split; [done|]. by eapply only_free_zero. }
  split; [|split; [|split]].
  - apply Hgen.
    apply (fe_keeps power spsolve s x p F ep elementFun materialFun eq _ _ HQ h (le_n _)).
  - intros st. apply Hgen.
    apply (newton_assemble_keeps power s x p F ep elementFun materialFun eq _ _ HQ
             st h (le_n _)).
  - intros st. apply Hgen.
    apply (newton_update_keeps spsolve s _ _ HQ st h (le_n _)).
  - intros fuel r h' Hrun. apply Hgen.
    by apply (fe_nl_keeps power spsolve s x p F ep elementFun materialFun eq _ _ HQ
                fuel h h' r (le_n _)).
Qed.

(** ** The linear exit of [fe_nl] *)

(** C5 (as amended). When the linear flag [ep[3]] is 1, [fe_nl] returns
    right after its call of [fe], with no Newton iteration (no fuel is
    needed): the displacement array and the store are those [fe] leaves,
    [dR] and [sig_VM] are empty lists, and [eps_h] is an array of zeros
    with one entry per entry of [x]. *)
Theorem linear_flag_returns_fe (power : R -> R -> R)
    (spsolve : list (list R) -> list R -> list R)
    (fuel : nat) (s : self) (x : list R) (p : R) (F : loc) (ep : list R)
    (elementFun : element_fun) (materialFun : material_fun)
    (eq : option (list R)) (h : store) :
  ep !! 3%nat = Some 1%R ->
  fe_nl power spsolve fuel s x p F ep elementFun materialFun eq h
  = match fe power spsolve s x p F ep elementFun materialFun eq h with
    | (Ok (U0, ft0, fg0, K0), h1) =>
        Some (Ok (NlOut U0 [] [] ft0 fg0 (replicate (length x) 0%R) (freedofs s) K0), h1)
    | (Raise e, h1) => Some (Raise e, h1)
    end.
Proof.
  intros Hep. unfold fe_nl.
  destruct (fe _ _ _ _ _ _ _ _ _ _ h) as [[[[[U0 ft0] fg0] K0]|e] h1]; [|done].
  unfold py_nth. rewrite Hep.
  destruct (Req_dec_T 1 1) as [_|Hne]; [done|]. by destruct Hne.
Qed.

Lemma linear_flag_returns_fe_witness :
  ex_ep_linear !! 3%nat = Some 1%R
  /\ fe_nl Rpower diag_solve 0 ex_self [1%R] 3 1%nat ex_ep_linear
       (ex_elementFun 0) ex_materialFun None ex_store
     = match fe Rpower diag_solve ex_self [1%R] 3 1%nat ex_ep_linear
               (ex_elementFun 0) ex_materialFun None ex_store with
       | (Ok (U0, ft0, fg0, K0), h1) =>
           Some (Ok (NlOut U0 [] [] ft0 fg0 (replicate (length [1%R]) 0%R)
                           (freedofs ex_self) K0), h1)
       | (Raise e, h1) => Some (Raise e, h1)
       end.
Proof.
  split; [reflexivity|]. apply linear_flag_returns_fe. reflexivity.
Defined.

Lemma ex_fe_linear_runs :
  exists U0 ft0 fg0 K0 h1,
    fe Rpower diag_solve ex_self [1%R] 3 1%nat ex_ep_linear
       (ex_elementFun 0) ex_materialFun None ex_store
    = (Ok (U0, ft0, fg0, K0), h1).
Proof. do 5 eexists. py_eval. reflexivity. Qed.

(** The strain output of the linear exit is not empty: it has one zero
    per element. *)
Lemma linear_outputs_all_empty_fails :
  (exists out h',
     ex_ep_linear !! 3%nat = Some 1%R
     /\ fe_nl Rpower diag_solve 0 ex_self [1%R] 3 1%nat ex_ep_linear
          (ex_elementFun 0) ex_materialFun None ex_store = Some (Ok out, h')
     /\ out_dR out = [] /\ out_sig_VM out = [] /\ out_eps_h out = [0%R])
  /\ ~ linear_outputs_all_empty.
Proof.
  destruct ex_fe_linear_runs as (U0 & ft0 & fg0 & K0 & h1 & Hfe).
  assert (Hrun : fe_nl Rpower diag_solve 0 ex_self [1%R] 3 1%nat ex_ep_linear
                   (ex_elementFun 0) ex_materialFun None ex_store
                 = Some (Ok (NlOut U0 [] [] ft0 fg0 [0%R] (freedofs ex_self) K0), h1)).
  { unfold fe_nl. rewrite Hfe. cbn.
    destruct (Req_dec_T 1 1) as [_|Hne]; [reflexivity|by destruct Hne]. }
  split.
  - do 2 eexists. split; [reflexivity|]. split; [exact Hrun|]. done.
  - intros Hclaim.
    destruct (Hclaim Rpower diag_solve 0%nat ex_self [1%R] 3%R 1%nat ex_ep_linear
                (ex_elementFun 0) ex_materialFun None ex_store _ h1 eq_refl Hrun)
      as (_ & _ & Heps).
    discriminate Heps.
Qed.

(** ** The element loops *)

Lemma for_elems_seq_inv {A} (body : A -> nat -> M A) (I : nat -> A -> store -> Prop)
    (n : nat) :
  (forall k a h a' h', (k < n)%nat -> I k a h -> body a k h = (Ok a', h') -> I (S k) a' h') ->
  forall a0 h0 a' h', I O a0 h0 ->
    for_elems body a0 (seq 0 n) h0 = (Ok a', h') -> I n a' h'.
Proof.
  intros Hstep.
  assert (Hgen : forall m k a0 h0 a' h', (k + m = n)%nat -> I k a0 h0 ->
            for_elems body a0 (seq k m) h0 = (Ok a', h') -> I n a' h').
  { induction m as [|m IH]; intros k a0 h0 a' h' Hkm HI Hrun; simpl in Hrun.
    - unfold ret in Hrun. inversion Hrun; subst a' h'.
      by replace n with k by lia.
    - inv_ok. eapply (IH (S k)); [lia| |exact Hk].
      eapply Hstep; [lia|exact HI|exact Hm]. }
  intros a0 h0 a' h' HI Hrun. by eapply (Hgen n O).
Qed.

Lemma for_elems_Ok_each {A} (body : A -> nat -> M A) (n : nat) (a0 a' : A)
    (h0 h' : store) :
  for_elems body a0 (seq 0 n) h0 = (Ok a', h') ->
  forall k, (k < n)%nat -> exists a h a1 h1, body a k h = (Ok a1, h1).
Proof.
  intros Hrun.
  apply (for_elems_seq_inv body
           (fun m _ _ => forall k, (k < m)%nat -> exists a h a1 h1, body a k h = (Ok a1, h1))
           n) with (a0 := a0) (h0 := h0) (a' := a') (h' := h'); [|lia|exact Hrun].
  intros k a h a1 h1 Hk IH Hbody k' Hk'.
  destruct (decide (k' = k)) as [->|Hne]; [eauto 6|]. apply IH. lia.
Qed.

Lemma iadd_at_Ok (l : loc) (idx : list Z) (w : list R) (h h' : store) (r : unit) :
  iadd_at l idx w h = (Ok r, h') ->
  exists a', np_iadd (default [] (h !! l)) idx w = Ok a' /\ h' = <[l:=a']> h.
Proof.
  unfold iadd_at, bind, load, lift, write.
  destruct (np_iadd (default [] (h !! l)) idx w) as [a'|e]; intros Hrun;
    inversion Hrun; subst. eauto.
Qed.

Lemma take_at_Ok (l : loc) (idx : list Z) (h h' : store) (w : list R) :
  take_at l idx h = (Ok w, h') ->
  np_take (default [] (h !! l)) idx = Ok w /\ h' = h.
Proof.
  unfold take_at, bind, load, lift.
  destruct (np_take (default [] (h !! l)) idx) as [a'|e]; intros Hrun;
    inversion Hrun; subst. done.
Qed.

Lemma iadd_all_app (g : list R) (cs1 cs2 : list (list Z * list R)) :
  iadd_all g (cs1 ++ cs2) = (let? g' := iadd_all g cs1 in iadd_all g' cs2).
Proof.
  revert g. induction cs1 as [|[idx w] cs1 IH]; intros g; simpl; [done|].
  destruct (np_iadd g idx w); simpl; [apply IH|done].
Qed.

Lemma acc_inv_step (l : loc) (g0 : list R) (cs : list (list Z * list R))
    (idx : list Z) (w a' : list R) (h : store) :
  acc_inv l g0 cs h ->
  np_iadd (default [] (h !! l)) idx w = Ok a' ->
  acc_inv l g0 (cs ++ [(idx, w)]) (<[l:=a']> h).
Proof.
  intros (g & Hg & Hall) Hadd. rewrite Hg in Hadd. simpl in Hadd.
  exists a'. split.
  - apply list_lookup_insert_eq. by eapply lookup_lt_Some.
  - rewrite iadd_all_app, Hall. simpl. by rewrite Hadd.
Qed.

Lemma acc_inv_other (l l' : loc) (g0 : list R) (cs : list (list Z * list R))
    (a : list R) (h : store) :
  l <> l' -> acc_inv l g0 cs h -> acc_inv l g0 cs (<[l':=a]> h).
Proof.
  intros Hne (g & Hg & Hall). exists g. split; [|done].
  by rewrite list_lookup_insert_ne.
Qed.

Lemma seq_snoc (k : nat) : seq 0 (S k) = seq 0 k ++ [k].
Proof. by rewrite seq_S. Qed.

Lemma triplets_upto_S idx Ke c (k : nat) :
  triplets_upto idx Ke c (S k)
  = extend_triplets (triplets_upto idx Ke c k) (idx k) (Ke k) (c k).
Proof. unfold triplets_upto. by rewrite seq_snoc, foldl_app. Qed.

Section FeLoop.
Context (power : R -> R -> R).
Context (s : self) (x : list R) (p : R) (epLin : list R).
Context (elementFun : element_fun) (materialFun : material_fun).
Context (eq : option (list R)).

Local Abbreviation out := (lin_out s epLin elementFun materialFun eq).

Lemma fe_elem_Ok (fg ft : loc) (t t' : triplets) (k : nat) (h h' : store) :
  fe_elem power s x p epLin elementFun materialFun eq fg ft t k h = (Ok t', h') ->
  is_Some (edof s !! k) /\ is_Some (x !! k)
  /\ exists g' t1',
       np_iadd (default [] (h !! fg)) (edofIndex s k)
               (scale (density x k) (fext (out k))) = Ok g'
       /\ np_iadd (default [] (<[fg:=g']> h !! ft)) (edofIndex s k) (fext (out k)) = Ok t1'
       /\ h' = <[ft:=t1']> (<[fg:=g']> h)
       /\ t' = extend_triplets t (edofIndex s k) (Ke (out k)) (power (density x k) p).
Proof.
  unfold fe_elem. intros Hrun. inv_ok.
  repeat match goal with
  | H : py_nth _ _ = Ok _ |- _ => apply py_nth_Ok in H
  | H : iadd_at _ _ _ _ = (Ok _, _) |- _ =>
      let a := fresh "g" in let Ha := fresh "Hadd" in
      apply iadd_at_Ok in H as (a & Ha & ->)
  end.
  unfold lin_out, edofIndex, density.
  repeat match goal with
  | H : _ !! k = Some _ |- _ => rewrite H; clear H
  end.
  simpl. repeat split; eauto 10.
Qed.

Lemma fe_loop_inv (fg ft : loc) (g0 t0 : list R) (n : nat) (t : triplets)
    (h0 h' : store) :
  fg <> ft ->
  h0 !! fg = Some g0 ->
  h0 !! ft = Some t0 ->
  for_elems (fe_elem power s x p epLin elementFun materialFun eq fg ft)
            (Triplets [] [] []) (seq 0 n) h0 = (Ok t, h') ->
  length h' = length h0
  /\ (forall l, l <> fg -> l <> ft -> h' !! l = h0 !! l)
  /\ acc_inv fg g0
       (adds (edofIndex s) (fun e => scale (density x e) (fext (out e))) n) h'
  /\ acc_inv ft t0 (adds (edofIndex s) (fun e => fext (out e)) n) h'
  /\ t = triplets_upto (edofIndex s) (fun e => Ke (out e))
           (fun e => power (density x e) p) n
  /\ (forall e, (e < n)%nat -> is_Some (edof s !! e) /\ is_Some (x !! e)).
Proof.
  intros Hne Hg0 Ht0.
  apply (for_elems_seq_inv _ (fun k t h' =>
    length h' = length h0
    /\ (forall l, l <> fg -> l <> ft -> h' !! l = h0 !! l)
    /\ acc_inv fg g0
         (adds (edofIndex s) (fun e => scale (density x e) (fext (out e))) k) h'
    /\ acc_inv ft t0 (adds (edofIndex s) (fun e => fext (out e)) k) h'
    /\ t = triplets_upto (edofIndex s) (fun e => Ke (out e))
             (fun e => power (density x e) p) k
    /\ (forall e, (e < k)%nat -> is_Some (edof s !! e) /\ is_Some (x !! e)))).
  - intros k a h a' h1 Hk (Hlen & Hoth & Hfg & Hft & Ht & Hsome) Hbody.
    apply fe_elem_Ok in Hbody as (He & Hx & g' & t1' & Hadd1 & Hadd2 & -> & ->).
    split; [by rewrite !length_insert|]. split.
    { intros l Hl1 Hl2. rewrite !list_lookup_insert_ne by done. by apply Hoth. }
    unfold adds. rewrite !seq_snoc, !fmap_app. simpl.
    split; [|split; [|split; [|]]].
    + apply acc_inv_other; [done|]. by apply acc_inv_step.
    + apply acc_inv_step; [|done]. by apply acc_inv_other.
    + by rewrite triplets_upto_S, Ht.
    + intros e He'. destruct (decide (e = k)) as [->|Hek]; [done|].
      apply Hsome. lia.
  - split; [done|]. split; [done|]. unfold adds, acc_inv. simpl.
    split; [eauto|]. split; [eauto|]. split; [done|]. intros e He. lia.
Qed.

End FeLoop.

(** ** Sums, and what an in-place addition does entry by entry *)

Local Open Scope R_scope.

Lemma Rsum_app (l1 l2 : list R) : Rsum (l1 ++ l2) = Rsum l1 + Rsum l2.
Proof. induction l1 as [|a l1 IH]; csimpl; [lra|]. rewrite IH. lra. Qed.

Lemma Rsum_ext {A} (f g : A -> R) (l : list A) :
  (forall a, a ∈ l -> f a = g a) -> Rsum (f <$> l) = Rsum (g <$> l).
Proof.
  induction l as [|a l IH]; intros Hfg; csimpl; [done|].
  rewrite Hfg by apply list_elem_of_here. rewrite IH; [done|].
  intros b Hb. apply Hfg. by apply list_elem_of_further.
Qed.

Lemma Rsum_zero {A} (l : list A) : Rsum ((fun _ => 0) <$> l) = 0.
Proof. induction l as [|a l IH]; csimpl; [done|]. rewrite IH. lra. Qed.

Lemma Rsum_plus {A} (f g : A -> R) (l : list A) :
  Rsum ((fun a => f a + g a) <$> l) = Rsum (f <$> l) + Rsum (g <$> l).
Proof. induction l as [|a l IH]; csimpl; [lra|]. rewrite IH. lra. Qed.

(** Exchanging two finite sums *)
Lemma Rsum_swap {A B} (f : A -> B -> R) (la : list A) (lb : list B) :
  Rsum ((fun a => Rsum ((fun b => f a b) <$> lb)) <$> la)
  = Rsum ((fun b => Rsum ((fun a => f a b) <$> la)) <$> lb).
Proof.
  induction la as [|a la IH]; csimpl.
  - by rewrite Rsum_zero.
  - rewrite IH. by rewrite <- Rsum_plus.
Qed.

Lemma scatter_notin (idx : list Z) (w : list R) (i : Z) :
  i ∉ idx -> scatter idx w i = 0.
Proof.
  revert w. induction idx as [|d idx IH]; intros w Hi; [done|].
  destruct w as [|y w]; [done|]. csimpl.
  apply not_elem_of_cons in Hi as [Hne Hi].
  destruct (Z.eqb_spec d i); [congruence|]. rewrite IH by done. lra.
Qed.

Lemma scatter_plus (idx : list Z) (w1 w2 : list R) (i : Z) :
  length w1 = length w2 ->
  scatter idx (zip_with Rplus w1 w2) i = scatter idx w1 i + scatter idx w2 i.
Proof.
  revert w1 w2. induction idx as [|d idx IH]; intros w1 w2 Hlen; csimpl.
  - destruct (zip_with Rplus w1 w2), w1, w2; csimpl; lra.
  - destruct w1 as [|y1 w1], w2 as [|y2 w2]; csimpl in *; try lia; [lra|].
    rewrite IH by lia. destruct (d =? i)%Z; lra.
Qed.

(** Reading through [idx] and scattering back returns the entry itself at
    the positions that [idx] names (once), and nothing elsewhere. *)
Lemma scatter_gather (idx : list Z) (f : Z -> R) (i : Z) :
  NoDup idx ->
  scatter idx (f <$> idx) i = if bool_decide (i ∈ idx) then f i else 0.
Proof.
  induction 1 as [|d idx Hd Hnd IH]; [done|]. csimpl. rewrite IH.
  destruct (Z.eqb_spec d i) as [->|Hne].
  - rewrite (bool_decide_eq_false_2 _ Hd).
    rewrite bool_decide_eq_true_2 by apply list_elem_of_here. lra.
  - destruct (bool_decide_reflect (i ∈ idx)) as [Hin|Hnin].
    + rewrite bool_decide_eq_true_2 by (by apply list_elem_of_further). lra.
    + rewrite bool_decide_eq_false_2; [lra|].
      intros [Heq|Hin]%elem_of_cons; congruence.
Qed.

Lemma py_get_nonneg {A} (l : list A) (i : Z) (a : A) :
  (0 <= i)%Z -> py_get l i = Ok a -> l !! Z.to_nat i = Some a.
Proof.
  intros Hi. unfold py_get. intros Hg. inv_ok.
  destruct (py_idx_nonneg _ _ _ Hi Hr) as [-> _].
  by destruct (l !! Z.to_nat i); inversion Hk.
Qed.

Lemma np_take_nonneg (a : list R) (idx : list Z) (w : list R) :
  Forall (fun d => (0 <= d)%Z) idx ->
  np_take a idx = Ok w ->
  w = (fun d => entry a (Z.to_nat d)) <$> idx
  /\ Forall (fun d => (Z.to_nat d < length a)%nat) idx.
Proof.
  intros Hidx. revert w. induction Hidx as [|i idx Hi _ IH]; intros w Hw;
    csimpl in Hw; inv_ok; [done|].
  destruct (IH _ Hr0) as [-> Hall].
  apply py_get_nonneg in Hr; [|done].
  rewrite fmap_cons. unfold entry at 2. rewrite Hr. csimpl. split; [done|].
  constructor; [by eapply lookup_lt_Some|done].
Qed.

Lemma np_take_length (a : list R) (idx : list Z) (w : list R) :
  np_take a idx = Ok w -> length w = length idx.
Proof.
  revert w. induction idx as [|i idx IH]; intros w Hw; csimpl in Hw; inv_ok; [done|].
  csimpl. f_equal. by apply IH.
Qed.

Lemma broadcast_same (n : nat) (w : list R) :
  length w = n -> broadcast n w = Ok w.
Proof. intros Hn. unfold broadcast. by rewrite (proj2 (Nat.eqb_eq _ _) Hn). Qed.

Lemma np_put_seq_length (a : list R) (ks : list nat) (w : list R) :
  length (np_put_seq a ks w) = length a.
Proof.
  revert a w. induction ks as [|k ks IH]; intros a w; [done|].
  destruct w as [|c w]; [done|]. csimpl. by rewrite IH, length_insert.
Qed.

Lemma np_put_seq_entry (idx : list Z) (a w : list R) (i : nat) :
  NoDup idx ->
  Forall (fun d => (0 <= d)%Z) idx ->
  length w = length idx ->
  (i < length a)%nat ->
  entry (np_put_seq a (Z.to_nat <$> idx) w) i
  = (if bool_decide (Z.of_nat i ∈ idx) then 0 else entry a i)
    + scatter idx w (Z.of_nat i).
Proof.
  intros Hnd. revert a w. induction Hnd as [|d idx Hd Hnd IH];
    intros a w Hnn Hlen Hi.
  - destruct w; csimpl; lra.
  - destruct w as [|c w]; [done|]. csimpl in *.
    inversion Hnn as [|? ? Hd0 Hnn']; subst.
    rewrite IH; [|done|lia|by rewrite length_insert].
    destruct (Z.eqb_spec d (Z.of_nat i)) as [->|Hne].
    + rewrite (bool_decide_eq_false_2 _ Hd).
      rewrite bool_decide_eq_true_2 by apply list_elem_of_here.
      unfold entry. rewrite Nat2Z.id, list_lookup_insert_eq by done. csimpl. lra.
    + assert (Hne' : Z.to_nat d <> i) by lia.
      unfold entry at 1. rewrite list_lookup_insert_ne by done. fold (entry a i).
      destruct (bool_decide_reflect (Z.of_nat i ∈ idx)) as [Hin|Hnin].
      * rewrite bool_decide_eq_true_2 by (by apply list_elem_of_further). lra.
      * rewrite bool_decide_eq_false_2; [lra|].
        intros [Heq|Hin]%elem_of_cons; congruence.
Qed.

(** [g[np.ix_(idx)] += w], for distinct in-range indices: every entry
    grows by what [idx] sends to it. *)
Lemma np_iadd_entry (g : list R) (idx : list Z) (w g' : list R) :
  NoDup idx ->
  Forall (fun d => (0 <= d)%Z) idx ->
  length w = length idx ->
  np_iadd g idx w = Ok g' ->
  length g' = length g
  /\ forall i, (i < length g)%nat ->
       entry g' i = entry g i + scatter idx w (Z.of_nat i).
Proof.
  intros Hnd Hnn Hlen Hadd. unfold np_iadd in Hadd. inv_ok.
  rewrite broadcast_same in Hr0 by done. inv_ok.
  unfold np_put in Hk0. inv_ok.
  destruct (py_idxs_nonneg _ _ _ Hnn Hr0) as [-> _].
  pose proof (np_take_length _ _ _ Hr) as Hlen_old.
  rewrite broadcast_same in Hr1 by (rewrite length_zip_with; lia). inv_ok.
  split; [apply np_put_seq_length|]. intros i Hi.
  rewrite np_put_seq_entry; [|done|done|rewrite length_zip_with; lia|done].
  rewrite scatter_plus by lia.
  destruct (np_take_nonneg _ _ _ Hnn Hr) as [-> _].
  rewrite (scatter_gather idx (fun d => entry g (Z.to_nat d))) by done.
  rewrite Nat2Z.id. destruct (bool_decide _); lra.
Qed.

Lemma iadd_all_entry (g0 : list R) (cs : list (list Z * list R)) (g : list R) :
  Forall (fun c => NoDup c.1 /\ Forall (fun d => (0 <= d)%Z) c.1
                   /\ length c.2 = length c.1) cs ->
  iadd_all g0 cs = Ok g ->
  length g = length g0
  /\ forall i, (i < length g0)%nat ->
       entry g i = entry g0 i + Rsum ((fun c => scatter c.1 c.2 (Z.of_nat i)) <$> cs).
Proof.
  intros Hcs. revert g0. induction Hcs as [|[idx w] cs (Hnd & Hnn & Hlen) _ IH];
    intros g0 Hall; csimpl in Hall; inv_ok.
  - split; [done|]. intros i _. csimpl. lra.
  - csimpl in *. destruct (np_iadd_entry _ _ _ _ Hnd Hnn Hlen Hr) as [Hl1 He1].
    destruct (IH _ Hk) as [Hl2 He2]. split; [lia|]. intros i Hi.
    rewrite He2 by lia. rewrite He1 by done. lra.
Qed.

(** ** Triplets and the assembled matrix *)

Lemma coo_sum_app (r1 r2 c1 c2 : list Z) (d1 d2 : list R) (i j : Z) :
  length r1 = length d1 -> length c1 = length d1 ->
  coo_sum (r1 ++ r2) (c1 ++ c2) (d1 ++ d2) i j
  = coo_sum r1 c1 d1 i j + coo_sum r2 c2 d2 i j.
Proof.
  revert c1 d1. induction r1 as [|r r1 IH]; intros c1 d1 Hr Hc.
  - destruct d1; [|done]. destruct c1; [|done]. simpl. lra.
  - destruct d1 as [|d d1]; [done|]. destruct c1 as [|c c1]; [done|].
    simpl in *. rewrite IH by lia. lra.
Qed.

Lemma coo_sum_row (I : list Z) (ja : Z) (w : list R) (i j : Z) :
  coo_sum I (replicate (length I) ja) w i j
  = if (ja =? j)%Z then scatter I w i else 0.
Proof.
  revert w. induction I as [|d I IH]; intros w; simpl.
  - by destruct (ja =? j)%Z.
  - destruct w as [|y w]; [by destruct (ja =? j)%Z|].
    rewrite IH. destruct (d =? i)%Z, (ja =? j)%Z; simpl; lra.
Qed.

Lemma coo_sum_block (I J : list Z) (Ks : list (list R)) (c : R) (i j : Z) :
  length Ks = length J ->
  Forall (fun r => length r = length I) Ks ->
  coo_sum (concat (replicate (length J) I)) (J ≫= replicate (length I))
          ((fun k => k * c) <$> concat Ks) i j
  = Rsum (zip_with (fun ja row =>
            if (ja =? j)%Z then scatter I ((fun k => k * c) <$> row) i else 0) J Ks).
Proof.
  revert Ks. induction J as [|ja J IH]; intros Ks Hlen Hrows.
  - by destruct Ks.
  - destruct Ks as [|row Ks]; [done|].
    inversion Hrows as [|? ? Hrow Hrows']; subst.
    csimpl. rewrite fmap_app, coo_sum_app;
      [|by rewrite length_fmap|by rewrite length_replicate, length_fmap].
    rewrite coo_sum_row, IH; [done|simpl in Hlen; lia|done].
Qed.

Lemma Rsum_seq_S (f : nat -> R) (n : nat) :
  Rsum (f <$> seq 0 (S n)) = f O + Rsum ((fun k => f (S k)) <$> seq 0 n).
Proof.
  change (seq 0 (S n)) with (O :: seq 1 n). csimpl.
  by rewrite <- fmap_S_seq, <- list_fmap_compose.
Qed.

Lemma Rsum_zip_with_seq {A B} (f : A -> B -> R) (l1 : list A) (l2 : list B)
    (d1 : A) (d2 : B) :
  length l2 = length l1 ->
  Rsum (zip_with f l1 l2)
  = Rsum ((fun a => f (default d1 (l1 !! a)) (default d2 (l2 !! a)))
            <$> seq 0 (length l1)).
Proof.
  revert l2. induction l1 as [|a l1 IH]; intros l2 Hlen.
  - by destruct l2.
  - destruct l2 as [|b l2]; [done|]. simpl length. rewrite Rsum_seq_S.
    simpl. rewrite IH by (simpl in Hlen; lia). done.
Qed.

Lemma scatter_seq (I : list Z) (w : list R) (i : Z) :
  length w = length I ->
  scatter I w i
  = Rsum ((fun b => if (default (-1)%Z (I !! b) =? i)%Z then entry w b else 0)
            <$> seq 0 (length I)).
Proof.
  revert w. induction I as [|d I IH]; intros w Hlen.
  - by destruct w.
  - destruct w as [|y w]; [done|]. simpl length. rewrite Rsum_seq_S.
    simpl. rewrite IH by (simpl in Hlen; lia). done.
Qed.

(** The triplets of one element, summed at position [(i, j)] *)
Lemma coo_sum_element (idx : list Z) (Ke : list (list R)) (c : R) (i j : Z) :
  square (length idx) Ke ->
  coo_sum (concat (replicate (length idx) idx)) (idx ≫= replicate (length idx))
          ((fun k => k * c) <$> concat Ke) i j
  = block_sum idx Ke c i j.
Proof.
  intros [Hlen Hrows]. rewrite coo_sum_block by done.
  rewrite (Rsum_zip_with_seq _ idx Ke (-1)%Z []) by done.
  unfold block_sum. apply Rsum_ext. intros a Ha.
  apply list_elem_of_In, in_seq in Ha.
  destruct (lookup_lt_is_Some_2 Ke a ltac:(lia)) as [row Hrow].
  rewrite Hrow. simpl.
  assert (Hrl : length row = length idx).
  { rewrite Forall_forall in Hrows. apply Hrows. by eapply list_elem_of_lookup_2. }
  destruct (default (-1)%Z (idx !! a) =? j)%Z eqn:Hj.
  - rewrite scatter_seq by (by rewrite length_fmap).
    apply Rsum_ext. intros b Hb. rewrite andb_true_r.
    destruct (_ =? i)%Z; [|done].
    unfold entry, mat_entry. rewrite Hrow. simpl. rewrite list_lookup_fmap.
    destruct (row !! b); simpl; lra.
  - symmetry. erewrite Rsum_ext; [apply Rsum_zero|]. intros b _. simpl.
    by rewrite andb_false_r.
Qed.

Lemma extend_triplets_lengths (t : triplets) (idx : list Z) (Ke : list (list R)) (c : R) :
  square (length idx) Ke ->
  length (t_row t) = length (t_data t) ->
  length (t_col t) = length (t_data t) ->
  let t' := extend_triplets t idx Ke c in
  length (t_row t') = length (t_data t') /\ length (t_col t') = length (t_data t').
Proof.
  intros [Hlen Hrows] Hr Hc. simpl. rewrite !length_app, length_fmap.
  assert (Hcc : forall (Ks : list (list R)),
            Forall (fun r => length r = length idx) Ks ->
            length (concat Ks) = (length Ks * length idx)%nat).
  { induction 1 as [|r Ks Hr' _ IH]; [done|]. simpl.
    rewrite length_app, IH, Hr'. lia. }
  rewrite (Hcc _ Hrows), Hlen.
  assert (H1 : forall m, length (concat (replicate m idx)) = (m * length idx)%nat).
  { induction m as [|m IH]; [done|]. simpl. rewrite length_app, IH. lia. }
  assert (H2 : forall (J : list Z) m, length (J ≫= replicate m) = (length J * m)%nat).
  { induction J as [|ja J IH]; intros m; [done|]. csimpl.
    rewrite length_app, length_replicate, IH. lia. }
  rewrite H1, H2. lia.
Qed.

Lemma coo_sum_triplets_upto (idx : nat -> list Z) (Ke : nat -> list (list R))
    (c : nat -> R) (n : nat) (i j : Z) :
  (forall e, (e < n)%nat -> square (length (idx e)) (Ke e)) ->
  let t := triplets_upto idx Ke c n in
  length (t_row t) = length (t_data t)
  /\ length (t_col t) = length (t_data t)
  /\ coo_sum (t_row t) (t_col t) (t_data t) i j
     = Rsum ((fun e => block_sum (idx e) (Ke e) (c e) i j) <$> seq 0 n).
Proof.
  induction n as [|n IH]; intros Hsq; [done|].
  destruct IH as (Hr & Hc & Hsum); [intros e He; apply Hsq; lia|].
  cbv zeta. rewrite triplets_upto_S.
  destruct (extend_triplets_lengths (triplets_upto idx Ke c n) (idx n) (Ke n) (c n))
    as [Hr' Hc']; [apply Hsq; lia|done..|].
  split; [exact Hr'|]. split; [exact Hc'|].
  unfold extend_triplets. cbn [t_row t_col t_data].
  rewrite coo_sum_app by done. rewrite Hsum.
  rewrite coo_sum_element by (apply Hsq; lia).
  by rewrite seq_snoc, fmap_app, Rsum_app; csimpl; rewrite Rplus_0_r.
Qed.

Lemma py_range_lookup (n : Z) (i : nat) :
  (Z.of_nat i < n)%Z -> py_range n !! i = Some (Z.of_nat i).
Proof.
  intros Hi. unfold py_range. rewrite list_lookup_fmap.
  rewrite lookup_seq_lt by lia. done.
Qed.

Lemma tocsc_entry (m : coo) (i j : nat) :
  (Z.of_nat i < (coo_shape m).1)%Z -> (Z.of_nat j < (coo_shape m).2)%Z ->
  mat_entry (tocsc m) i j
  = coo_sum (coo_row m) (coo_col m) (coo_data m) (Z.of_nat i) (Z.of_nat j).
Proof.
  intros Hi Hj. unfold mat_entry, tocsc.
  rewrite list_lookup_fmap, py_range_lookup by done. simpl.
  rewrite list_lookup_fmap, py_range_lookup by done. done.
Qed.

Lemma coo_matrix_Ok (data : list R) (row col : list Z) (shape : Z * Z) (m : coo) :
  coo_matrix data row col shape = Ok m ->
  m = Coo shape row col data
  /\ Forall (fun r => (0 <= r < shape.1)%Z) row
  /\ Forall (fun c => (0 <= c < shape.2)%Z) col.
Proof.
  unfold coo_matrix. repeat case_match; try discriminate. intros Hm.
  inversion Hm; subst. split; [done|].
  match goal with H : _ && _ = true |- _ => apply andb_true_iff in H as [Hr Hc] end.
  rewrite forallb_forall in Hr, Hc.
  split; apply Forall_forall; intros d Hd; apply list_elem_of_In in Hd.
  - apply Hr in Hd. apply andb_true_iff in Hd as [?%Z.leb_le ?%Z.ltb_lt]. lia.
  - apply Hc in Hd. apply andb_true_iff in Hd as [?%Z.leb_le ?%Z.ltb_lt]. lia.
Qed.

(** ** What [fe] assembles *)

Lemma np_copy_Ok (l l' : loc) (h h' : store) :
  np_copy l h = (Ok l', h') -> l' = length h /\ h' = h ++ [default [] (h !! l)].
Proof. unfold np_copy, bind, load, alloc. intros Hrun. by inversion Hrun. Qed.

Lemma np_zeros_like_Ok (l l' : loc) (h h' : store) :
  np_zeros_like l h = (Ok l', h') ->
  l' = length h /\ h' = h ++ [replicate (length (default [] (h !! l))) 0].
Proof. unfold np_zeros_like, bind, load, alloc. intros Hrun. by inversion Hrun. Qed.

Lemma put_at_Ok (l : loc) (idx : list Z) (w : list R) (h h' : store) (r : unit) :
  put_at l idx w h = (Ok r, h') ->
  exists a', np_put (default [] (h !! l)) idx w = Ok a' /\ h' = <[l:=a']> h.
Proof.
  unfold put_at, bind, load, lift, write.
  destruct (np_put (default [] (h !! l)) idx w) as [a'|e]; intros Hrun;
    inversion Hrun; subst. eauto.
Qed.

Lemma load_Ok (l : loc) (h h' : store) (a : list R) :
  load l h = (Ok a, h') -> a = default [] (h !! l) /\ h' = h.
Proof. unfold load. intros Hrun. by inversion Hrun. Qed.

Lemma elem_of_concat_replicate (idx : list Z) (d : Z) :
  d ∈ idx -> d ∈ concat (replicate (length idx) idx).
Proof.
  intros Hd. destruct idx as [|d0 idx]; [by apply elem_of_nil in Hd|].
  change (concat (replicate (length (d0 :: idx)) (d0 :: idx)))
    with ((d0 :: idx) ++ concat (replicate (length idx) (d0 :: idx))).
  apply elem_of_app. by left.
Qed.

Lemma elem_of_triplets_upto_row (idx : nat -> list Z) (Ke : nat -> list (list R))
    (c : nat -> R) (n e : nat) (d : Z) :
  (e < n)%nat -> d ∈ idx e -> d ∈ t_row (triplets_upto idx Ke c n).
Proof.
  induction n as [|n IH]; intros He Hd; [lia|].
  rewrite triplets_upto_S. simpl. apply elem_of_app.
  destruct (decide (e = n)) as [->|Hne].
  - right. by apply elem_of_concat_replicate.
  - left. apply IH; [lia|done].
Qed.

Lemma edofIndex_NoDup (s : self) (e : nat) :
  Forall NoDup (edof s) -> NoDup (edofIndex s e).
Proof.
  intros Hnd. unfold edofIndex. destruct (edof s !! e) as [row|] eqn:Hrow; simpl.
  - apply NoDup_fmap_2; [intros a b; lia|].
    rewrite Forall_forall in Hnd. apply Hnd. by eapply list_elem_of_lookup_2.
  - constructor.
Qed.

Lemma transpose_length (n : nat) (K : list (list R)) : length (transpose n K) = n.
Proof. unfold transpose. by rewrite length_fmap, length_seq. Qed.

Lemma transpose_lookup (n : nat) (K : list (list R)) (a : nat) :
  (a < n)%nat -> transpose n K !! a = Some ((fun r => default 0 (r !! a)) <$> K).
Proof.
  intros Ha. unfold transpose. by rewrite list_lookup_fmap, lookup_seq_lt.
Qed.

(** A table that equals its transpose is square and has equal entries at
    mirrored positions. *)
Lemma transpose_eq_symmetric (n : nat) (K : list (list R)) :
  K = transpose n K ->
  square n K /\ forall a b, (a < n)%nat -> mat_entry K a b = mat_entry K b a.
Proof.
  intros HK.
  assert (Hlen : length K = n) by (rewrite HK; apply transpose_length).
  split; [split; [done|]|].
  - apply Forall_forall. intros r Hr.
    apply list_elem_of_lookup in Hr as [a Ha].
    assert (Han : (a < n)%nat) by (rewrite <- Hlen; by eapply lookup_lt_Some).
    pose proof (transpose_lookup n K a Han) as Hl.
    rewrite <- HK, Ha in Hl. inversion Hl; subst r.
    by rewrite length_fmap.
  - intros a b Ha. pose proof (transpose_lookup n K a Ha) as Hl.
    rewrite <- HK in Hl. unfold mat_entry. rewrite Hl. simpl.
    rewrite list_lookup_fmap. by destruct (K !! b).
Qed.

Lemma block_sum_symmetric (idx : list Z) (K : list (list R)) (c : R) (i j : Z) :
  K = transpose (length idx) K ->
  block_sum idx K c i j = block_sum idx K c j i.
Proof.
  intros HK. apply transpose_eq_symmetric in HK as [_ Hsym].
  unfold block_sum. rewrite Rsum_swap. apply Rsum_ext. intros a Ha.
  apply Rsum_ext. intros b Hb.
  apply list_elem_of_In, in_seq in Ha. apply list_elem_of_In, in_seq in Hb.
  rewrite andb_comm. rewrite (Hsym b a) by lia. done.
Qed.

Lemma tocsc_transpose (m : coo) (nd : Z) :
  coo_shape m = (nd, nd) ->
  (forall i j, coo_sum (coo_row m) (coo_col m) (coo_data m) i j
               = coo_sum (coo_row m) (coo_col m) (coo_data m) j i) ->
  tocsc m = transpose (Z.to_nat nd) (tocsc m).
Proof.
  intros Hshape Hsym. unfold transpose, tocsc. rewrite Hshape. simpl.
  unfold py_range. rewrite <- !list_fmap_compose.
  apply list_fmap_ext. intros k' i Hi. simpl.
  rewrite <- !list_fmap_compose. apply list_fmap_ext. intros k j Hj. simpl.
  apply lookup_seq in Hi as [-> Hi]. apply lookup_seq in Hj as [-> Hj].
  rewrite !list_lookup_fmap, lookup_seq_lt by done.
  simpl. apply Hsym.
Qed.

Section FeTheorems.
Context (power : R -> R -> R) (spsolve : list (list R) -> list R -> list R).
Context (s : self) (x : list R) (p : R) (F : loc) (ep : list R).
Context (elementFun : element_fun) (materialFun : material_fun).
Context (eq : option (list R)) (epLin : list R).

Local Abbreviation out := (lin_out s epLin elementFun materialFun eq).

(** The steps of a successful call of [fe] *)
Lemma fe_Ok_inv (h h' : store) (f : list R) (U0 ft fg : loc) (K0 : list (list R)) :
  h !! F = Some f ->
  (U s < length h)%nat ->
  fe power spsolve s x p F ep elementFun materialFun eq h = (Ok (U0, ft, fg, K0), h') ->
  force_linear ep = Ok epLin ->
  exists m,
    U0 = U s /\ fg = length h /\ ft = S (length h)
    /\ (let t := triplets_upto (edofIndex s) (fun e => Ke (out e))
                   (fun e => power (density x e) p) (nElem s) in
        coo_matrix (t_data t) (t_row t) (t_col t) (ndof s, ndof s) = Ok m
        /\ K0 = tocsc m
        /\ acc_inv fg f
             (adds (edofIndex s) (fun e => scale (density x e) (fext (out e))) (nElem s)) h'
        /\ acc_inv ft (replicate (length f) 0)
             (adds (edofIndex s) (fun e => fext (out e)) (nElem s)) h')
    /\ (forall e, (e < nElem s)%nat -> is_Some (edof s !! e) /\ is_Some (x !! e))
    /\ (forall l, (l < length h)%nat -> l <> U s -> h' !! l = h !! l).
Proof.
  intros HF HU Hrun HepLin0. unfold fe in Hrun.
  apply bind_Ok in Hrun as (epLin' & h1 & HepLin & Hrun).
  apply lift_Ok in HepLin as [HepLin ->].
  rewrite HepLin0 in HepLin. inversion HepLin; subst epLin'. clear HepLin.
  apply bind_Ok in Hrun as (fg' & h1 & Hcopy & Hrun).
  apply np_copy_Ok in Hcopy as [-> ->]. rewrite HF in Hrun. simpl in Hrun.
  apply bind_Ok in Hrun as (ft' & h2 & Hzeros & Hrun).
  apply np_zeros_like_Ok in Hzeros as [-> ->].
  rewrite lookup_app_l, HF in Hrun by (by eapply lookup_lt_Some).
  simpl in Hrun. rewrite length_app in Hrun. simpl in Hrun.
  replace (length h + 1)%nat with (S (length h)) in Hrun by lia.
  apply bind_Ok in Hrun as (t & h3 & Hloop & Hrun).
  apply (fe_loop_inv _ _ _ _ _ _ _ _ _ _ f (replicate (length f) 0)) in Hloop
    as (Hlen & Hoth & Hfg & Hft & -> & Hsome);
    [|lia| |].
  2:{ rewrite lookup_app_l by (rewrite length_app; simpl; lia).
      by rewrite lookup_app_r, Nat.sub_diag. }
  2:{ rewrite lookup_app_r by (rewrite length_app; simpl; lia).
      rewrite length_app. simpl.
      by replace (S (length h) - (length h + 1))%nat with O by lia. }
  apply bind_Ok in Hrun as (m & h4 & Hcoo & Hrun).
  apply lift_Ok in Hcoo as [Hcoo ->].
  apply bind_Ok in Hrun as (fgv & h4 & Hload & Hrun).
  apply load_Ok in Hload as [-> ->].
  apply bind_Ok in Hrun as (sol & h4 & Hsol & Hrun).
  apply lift_Ok in Hsol as [Hsol ->].
  apply bind_Ok in Hrun as (r & h4 & Hput & Hrun).
  apply put_at_Ok in Hput as (u' & Hput & ->).
  unfold ret in Hrun. inversion Hrun; subst. clear Hrun.
  exists m. split; [done|]. split; [done|]. split; [done|].
  split; [|split].
  - cbv zeta. split; [done|]. split; [done|].
    split; apply acc_inv_other; (done || lia).
  - done.
  - intros l Hl Hne. rewrite list_lookup_insert_ne by done.
    rewrite Hoth by lia. by rewrite !lookup_app_l by (rewrite ?length_app; simpl; lia).
Qed.

Lemma adds_Forall (idx : nat -> list Z) (w : nat -> list R) (n : nat)
    (P : list Z * list R -> Prop) :
  (forall e, (e < n)%nat -> P (idx e, w e)) -> Forall P (adds idx w n).
Proof.
  intros HP. unfold adds. apply Forall_fmap, Forall_forall. intros e He.
  apply list_elem_of_In, in_seq in He. simpl. apply HP. lia.
Qed.

Lemma Rsum_adds (idx : nat -> list Z) (w : nat -> list R) (n : nat) (i : Z) :
  Rsum ((fun c => scatter c.1 c.2 i) <$> adds idx w n)
  = Rsum ((fun e => scatter (idx e) (w e) i) <$> seq 0 n).
Proof. unfold adds. by rewrite <- list_fmap_compose. Qed.

Lemma entry_replicate_0 (n i : nat) : entry (replicate n 0) i = 0.
Proof.
  unfold entry. destruct (replicate n 0 !! i) as [c|] eqn:Hc; [|done].
  by apply lookup_replicate in Hc as [-> _].
Qed.

(** What the additions of the element loop amount to, entry by entry *)
Lemma acc_inv_entry (l : loc) (g0 : list R) (idx : nat -> list Z) (w : nat -> list R)
    (n : nat) (h : store) :
  (forall e, (e < n)%nat ->
     NoDup (idx e) /\ Forall (fun d => (0 <= d)%Z) (idx e)
     /\ length (w e) = length (idx e)) ->
  acc_inv l g0 (adds idx w n) h ->
  exists g, h !! l = Some g /\ length g = length g0
    /\ forall i, (i < length g0)%nat ->
         entry g i = entry g0 i
                     + Rsum ((fun e => scatter (idx e) (w e) (Z.of_nat i)) <$> seq 0 n).
Proof.
  intros Hwf (g & Hg & Hall). exists g. split; [done|].
  apply iadd_all_entry in Hall as [Hlen Hent]; [|by apply adds_Forall].
  split; [done|]. intros i Hi. by rewrite Hent, Rsum_adds.
Qed.

(** C1 (as amended). After a successful call of [fe], the global stiffness
    matrix holds at each position the sum, over all elements and all pairs
    of local DOFs sent to that position, of the entry of the element
    stiffness times [x[e] ** SIMP_penal] (entries that meet at a position
    are added up); [fextGlobal] is [F] plus, per element, the element
    external force times the density [x[e]] itself (exponent one, not the
    penalty); [fext_tilde] is the sum of the element external forces,
    unscaled.  The DOF indices of each element are distinct and the element
    function returns a square stiffness and a force of the element's size. *)
Theorem fe_assembly (h h' : store) (f : list R) (U0 ft fg : loc)
    (K0 : list (list R)) :
  h !! F = Some f ->
  (U s < length h)%nat ->
  force_linear ep = Ok epLin ->
  Forall NoDup (edof s) ->
  (forall e, (e < nElem s)%nat ->
     square (length (edofIndex s e)) (Ke (out e))
     /\ length (fext (out e)) = length (edofIndex s e)) ->
  fe power spsolve s x p F ep elementFun materialFun eq h = (Ok (U0, ft, fg, K0), h') ->
  (forall i j, (Z.of_nat i < ndof s)%Z -> (Z.of_nat j < ndof s)%Z ->
     mat_entry K0 i j
     = Rsum ((fun e => block_sum (edofIndex s e) (Ke (out e)) (power (density x e) p)
                         (Z.of_nat i) (Z.of_nat j)) <$> seq 0 (nElem s)))
  /\ (exists g, h' !! fg = Some g /\ length g = length f
       /\ forall i, (i < length f)%nat ->
            entry g i
            = entry f i
              + Rsum ((fun e => scatter (edofIndex s e)
                                  (scale (density x e) (fext (out e))) (Z.of_nat i))
                        <$> seq 0 (nElem s)))
  /\ (exists g, h' !! ft = Some g /\ length g = length f
       /\ forall i, (i < length f)%nat ->
            entry g i
            = Rsum ((fun e => scatter (edofIndex s e) (fext (out e)) (Z.of_nat i))
                      <$> seq 0 (nElem s))).
Proof.
  intros HF HU HepLin Hnd Hshape Hrun.
  destruct (fe_Ok_inv h h' f U0 ft fg K0 HF HU Hrun HepLin)
    as (m & -> & -> & -> & Hasm & Hsome & _).
  cbv zeta in Hasm. destruct Hasm as (Hcoo & -> & Hfg & Hft).
  apply coo_matrix_Ok in Hcoo as (-> & Hrow & _).
  assert (Hnn : forall e, (e < nElem s)%nat ->
            Forall (fun d => (0 <= d)%Z) (edofIndex s e)).
  { intros e He. apply Forall_forall. intros d Hd.
    rewrite Forall_forall in Hrow.
    destruct (Hrow d); [|done].
    by eapply elem_of_triplets_upto_row. }
  split; [|split].
  - intros i j Hi Hj. rewrite tocsc_entry by done. simpl.
    by destruct (coo_sum_triplets_upto (edofIndex s) (fun e => Ke (out e))
                   (fun e => power (density x e) p) (nElem s)
                   (Z.of_nat i) (Z.of_nat j))
      as (_ & _ & ->); [intros e He; by apply Hshape|].
  - apply acc_inv_entry in Hfg; [done|]. intros e He.
    split; [by apply edofIndex_NoDup|]. split; [by apply Hnn|].
    unfold scale. rewrite length_fmap. by apply Hshape.
  - apply acc_inv_entry in Hft as (g & Hg & Hlen & Hent).
    + exists g. rewrite length_replicate in Hlen. split; [done|]. split; [done|].
      intros i Hi. rewrite Hent by (by rewrite length_replicate).
      rewrite entry_replicate_0. lra.
    + intros e He. split; [by apply edofIndex_NoDup|]. split; [by apply Hnn|].
      by apply Hshape.
Qed.

(** C8. If the stiffness matrix that the element function returns for
    every element equals its transpose, the global stiffness matrix that
    [fe] returns equals its transpose; this holds for every density field
    and every penalty exponent, so in particular for equal densities and
    the exponent 1. *)
Theorem fe_stiffness_symmetric (h h' : store) (f : list R) (U0 ft fg : loc)
    (K0 : list (list R)) :
  h !! F = Some f ->
  (U s < length h)%nat ->
  force_linear ep = Ok epLin ->
  (forall e, (e < nElem s)%nat ->
     Ke (out e) = transpose (length (edofIndex s e)) (Ke (out e))) ->
  fe power spsolve s x p F ep elementFun materialFun eq h = (Ok (U0, ft, fg, K0), h') ->
  K0 = transpose (Z.to_nat (ndof s)) K0.
Proof.
  intros HF HU HepLin Hsym Hrun.
  destruct (fe_Ok_inv h h' f U0 ft fg K0 HF HU Hrun HepLin)
    as (m & -> & -> & -> & Hasm & Hsome & _).
  cbv zeta in Hasm. destruct Hasm as (Hcoo & -> & _ & _).
  apply coo_matrix_Ok in Hcoo as (-> & _ & _).
  apply tocsc_transpose; [done|]. intros i j. simpl.
  assert (Hsq : forall e, (e < nElem s)%nat ->
            square (length (edofIndex s e)) (Ke (out e))).
  { intros e He. by apply transpose_eq_symmetric, Hsym. }
  destruct (coo_sum_triplets_upto (edofIndex s) (fun e => Ke (out e))
              (fun e => power (density x e) p) (nElem s) i j Hsq) as (_ & _ & ->).
  destruct (coo_sum_triplets_upto (edofIndex s) (fun e => Ke (out e))
              (fun e => power (density x e) p) (nElem s) j i Hsq) as (_ & _ & ->).
  apply Rsum_ext. intros e He. apply list_elem_of_In, in_seq in He.
  apply block_sum_symmetric, Hsym. lia.
Qed.

End FeTheorems.

(** *** [fe] on the one-triangle model, density 1/2 and penalty 3 *)

Lemma ex_fe_run :
  exists K0 u,
    fe Rpower diag_solve ex_self [1 / 2] 3 1%nat ex_ep_linear
       (ex_elementFun 0) ex_materialFun None ex_store
    = (Ok (0%nat, 3%nat, 2%nat, K0),
       [u; [0; 0; 0; 0; 0; 1];
        [0 + 1 * (1 / 2); 0 + 1 * (1 / 2); 0 + 1 * (1 / 2);
         0 + 1 * (1 / 2); 0 + 1 * (1 / 2); 1 + 1 * (1 / 2)];
        [0 + 1; 0 + 1; 0 + 1; 0 + 1; 0 + 1; 0 + 1]]).
Proof. do 2 eexists. py_eval. reflexivity. Qed.

Lemma ex_edof_NoDup : Forall NoDup (edof ex_self).
Proof.
  repeat constructor; rewrite ?elem_of_cons, ?elem_of_nil; intros H;
    repeat destruct H as [H|H]; try discriminate H; done.
Qed.

Lemma ex_shapes (offset : R) (ep : list R) (e : nat) :
  (e < nElem ex_self)%nat ->
  square (length (edofIndex ex_self e))
         (Ke (lin_out ex_self ep (ex_elementFun offset) ex_materialFun None e))
  /\ length (fext (lin_out ex_self ep (ex_elementFun offset) ex_materialFun None e))
     = length (edofIndex ex_self e).
Proof.
  intros He. assert (e = O) as -> by (simpl in He; lia).
  split; [split; [reflexivity | repeat constructor] | reflexivity].
Qed.

Lemma fe_assembly_witness :
  exists K0 h',
    fe Rpower diag_solve ex_self [1 / 2] 3 1%nat ex_ep_linear
       (ex_elementFun 0) ex_materialFun None ex_store
    = (Ok (0%nat, 3%nat, 2%nat, K0), h')
    /\ (forall i j, (Z.of_nat i < ndof ex_self)%Z -> (Z.of_nat j < ndof ex_self)%Z ->
          mat_entry K0 i j
          = Rsum ((fun e =>
              block_sum (edofIndex ex_self e)
                (Ke (lin_out ex_self [1; 1; 2; 1] (ex_elementFun 0) ex_materialFun None e))
                (Rpower (density [1 / 2] e) 3) (Z.of_nat i) (Z.of_nat j))
              <$> seq 0 (nElem ex_self)))
    /\ (exists g, h' !! 2%nat = Some g /\ length g = 6%nat
         /\ forall i, (i < 6)%nat ->
              entry g i
              = entry [0; 0; 0; 0; 0; 1] i
                + Rsum ((fun e => scatter (edofIndex ex_self e)
                          (scale (density [1 / 2] e)
                             (fext (lin_out ex_self [1; 1; 2; 1] (ex_elementFun 0)
                                            ex_materialFun None e)))
                          (Z.of_nat i)) <$> seq 0 (nElem ex_self)))
    /\ (exists g, h' !! 3%nat = Some g /\ length g = 6%nat
         /\ forall i, (i < 6)%nat ->
              entry g i
              = Rsum ((fun e => scatter (edofIndex ex_self e)
                        (fext (lin_out ex_self [1; 1; 2; 1] (ex_elementFun 0)
                                       ex_materialFun None e))
                        (Z.of_nat i)) <$> seq 0 (nElem ex_self))).
Proof.
  destruct ex_fe_run as (K0 & u & Hrun). exists K0. eexists.
  split; [exact Hrun|].
  apply (fe_assembly Rpower diag_solve ex_self [1 / 2] 3 1%nat ex_ep_linear
           (ex_elementFun 0) ex_materialFun None [1; 1; 2; 1] ex_store _
           [0; 0; 0; 0; 0; 1] 0%nat 3%nat 2%nat K0).
  - reflexivity.
  - simpl. lia.
  - reflexivity.
  - exact ex_edof_NoDup.
  - apply ex_shapes.
  - exact Hrun.
Defined.

Lemma Rpower_half_3 : Rpower (1 / 2) 3 = 1 / 8.
Proof.
  replace 3 with (INR 3) by (simpl; lra).
  rewrite Rpower_pow by lra. simpl. lra.
Qed.

(** The entry at DOF 0 of [fextGlobal] is [0 + 1 * (1/2)], the body force
    times the density, and not the body force times the density cubed. *)
Lemma fe_force_scaled_by_penalty_fails :
  (exists K0 u g ft,
     fe Rpower diag_solve ex_self [1 / 2] 3 1%nat ex_ep_linear
        (ex_elementFun 0) ex_materialFun None ex_store
     = (Ok (0%nat, 3%nat, 2%nat, K0), [u; [0; 0; 0; 0; 0; 1]; g; ft])
     /\ entry g 0 = 1 / 2)
  /\ ~ fe_force_scaled_by_penalty.
Proof.
  destruct ex_fe_run as (K0 & u & Hrun). split.
  - do 4 eexists. split; [exact Hrun|]. unfold entry. simpl. lra.
  - intros Hclaim.
    destruct (Hclaim Rpower diag_solve ex_self [1 / 2] 3 1%nat ex_ep_linear
                (ex_elementFun 0) ex_materialFun None [1; 1; 2; 1] ex_store _
                [0; 0; 0; 0; 0; 1] 0%nat 3%nat 2%nat K0
                eq_refl ltac:(simpl; lia) eq_refl ex_edof_NoDup
                (ex_shapes 0 _) Hrun) as (g & Hg & Hent).
    simpl in Hg. inversion Hg; subst g. clear Hg.
    specialize (Hent O ltac:(simpl; lia)).
    revert Hent. py_eval. rewrite Rpower_half_3. lra.
Qed.

(** *** The theorems above on the one-triangle model *)

Lemma init_element_shape_witness :
  (__init__ [[1; 2; 3; 4; 5; 6; 7]%Z] ex_coords ex_mp ex_fixdofs []).1
  = Raise (Exception "Unrecognized Element Shape, Check eDof Matrix")
  /\ exists s, (__init__ ex_edof ex_coords ex_mp ex_fixdofs []).1 = Ok s
               /\ edof s = ex_edof /\ nElem s = 1%nat.
Proof.
  split.
  - apply (init_element_shape [[1; 2; 3; 4; 5; 6; 7]%Z] ex_coords ex_mp ex_fixdofs []
             [1; 2; 3; 4; 5; 6; 7]%Z [] 1 (3 / 10));
      [reflexivity | reflexivity | reflexivity | discriminate
      | repeat constructor; lia | simpl; lia | simpl; lia].
  - apply (init_element_shape ex_edof ex_coords ex_mp ex_fixdofs []
             [1; 2; 3; 4; 5; 6]%Z [] 1 (3 / 10));
      [reflexivity | reflexivity | reflexivity | discriminate
      | repeat constructor; lia | left; reflexivity
      | repeat constructor; simpl; lia].
Defined.

Lemma ex_init_run :
  __init__ ex_edof ex_coords ex_mp ex_fixdofs []
  = (Ok ex_self, [replicate 6 0]).
Proof.
  unfold __init__, bind, lift, dict_get.
  replace (ex_mp !! "E") with (Some 1) by reflexivity.
  replace (ex_mp !! "nu") with (Some (3 / 10)) by reflexivity.
  py_eval. reflexivity.
Qed.

Lemma fe_stiffness_symmetric_witness :
  exists K0 h',
    fe Rpower diag_solve ex_self [1 / 2] 3 1%nat ex_ep_linear
       (ex_elementFun 0) ex_materialFun None ex_store
    = (Ok (0%nat, 3%nat, 2%nat, K0), h')
    /\ K0 = transpose (Z.to_nat (ndof ex_self)) K0.
Proof.
  destruct ex_fe_run as (K0 & u & Hrun). exists K0. eexists.
  split; [exact Hrun|].
  eapply (fe_stiffness_symmetric Rpower diag_solve ex_self [1 / 2] 3 1%nat ex_ep_linear
           (ex_elementFun 0) ex_materialFun None [1; 1; 2; 1] ex_store _
           [0; 0; 0; 0; 0; 1] 0%nat 3%nat 2%nat K0).
  - reflexivity.
  - simpl. lia.
  - reflexivity.
  - intros e He. assert (e = O) as -> by (simpl in He; lia). reflexivity.
  - exact Hrun.
Defined.

Lemma load_vector_unchanged_witness :
  (fe Rpower diag_solve ex_self [1 / 2] 3 1%nat ex_ep_nonlinear
      (ex_elementFun 1) ex_materialFun None ex_store).2 !! 1%nat
  = ex_store !! 1%nat
  /\ (forall U0 ft fg K0,
        (fe Rpower diag_solve ex_self [1 / 2] 3 1%nat ex_ep_nonlinear
            (ex_elementFun 1) ex_materialFun None ex_store).1
        = Ok (U0, ft, fg, K0) -> fg <> 1%nat /\ ft <> 1%nat)
  /\ (forall st,
        (newton_assemble Rpower ex_self [1 / 2] 3 1%nat ex_ep_nonlinear
           (ex_elementFun 1) ex_materialFun None st ex_store).2 !! 1%nat
        = ex_store !! 1%nat)
  /\ (forall fuel r h',
        fe_nl Rpower diag_solve fuel ex_self [1 / 2] 3 1%nat ex_ep_nonlinear
              (ex_elementFun 1) ex_materialFun None ex_store = Some (r, h') ->
        h' !! 1%nat = ex_store !! 1%nat).
Proof.
  apply load_vector_unchanged; [simpl; lia | discriminate].
Defined.

(** [fe] returns the object's own array [self.U].  A caller that hands
    this array back as the load vector [F] finds it overwritten at the free
    DOF: [F] is [[0,0,0,0,0,2]] before the call and [[0,0,0,0,0,20]] after
    it, the solution for the load [2 + 1/2] and the stiffness [1/8]. *)
Lemma load_vector_aliased_fails :
  (exists r h' u5,
     fe Rpower diag_solve ex_self [1 / 2] 3 (U ex_self) ex_ep_linear
        (ex_elementFun 0) ex_materialFun None ex_nl_store = (Ok r, h')
     /\ ex_nl_store !! U ex_self = Some [0; 0; 0; 0; 0; 2]
     /\ h' !! U ex_self = Some [0; 0; 0; 0; 0; u5]
     /\ u5 = 20)
  /\ ~ load_vector_kept_by_every_call.
Proof.
  assert (Hrun : exists r h' u5,
     fe Rpower diag_solve ex_self [1 / 2] 3 (U ex_self) ex_ep_linear
        (ex_elementFun 0) ex_materialFun None ex_nl_store = (Ok r, h')
     /\ ex_nl_store !! U ex_self = Some [0; 0; 0; 0; 0; 2]
     /\ h' !! U ex_self = Some [0; 0; 0; 0; 0; u5]
     /\ u5 = 20).
  { do 3 eexists. split; [py_eval; reflexivity|]. split; [reflexivity|].
    split; [reflexivity|]. rewrite Rpower_half_3. lra. }
  split; [exact Hrun|].
  destruct Hrun as (r & h' & u5 & Hfe & _ & HU' & Hu5). intros Hclaim.
  destruct (Hclaim Rpower diag_solve ex_self [1 / 2] 3 (U ex_self) ex_ep_linear
              (ex_elementFun 0) ex_materialFun None ex_nl_store
              ltac:(simpl; lia)) as [Hkept _].
  rewrite Hfe in Hkept. cbn [snd] in Hkept. rewrite HU' in Hkept.
  inversion Hkept. lra.
Qed.

Lemma ex_zero_at : zero_at ex_fixdofs (U ex_self) ex_store.
Proof.
  intros a k c Ha _ Hc. simpl in Ha. inversion Ha; subst a.
  change [0; 0; 0; 0; 0; 0] with (replicate 6 0) in Hc.
  by apply lookup_replicate in Hc as [-> _].
Qed.

Lemma fixed_dofs_stay_zero_witness :
  (only_free_assigned (freedofs ex_self) (U ex_self) ex_store
     (fe Rpower diag_solve ex_self [1 / 2] 3 1%nat ex_ep_nonlinear
         (ex_elementFun 1) ex_materialFun None ex_store).2
   /\ zero_at ex_fixdofs (U ex_self)
        (fe Rpower diag_solve ex_self [1 / 2] 3 1%nat ex_ep_nonlinear
            (ex_elementFun 1) ex_materialFun None ex_store).2)
  /\ (forall st,
        only_free_assigned (freedofs ex_self) (U ex_self) ex_store
          (newton_assemble Rpower ex_self [1 / 2] 3 1%nat ex_ep_nonlinear
             (ex_elementFun 1) ex_materialFun None st ex_store).2
        /\ zero_at ex_fixdofs (U ex_self)
             (newton_assemble Rpower ex_self [1 / 2] 3 1%nat ex_ep_nonlinear
                (ex_elementFun 1) ex_materialFun None st ex_store).2)
  /\ (forall st,
        only_free_assigned (freedofs ex_self) (U ex_self) ex_store
          (newton_update diag_solve ex_self st ex_store).2
        /\ zero_at ex_fixdofs (U ex_self) (newton_update diag_solve ex_self st ex_store).2)
  /\ (forall fuel r h',
        fe_nl Rpower diag_solve fuel ex_self [1 / 2] 3 1%nat ex_ep_nonlinear
              (ex_elementFun 1) ex_materialFun None ex_store = Some (r, h') ->
        only_free_assigned (freedofs ex_self) (U ex_self) ex_store h'
        /\ zero_at ex_fixdofs (U ex_self) h').
Proof.
  apply fixed_dofs_stay_zero; [reflexivity | simpl; lia | exact ex_zero_at].
Defined.

(** ** The element loop of a Newton iteration *)

Section NlLoop.
Context (power : R -> R -> R).
Context (s : self) (x : list R) (p : R) (ep : list R).
Context (elementFun : element_fun) (materialFun : material_fun).
Context (eq : option (list R)).

Lemma fe_nl_elem_Ok (fg fi ft : loc) (a a' : nl_acc) (k : nat) (h h' : store) :
  let o := nl_elem_out s ep elementFun materialFun eq (default [] (h !! U s)) k in
  fe_nl_elem power s x p ep elementFun materialFun eq fg fi ft a k h = (Ok a', h') ->
  (is_Some (edof s !! k) /\ is_Some (x !! k)
   /\ length (edofIndex s k) = np_size1 (edof s)
   /\ length (fint o) = np_size1 (edof s) /\ length (fext o) = np_size1 (edof s))
  /\ (exists g' f' t',
        np_iadd (default [] (h !! fg)) (edofIndex s k)
                (scale (density x k) (fext o)) = Ok g'
        /\ np_iadd (default [] (<[fg:=g']> h !! fi)) (edofIndex s k)
                   (scale (power (density x k) p) (fint o)) = Ok f'
        /\ np_iadd (default [] (<[fi:=f']> (<[fg:=g']> h) !! ft)) (edofIndex s k)
                   (fext o) = Ok t'
        /\ h' = <[ft:=t']> (<[fi:=f']> (<[fg:=g']> h)))
  /\ (exists vm,
        von_mises (sig o) = Ok vm
        /\ (k < length (a_dR a))%nat /\ (k < length (a_sig_VM a))%nat
        /\ (k < length (a_eps_h a))%nat
        /\ a' = NlAcc (extend_triplets (a_t a) (edofIndex s k) (Ke o)
                         (power (density x k) p))
                      (<[k := dR_row power p (density x k) o]> (a_dR a))
                      (<[k := vm]> (a_sig_VM a))
                      (<[k := hydrostatic (epsilon o)]> (a_eps_h a))).
Proof.
  intros o Hrun. unfold fe_nl_elem in Hrun.
  apply bind_Ok in Hrun as (erow & h1 & Herow & Hrun).
  apply lift_Ok in Herow as [Herow%py_nth_Ok ->].
  apply bind_Ok in Hrun as (Ue & h1 & HUe & Hrun).
  apply take_at_Ok in HUe as [HUe ->].
  apply bind_Ok in Hrun as (ue & h1 & Hue & Hrun).
  apply lift_Ok in Hue as [Hue ->]. apply reshape_Ok in Hue as [-> HUelen].
  apply bind_Ok in Hrun as (ex & h1 & Hex & Hrun).
  apply lift_Ok in Hex as [Hex%py_nth_Ok ->].
  apply bind_Ok in Hrun as (ey & h1 & Hey & Hrun).
  apply lift_Ok in Hey as [Hey%py_nth_Ok ->].
  apply bind_Ok in Hrun as (xe & h1 & Hxe & Hrun).
  apply lift_Ok in Hxe as [Hxe%py_nth_Ok ->].
  assert (Ho : elementFun Ue ex ey ep (mp s) materialFun eq = o).
  { unfold o, nl_elem_out, edofIndex. rewrite Herow, Hex, Hey. simpl.
    by rewrite HUe. }
  assert (Hidx : (fun d => (d - 1)%Z) <$> erow = edofIndex s k)
    by (unfold edofIndex; by rewrite Herow).
  assert (Hdens : xe = density x k) by (unfold density; by rewrite Hxe).
  rewrite Ho, Hidx, Hdens in Hrun. clear Ho.
  apply bind_Ok in Hrun as (r1 & h1 & Hadd1 & Hrun).
  apply iadd_at_Ok in Hadd1 as (g' & Hadd1 & ->).
  apply bind_Ok in Hrun as (r2 & h1 & Hadd2 & Hrun).
  apply iadd_at_Ok in Hadd2 as (f' & Hadd2 & ->).
  apply bind_Ok in Hrun as (r3 & h1 & Hadd3 & Hrun).
  apply iadd_at_Ok in Hadd3 as (t' & Hadd3 & ->).
  apply bind_Ok in Hrun as (lhs & h1 & Hlhs & Hrun).
  apply lift_Ok in Hlhs as [Hlhs ->]. apply reshape_Ok in Hlhs as [-> Hlhs].
  rewrite length_fmap in Hlhs.
  apply bind_Ok in Hrun as (rhs & h1 & Hrhs & Hrun).
  apply lift_Ok in Hrhs as [Hrhs ->]. apply reshape_Ok in Hrhs as [-> Hrhs].
  apply bind_Ok in Hrun as (dR' & h1 & HdR & Hrun).
  apply lift_Ok in HdR as [HdR ->]. apply py_set_Ok in HdR as [HdRlen ->].
  apply bind_Ok in Hrun as (vm & h1 & Hvm & Hrun).
  apply lift_Ok in Hvm as [Hvm ->].
  apply bind_Ok in Hrun as (sv' & h1 & Hsv & Hrun).
  apply lift_Ok in Hsv as [Hsv ->]. apply py_set_Ok in Hsv as [Hsvlen ->].
  apply bind_Ok in Hrun as (eh' & h1 & Heh & Hrun).
  apply lift_Ok in Heh as [Heh ->]. apply py_set_Ok in Heh as [Hehlen ->].
  unfold ret in Hrun. inversion Hrun; subst a' h'. clear Hrun.
  split; [|split].
  - rewrite Herow, Hxe. apply np_take_length in HUe.
    rewrite <- Hidx. repeat split; eauto; congruence.
  - exists g', f', t'. done.
  - exists vm. done.
Qed.

Local Abbreviation idx := (edofIndex s).

Lemma fe_nl_loop_inv (fg fi ft : loc) (u g0 f0 t0 : list R) (n : nat)
    (a0 a : nl_acc) (h0 h' : store) :
  let o := nl_elem_out s ep elementFun materialFun eq u in
  fg <> fi -> fg <> ft -> fi <> ft ->
  U s <> fg -> U s <> fi -> U s <> ft ->
  h0 !! U s = Some u ->
  h0 !! fg = Some g0 -> h0 !! fi = Some f0 -> h0 !! ft = Some t0 ->
  for_elems (fe_nl_elem power s x p ep elementFun materialFun eq fg fi ft)
            a0 (seq 0 n) h0 = (Ok a, h') ->
  (length h' = length h0
   /\ (forall l, l <> fg -> l <> fi -> l <> ft -> h' !! l = h0 !! l)
   /\ acc_inv fg g0 (adds idx (fun e => scale (density x e) (fext (o e))) n) h'
   /\ acc_inv fi f0
        (adds idx (fun e => scale (power (density x e) p) (fint (o e))) n) h'
   /\ acc_inv ft t0 (adds idx (fun e => fext (o e)) n) h')
  /\ (forall e, (e < n)%nat ->
        is_Some (edof s !! e) /\ is_Some (x !! e)
        /\ length (idx e) = np_size1 (edof s)
        /\ length (fint (o e)) = np_size1 (edof s)
        /\ length (fext (o e)) = np_size1 (edof s)
        /\ a_dR a !! e = Some (dR_row power p (density x e) (o e))
        /\ (exists vm, von_mises (sig (o e)) = Ok vm /\ a_sig_VM a !! e = Some vm)
        /\ a_eps_h a !! e = Some (hydrostatic (epsilon (o e))))
  /\ (forall t1, a_t a0 = Triplets [] [] [] ->
        t1 = a_t a ->
        t1 = triplets_upto idx (fun e => Ke (o e)) (fun e => power (density x e) p) n)
  /\ length (a_dR a) = length (a_dR a0)
  /\ length (a_sig_VM a) = length (a_sig_VM a0)
  /\ length (a_eps_h a) = length (a_eps_h a0).
Proof.
  intros o H1 H2 H3 H4 H5 H6 HU Hg0 Hf0 Ht0.
  apply (for_elems_seq_inv _ (fun k a h' =>
    (length h' = length h0
     /\ (forall l, l <> fg -> l <> fi -> l <> ft -> h' !! l = h0 !! l)
     /\ acc_inv fg g0 (adds idx (fun e => scale (density x e) (fext (o e))) k) h'
     /\ acc_inv fi f0
          (adds idx (fun e => scale (power (density x e) p) (fint (o e))) k) h'
     /\ acc_inv ft t0 (adds idx (fun e => fext (o e)) k) h')
    /\ (forall e, (e < k)%nat ->
          is_Some (edof s !! e) /\ is_Some (x !! e)
          /\ length (idx e) = np_size1 (edof s)
          /\ length (fint (o e)) = np_size1 (edof s)
          /\ length (fext (o e)) = np_size1 (edof s)
          /\ a_dR a !! e = Some (dR_row power p (density x e) (o e))
          /\ (exists vm, von_mises (sig (o e)) = Ok vm /\ a_sig_VM a !! e = Some vm)
          /\ a_eps_h a !! e = Some (hydrostatic (epsilon (o e))))
    /\ (forall t1, a_t a0 = Triplets [] [] [] ->
          t1 = a_t a ->
          t1 = triplets_upto idx (fun e => Ke (o e))
                 (fun e => power (density x e) p) k)
    /\ length (a_dR a) = length (a_dR a0)
    /\ length (a_sig_VM a) = length (a_sig_VM a0)
    /\ length (a_eps_h a) = length (a_eps_h a0))).
  - intros k a1 h1 a2 h2 Hk ((Hlen & Hoth & Hfg & Hfi & Hft) & Hel & Ht & Hl1 & Hl2 & Hl3)
      Hbody.
    apply fe_nl_elem_Ok in Hbody as (Hfacts & Hstore & Hacc).
    rewrite (Hoth (U s)) in Hfacts, Hstore, Hacc by done.
    rewrite HU in Hfacts, Hstore, Hacc. simpl in Hfacts, Hstore, Hacc.
    fold (o k) in Hfacts, Hstore, Hacc.
    destruct Hfacts as (He & Hx & Hidxl & Hfint & Hfext).
    destruct Hstore as (g' & f' & t' & Hadd1 & Hadd2 & Hadd3 & ->).
    destruct Hacc as (vm & Hvm & HdRk & Hsvk & Hehk & ->).
    split; [|split; [|split; [|split; [|split]]]].
    + split; [by rewrite !length_insert|]. split.
      { intros l Hl1' Hl2' Hl3'. rewrite !list_lookup_insert_ne by done.
        by apply Hoth. }
      unfold adds. rewrite !seq_snoc, !fmap_app. simpl.
      split; [|split].
      * do 2 (apply acc_inv_other; [done|]). by apply acc_inv_step.
      * apply acc_inv_other; [done|]. apply acc_inv_step; [|done].
        by apply acc_inv_other.
      * apply acc_inv_step; [|done]. by do 2 (apply acc_inv_other; [done|]).
    + intros e He'. simpl. destruct (decide (e = k)) as [->|Hek].
      * rewrite !list_lookup_insert_eq by done. eauto 12.
      * rewrite !list_lookup_insert_ne by done. apply Hel. lia.
    + intros t1 Ht0' ->. simpl. rewrite triplets_upto_S.
      by rewrite <- (Ht _ Ht0' eq_refl).
    + simpl. by rewrite length_insert.
    + simpl. by rewrite length_insert.
    + simpl. by rewrite length_insert.
  - split; [|split; [|split]].
    + split; [done|]. split; [done|]. unfold adds, acc_inv. simpl. eauto 10.
    + intros e He. lia.
    + intros t1 Ht0' ->. by rewrite Ht0'.
    + done.
Qed.

End NlLoop.

(** ** One Newton iteration, up to the residual norm *)

Section NlAssemble.
Context (power : R -> R -> R).
Context (s : self) (x : list R) (p : R) (F : loc) (ep : list R).
Context (elementFun : element_fun) (materialFun : material_fun).
Context (eq : option (list R)).
Context (u : list R).

Local Abbreviation o := (nl_elem_out s ep elementFun materialFun eq u).
Local Abbreviation idx := (edofIndex s).

Lemma newton_assemble_Ok_inv (st st1 : nl_state) (h h1 : store) (f : list R) :
  h !! F = Some f ->
  h !! U s = Some u ->
  newton_assemble power s x p F ep elementFun materialFun eq st h = (Ok st1, h1) ->
  (fext_tilde st1 = length h /\ fextGlobal st1 = S (length h)
   /\ fintGlobal st1 = S (S (length h))
   /\ newtonIt st1 = (newtonIt st + 1)%Z /\ TOL st1 = TOL st
   /\ forall l, (l < length h)%nat -> h1 !! l = h !! l)
  /\ (acc_inv (fextGlobal st1) f
        (adds idx (fun e => scale (density x e) (fext (o e))) (nElem s)) h1
      /\ acc_inv (fintGlobal st1) (replicate (length u) 0)
           (adds idx (fun e => scale (power (density x e) p) (fint (o e))) (nElem s)) h1
      /\ acc_inv (fext_tilde st1) (replicate (length u) 0)
           (adds idx (fun e => fext (o e)) (nElem s)) h1)
  /\ (forall e, (e < nElem s)%nat ->
        is_Some (edof s !! e) /\ is_Some (x !! e)
        /\ length (idx e) = np_size1 (edof s)
        /\ length (fint (o e)) = np_size1 (edof s)
        /\ length (fext (o e)) = np_size1 (edof s)
        /\ dR st1 !! e = Some (dR_row power p (density x e) (o e))
        /\ (exists vm, von_mises (sig (o e)) = Ok vm /\ sig_VM st1 !! e = Some vm)
        /\ eps_h st1 !! e = Some (hydrostatic (epsilon (o e))))
  /\ (exists m,
        (let t := triplets_upto idx (fun e => Ke (o e))
                    (fun e => power (density x e) p) (nElem s) in
         coo_matrix (t_data t) (t_row t) (t_col t) (ndof s, ndof s) = Ok m)
        /\ K st1 = tocsc m)
  /\ (exists fiv fgv Rf,
        h1 !! fintGlobal st1 = Some fiv /\ h1 !! fextGlobal st1 = Some fgv
        /\ np_sub fiv fgv = Ok (R_ st1)
        /\ np_take (R_ st1) (freedofs s) = Ok Rf
        /\ err st1 = norm Rf).
Proof.
  intros HF HU Hrun. unfold newton_assemble in Hrun.
  assert (HUlt : (U s < length h)%nat) by (by eapply lookup_lt_Some).
  assert (HFlt : (F < length h)%nat) by (by eapply lookup_lt_Some).
  apply bind_Ok in Hrun as (ft & h0 & Hft & Hrun).
  apply np_zeros_like_Ok in Hft as [-> ->]. rewrite HU in Hrun. simpl in Hrun.
  apply bind_Ok in Hrun as (fg & h0 & Hfg & Hrun).
  apply np_copy_Ok in Hfg as [-> ->].
  rewrite lookup_app_l, HF in Hrun by done. simpl in Hrun.
  apply bind_Ok in Hrun as (fi & h0 & Hfi & Hrun).
  apply np_zeros_like_Ok in Hfi as [-> ->].
  rewrite !lookup_app_l, HU in Hrun by (rewrite ?length_app; simpl; lia).
  simpl in Hrun. rewrite !length_app in Hrun. simpl in Hrun.
  replace (length h + 1)%nat with (S (length h)) in Hrun by lia.
  replace (S (length h) + 1)%nat with (S (S (length h))) in Hrun by lia.
  set (h0 := ((h ++ [replicate (length u) 0]) ++ [f]) ++ [replicate (length u) 0])
    in Hrun.
  assert (Hh0U : h0 !! U s = Some u)
    by (unfold h0; by rewrite !lookup_app_l by (rewrite ?length_app; simpl; lia)).
  assert (Hh0ft : h0 !! length h = Some (replicate (length u) 0)).
  { unfold h0. rewrite !lookup_app_l by (rewrite ?length_app; simpl; lia).
    by rewrite lookup_app_r, Nat.sub_diag. }
  assert (Hh0fg : h0 !! S (length h) = Some f).
  { unfold h0. rewrite lookup_app_l by (rewrite ?length_app; simpl; lia).
    rewrite lookup_app_r by (rewrite ?length_app; simpl; lia).
    rewrite length_app. simpl.
    by replace (S (length h) - (length h + 1))%nat with O by lia. }
  assert (Hh0fi : h0 !! S (S (length h)) = Some (replicate (length u) 0)).
  { unfold h0. rewrite lookup_app_r by (rewrite ?length_app; simpl; lia).
    rewrite !length_app. simpl.
    by replace (S (S (length h)) - (length h + 1 + 1))%nat with O by lia. }
  apply bind_Ok in Hrun as (a & h2 & Hloop & Hrun).
  apply (fe_nl_loop_inv _ _ _ _ _ _ _ _ _ _ _ u f (replicate (length u) 0)
           (replicate (length u) 0)) in Hloop
    as ((Hlen & Hoth & Hafg & Hafi & Haft) & Hel & Ht & HdRl & Hsvl & Hehl);
    [|lia..|done|done|done|done].
  specialize (Ht _ eq_refl eq_refl).
  apply bind_Ok in Hrun as (m & h3 & Hcoo & Hrun).
  apply lift_Ok in Hcoo as [Hcoo ->].
  apply bind_Ok in Hrun as (fiv & h3 & Hfiv & Hrun).
  apply load_Ok in Hfiv as [-> ->].
  apply bind_Ok in Hrun as (fgv & h3 & Hfgv & Hrun).
  apply load_Ok in Hfgv as [-> ->].
  apply bind_Ok in Hrun as (Rv & h3 & HR & Hrun).
  apply lift_Ok in HR as [HR ->].
  apply bind_Ok in Hrun as (Rf & h3 & HRf & Hrun).
  apply lift_Ok in HRf as [HRf ->].
  unfold ret in Hrun. inversion Hrun; subst st1 h1. clear Hrun. simpl.
  split; [|split; [|split; [|split]]].
  - repeat split; try done. intros l Hl. rewrite Hoth by lia.
    unfold h0. by rewrite !lookup_app_l by (rewrite ?length_app; simpl; lia).
  - done.
  - exact Hel.
  - exists m. rewrite Ht in Hcoo. done.
  - destruct Hafi as (fiv & Hfiv & _). destruct Hafg as (fgv & Hfgv & _).
    rewrite Hfiv, Hfgv in HR. simpl in HR. eauto 10.
Qed.

Lemma von_mises_Ok (sg : list R) (vm : R) :
  von_mises sg = Ok vm ->
  exists s0 s1 s2 s3 s4 s5 rest,
    sg = s0 :: s1 :: s2 :: s3 :: s4 :: s5 :: rest
    /\ vm = sqrt (((s0 - s1) ^ 2 + (s1 - s2) ^ 2 + (s2 - s0) ^ 2) / 2
                  + 3 * (s3 ^ 2 + s4 ^ 2 + s5 ^ 2)).
Proof.
  destruct sg as [|s0 [|s1 [|s2 [|s3 [|s4 [|s5 rest]]]]]]; try discriminate.
  unfold von_mises, py_nth. simpl. intros Hvm. inversion Hvm. eauto 10.
Qed.



(** C9. After a successful assembly pass of a Newton iteration, entry [e]
    of [sig_VM] is the von Mises stress
    [sqrt(((s0-s1)^2+(s1-s2)^2+(s2-s0)^2)/2 + 3*(s3^2+s4^2+s5^2))] of the
    stress the element function returned for element [e], and entry [e] of
    [eps_h] is the sum of the first two components of its strain, divided
    by 3; the stress [1,2,3,0,0,0] gives [sqrt 3]. *)
Theorem von_mises_hydrostatic_outputs (st st1 : nl_state) (h h1 : store) (f : list R) :
  h !! F = Some f ->
  h !! U s = Some u ->
  newton_assemble power s x p F ep elementFun materialFun eq st h = (Ok st1, h1) ->
  (forall e, (e < nElem s)%nat ->
     (exists s0 s1 s2 s3 s4 s5 rest,
        sig (o e) = s0 :: s1 :: s2 :: s3 :: s4 :: s5 :: rest
        /\ sig_VM st1 !! e
           = Some (sqrt (((s0 - s1) ^ 2 + (s1 - s2) ^ 2 + (s2 - s0) ^ 2) / 2
                         + 3 * (s3 ^ 2 + s4 ^ 2 + s5 ^ 2))))
     /\ (forall e0 e1 rest, epsilon (o e) = e0 :: e1 :: rest ->
           eps_h st1 !! e = Some ((e0 + e1) / 3)))
  /\ von_mises [1; 2; 3; 0; 0; 0] = Ok (sqrt 3).
Proof.
  intros HF HU Hrun.
  destruct (newton_assemble_Ok_inv st st1 h h1 f HF HU Hrun)
    as (_ & _ & Hel & _).
  split.
  - intros e He.
    destruct (Hel e He) as (_ & _ & _ & _ & _ & _ & (vm & Hvm & Hsv) & Heh).
    split.
    + apply von_mises_Ok in Hvm as (s0 & s1 & s2 & s3 & s4 & s5 & rest & Hsig & ->).
      eauto 10.
    + intros e0 e1 rest Heps. rewrite Heh, Heps. unfold hydrostatic. simpl.
      do 2 f_equal. lra.
  - unfold von_mises, py_nth. simpl. do 2 f_equal. lra.
Qed.

End NlAssemble.

(** ** The control of the Newton loop *)

Lemma norm_sum_squares (w : list R) :
  norm w = sqrt (Rsum ((fun r => r * r) <$> w)).
Proof.
  unfold norm. f_equal. induction w as [|y w IH]; csimpl; [done|].
  by rewrite IH.
Qed.

Lemma np_sub_same_length (a b c : list R) :
  length a = length b -> np_sub a b = Ok c -> c = zip_with Rminus a b.
Proof.
  intros Hlen. unfold np_sub. rewrite (proj2 (Nat.eqb_eq _ _) Hlen).
  intros Hc. by inversion Hc.
Qed.

Section NlControl.
Context (power : R -> R -> R) (spsolve : list (list R) -> list R -> list R).
Context (s : self) (x : list R) (p : R) (F : loc) (ep : list R).
Context (elementFun : element_fun) (materialFun : material_fun).
Context (eq : option (list R)).

Lemma newton_update_Ok_inv (st1 st2 : nl_state) (h1 h2 : store) :
  newton_update spsolve s st1 h1 = (Ok st2, h2) ->
  (exists m, py_max (Rabs <$> default [] (h1 !! fextGlobal st1)) = Ok m
             /\ TOL st2 = 1e-11 * Rmax m 1e4)
  /\ err st2 = err st1 /\ newtonIt st2 = newtonIt st1
  /\ (exists Kff Rf step Uf u',
        np_take_rows (K st1) (freedofs s) (freedofs s) = Ok Kff
        /\ np_take (R_ st1) (freedofs s) = Ok Rf
        /\ reshape (length (freedofs s)) (spsolve Kff Rf) = Ok step
        /\ np_take (default [] (h1 !! U s)) (freedofs s) = Ok Uf
        /\ np_put (default [] (h1 !! U s)) (freedofs s) (zip_with Rminus Uf step) = Ok u'
        /\ h2 = <[U s := u']> h1).
Proof.
  intros Hrun. unfold newton_update in Hrun.
  apply bind_Ok in Hrun as (fgv & h0 & Hfgv & Hrun).
  apply load_Ok in Hfgv as [-> ->].
  apply bind_Ok in Hrun as (m & h0 & Hm & Hrun). apply lift_Ok in Hm as [Hm ->].
  apply bind_Ok in Hrun as (Uf & h0 & HUf & Hrun).
  apply take_at_Ok in HUf as [HUf ->].
  apply bind_Ok in Hrun as (Kff & h0 & HK & Hrun). apply lift_Ok in HK as [HK ->].
  apply bind_Ok in Hrun as (Rf & h0 & HRf & Hrun). apply lift_Ok in HRf as [HRf ->].
  apply bind_Ok in Hrun as (step & h0 & Hstep & Hrun).
  apply lift_Ok in Hstep as [Hstep ->].
  apply bind_Ok in Hrun as (r & h0 & Hput & Hrun).
  apply put_at_Ok in Hput as (u' & Hput & ->).
  unfold ret in Hrun. inversion Hrun; subst st2 h2. clear Hrun. simpl.
  split; [eauto|]. split; [done|]. split; [done|]. eauto 12.
Qed.

Lemma newton_step (fuel : nat) (st st1 st2 : nl_state) (h h1 h2 : store) :
  err st > TOL st ->
  newton_assemble power s x p F ep elementFun materialFun eq st h = (Ok st1, h1) ->
  newtonIt st1 <> 100%Z ->
  newton_update spsolve s st1 h1 = (Ok st2, h2) ->
  newton power spsolve (S fuel) s x p F ep elementFun materialFun eq st h
  = newton power spsolve fuel s x p F ep elementFun materialFun eq st2 h2.
Proof.
  intros Herr Hasm Hit Hupd. cbn [newton].
  destruct (Rgt_dec (err st) (TOL st)) as [_|Hn]; [|done].
  rewrite Hasm. destruct (Z.eqb_spec (newtonIt st1) 100); [done|].
  by rewrite Hupd.
Qed.

Lemma newton_exit (fuel : nat) (st : nl_state) (h : store) :
  ~ err st > TOL st ->
  newton power spsolve fuel s x p F ep elementFun materialFun eq st h = Some (Ok st, h).
Proof.
  intros Herr. destruct fuel; cbn [newton];
    by destruct (Rgt_dec (err st) (TOL st)).
Qed.

Lemma newton_assemble_counts (st st1 : nl_state) (h h1 : store) :
  newton_assemble power s x p F ep elementFun materialFun eq st h = (Ok st1, h1) ->
  newtonIt st1 = (newtonIt st + 1)%Z /\ TOL st1 = TOL st.
Proof.
  intros Hrun. unfold newton_assemble in Hrun.
  repeat (apply bind_Ok in Hrun as (? & ? & _ & Hrun)).
  unfold ret in Hrun. by inversion Hrun.
Qed.

(** The iteration counter along a run of the loop: it never decreases,
    increases if the loop is entered, stays within the cap, and a run that
    ends below the cap ends with the tolerance met. *)
Lemma newton_counter (fuel : nat) (st st' : nl_state) (h h' : store) :
  newton power spsolve fuel s x p F ep elementFun materialFun eq st h
  = Some (Ok st', h') ->
  (newtonIt st <= newtonIt st')%Z
  /\ (err st > TOL st -> (newtonIt st < newtonIt st')%Z)
  /\ ((newtonIt st < 100)%Z -> (newtonIt st' <= 100)%Z)
  /\ (newtonIt st' <> 100%Z -> ~ err st' > TOL st').
Proof.
  revert st h. induction fuel as [|fuel IH]; intros st h; cbn [newton];
    destruct (Rgt_dec (err st) (TOL st)) as [Hgt|Hngt]; intros Hrun;
    try discriminate;
    try (inversion Hrun; subst st' h'; repeat split; (lia || done)).
  destruct (newton_assemble _ _ _ _ _ _ _ _ _ _ h) as [[st1|e] h1] eqn:Hasm;
    [|discriminate].
  apply newton_assemble_counts in Hasm as [Hit1 _].
  destruct (Z.eqb_spec (newtonIt st1) 100) as [H100|Hn100].
  - inversion Hrun; subst st' h'. repeat split; (lia || done).
  - destruct (newton_update spsolve s st1 h1) as [[st2|e] h2] eqn:Hupd;
      [|discriminate].
    apply newton_update_Ok_inv in Hupd as (_ & _ & Hit2 & _).
    apply IH in Hrun as (Hle & Hlt & Hcap & Hconv).
    repeat split; try lia; done.
Qed.

(** C3 (as amended). In an iteration of the Newton loop the residual is
    [R = fintGlobal - fextGlobal] over the whole vector and [err] is the
    Euclidean norm of its entries at the free DOFs; the iteration then sets
    [TOL = 1e-11 * max(max(|fextGlobal|), 1e4)], and the loop test that
    follows compares the residual norm just computed with this tolerance
    just set (both belong to the same iteration): the loop is left when the
    norm is at most the new tolerance and goes on otherwise.  The bootstrap
    tolerance [1e-11] is used only by the test before the first iteration,
    against the initial [err = 1e9]. *)
Theorem newton_convergence_control (u f : list R) (fuel : nat)
    (st st1 st2 : nl_state) (h h1 h2 : store) :
  h !! F = Some f ->
  h !! U s = Some u ->
  err st > TOL st ->
  newton_assemble power s x p F ep elementFun materialFun eq st h = (Ok st1, h1) ->
  newtonIt st1 <> 100%Z ->
  newton_update spsolve s st1 h1 = (Ok st2, h2) ->
  (exists fiv fgv Rf m,
     h1 !! fintGlobal st1 = Some fiv /\ h1 !! fextGlobal st1 = Some fgv
     /\ np_sub fiv fgv = Ok (R_ st1)
     /\ (length fiv = length fgv -> R_ st1 = zip_with Rminus fiv fgv)
     /\ np_take (R_ st1) (freedofs s) = Ok Rf
     /\ err st1 = sqrt (Rsum ((fun r => r * r) <$> Rf))
     /\ TOL st1 = TOL st
     /\ py_max (Rabs <$> fgv) = Ok m
     /\ TOL st2 = 1e-11 * Rmax m 1e4
     /\ err st2 = err st1
     /\ newton power spsolve (S fuel) s x p F ep elementFun materialFun eq st h
        = newton power spsolve fuel s x p F ep elementFun materialFun eq st2 h2
     /\ (err st1 <= 1e-11 * Rmax m 1e4 ->
         newton power spsolve (S fuel) s x p F ep elementFun materialFun eq st h
         = Some (Ok st2, h2))
     /\ (err st1 > 1e-11 * Rmax m 1e4 ->
         forall st' h',
           newton power spsolve (S fuel) s x p F ep elementFun materialFun eq st h
           = Some (Ok st', h') ->
           (newtonIt st1 < newtonIt st')%Z))
  /\ (forall ft0 fg0 K0,
        err (nl_init x ft0 fg0 K0) = 1e9 /\ TOL (nl_init x ft0 fg0 K0) = 1e-11
        /\ err (nl_init x ft0 fg0 K0) > TOL (nl_init x ft0 fg0 K0)).
Proof.
  intros HF HU Herr Hasm Hit Hupd. split; [|intros; simpl; repeat split; lra].
  pose proof (newton_step fuel st st1 st2 h h1 h2 Herr Hasm Hit Hupd) as Hstep.
  destruct (newton_assemble_Ok_inv power s x p F ep elementFun materialFun eq u
              st st1 h h1 f HF HU Hasm)
    as ((_ & _ & _ & _ & HTOL & _) & _ & _ & _ & (fiv & fgv & Rf & Hfiv & Hfgv & HR & HRf & Hnorm)).
  destruct (newton_update_Ok_inv st1 st2 h1 h2 Hupd)
    as ((m & Hm & HTOL2) & Herr2 & Hit2 & _).
  rewrite Hfgv in Hm. simpl in Hm.
  exists fiv, fgv, Rf, m.
  split; [done|]. split; [done|]. split; [done|].
  split; [intros Hlen; by eapply np_sub_same_length|].
  split; [done|]. split; [by rewrite Hnorm, norm_sum_squares|].
  split; [done|]. split; [done|]. split; [done|]. split; [done|].
  split; [done|]. split.
  - intros Hle. rewrite Hstep. apply newton_exit. rewrite Herr2, HTOL2. lra.
  - intros Hgt st' h' Hrun. rewrite Hstep in Hrun.
    apply newton_counter in Hrun as (_ & Hlt & _).
    rewrite Hit2 in Hlt. apply Hlt. rewrite Herr2, HTOL2. lra.
Qed.

End NlControl.

(** *** A Newton iteration on the one-triangle model

    With density 1, a displacement of 2 at the free DOF and an internal
    force that exceeds the displacement by [1e-9] there, the residual norm
    of the first iteration is [1e-9] and the tolerance it sets is [1e-7]. *)

Lemma Rpower_1_l (y : R) : Rpower 1 y = 1.
Proof. unfold Rpower. by rewrite ln_1, Rmult_0_r, exp_0. Qed.

Lemma ex_newton_iteration :
  exists st1 h1 st2 h2,
    newton_assemble Rpower ex_self [1] 3 1%nat ex_ep_nonlinear
      (ex_elementFun 1e-9) ex_materialFun None ex_st0 ex_nl_store = (Ok st1, h1)
    /\ newton_update diag_solve ex_self st1 h1 = (Ok st2, h2)
    /\ newtonIt st1 = 1%Z
    /\ err st1 = 1e-9
    /\ TOL st2 = 1e-7
    /\ err st2 = 1e-9.
Proof.
  do 4 eexists. split; [py_eval; reflexivity|].
  split; [py_eval; reflexivity|].
  assert (Herr : sqrt ((0 + (2 + 1 / 1000000000) * Rpower 1 3 - (1 + 1 * 1))
                       * (0 + (2 + 1 / 1000000000) * Rpower 1 3 - (1 + 1 * 1)) + 0)
                 = 1e-9).
  { rewrite Rpower_1_l.
    replace ((0 + (2 + 1 / 1000000000) * 1 - (1 + 1 * 1))
             * (0 + (2 + 1 / 1000000000) * 1 - (1 + 1 * 1)) + 0)
      with (1e-9 * 1e-9) by lra.
    apply sqrt_square. lra. }
  split; [reflexivity|]. split; [exact Herr|]. split; [|exact Herr].
  cbn [TOL].
  rewrite Rmax_right; [lra|].
  repeat apply Rmax_lub; unfold Rabs; destruct (Rcase_abs _); lra.
Qed.

(** The loop is left after the first iteration, whose residual norm
    [1e-9] is within the tolerance [1e-7] the iteration has just set, though
    it exceeds the bootstrap tolerance [1e-11]. *)
Lemma tolerance_governs_next_check_fails :
  (exists st1 h1 st2 h2,
     newton_assemble Rpower ex_self [1] 3 1%nat ex_ep_nonlinear
       (ex_elementFun 1e-9) ex_materialFun None ex_st0 ex_nl_store = (Ok st1, h1)
     /\ newton_update diag_solve ex_self st1 h1 = (Ok st2, h2)
     /\ TOL ex_st0 = 1e-11 /\ err st1 = 1e-9 /\ TOL st2 = 1e-7
     /\ newton Rpower diag_solve 2 ex_self [1] 3 1%nat ex_ep_nonlinear
          (ex_elementFun 1e-9) ex_materialFun None ex_st0 ex_nl_store
        = Some (Ok st2, h2))
  /\ ~ tolerance_governs_next_check.
Proof.
  destruct ex_newton_iteration
    as (st1 & h1 & st2 & h2 & Hasm & Hupd & Hit & Herr1 & HTOL2 & Herr2).
  assert (Hgt0 : err ex_st0 > TOL ex_st0) by (simpl; lra).
  assert (Hit' : newtonIt st1 <> 100%Z) by lia.
  assert (Hrun : newton Rpower diag_solve 2 ex_self [1] 3 1%nat ex_ep_nonlinear
                   (ex_elementFun 1e-9) ex_materialFun None ex_st0 ex_nl_store
                 = Some (Ok st2, h2)).
  { rewrite (newton_step _ _ _ _ _ _ _ _ _ _ _ _ _ _ _ _ _ Hgt0 Hasm Hit' Hupd).
    apply newton_exit. rewrite Herr2, HTOL2. lra. }
  split.
  - exists st1, h1, st2, h2. repeat split; try done.
  - intros Hclaim.
    apply (Hclaim Rpower diag_solve O ex_self [1] 3 1%nat ex_ep_nonlinear
             (ex_elementFun 1e-9) ex_materialFun None ex_st0 ex_nl_store
             st1 h1 st2 h2 Hgt0 Hasm Hit' Hupd) in Hrun.
    apply Hrun. rewrite Herr1. simpl. lra.
Qed.

Lemma newton_convergence_control_witness :
  exists st1 h1 st2 h2,
    (newton_assemble Rpower ex_self [1] 3 1%nat ex_ep_nonlinear
       (ex_elementFun 1e-9) ex_materialFun None ex_st0 ex_nl_store = (Ok st1, h1)
     /\ newton_update diag_solve ex_self st1 h1 = (Ok st2, h2))
    /\ (exists fiv fgv Rf m,
          h1 !! fintGlobal st1 = Some fiv /\ h1 !! fextGlobal st1 = Some fgv
          /\ np_sub fiv fgv = Ok (R_ st1)
          /\ (length fiv = length fgv -> R_ st1 = zip_with Rminus fiv fgv)
          /\ np_take (R_ st1) (freedofs ex_self) = Ok Rf
          /\ err st1 = sqrt (Rsum ((fun r => r * r) <$> Rf))
          /\ TOL st1 = TOL ex_st0
          /\ py_max (Rabs <$> fgv) = Ok m
          /\ TOL st2 = 1e-11 * Rmax m 1e4
          /\ err st2 = err st1
          /\ newton Rpower diag_solve 1 ex_self [1] 3 1%nat ex_ep_nonlinear
               (ex_elementFun 1e-9) ex_materialFun None ex_st0 ex_nl_store
             = newton Rpower diag_solve 0 ex_self [1] 3 1%nat ex_ep_nonlinear
                 (ex_elementFun 1e-9) ex_materialFun None st2 h2
          /\ (err st1 <= 1e-11 * Rmax m 1e4 ->
              newton Rpower diag_solve 1 ex_self [1] 3 1%nat ex_ep_nonlinear
                (ex_elementFun 1e-9) ex_materialFun None ex_st0 ex_nl_store
              = Some (Ok st2, h2))
          /\ (err st1 > 1e-11 * Rmax m 1e4 ->
              forall st' h',
                newton Rpower diag_solve 1 ex_self [1] 3 1%nat ex_ep_nonlinear
                  (ex_elementFun 1e-9) ex_materialFun None ex_st0 ex_nl_store
                = Some (Ok st', h') ->
                (newtonIt st1 < newtonIt st')%Z))
    /\ (forall ft0 fg0 K0,
          err (nl_init [1] ft0 fg0 K0) = 1e9 /\ TOL (nl_init [1] ft0 fg0 K0) = 1e-11
          /\ err (nl_init [1] ft0 fg0 K0) > TOL (nl_init [1] ft0 fg0 K0)).
Proof.
  destruct ex_newton_iteration
    as (st1 & h1 & st2 & h2 & Hasm & Hupd & Hit & Herr1 & HTOL2 & Herr2).
  exists st1, h1, st2, h2. split; [done|].
  apply (newton_convergence_control Rpower diag_solve ex_self [1] 3 1%nat
           ex_ep_nonlinear (ex_elementFun 1e-9) ex_materialFun None
           [0; 0; 0; 0; 0; 2] [0; 0; 0; 0; 0; 1] O ex_st0 st1 st2
           ex_nl_store h1 h2).
  - reflexivity.
  - reflexivity.
  - simpl. lra.
  - exact Hasm.
  - rewrite Hit. discriminate.
  - exact Hupd.
Defined.

(** *** An assembly pass at density 1/2 and penalty 3 *)




Lemma von_mises_hydrostatic_outputs_witness :
  exists st1 h1,
    newton_assemble Rpower ex_self [1] 3 1%nat ex_ep_nonlinear
      (ex_elementFun 1e-9) ex_materialFun None ex_st0 ex_nl_store = (Ok st1, h1)
    /\ (forall e, (e < nElem ex_self)%nat ->
          (exists s0 s1 s2 s3 s4 s5 rest,
             sig (nl_elem_out ex_self ex_ep_nonlinear (ex_elementFun 1e-9)
                    ex_materialFun None [0; 0; 0; 0; 0; 2] e)
             = s0 :: s1 :: s2 :: s3 :: s4 :: s5 :: rest
             /\ sig_VM st1 !! e
                = Some (sqrt (((s0 - s1) ^ 2 + (s1 - s2) ^ 2 + (s2 - s0) ^ 2) / 2
                              + 3 * (s3 ^ 2 + s4 ^ 2 + s5 ^ 2))))
          /\ (forall e0 e1 rest,
                epsilon (nl_elem_out ex_self ex_ep_nonlinear (ex_elementFun 1e-9)
                           ex_materialFun None [0; 0; 0; 0; 0; 2] e)
                = e0 :: e1 :: rest ->
                eps_h st1 !! e = Some ((e0 + e1) / 3)))
    /\ von_mises [1; 2; 3; 0; 0; 0] = Ok (sqrt 3).
Proof.
  destruct ex_newton_iteration as (st1 & h1 & _ & _ & Hasm & _).
  exists st1, h1. split; [exact Hasm|].
  apply (von_mises_hydrostatic_outputs Rpower ex_self [1] 3 1%nat ex_ep_nonlinear
           (ex_elementFun 1e-9) ex_materialFun None [0; 0; 0; 0; 0; 2]
           ex_st0 st1 ex_nl_store h1 [0; 0; 0; 0; 0; 1]).
  - reflexivity.
  - reflexivity.
  - exact Hasm.
Defined.

(** ** Well-formed calls do not fail *)

Local Open Scope Z_scope.

Lemma same_shape_refl (h : store) : same_shape h h.
Proof. by split. Qed.

Lemma same_shape_trans (h1 h2 h3 : store) :
  same_shape h1 h2 -> same_shape h2 h3 -> same_shape h1 h3.
Proof. intros [Hl1 Ha1] [Hl2 Ha2]. split; [lia|]. intros l n Hl. by apply Ha2, Ha1. Qed.

Lemma same_shape_alloc (h : store) (w : list R) : same_shape h (h ++ [w]).
Proof.
  split; [rewrite length_app; lia|]. intros l n (a & Ha & Hlen). exists a.
  split; [|done]. rewrite lookup_app_l; [done|]. by eapply lookup_lt_Some.
Qed.

Lemma arr_alloc (h : store) (w : list R) : arr (h ++ [w]) (length h) (length w).
Proof. exists w. split; [|done]. by rewrite lookup_app_r, Nat.sub_diag. Qed.

Lemma same_shape_write (h : store) (l : loc) (a a' : list R) :
  h !! l = Some a -> length a' = length a -> same_shape h (<[l:=a']> h).
Proof.
  intros Ha Hlen. split; [by rewrite length_insert|].
  intros l' n (b & Hb & Hbl). destruct (decide (l' = l)) as [->|Hne].
  - exists a'. split; [|congruence].
    apply list_lookup_insert_eq. by eapply lookup_lt_Some.
  - exists b. split; [|done]. by rewrite list_lookup_insert_ne.
Qed.

Lemma py_idx_in_range (n : nat) (i : Z) :
  0 <= i < Z.of_nat n -> py_idx n i = Ok (Z.to_nat i).
Proof.
  intros Hi. unfold py_idx.
  replace ((0 <=? i) && (i <? Z.of_nat n)) with true; [done|].
  symmetry. apply andb_true_iff. split; [apply Z.leb_le | apply Z.ltb_lt]; lia.
Qed.

Lemma py_idxs_in_range (n : nat) (idx : list Z) :
  Forall (fun i => 0 <= i < Z.of_nat n) idx ->
  py_idxs n idx = Ok (Z.to_nat <$> idx).
Proof.
  induction 1 as [|i idx Hi _ IH]; [done|]. simpl.
  by rewrite py_idx_in_range, IH.
Qed.

Lemma np_put_total (a : list R) (idx : list Z) (w : list R) :
  Forall (fun i => 0 <= i < Z.of_nat (length a)) idx ->
  length w = length idx ->
  exists a', np_put a idx w = Ok a' /\ length a' = length a.
Proof.
  intros Hidx Hlen. unfold np_put.
  rewrite py_idxs_in_range, broadcast_same by done. simpl.
  eexists. split; [done|]. apply np_put_seq_length.
Qed.

Lemma np_iadd_total (a : list R) (idx : list Z) (w : list R) :
  Forall (fun i => 0 <= i < Z.of_nat (length a)) idx ->
  length w = length idx ->
  exists a', np_iadd a idx w = Ok a' /\ length a' = length a.
Proof.
  intros Hidx Hlen. unfold np_iadd.
  destruct (np_take_in_range a idx Hidx) as [old Hold]. rewrite Hold. simpl.
  rewrite broadcast_same by done. simpl.
  apply np_put_total; [done|].
  apply np_take_length in Hold. rewrite length_zip_with. lia.
Qed.

Lemma iadd_at_total (h : store) (l : loc) (n : nat) (idx : list Z) (w : list R) :
  arr h l n ->
  Forall (fun i => 0 <= i < Z.of_nat n) idx ->
  length w = length idx ->
  exists h', iadd_at l idx w h = (Ok tt, h') /\ same_shape h h'.
Proof.
  intros (a & Ha & Hlen) Hidx Hw. unfold iadd_at, bind, load, lift, write.
  rewrite Ha. simpl. rewrite <- Hlen in Hidx.
  destruct (np_iadd_total a idx w Hidx Hw) as (a' & -> & Hlen').
  eexists. split; [done|]. by eapply same_shape_write.
Qed.

Lemma put_at_total (h : store) (l : loc) (n : nat) (idx : list Z) (w : list R) :
  arr h l n ->
  Forall (fun i => 0 <= i < Z.of_nat n) idx ->
  length w = length idx ->
  exists h', put_at l idx w h = (Ok tt, h') /\ same_shape h h'.
Proof.
  intros (a & Ha & Hlen) Hidx Hw. unfold put_at, bind, load, lift, write.
  rewrite Ha. simpl. rewrite <- Hlen in Hidx.
  destruct (np_put_total a idx w Hidx Hw) as (a' & -> & Hlen').
  eexists. split; [done|]. by eapply same_shape_write.
Qed.

Lemma take_at_total (h : store) (l : loc) (n : nat) (idx : list Z) :
  arr h l n ->
  Forall (fun i => 0 <= i < Z.of_nat n) idx ->
  exists w, take_at l idx h = (Ok w, h) /\ length w = length idx.
Proof.
  intros (a & Ha & Hlen) Hidx. unfold take_at, bind, load, lift.
  rewrite Ha. simpl. rewrite <- Hlen in Hidx.
  destruct (np_take_in_range a idx Hidx) as [w Hw]. rewrite Hw.
  eexists. split; [done|]. by eapply np_take_length.
Qed.

Lemma for_elems_total {A} (body : A -> nat -> M A) (I : A -> store -> Prop)
    (h0 : store) (n : nat) :
  (forall k a h, (k < n)%nat -> I a h -> same_shape h0 h ->
     exists a' h', body a k h = (Ok a', h') /\ I a' h' /\ same_shape h h') ->
  forall a0, I a0 h0 ->
    exists a' h', for_elems body a0 (seq 0 n) h0 = (Ok a', h')
                  /\ I a' h' /\ same_shape h0 h'.
Proof.
  intros Hbody.
  assert (Hgen : forall m k a h, (k + m = n)%nat -> I a h -> same_shape h0 h ->
            exists a' h', for_elems body a (seq k m) h = (Ok a', h')
                          /\ I a' h' /\ same_shape h0 h').
  { induction m as [|m IH]; intros k a h Hkm HI Hsh; simpl.
    - exists a, h. done.
    - destruct (Hbody k a h ltac:(lia) HI Hsh) as (a1 & h1 & Hb & HI1 & Hsh1).
      unfold bind. rewrite Hb.
      apply (IH (S k)); [lia|done|]. by eapply same_shape_trans. }
  intros a0 HI. apply (Hgen n O); [lia|done|apply same_shape_refl].
Qed.

Lemma length_concat_replicate {A} (n : nat) (l : list A) :
  length (concat (replicate n l)) = (n * length l)%nat.
Proof. induction n as [|n IH]; [done|]. simpl. rewrite length_app, IH. lia. Qed.

Lemma length_bind_replicate {A} (l : list A) (n : nat) :
  length (l ≫= replicate n) = (length l * n)%nat.
Proof.
  induction l as [|a l IH]; [done|]. csimpl.
  rewrite length_app, length_replicate, IH. lia.
Qed.

Lemma Forall_concat_replicate {A} (P : A -> Prop) (n : nat) (l : list A) :
  Forall P l -> Forall P (concat (replicate n l)).
Proof.
  intros Hl. induction n as [|n IH]; simpl; [constructor|]. by apply Forall_app.
Qed.

Lemma Forall_bind_replicate {A} (P : A -> Prop) (l : list A) (n : nat) :
  Forall P l -> Forall P (l ≫= replicate n).
Proof.
  induction 1 as [|a l Ha _ IH]; csimpl; [constructor|].
  apply Forall_app. split; [|done]. by apply Forall_replicate.
Qed.

Lemma extend_triplets_wf (nd : Z) (t : triplets) (idx : list Z)
    (Ke : list (list R)) (c : R) :
  triplets_wf nd t ->
  Forall (fun d => 0 <= d < nd) idx ->
  length (concat Ke) = (length idx * length idx)%nat ->
  triplets_wf nd (extend_triplets t idx Ke c).
Proof.
  intros (Hr & Hc & Hrow & Hcol) Hidx HKe. unfold extend_triplets, triplets_wf.
  simpl. rewrite !length_app, length_fmap, length_concat_replicate,
    length_bind_replicate, HKe.
  split; [lia|]. split; [lia|]. split; apply Forall_app; split; try done.
  - by apply Forall_concat_replicate.
  - by apply Forall_bind_replicate.
Qed.

Lemma coo_matrix_total (nd : Z) (t : triplets) :
  0 <= nd -> triplets_wf nd t ->
  coo_matrix (t_data t) (t_row t) (t_col t) (nd, nd)
  = Ok (Coo (nd, nd) (t_row t) (t_col t) (t_data t)).
Proof.
  intros Hnd (Hr & Hc & Hrow & Hcol). unfold coo_matrix. simpl.
  rewrite (proj2 (Z.leb_le 0 nd) Hnd). simpl.
  rewrite (proj2 (Nat.eqb_eq _ _) Hr), (proj2 (Nat.eqb_eq _ _) Hc). simpl.
  assert (Hall : forall l, Forall (fun d => 0 <= d < nd) l ->
            forallb (fun r => (0 <=? r) && (r <? nd)) l = true).
  { intros l Hl. apply forallb_forall. intros d Hd.
    rewrite Forall_forall in Hl. apply list_elem_of_In, Hl in Hd.
    apply andb_true_iff. split; [apply Z.leb_le | apply Z.ltb_lt]; lia. }
  by rewrite !Hall.
Qed.

Lemma tocsc_table (m : coo) :
  table (Z.to_nat (coo_shape m).1) (Z.to_nat (coo_shape m).2) (tocsc m).
Proof.
  unfold table, tocsc, py_range. rewrite !length_fmap, length_seq.
  split; [done|]. apply Forall_fmap, Forall_forall. intros i _. simpl.
  by rewrite !length_fmap, length_seq.
Qed.

Lemma np_take_rows_total (n m : nat) (K : list (list R)) (rows cols : list Z) :
  table n m K ->
  Forall (fun i => 0 <= i < Z.of_nat n) rows ->
  Forall (fun i => 0 <= i < Z.of_nat m) cols ->
  exists Kff, np_take_rows K rows cols = Ok Kff.
Proof.
  intros [Hlen Hrows] Hr Hc. induction Hr as [|i rows Hi _ [Kff IH]]; simpl; [eauto|].
  rewrite <- Hlen in Hi. unfold py_get. rewrite py_idx_in_range by done. simpl.
  destruct (lookup_lt_is_Some_2 K (Z.to_nat i) ltac:(lia)) as [r Hrow].
  rewrite Hrow. simpl.
  assert (Hrl : length r = m).
  { rewrite Forall_forall in Hrows. apply Hrows. by eapply list_elem_of_lookup_2. }
  rewrite <- Hrl in Hc. destruct (np_take_in_range r cols Hc) as [r' ->]. simpl.
  rewrite IH. simpl. eauto.
Qed.

Lemma edofIndex_in_range (s : self) (k : nat) (row : list Z) :
  Forall (fun r => length r = np_size1 (edof s)
                   /\ Forall (fun d => 1 <= d <= ndof s) r) (edof s) ->
  edof s !! k = Some row ->
  length (edofIndex s k) = np_size1 (edof s)
  /\ Forall (fun d => 0 <= d < ndof s) (edofIndex s k)
  /\ edofIndex s k = (fun d => d - 1) <$> row.
Proof.
  intros Hrows Hrow. unfold edofIndex. rewrite Hrow. simpl.
  rewrite Forall_forall in Hrows.
  destruct (Hrows row) as [Hlen Hd]; [by eapply list_elem_of_lookup_2|].
  rewrite length_fmap. split; [done|]. split; [|done].
  apply Forall_fmap. eapply Forall_impl; [exact Hd|]. intros d ?; simpl in *; lia.
Qed.

Section TotalFe.
Context (power : R -> R -> R) (spsolve : list (list R) -> list R -> list R).
Context (s : self) (x : list R) (p : R) (F : loc) (ep : list R).
Context (elementFun : element_fun) (materialFun : material_fun).
Context (eq : option (list R)).
Context (Hwf : well_formed spsolve s x ep elementFun materialFun eq).

Local Abbreviation nd := (Z.to_nat (ndof s)).

Lemma wf_lookups (k : nat) :
  (k < nElem s)%nat ->
  exists row ex ey xe,
    edof s !! k = Some row /\ elemX s !! k = Some ex
    /\ elemY s !! k = Some ey /\ x !! k = Some xe.
Proof using Hwf.
  intros Hk. destruct Hwf.
  destruct (lookup_lt_is_Some_2 (edof s) k ltac:(lia)) as [row ?].
  destruct (lookup_lt_is_Some_2 (elemX s) k ltac:(lia)) as [ex ?].
  destruct (lookup_lt_is_Some_2 (elemY s) k ltac:(lia)) as [ey ?].
  destruct (lookup_lt_is_Some_2 x k ltac:(lia)) as [xe ?].
  eauto 10.
Qed.

Lemma fe_elem_total (epLin : list R) (fg ft : loc) (t : triplets) (k : nat)
    (h : store) :
  (k < nElem s)%nat ->
  arr h fg nd -> arr h ft nd -> triplets_wf (ndof s) t ->
  exists t' h',
    fe_elem power s x p epLin elementFun materialFun eq fg ft t k h = (Ok t', h')
    /\ triplets_wf (ndof s) t' /\ same_shape h h'.
Proof using Hwf.
  intros Hk Hfg Hft Ht.
  destruct (wf_lookups k Hk) as (row & ex & ey & xe & Hrow & Hex & Hey & Hxe).
  destruct (edofIndex_in_range s k row (wf_rows _ _ _ _ _ _ _ Hwf) Hrow)
    as (Hil & Hir & Hie).
  unfold fe_elem, bind, lift, py_nth. rewrite Hrow, Hex, Hey, Hxe. simpl.
  rewrite <- Hie.
  set (o := elementFun _ ex ey epLin (mp s) materialFun eq).
  destruct (wf_elem _ _ _ _ _ _ _ Hwf (replicate (np_size1 (edof s)) 0%R) ex ey epLin
              (length_replicate _ _))
    as (HKe & _ & Hfext & _). fold o in HKe, Hfext.
  assert (Hir' : Forall (fun i => 0 <= i < Z.of_nat nd) (edofIndex s k)).
  { eapply Forall_impl; [exact Hir|]. intros d ?; simpl in *; lia. }
  destruct (iadd_at_total h fg nd (edofIndex s k) (scale xe (fext o)) Hfg Hir')
    as (h1 & -> & Hsh1); [unfold scale; rewrite length_fmap; lia|].
  destruct (iadd_at_total h1 ft nd (edofIndex s k) (fext o)) as (h2 & -> & Hsh2);
    [by apply Hsh1|done|lia|].
  do 2 eexists. split; [done|]. split; [|by eapply same_shape_trans].
  apply extend_triplets_wf; [done|done|]. rewrite HKe, Hil. done.
Qed.

Lemma solve_free_total (K : list (list R)) (b : list R) :
  table nd nd K -> length b = nd ->
  exists sol, solve_free spsolve s K b = Ok sol /\ length sol = length (freedofs s).
Proof using Hwf.
  intros HK Hb. unfold solve_free.
  assert (Hfree : Forall (fun i => 0 <= i < Z.of_nat nd) (freedofs s)).
  { eapply Forall_impl; [exact (wf_free _ _ _ _ _ _ _ Hwf)|]. intros d ?; simpl in *; lia. }
  destruct (np_take_rows_total nd nd K _ _ HK Hfree Hfree) as [Kff ->]. simpl.
  rewrite <- Hb in Hfree. destruct (np_take_in_range b _ Hfree) as [bf Hbf].
  rewrite Hbf. simpl. apply np_take_length in Hbf.
  unfold reshape. rewrite (wf_solve _ _ _ _ _ _ _ Hwf), Hbf, Nat.eqb_refl.
  eexists. split; [done|]. by rewrite (wf_solve _ _ _ _ _ _ _ Hwf).
Qed.

Lemma fe_total (h : store) :
  arr h (U s) nd -> arr h F nd ->
  exists ft fg K0 h',
    fe power spsolve s x p F ep elementFun materialFun eq h
    = (Ok (U s, ft, fg, K0), h')
    /\ same_shape h h' /\ arr h' fg nd /\ arr h' ft nd.
Proof using Hwf.
  intros HU (f & HF & Hfl). unfold fe.
  assert (Hep : exists epLin, force_linear ep = Ok epLin).
  { unfold force_linear, py_set.
    rewrite (proj2 (Nat.ltb_lt _ _) (wf_ep _ _ _ _ _ _ _ Hwf)). eauto. }
  destruct Hep as [epLin HepLin]. unfold bind at 1, lift at 1. rewrite HepLin.
  unfold bind at 1, np_copy, bind at 1, load at 1, alloc at 1. rewrite HF. simpl.
  unfold bind at 1, np_zeros_like, bind at 1, load at 1, alloc at 1.
  rewrite lookup_app_l, HF by (by eapply lookup_lt_Some). simpl.
  set (h0 := (h ++ [f]) ++ [replicate (length f) 0%R]).
  assert (Hsh0 : same_shape h h0)
    by (eapply same_shape_trans; apply same_shape_alloc).
  assert (Hfg0 : arr h0 (length h) nd).
  { destruct (same_shape_alloc (h ++ [f]) (replicate (length f) 0%R)) as [_ Hs].
    apply Hs. rewrite <- Hfl. apply arr_alloc. }
  assert (Hft0 : arr h0 (length (h ++ [f])) nd).
  { unfold h0. rewrite <- Hfl.
    pose proof (arr_alloc (h ++ [f]) (replicate (length f) 0%R)) as Ha.
    rewrite length_replicate in Ha. exact Ha. }
  destruct (for_elems_total
              (fe_elem power s x p epLin elementFun materialFun eq
                       (length h) (length (h ++ [f])))
              (fun t _ => triplets_wf (ndof s) t) h0 (nElem s))
    with (a0 := Triplets [] [] []) as (t & h1 & Hloop & Ht & Hsh1).
  { intros k t h1 Hk Ht [_ Hsh]. destruct (fe_elem_total epLin (length h)
      (length (h ++ [f])) t k h1 Hk) as (t' & h2 & Hb & Ht' & Hsh2);
      [by apply Hsh|by apply Hsh|done|]. eauto 10. }
  { repeat split; constructor. }
  unfold bind at 1. rewrite Hloop.
  unfold bind at 1, lift at 1.
  rewrite coo_matrix_total by (done || (destruct Hwf; lia)).
  unfold bind at 1, load at 1.
  destruct Hsh1 as [Hl1 Hsh1].
  destruct (Hsh1 _ _ Hfg0) as (fgv & Hfgv & Hfgl). rewrite Hfgv. simpl.
  destruct (solve_free_total
              (tocsc (Coo (ndof s, ndof s) (t_row t) (t_col t) (t_data t))) fgv)
    as (sol & Hsol & Hsoll); [apply tocsc_table|done|].
  unfold bind at 1, lift at 1. rewrite Hsol.
  destruct (put_at_total h1 (U s) nd (freedofs s) sol) as (h2 & Hput & Hsh2).
  { apply Hsh1. by apply Hsh0. }
  { eapply Forall_impl; [exact (wf_free _ _ _ _ _ _ _ Hwf)|]. intros d ?; simpl in *; lia. }
  { done. }
  unfold bind. rewrite Hput. unfold ret.
  do 4 eexists. split; [done|].
  split; [|split].
  - eapply same_shape_trans; [exact Hsh0|].
    eapply same_shape_trans; [|exact Hsh2]. by split.
  - apply Hsh2. by apply Hsh1.
  - apply Hsh2. by apply Hsh1.
Qed.

End TotalFe.

Lemma von_mises_total (sg : list R) :
  (6 <= length sg)%nat -> exists vm, von_mises sg = Ok vm.
Proof.
  intros Hlen.
  destruct sg as [|s0 [|s1 [|s2 [|s3 [|s4 [|s5 rest]]]]]]; simpl in Hlen; try lia.
  unfold von_mises, py_nth. simpl. eauto.
Qed.

Lemma reshape_same (n : nat) (w : list R) : length w = n -> reshape n w = Ok w.
Proof. intros Hn. unfold reshape. by rewrite (proj2 (Nat.eqb_eq _ _) Hn). Qed.

Lemma py_set_total {A} (l : list A) (k : nat) (c : A) :
  (k < length l)%nat -> py_set l k c = Ok (<[k:=c]> l).
Proof. intros Hk. unfold py_set. by rewrite (proj2 (Nat.ltb_lt _ _) Hk). Qed.

Section TotalNl.
Context (power : R -> R -> R) (spsolve : list (list R) -> list R -> list R).
Context (s : self) (x : list R) (p : R) (F : loc) (ep : list R).
Context (elementFun : element_fun) (materialFun : material_fun).
Context (eq : option (list R)).
Context (Hwf : well_formed spsolve s x ep elementFun materialFun eq).

Local Abbreviation nd := (Z.to_nat (ndof s)).

Lemma fe_nl_elem_total (fg fi ft : loc) (a : nl_acc) (k : nat) (h : store) :
  (k < nElem s)%nat ->
  arr h (U s) nd -> arr h fg nd -> arr h fi nd -> arr h ft nd ->
  acc_wf s a ->
  exists a' h',
    fe_nl_elem power s x p ep elementFun materialFun eq fg fi ft a k h = (Ok a', h')
    /\ acc_wf s a' /\ same_shape h h'.
Proof using Hwf.
  intros Hk HU Hfg Hfi Hft (Ht & HdR & Hsv & Heh).
  destruct (wf_lookups spsolve s x ep elementFun materialFun eq Hwf k Hk)
    as (row & ex & ey & xe & Hrow & Hex & Hey & Hxe).
  destruct (edofIndex_in_range s k row (wf_rows _ _ _ _ _ _ _ Hwf) Hrow)
    as (Hil & Hir & Hie).
  assert (Hir' : Forall (fun i => 0 <= i < Z.of_nat nd) (edofIndex s k)).
  { eapply Forall_impl; [exact Hir|]. intros d ?; simpl in *; lia. }
  destruct (take_at_total h (U s) nd (edofIndex s k) HU Hir') as (Ue & HUe & HUel).
  unfold fe_nl_elem. unfold bind at 1, lift at 1, py_nth at 1. rewrite Hrow.
  rewrite <- Hie. unfold bind at 1. rewrite HUe.
  unfold bind at 1, lift at 1. rewrite reshape_same by lia.
  unfold bind at 1, lift at 1, py_nth at 1. rewrite Hex.
  unfold bind at 1, lift at 1, py_nth at 1. rewrite Hey.
  set (o := elementFun Ue ex ey ep (mp s) materialFun eq).
  destruct (wf_elem _ _ _ _ _ _ _ Hwf Ue ex ey ep ltac:(lia))
    as (HKe & Hfint & Hfext & Hsig).
  fold o in HKe, Hfint, Hfext, Hsig.
  unfold bind at 1, lift at 1, py_nth at 1. rewrite Hxe.
  destruct (iadd_at_total h fg nd (edofIndex s k) (scale xe (fext o)) Hfg Hir')
    as (h1 & Hadd1 & Hsh1); [unfold scale; rewrite length_fmap; lia|].
  unfold bind at 1. rewrite Hadd1.
  destruct (iadd_at_total h1 fi nd (edofIndex s k) (scale (power xe p) (fint o)))
    as (h2 & Hadd2 & Hsh2);
    [by apply Hsh1|done|unfold scale; rewrite length_fmap; lia|].
  unfold bind at 1. rewrite Hadd2.
  destruct (iadd_at_total h2 ft nd (edofIndex s k) (fext o))
    as (h3 & Hadd3 & Hsh3); [by apply Hsh2, Hsh1|done|lia|].
  unfold bind at 1. rewrite Hadd3.
  unfold bind at 1, lift at 1. rewrite reshape_same by (by rewrite length_fmap).
  unfold bind at 1, lift at 1. rewrite reshape_same by done.
  unfold bind at 1, lift at 1. rewrite py_set_total by lia.
  destruct (von_mises_total (sig o) Hsig) as [vm Hvm].
  unfold bind at 1, lift at 1. rewrite Hvm.
  unfold bind at 1, lift at 1. rewrite py_set_total by lia.
  unfold bind at 1, lift at 1. rewrite py_set_total by lia.
  unfold ret. do 2 eexists. split; [done|]. split.
  - unfold acc_wf. simpl. rewrite !length_insert.
    split; [|done]. apply extend_triplets_wf; [done|done|]. by rewrite HKe, Hil.
  - eapply same_shape_trans; [exact Hsh1|]. by eapply same_shape_trans.
Qed.

Lemma newton_assemble_total (st : nl_state) (h : store) :
  loop_inv s F st h ->
  exists st1 h1,
    newton_assemble power s x p F ep elementFun materialFun eq st h = (Ok st1, h1)
    /\ loop_inv s F st1 h1
    /\ arr h1 (fextGlobal st1) nd
    /\ table nd nd (K st1)
    /\ length (R_ st1) = nd.
Proof using Hwf.
  intros (HU & HF & Hsv & Heh).
  destruct HU as (u & HU & Hul). destruct HF as (f & HF & Hfl).
  unfold newton_assemble.
  unfold bind at 1, np_zeros_like at 1, bind at 1, load at 1, alloc at 1.
  rewrite HU. simpl.
  unfold bind at 1, np_copy at 1, bind at 1, load at 1, alloc at 1.
  rewrite lookup_app_l, HF by (by eapply lookup_lt_Some). simpl.
  unfold bind at 1, np_zeros_like at 1, bind at 1, load at 1, alloc at 1.
  rewrite !lookup_app_l, HU
    by (rewrite ?length_app; simpl; apply lookup_lt_Some in HU; lia).
  simpl.
  set (h0 := ((h ++ [replicate (length u) 0%R]) ++ [f]) ++ [replicate (length u) 0%R]).
  set (ft := length h).
  set (fg := length (h ++ [replicate (length u) 0%R])).
  set (fi := length ((h ++ [replicate (length u) 0%R]) ++ [f])).
  assert (Hsh0 : same_shape h h0).
  { eapply same_shape_trans; [apply same_shape_alloc|].
    eapply same_shape_trans; apply same_shape_alloc. }
  assert (Hft0 : arr h0 ft nd).
  { destruct (same_shape_alloc ((h ++ [replicate (length u) 0%R]) ++ [f])
                (replicate (length u) 0%R)) as [_ Hs1].
    destruct (same_shape_alloc (h ++ [replicate (length u) 0%R]) f) as [_ Hs2].
    apply Hs1, Hs2. rewrite <- Hul.
    pose proof (arr_alloc h (replicate (length u) 0%R)) as Ha.
    by rewrite length_replicate in Ha. }
  assert (Hfg0 : arr h0 fg nd).
  { destruct (same_shape_alloc ((h ++ [replicate (length u) 0%R]) ++ [f])
                (replicate (length u) 0%R)) as [_ Hs1].
    apply Hs1. rewrite <- Hfl. apply arr_alloc. }
  assert (Hfi0 : arr h0 fi nd).
  { unfold h0, fi. rewrite <- Hul.
    pose proof (arr_alloc ((h ++ [replicate (length u) 0%R]) ++ [f])
                  (replicate (length u) 0%R)) as Ha.
    by rewrite length_replicate in Ha. }
  destruct (for_elems_total
              (fe_nl_elem power s x p ep elementFun materialFun eq fg fi ft)
              (fun a _ => acc_wf s a) h0 (nElem s))
    with (a0 := NlAcc (Triplets [] [] [])
                  (replicate (nElem s) (replicate (np_size1 (edof s)) 0%R))
                  (sig_VM st) (eps_h st))
    as (a & h1 & Hloop & Ha & Hsh1).
  { intros k a h1 Hk Ha [_ Hsh].
    destruct (fe_nl_elem_total fg fi ft a k h1 Hk) as (a' & h2 & Hb & Ha' & Hsh2);
      [apply Hsh, Hsh0; by exists u|by apply Hsh..|done|]. eauto 10. }
  { unfold acc_wf. simpl. rewrite length_replicate.
    repeat split; (constructor || done || lia). }
  unfold bind at 1. rewrite Hloop.
  destruct Ha as (Ht & HdRl & Hsvl & Hehl).
  unfold bind at 1, lift at 1.
  rewrite coo_matrix_total by (done || (destruct Hwf; lia)).
  destruct Hsh1 as [Hl1 Hsh1].
  destruct (Hsh1 _ _ Hfi0) as (fiv & Hfiv & Hfil).
  destruct (Hsh1 _ _ Hfg0) as (fgv & Hfgv & Hfgl).
  unfold bind at 1, load at 1. rewrite Hfiv.
  unfold bind at 1, load at 1. rewrite Hfgv. simpl.
  unfold bind at 1, lift at 1, np_sub.
  rewrite (proj2 (Nat.eqb_eq (length fiv) (length fgv)) ltac:(lia)).
  assert (HRl : length (zip_with Rminus fiv fgv) = nd)
    by (rewrite length_zip_with; lia).
  assert (Hfree : Forall (fun i => 0 <= i < Z.of_nat (length (zip_with Rminus fiv fgv)))
                    (freedofs s)).
  { rewrite HRl. eapply Forall_impl; [exact (wf_free _ _ _ _ _ _ _ Hwf)|].
    intros d ?; simpl in *; lia. }
  destruct (np_take_in_range _ _ Hfree) as [Rf HRf].
  unfold bind at 1, lift at 1. rewrite HRf. unfold ret.
  do 2 eexists. split; [done|]. simpl.
  split; [|split; [|split]].
  - unfold loop_inv. simpl. split; [apply Hsh1, Hsh0; by exists u|].
    split; [apply Hsh1, Hsh0; by exists f|]. done.
  - by apply Hsh1.
  - apply (tocsc_table (Coo (ndof s, ndof s) (t_row (a_t a)) (t_col (a_t a))
                            (t_data (a_t a)))).
  - done.
Qed.

Lemma newton_update_total (st1 : nl_state) (h1 : store) :
  loop_inv s F st1 h1 ->
  arr h1 (fextGlobal st1) nd ->
  table nd nd (K st1) ->
  length (R_ st1) = nd ->
  exists st2 h2,
    newton_update spsolve s st1 h1 = (Ok st2, h2) /\ loop_inv s F st2 h2.
Proof using Hwf.
  intros (HU & HF & Hsv & Heh) (fgv & Hfgv & Hfgl) HK HRl.
  assert (Hfree : Forall (fun i => 0 <= i < Z.of_nat nd) (freedofs s)).
  { eapply Forall_impl; [exact (wf_free _ _ _ _ _ _ _ Hwf)|].
    intros d ?; simpl in *; lia. }
  unfold newton_update. unfold bind at 1, load at 1. rewrite Hfgv. simpl.
  assert (Hmax : exists m, py_max (Rabs <$> fgv) = Ok m).
  { destruct fgv as [|c fgv]; [|simpl; eauto].
    simpl in Hfgl. destruct Hwf. lia. }
  destruct Hmax as [m Hm]. unfold bind at 1, lift at 1. rewrite Hm.
  destruct (take_at_total h1 (U s) nd (freedofs s) HU Hfree) as (Uf & HUf & HUfl).
  unfold bind at 1. rewrite HUf.
  destruct (np_take_rows_total nd nd (K st1) _ _ HK Hfree Hfree) as [Kff HKff].
  unfold bind at 1, lift at 1. rewrite HKff.
  assert (Hfree' : Forall (fun i => 0 <= i < Z.of_nat (length (R_ st1))) (freedofs s))
    by (by rewrite HRl).
  destruct (np_take_in_range _ _ Hfree') as [Rf HRf].
  unfold bind at 1, lift at 1. rewrite HRf.
  pose proof (np_take_length _ _ _ HRf) as HRfl.
  unfold bind at 1, lift at 1.
  rewrite reshape_same by (by rewrite (wf_solve _ _ _ _ _ _ _ Hwf)).
  destruct (put_at_total h1 (U s) nd (freedofs s)
              (zip_with Rminus Uf (spsolve Kff Rf)) HU Hfree)
    as (h2 & Hput & [Hl2 Hsh2]).
  { rewrite length_zip_with, (wf_solve _ _ _ _ _ _ _ Hwf). lia. }
  unfold bind at 1. rewrite Hput. unfold ret.
  do 2 eexists. split; [done|]. unfold loop_inv. simpl.
  split; [by apply Hsh2|]. split; [by apply Hsh2|]. done.
Qed.

(** A well-formed call leaves the loop within the cap, without raising *)
Lemma newton_total (fuel : nat) (st : nl_state) (h : store) :
  loop_inv s F st h ->
  newtonIt st < 100 ->
  100 <= newtonIt st + Z.of_nat fuel ->
  exists st' h',
    newton power spsolve fuel s x p F ep elementFun materialFun eq st h
    = Some (Ok st', h').
Proof using Hwf.
  revert st h. induction fuel as [|fuel IH]; intros st h Hinv Hlt Hfuel; [lia|].
  cbn [newton]. destruct (Rgt_dec (err st) (TOL st)) as [Hgt|Hngt]; [|eauto].
  destruct (newton_assemble_total st h Hinv) as (st1 & h1 & Hasm & Hinv1 & Hfg & HK & HR).
  rewrite Hasm.
  pose proof (newton_assemble_counts _ _ _ _ _ _ _ _ _ _ _ _ _ Hasm) as [Hit1 _].
  destruct (Z.eqb_spec (newtonIt st1) 100) as [H100|Hn100]; [eauto|].
  destruct (newton_update_total st1 h1 Hinv1 Hfg HK HR) as (st2 & h2 & Hupd & Hinv2).
  rewrite Hupd.
  pose proof (newton_update_Ok_inv _ _ _ _ _ _ Hupd) as (_ & _ & Hit2 & _).
  apply IH; [done|lia|lia].
Qed.

(** Whatever the inputs, the loop is over after at most 100 iterations. *)
Lemma newton_terminates (fuel : nat) (st : nl_state) (h : store) :
  newtonIt st < 100 ->
  100 <= newtonIt st + Z.of_nat fuel ->
  newton power spsolve fuel s x p F ep elementFun materialFun eq st h <> None.
Proof using Type.
  revert st h. induction fuel as [|fuel IH]; intros st h Hlt Hfuel; [lia|].
  cbn [newton]. destruct (Rgt_dec (err st) (TOL st)) as [Hgt|Hngt]; [|done].
  destruct (newton_assemble _ _ _ _ _ _ _ _ _ _ h) as [[st1|e] h1] eqn:Hasm; [|done].
  apply newton_assemble_counts in Hasm as [Hit1 _].
  destruct (Z.eqb_spec (newtonIt st1) 100) as [H100|Hn100]; [done|].
  destruct (newton_update spsolve s st1 h1) as [[st2|e] h2] eqn:Hupd; [|done].
  apply newton_update_Ok_inv in Hupd as (_ & _ & Hit2 & _).
  apply IH; lia.
Qed.

End TotalNl.

(** A run that ends with the counter at 100 ends right after an assembly,
    the 100th. *)
Lemma newton_ends_at_cap (power : R -> R -> R)
    (spsolve : list (list R) -> list R -> list R)
    (fuel : nat) (s : self) (x : list R) (p : R) (F : loc) (ep : list R)
    (elementFun : element_fun) (materialFun : material_fun)
    (eq : option (list R)) (st st' : nl_state) (h h' : store) :
  newtonIt st < 100 ->
  newton power spsolve fuel s x p F ep elementFun materialFun eq st h
  = Some (Ok st', h') ->
  newtonIt st' = 100 ->
  exists sta ha,
    newtonIt sta = 99
    /\ newton_assemble power s x p F ep elementFun materialFun eq sta ha
       = (Ok st', h').
Proof.
  revert st h. induction fuel as [|fuel IH]; intros st h Hlt; cbn [newton];
    destruct (Rgt_dec (err st) (TOL st)) as [Hgt|Hngt]; intros Hrun H100;
    try discriminate;
    try (inversion Hrun; subst st' h'; lia).
  destruct (newton_assemble power s x p F ep elementFun materialFun eq st h)
    as [[st1|e] h1] eqn:Hasm; [|discriminate].
  pose proof (newton_assemble_counts _ _ _ _ _ _ _ _ _ _ _ _ _ Hasm) as [Hit1 _].
  destruct (Z.eqb_spec (newtonIt st1) 100) as [Hcap|Hncap].
  - inversion Hrun; subst st' h'. exists st, h. split; [lia|done].
  - destruct (newton_update spsolve s st1 h1) as [[st2|e] h2] eqn:Hupd;
      [|discriminate].
    apply newton_update_Ok_inv in Hupd as (_ & _ & Hit2 & _).
    apply (IH st2 h2); [lia|done|done].
Qed.

Lemma fe_returns_U (power : R -> R -> R)
    (spsolve : list (list R) -> list R -> list R)
    (s : self) (x : list R) (p : R) (F : loc) (ep : list R)
    (elementFun : element_fun) (materialFun : material_fun)
    (eq : option (list R)) (h h1 : store) (U0 ft fg : loc) (K0 : list (list R)) :
  fe power spsolve s x p F ep elementFun materialFun eq h = (Ok (U0, ft, fg, K0), h1) ->
  U0 = U s.
Proof.
  intros Hfe.
  destruct (fe_keeps power spsolve s x p F ep elementFun materialFun eq
              (length h) _ (true_update_rel (freedofs s)) h (le_n _)) as [_ Hret].
  rewrite Hfe in Hret. by destruct (Hret _ eq_refl) as (HU0 & _).
Qed.

(** [fe_nl] is [fe_nl_console] without the printed lines. *)
Lemma fe_nl_console_returns (power : R -> R -> R)
    (spsolve : list (list R) -> list R -> list R)
    (fuel : nat) (s : self) (x : list R) (p : R) (F : loc) (ep : list R)
    (elementFun : element_fun) (materialFun : material_fun)
    (eq : option (list R)) (h : store) :
  fe_nl power spsolve fuel s x p F ep elementFun materialFun eq h
  = (fun r => (r.1.2, r.2))
      <$> fe_nl_console power spsolve fuel s x p F ep elementFun materialFun eq h.
Proof.
  unfold fe_nl, fe_nl_console.
  destruct (fe _ _ _ _ _ _ _ _ _ _ h) as [[[[[U0 ft0] fg0] K0]|e] h1]; [|done].
  destruct (py_nth ep 3) as [flag|e]; [|done].
  destruct (Req_dec_T flag 1); [done|].
  by destruct (newton _ _ _ _ _ _ _ _ _ _ _ _ h1) as [[[st|e] h2]|].
Qed.

(** C4 (as amended). With fuel for 100 iterations [fe_nl] always comes to
    an end: whatever the input, the Newton loop makes at most 100
    iterations.  A call that enters the loop and returns has made between
    1 and 100 iterations, and it has left the loop before the 100th only
    because the loop test [err > TOL] failed: a run in which the test
    succeeds every time makes exactly 100 iterations.  It then stops right
    after the 100th assembly, without a further Newton step, and returns
    normally the same eight outputs as any other run: the array [self.U]
    and the tables and force vectors of the state [st'] that the loop,
    started after the call of [fe], was left in.
    No status is returned: the only report is the two printed lines, the
    text ['N.iters:    '] with the iteration count and the text
    ['Final error:'] with the last residual norm.  A well-formed call
    raises no exception at all. *)
Theorem newton_iteration_cap (power : R -> R -> R)
    (spsolve : list (list R) -> list R -> list R)
    (fuel : nat) (s : self) (x : list R) (p : R) (F : loc) (ep : list R)
    (elementFun : element_fun) (materialFun : material_fun)
    (eq : option (list R)) (h : store) :
  (100 <= fuel)%nat ->
  fe_nl_console power spsolve fuel s x p F ep elementFun materialFun eq h <> None
  /\ (forall lines out h',
        ep !! 3%nat <> Some 1%R ->
        fe_nl_console power spsolve fuel s x p F ep elementFun materialFun eq h
        = Some (lines, Ok out, h') ->
        exists ft0 fg0 K0 h1 st',
          fe power spsolve s x p F ep elementFun materialFun eq h
          = (Ok (U s, ft0, fg0, K0), h1)
          /\ newton power spsolve fuel s x p F ep elementFun materialFun eq
                    (nl_init x ft0 fg0 K0) h1 = Some (Ok st', h')
          /\ lines = [("N.iters:    ", PyInt (newtonIt st'));
                      ("Final error:", PyFloat (err st'))]
          /\ out = NlOut (U s) (dR st') (sig_VM st') (fext_tilde st')
                         (fextGlobal st') (eps_h st') (freedofs s) (K st')
          /\ 1 <= newtonIt st' <= 100
          /\ (newtonIt st' = 100 \/ ~ (err st' > TOL st')%R)
          /\ (newtonIt st' = 100 ->
              exists sta ha,
                newtonIt sta = 99
                /\ newton_assemble power s x p F ep elementFun materialFun eq sta ha
                   = (Ok st', h')))
  /\ (well_formed spsolve s x ep elementFun materialFun eq ->
      arr h (U s) (Z.to_nat (ndof s)) ->
      arr h F (Z.to_nat (ndof s)) ->
      exists lines out h',
        fe_nl_console power spsolve fuel s x p F ep elementFun materialFun eq h
        = Some (lines, Ok out, h')).
Proof.
  intros Hfuel.
  split; [|split].
  - unfold fe_nl_console.
    destruct (fe _ _ _ _ _ _ _ _ _ _ h) as [[[[[U0 ft0] fg0] K0]|e] h1]; [|done].
    destruct (py_nth ep 3) as [flag|e]; [|done].
    destruct (Req_dec_T flag 1); [done|].
    pose proof (newton_terminates power spsolve s x p F ep elementFun materialFun eq
                  fuel (nl_init x ft0 fg0 K0) h1) as Hterm.
    destruct (newton _ _ _ _ _ _ _ _ _ _ _ _ h1) as [[[st|e] h2]|]; [done|done|].
    exfalso. apply Hterm; [simpl; lia|simpl; lia|done].
  - intros lines out h' Hflag Hrun. unfold fe_nl_console in Hrun.
    destruct (fe _ _ _ _ _ _ _ _ _ _ h) as [[[[[U0 ft0] fg0] K0]|e] h1] eqn:Hfe;
      [|done].
    pose proof (fe_returns_U _ _ _ _ _ _ _ _ _ _ _ _ _ _ _ _ Hfe) as ->.
    unfold py_nth in Hrun. destruct (ep !! 3%nat) as [flag|]; [|done].
    destruct (Req_dec_T flag 1) as [->|_]; [done|].
    destruct (newton _ _ _ _ _ _ _ _ _ _ _ _ h1) as [[[st|e] h2]|] eqn:Hnewton;
      try done.
    inversion Hrun; subst lines out h'. clear Hrun.
    exists ft0, fg0, K0, h1, st.
    split; [done|]. split; [done|]. split; [done|]. split; [done|].
    pose proof (newton_counter _ _ _ _ _ _ _ _ _ _ _ _ _ _ _ Hnewton)
      as (_ & Hlt & Hcap & Hconv).
    simpl in Hlt, Hcap.
    assert (Hpos : 0 < newtonIt st) by (apply Hlt; lra).
    assert (Hle : newtonIt st <= 100) by (apply Hcap; lia).
    split; [lia|].
    split.
    + destruct (decide (newtonIt st = 100)) as [|Hne]; [by left|right; by apply Hconv].
    + intros H100.
      eapply newton_ends_at_cap; [|exact Hnewton|exact H100]. simpl. lia.
  - intros Hwf HU HF.
    destruct (fe_total power spsolve s x p F ep elementFun materialFun eq Hwf h HU HF)
      as (ft & fg & K0 & h1 & Hfe & [_ Hsh] & Hfg & Hft).
    unfold fe_nl_console. rewrite Hfe.
    destruct (lookup_lt_is_Some_2 ep 3 (wf_ep _ _ _ _ _ _ _ Hwf)) as [flag Hflag].
    unfold py_nth. rewrite Hflag.
    destruct (Req_dec_T flag 1); [eauto|].
    destruct (newton_total power spsolve s x p F ep elementFun materialFun eq Hwf
                fuel (nl_init x ft fg K0) h1) as (st' & h' & Hrun).
    + unfold loop_inv. simpl. rewrite length_replicate.
      split; [by apply Hsh|]. split; [by apply Hsh|].
      split; exact (wf_x _ _ _ _ _ _ _ Hwf).
    + simpl. lia.
    + simpl. lia.
    + rewrite Hrun. eauto.
Qed.

(** *** A run that reaches the cap *)

Local Open Scope R_scope.

Section Unconverged.
Context (power : R -> R -> R) (spsolve : list (list R) -> list R -> list R).
Context (s : self) (x : list R) (p : R) (F : loc) (ep : list R).
Context (elementFun : element_fun) (materialFun : material_fun).
Context (eq : option (list R)).
Context (P P' : nl_state -> store -> Prop).

(** If every assembly leaves the residual above the tolerance and every
    update keeps it there, the loop can only be left above the tolerance. *)
Lemma newton_unconverged (fuel : nat) (st st' : nl_state) (h h' : store) :
  (forall st h st1 h1, P st h ->
     newton_assemble power s x p F ep elementFun materialFun eq st h = (Ok st1, h1) ->
     err st1 > TOL st1 /\ P' st1 h1) ->
  (forall st1 h1 st2 h2, P' st1 h1 ->
     newton_update spsolve s st1 h1 = (Ok st2, h2) ->
     err st2 > TOL st2 /\ P st2 h2) ->
  P st h -> err st > TOL st ->
  newton power spsolve fuel s x p F ep elementFun materialFun eq st h
  = Some (Ok st', h') ->
  err st' > TOL st'.
Proof.
  intros Hasm Hupd. revert st h.
  induction fuel as [|fuel IH]; intros st h HP Hgt; cbn [newton];
    destruct (Rgt_dec (err st) (TOL st)) as [_|Hn]; try done.
  destruct (newton_assemble _ _ _ _ _ _ _ _ _ _ h) as [[st1|e] h1] eqn:Ha; [|done].
  destruct (Hasm _ _ _ _ HP Ha) as [Hgt1 HP1].
  destruct (newtonIt st1 =? 100)%Z.
  - intros Hrun. by inversion Hrun; subst.
  - destruct (newton_update spsolve s st1 h1) as [[st2|e] h2] eqn:Hu; [|done].
    destruct (Hupd _ _ _ _ HP1 Hu) as [Hgt2 HP2]. by apply IH.
Qed.

End Unconverged.

Lemma np_put_length (a : list R) (idx : list Z) (w a' : list R) :
  np_put a idx w = Ok a' -> length a' = length a.
Proof.
  unfold np_put. intros Hput. inv_ok. apply np_put_seq_length.
Qed.

Lemma ex_stuck_assemble (st st1 : nl_state) (h h1 : store) :
  ex_stuck_head st h ->
  newton_assemble Rpower ex_self [1] 3 1%nat ex_ep_nonlinear
    ex_stuck_elementFun ex_materialFun None st h = (Ok st1, h1) ->
  err st1 > TOL st1 /\ ex_stuck_mid st1 h1.
Proof.
  intros ((u & Hu & Hul) & HF & HTOL) Hasm.
  destruct (newton_assemble_Ok_inv Rpower ex_self [1] 3 1%nat ex_ep_nonlinear
              ex_stuck_elementFun ex_materialFun None u st st1 h h1 _ HF Hu Hasm)
    as ((_ & Hfgl & _ & _ & HTOL1 & Hkeep) & (Hfg & Hfi & _) & _ & _
        & (fiv & fgv & Rf & Hfiv & Hfgv & HR & HRf & Herr)).
  destruct Hfg as (g & Hg & Hgall). rewrite Hfgv in Hg. inversion Hg; subst g.
  destruct Hfi as (g & Hg' & Hfiall). rewrite Hfiv in Hg'. inversion Hg'; subst g.
  rewrite Hul in Hfiall.
  py_eval_in Hgall. py_eval_in Hfiall.
  inversion Hgall; subst fgv. inversion Hfiall; subst fiv. clear Hgall Hfiall Hg Hg'.
  remember (R_ st1) as Rv eqn:HRv. clear HRv.
  py_eval_in HR. inversion HR; subst Rv. clear HR.
  py_eval_in HRf. inversion HRf; subst Rf. clear HRf.
  assert (Herr1 : err st1 = 1).
  { rewrite Herr. unfold norm. simpl. rewrite Rpower_1_l.
    replace ((0 + 3 * 1 - (1 + 1 * 1)) * (0 + 3 * 1 - (1 + 1 * 1)) + 0)
      with (1 * 1) by lra.
    apply sqrt_square. lra. }
  assert (Hlt : (1 < length h)%nat) by (by eapply lookup_lt_Some).
  split; [rewrite Herr1, HTOL1; lra|].
  split; [exists u; split; [|done]; rewrite Hkeep; [done|lia]|].
  split; [rewrite Hkeep; [done|lia]|].
  split; [done|]. split; [rewrite HTOL1; lra|].
  split; [rewrite Hfgl; lia|]. done.
Qed.

Lemma ex_stuck_update (st1 st2 : nl_state) (h1 h2 : store) :
  ex_stuck_mid st1 h1 ->
  newton_update diag_solve ex_self st1 h1 = (Ok st2, h2) ->
  err st2 > TOL st2 /\ ex_stuck_head st2 h2.
Proof.
  intros ((u & Hu & Hul) & HF & Herr & HTOL & Hfgne & Hfg) Hupd.
  destruct (newton_update_Ok_inv diag_solve ex_self st1 st2 h1 h2 Hupd)
    as ((m & Hm & HTOL2) & Herr2 & _ & (Kff & Rf & step & Uf & u' & _ & _ & _ & _ & Hput & ->)).
  rewrite Hfg in Hm. simpl in Hm. inversion Hm as [Hm']. clear Hm.
  assert (HT : TOL st2 = 1e-7).
  { rewrite HTOL2, <- Hm'. rewrite Rmax_right; [lra|].
    repeat apply Rmax_lub; unfold Rabs; destruct (Rcase_abs _); lra. }
  split; [rewrite Herr2, Herr, HT; lra|].
  simpl in Hput. rewrite Hu in Hput. simpl in Hput.
  apply np_put_length in Hput.
  split; [|split].
  - exists u'. split; [|lia]. simpl.
    apply list_lookup_insert_eq. by eapply lookup_lt_Some.
  - simpl. by rewrite list_lookup_insert_ne.
  - rewrite HT. lra.
Qed.

Lemma ex_stuck_well_formed (x : list R) (ep : list R) :
  (1 <= length x)%nat -> (3 < length ep)%nat ->
  well_formed diag_solve ex_self x ep ex_stuck_elementFun ex_materialFun None.
Proof.
  intros Hx Hep.
  split; try done; try (repeat constructor; simpl; lia).
  intros K b. unfold diag_solve. apply length_imap.
Qed.

(** With the internal force stuck, [fe_nl] runs its 100 iterations and
    leaves the loop with the residual norm 1, still above the tolerance. *)
Lemma ex_stuck_hits_cap :
  exists ft0 fg0 K0 h1 st' h',
    fe Rpower diag_solve ex_self [1] 3 1%nat ex_ep_nonlinear
       ex_stuck_elementFun ex_materialFun None ex_store
    = (Ok (U ex_self, ft0, fg0, K0), h1)
    /\ newton Rpower diag_solve 100 ex_self [1] 3 1%nat ex_ep_nonlinear
         ex_stuck_elementFun ex_materialFun None (nl_init [1] ft0 fg0 K0) h1
       = Some (Ok st', h')
    /\ newtonIt st' = 100%Z
    /\ err st' > TOL st'.
Proof.
  assert (Hfe : exists K0 u5,
    fe Rpower diag_solve ex_self [1] 3 1%nat ex_ep_nonlinear
       ex_stuck_elementFun ex_materialFun None ex_store
    = (Ok (0%nat, 3%nat, 2%nat, K0),
       [[0; 0; 0; 0; 0; u5]; [0; 0; 0; 0; 0; 1];
        [0 + 1 * 1; 0 + 1 * 1; 0 + 1 * 1; 0 + 1 * 1; 0 + 1 * 1; 1 + 1 * 1];
        [0 + 1; 0 + 1; 0 + 1; 0 + 1; 0 + 1; 0 + 1]]))
    by (do 2 eexists; py_eval; reflexivity).
  destruct Hfe as (K0 & u5 & Hfe).
  set (h1 := [[0; 0; 0; 0; 0; u5]; [0; 0; 0; 0; 0; 1];
              [0 + 1 * 1; 0 + 1 * 1; 0 + 1 * 1; 0 + 1 * 1; 0 + 1 * 1; 1 + 1 * 1];
              [0 + 1; 0 + 1; 0 + 1; 0 + 1; 0 + 1; 0 + 1]]) in Hfe.
  destruct (newton_total Rpower diag_solve ex_self [1] 3 1%nat ex_ep_nonlinear
              ex_stuck_elementFun ex_materialFun None
              (ex_stuck_well_formed [1] ex_ep_nonlinear ltac:(simpl; lia)
                 ltac:(simpl; lia))
              100 (nl_init [1] 3%nat 2%nat K0) h1) as (st' & h' & Hrun).
  { unfold loop_inv. simpl. split; [by eexists|]. split; [by eexists|]. lia. }
  { simpl. lia. }
  { simpl. lia. }
  assert (Hgt : err st' > TOL st').
  { eapply (newton_unconverged Rpower diag_solve ex_self [1] 3 1%nat ex_ep_nonlinear
              ex_stuck_elementFun ex_materialFun None ex_stuck_head ex_stuck_mid);
      [intros; by eapply ex_stuck_assemble|intros; by eapply ex_stuck_update
      | | |exact Hrun].
    - split; [by eexists|]. split; [done|]. simpl. lra.
    - simpl. lra. }
  exists 3%nat, 2%nat, K0, h1, st', h'. split; [exact Hfe|]. split; [exact Hrun|].
  split; [|exact Hgt].
  apply newton_counter in Hrun as (_ & _ & _ & Hconv).
  destruct (decide (newtonIt st' = 100%Z)) as [Heq|Hne]; [done|].
  by destruct (Hconv Hne).
Qed.

Lemma newton_iteration_cap_witness :
  (100 <= 100)%nat
  /\ fe_nl_console Rpower diag_solve 100 ex_self [1] 3 1%nat ex_ep_nonlinear
       ex_stuck_elementFun ex_materialFun None ex_store <> None
  /\ exists lines out h' e,
       fe_nl_console Rpower diag_solve 100 ex_self [1] 3 1%nat ex_ep_nonlinear
         ex_stuck_elementFun ex_materialFun None ex_store
       = Some (lines, Ok out, h')
       /\ lines = [("N.iters:    ", PyInt 100); ("Final error:", PyFloat e)]
       /\ exists ft0 fg0 K0 h1 st',
            fe Rpower diag_solve ex_self [1] 3 1%nat ex_ep_nonlinear
               ex_stuck_elementFun ex_materialFun None ex_store
            = (Ok (U ex_self, ft0, fg0, K0), h1)
            /\ newton Rpower diag_solve 100 ex_self [1] 3 1%nat ex_ep_nonlinear
                 ex_stuck_elementFun ex_materialFun None (nl_init [1] ft0 fg0 K0) h1
               = Some (Ok st', h')
            /\ lines = [("N.iters:    ", PyInt (newtonIt st'));
                        ("Final error:", PyFloat (err st'))]
            /\ out = NlOut (U ex_self) (dR st') (sig_VM st') (fext_tilde st')
                           (fextGlobal st') (eps_h st') (freedofs ex_self) (K st')
            /\ (1 <= newtonIt st' <= 100)%Z
            /\ (newtonIt st' = 100%Z \/ ~ err st' > TOL st')
            /\ (newtonIt st' = 100%Z ->
                exists sta ha,
                  newtonIt sta = 99%Z
                  /\ newton_assemble Rpower ex_self [1] 3 1%nat ex_ep_nonlinear
                       ex_stuck_elementFun ex_materialFun None sta ha
                     = (Ok st', h')).
Proof.
  destruct (newton_iteration_cap Rpower diag_solve 100 ex_self [1] 3 1%nat
              ex_ep_nonlinear ex_stuck_elementFun ex_materialFun None ex_store
              (le_n 100)) as (Hterm & Hshape & _).
  split; [lia|]. split; [exact Hterm|].
  destruct ex_stuck_hits_cap
    as (ft0 & fg0 & K0 & h1 & st' & h' & Hfe & Hrun & H100 & Hgt).
  assert (Hcon : fe_nl_console Rpower diag_solve 100 ex_self [1] 3 1%nat
                   ex_ep_nonlinear ex_stuck_elementFun ex_materialFun None ex_store
                 = Some ([("N.iters:    ", PyInt 100);
                          ("Final error:", PyFloat (err st'))],
                         Ok (nl_return ex_self (U ex_self) st'), h')).
  { unfold fe_nl_console. rewrite Hfe.
    cbn [py_nth ex_ep_nonlinear lookup list_lookup].
    destruct (Req_dec_T _ _) as [H01|_]; [lra|].
    rewrite Hrun. unfold fe_nl_prints. by rewrite H100. }
  eexists _, _, _, _. split; [exact Hcon|]. split; [reflexivity|].
  apply Hshape; [|exact Hcon].
  simpl. intros Heq. injection Heq. lra.
Defined.

(** ** More about [__init__] *)

Local Open Scope Z_scope.

Lemma alloc_Ok (w : list R) (l : loc) (h h' : store) :
  alloc w h = (Ok l, h') -> l = length h /\ h' = h ++ [w].
Proof. unfold alloc. intros H. by inversion H. Qed.

(** The steps of a successful construction *)
Lemma init_Ok_inv (edof0 : list (list Z)) (coords : list (R * R))
    (mp0 : gmap string R) (fixdofs : list Z) (h h' : store) (s : self) :
  __init__ edof0 coords mp0 fixdofs h = (Ok s, h') ->
  exists tables row0,
    mp0 !! "E" = Some (E s) /\ mp0 !! "nu" = Some (v s)
    /\ np_max (concat edof0) = Ok (ndof s) /\ 0 <= ndof s
    /\ edof0 !! 0%nat = Some row0 /\ (length row0 = 6%nat \/ length row0 = 8%nat)
    /\ elem_coords (fst <$> coords) (snd <$> coords) edof0 = Ok tables
    /\ s = Self mp0 (E s) (v s) (ndof s) (length edof0) (length h) tables.1 tables.2
             (setdiff1d (py_range (ndof s)) fixdofs) edof0
    /\ h' = h ++ [replicate (Z.to_nat (ndof s)) 0%R].
Proof.
  intros Hrun. unfold __init__ in Hrun.
  apply bind_Ok in Hrun as (E0 & h0 & HE & Hrun). apply lift_Ok in HE as [HE ->].
  apply bind_Ok in Hrun as (v0 & h0 & Hv & Hrun). apply lift_Ok in Hv as [Hv ->].
  apply bind_Ok in Hrun as (nd & h0 & Hnd & Hrun). apply lift_Ok in Hnd as [Hnd ->].
  apply bind_Ok in Hrun as ([] & h0 & Hneg & Hrun).
  destruct (Z.ltb_spec nd 0) as [|Hnn]; [discriminate|].
  apply ret_Ok in Hneg as [_ ->].
  apply bind_Ok in Hrun as (U0 & h0 & HU & Hrun). apply alloc_Ok in HU as [-> ->].
  apply bind_Ok in Hrun as (row0 & h0 & Hrow & Hrun). apply lift_Ok in Hrow as [Hrow ->].
  apply py_nth_Ok in Hrow.
  apply bind_Ok in Hrun as ([] & h0 & Hshape & Hrun).
  assert (Hlen : length row0 = 6%nat \/ length row0 = 8%nat).
  { destruct (Nat.eqb_spec (length row0) 6); [by left|].
    destruct (Nat.eqb_spec (length row0) 8); [by right|]. discriminate. }
  assert (h0 = h ++ [replicate (Z.to_nat nd) 0%R]) as ->.
  { destruct (length row0 =? 6)%nat; [by apply ret_Ok in Hshape as [_ ->]|].
    destruct (length row0 =? 8)%nat; [by apply ret_Ok in Hshape as [_ ->]|].
    discriminate. }
  clear Hshape.
  apply bind_Ok in Hrun as (tables & h0 & Htab & Hrun). apply lift_Ok in Htab as [Htab ->].
  apply ret_Ok in Hrun as [-> ->].
  unfold dict_get in HE, Hv.
  destruct (mp0 !! "E") as [E1|] eqn:HE1; [|discriminate].
  destruct (mp0 !! "nu") as [v1|] eqn:Hv1; [|discriminate].
  inversion HE; inversion Hv; subst.
  exists tables, row0. simpl. repeat split; done.
Qed.

Lemma elem_of_py_range_2 (d n : Z) : 0 <= d < n -> d ∈ py_range n.
Proof.
  intros Hd. unfold py_range. apply list_elem_of_fmap. exists (Z.to_nat d).
  split; [lia|]. apply list_elem_of_In, in_seq. lia.
Qed.

Lemma increasing_cons (a : Z) (l : list Z) :
  increasing (a :: l) <-> (forall b, b ∈ l -> a < b) /\ increasing l.
Proof.
  split.
  - intros Hinc. split.
    + intros b Hb. apply list_elem_of_lookup in Hb as [j Hj].
      by apply (Hinc O (S j) a b); [lia| |].
    + intros i j x y Hij Hx Hy. by apply (Hinc (S i) (S j) x y); [lia| |].
  - intros [Hlt Hinc] i j x y Hij Hx Hy. destruct j as [|j]; [lia|].
    simpl in Hy. destruct i as [|i].
    + simpl in Hx. inversion Hx; subst. apply Hlt. by eapply list_elem_of_lookup_2.
    + simpl in Hx. apply (Hinc i j); (done || lia).
Qed.

Lemma increasing_filter (f : Z -> bool) (l : list Z) :
  increasing l -> increasing (List.filter f l).
Proof.
  induction l as [|a l IH]; intros Hinc; [done|].
  apply increasing_cons in Hinc as [Hlt Hinc]. simpl.
  destruct (f a); [|by apply IH].
  apply increasing_cons. split; [|by apply IH].
  intros b Hb. apply Hlt. apply list_elem_of_In, filter_In in Hb as [Hb _].
  by apply list_elem_of_In.
Qed.

Lemma increasing_py_range (n : Z) : increasing (py_range n).
Proof.
  intros i j a b Hij Ha Hb. unfold py_range in *.
  rewrite list_lookup_fmap in Ha, Hb.
  destruct (seq 0 (Z.to_nat n) !! i) as [i'|] eqn:Hi; [|done].
  destruct (seq 0 (Z.to_nat n) !! j) as [j'|] eqn:Hj; [|done].
  apply lookup_seq in Hi as [-> _]. apply lookup_seq in Hj as [-> _].
  simpl in *. inversion Ha; inversion Hb; subst. lia.
Qed.

Lemma increasing_NoDup (l : list Z) : increasing l -> NoDup l.
Proof.
  intros Hinc. apply NoDup_alt. intros i j a Hi Hj.
  destruct (Nat.lt_trichotomy i j) as [Hlt|[Heq|Hgt]]; [|done|].
  - pose proof (Hinc i j a a Hlt Hi Hj). lia.
  - pose proof (Hinc j i a a Hgt Hj Hi). lia.
Qed.

(** X2. The free DOFs that [__init__] computes are the DOF indices 0, ...,
    ndof-1 (numbered from zero, unlike the entries of [edof]) that do not
    occur in [fixdofs], in increasing order and without repetition; an
    entry of [fixdofs] outside that range has no effect. *)
Theorem init_freedofs (edof0 : list (list Z)) (coords : list (R * R))
    (mp0 : gmap string R) (fixdofs : list Z) (h h' : store) (s : self) :
  __init__ edof0 coords mp0 fixdofs h = (Ok s, h') ->
  (forall d, d ∈ freedofs s <-> 0 <= d < ndof s /\ d ∉ fixdofs)
  /\ increasing (freedofs s)
  /\ NoDup (freedofs s)
  /\ freedofs s
     = setdiff1d (py_range (ndof s))
         (List.filter (fun d => (0 <=? d) && (d <? ndof s)) fixdofs).
Proof.
  intros Hrun.
  destruct (init_Ok_inv _ _ _ _ _ _ _ Hrun)
    as (tables & row0 & _ & _ & _ & _ & _ & _ & _ & Hs & _).
  assert (Hfree : freedofs s = setdiff1d (py_range (ndof s)) fixdofs)
    by (by rewrite Hs at 1).
  assert (Hinc : increasing (freedofs s)).
  { rewrite Hfree. apply increasing_filter, increasing_py_range. }
  split; [|split; [done|split; [by apply increasing_NoDup|]]].
  - intros d. rewrite Hfree, elem_of_setdiff1d. split.
    + intros [Hd Hn]. split; [by apply elem_of_py_range|done].
    + intros [Hd Hn]. split; [by apply elem_of_py_range_2|done].
  - rewrite Hfree. unfold setdiff1d. apply filter_ext_in. intros d Hd.
    apply list_elem_of_In, elem_of_py_range in Hd. f_equal.
    apply bool_decide_ext. rewrite !list_elem_of_In, filter_In.
    split; [|tauto]. intros Hin. split; [done|].
    apply andb_true_iff. split; [apply Z.leb_le|apply Z.ltb_lt]; lia.
Qed.

Lemma init_freedofs_witness :
  __init__ ex_edof ex_coords ex_mp ex_fixdofs [] = (Ok ex_self, [replicate 6 0%R])
  /\ (forall d, d ∈ freedofs ex_self <-> 0 <= d < ndof ex_self /\ d ∉ ex_fixdofs)
  /\ increasing (freedofs ex_self)
  /\ NoDup (freedofs ex_self)
  /\ freedofs ex_self
     = setdiff1d (py_range (ndof ex_self))
         (List.filter (fun d => (0 <=? d) && (d <? ndof ex_self)) ex_fixdofs).
Proof.
  split; [exact ex_init_run|].
  exact (init_freedofs ex_edof ex_coords ex_mp ex_fixdofs [] _ ex_self ex_init_run).
Defined.

Lemma foldl_max_spec (l : list Z) (a : Z) :
  foldl Z.max a l ∈ a :: l /\ Forall (fun d => d <= foldl Z.max a l) (a :: l).
Proof.
  revert a. induction l as [|b l IH]; intros a; simpl.
  - split; [left|]. by repeat constructor.
  - destruct (IH (Z.max a b)) as [Hin Hall]. split.
    + apply elem_of_cons in Hin as [Heq|Hin].
      * rewrite Heq. destruct (Z.max_spec a b) as [[_ ->]|[_ ->]];
          [right; left | left].
      * by do 2 right.
    + apply Forall_cons in Hall as [Hm Hall].
      constructor; [lia|]. constructor; [lia|done].
Qed.

Lemma np_max_spec (l : list Z) (m : Z) :
  np_max l = Ok m -> m ∈ l /\ Forall (fun d => d <= m) l.
Proof.
  destruct l as [|a l]; [discriminate|]. simpl. intros H; inversion H; subst.
  apply foldl_max_spec.
Qed.

Lemma every_other_lookup {A} (l : list A) (k : nat) :
  every_other l !! k = l !! (2 * k)%nat.
Proof.
  revert l. induction k as [|k IH]; intros [|a [|b l]]; try reflexivity.
  simpl. rewrite IH. by replace (k + S (k + 0))%nat with (S (2 * k)) by lia.
Qed.

Lemma slice_0_8_2_lookup {A} (l : list A) (k : nat) :
  (k < 4)%nat -> slice_0_8_2 l !! k = l !! (2 * k)%nat.
Proof.
  intros Hk. unfold slice_0_8_2. rewrite every_other_lookup.
  apply lookup_take_lt. lia.
Qed.

Lemma np_take_lookup (a : list R) (idx : list Z) (w : list R) (k : nat) (i : Z) :
  np_take a idx = Ok w -> idx !! k = Some i ->
  exists c, py_get a i = Ok c /\ w !! k = Some c.
Proof.
  revert w k. induction idx as [|j idx IH]; intros w k Hw Hk; [done|].
  simpl in Hw. apply rbind_Ok in Hw as (c & Hc & Hw).
  apply rbind_Ok in Hw as (w' & Hw' & Hw). inversion Hw; subst w.
  destruct k as [|k]; simpl in Hk.
  - inversion Hk; subst. by exists c.
  - by apply (IH w' k).
Qed.

Lemma elem_coords_lookup (nx ny : list R) (rows : list (list Z))
    (tables : list (list R) * list (list R)) :
  elem_coords nx ny rows = Ok tables ->
  length tables.1 = length rows /\ length tables.2 = length rows
  /\ forall e r, rows !! e = Some r ->
       exists cx cy, tables.1 !! e = Some cx /\ tables.2 !! e = Some cy
         /\ np_take nx (slice_0_8_2 (node_of_dof <$> r)) = Ok cx
         /\ np_take ny (slice_0_8_2 (node_of_dof <$> r)) = Ok cy.
Proof.
  revert tables. induction rows as [|r0 rows IH]; intros tables Hrun.
  - inversion Hrun; subst. simpl. by repeat split.
  - cbn [elem_coords] in Hrun.
    apply rbind_Ok in Hrun as (cx & Hcx & Hrun).
    apply rbind_Ok in Hrun as (cy & Hcy & Hrun).
    apply rbind_Ok in Hrun as (rest & Hrest & Hrun). inversion Hrun; subst tables.
    destruct (IH _ Hrest) as (Hl1 & Hl2 & Hrows). simpl.
    split; [by rewrite Hl1|]. split; [by rewrite Hl2|].
    intros [|e] r Hr; simpl in Hr.
    + inversion Hr; subst. by exists cx, cy.
    + by apply Hrows.
Qed.

(** X1. The object that a successful [__init__] builds: a new array of [ndof]
    zeros for [self.U], every array that existed before untouched; [ndof]
    the largest number in [edof]; one row of [elemX] and of [elemY] per
    element, holding the coordinates of the element's nodes, where the node
    of the DOF at position [2k] of the row is [ceil(d/2) - 1], so that the
    DOFs [2n+1] and [2n+2] belong to node [n]; three nodes for a row of six
    DOFs, four for a row of eight. *)
Theorem init_object (edof0 : list (list Z)) (coords : list (R * R))
    (mp0 : gmap string R) (fixdofs : list Z) (h h' : store) (s : self) :
  __init__ edof0 coords mp0 fixdofs h = (Ok s, h') ->
  (h' = h ++ [replicate (Z.to_nat (ndof s)) 0%R] /\ U s = length h)
  /\ (edof s = edof0 /\ mp s = mp0 /\ nElem s = length edof0
      /\ mp0 !! "E" = Some (E s) /\ mp0 !! "nu" = Some (v s))
  /\ (ndof s ∈ concat edof0 /\ Forall (fun d => d <= ndof s) (concat edof0))
  /\ (length (elemX s) = nElem s /\ length (elemY s) = nElem s)
  /\ (forall e r, edof0 !! e = Some r ->
        exists cx cy, elemX s !! e = Some cx /\ elemY s !! e = Some cy
          /\ length cx = length (slice_0_8_2 r) /\ length cy = length (slice_0_8_2 r)
          /\ (length r = 6%nat -> length cx = 3%nat)
          /\ (length r = 8%nat -> length cx = 4%nat)
          /\ forall k d, (k < 4)%nat -> r !! (2 * k)%nat = Some d -> 1 <= d ->
               exists xy, coords !! Z.to_nat (node_of_dof d) = Some xy
                 /\ cx !! k = Some xy.1 /\ cy !! k = Some xy.2)
  /\ (forall n, node_of_dof (2 * n + 1) = n /\ node_of_dof (2 * n + 2) = n).
Proof.
  intros Hrun.
  destruct (init_Ok_inv _ _ _ _ _ _ _ Hrun)
    as (tables & row0 & HE & Hv & Hmax & Hnn & Hrow0 & Hlen0 & Htab & Hs & Hh).
  apply np_max_spec in Hmax as [Hin Hall].
  destruct (elem_coords_lookup _ _ _ _ Htab) as (Hl1 & Hl2 & Hrows).
  assert (HU : U s = length h) by (by rewrite Hs).
  assert (Hedof : edof s = edof0) by (by rewrite Hs).
  assert (Hmp : mp s = mp0) by (by rewrite Hs).
  assert (HnE : nElem s = length edof0) by (by rewrite Hs).
  assert (HX : elemX s = tables.1) by (by rewrite Hs).
  assert (HY : elemY s = tables.2) by (by rewrite Hs).
  split; [done|]. split; [done|]. split; [done|].
  split; [by rewrite HX, HY, HnE|]. split.
  - intros e r Hr. destruct (Hrows e r Hr) as (cx & cy & Hcx & Hcy & Htx & Hty).
    exists cx, cy. rewrite HX, HY. split; [done|]. split; [done|].
    assert (Hlx : length cx = length (slice_0_8_2 r)).
    { apply np_take_length in Htx. rewrite Htx. unfold slice_0_8_2.
      rewrite <- fmap_take. clear. generalize (take 8 r). intros l.
      induction l as [l IH] using (induction_ltof1 _ (@length Z)).
      destruct l as [|a [|b l]]; [done..|]. cbn. f_equal. apply IH.
      unfold ltof. simpl. lia. }
    assert (Hly : length cy = length (slice_0_8_2 r)).
    { apply np_take_length in Hty. apply np_take_length in Htx. lia. }
    split; [done|]. split; [done|].
    split; [|split].
    + intros H6. rewrite Hlx.
      destruct r as [|? [|? [|? [|? [|? [|? [|? r]]]]]]]; by try discriminate.
    + intros H8. rewrite Hlx.
      destruct r as [|? [|? [|? [|? [|? [|? [|? [|? [|? r]]]]]]]]]; by try discriminate.
    + intros k d Hk Hd Hd1.
      assert (Hidx : slice_0_8_2 (node_of_dof <$> r) !! k = Some (node_of_dof d)).
      { rewrite slice_0_8_2_lookup by done. by rewrite list_lookup_fmap, Hd. }
      destruct (np_take_lookup _ _ _ _ _ Htx Hidx) as (c1 & Hc1 & Hk1).
      destruct (np_take_lookup _ _ _ _ _ Hty Hidx) as (c2 & Hc2 & Hk2).
      assert (0 <= node_of_dof d) as Hnode
        by (unfold node_of_dof; Z.to_euclidean_division_equations; lia).
      apply py_get_nonneg in Hc1, Hc2; try done.
      rewrite list_lookup_fmap in Hc1, Hc2.
      destruct (coords !! Z.to_nat (node_of_dof d)) as [xy|]; [|done].
      exists xy. simpl in Hc1, Hc2. inversion Hc1; inversion Hc2; subst. done.
  - intros n. unfold node_of_dof. Z.to_euclidean_division_equations. lia.
Qed.

Lemma init_object_witness :
  __init__ ex_edof ex_coords ex_mp ex_fixdofs [] = (Ok ex_self, [replicate 6 0%R])
  /\ ([replicate 6 0%R] = [] ++ [replicate (Z.to_nat (ndof ex_self)) 0%R]
      /\ U ex_self = 0%nat)
  /\ length (elemX ex_self) = nElem ex_self.
Proof.
  split; [exact ex_init_run|].
  destruct (init_object ex_edof ex_coords ex_mp ex_fixdofs [] _ ex_self ex_init_run)
    as (Hstore & _ & _ & [HX _] & _).
  split; [exact Hstore | exact HX].
Defined.

Lemma np_max_Raise (l : list Z) (e : exn) : np_max l = Raise e -> e = ValueError.
Proof. destruct l; [|discriminate]. intros H. by inversion H. Qed.

(** X3. How [__init__] fails.  A missing key ['E'] or ['nu'] is a KeyError; an
    [edof] without entries, or with negative entries only, is a ValueError
    (the maximum of an empty array, a negative array size); in both cases
    nothing has been created.  No other exceptions occur than these two, an
    IndexError for a node that [coords] does not have, and the exception
    for an unrecognised element shape. *)
Theorem init_errors (edof0 : list (list Z)) (coords : list (R * R))
    (mp0 : gmap string R) (fixdofs : list Z) (h : store) :
  (mp0 !! "E" = None \/ mp0 !! "nu" = None ->
     __init__ edof0 coords mp0 fixdofs h = (Raise KeyError, h))
  /\ (is_Some (mp0 !! "E") -> is_Some (mp0 !! "nu") ->
      concat edof0 = [] \/ Forall (fun d => d < 0) (concat edof0) ->
      __init__ edof0 coords mp0 fixdofs h = (Raise ValueError, h))
  /\ (forall e, (__init__ edof0 coords mp0 fixdofs h).1 = Raise e ->
        e = KeyError \/ e = ValueError \/ e = IndexError
        \/ e = Exception "Unrecognized Element Shape, Check eDof Matrix").
Proof.
  unfold __init__, bind, lift, dict_get, alloc, ret, raise. split; [|split].
  - intros [-> | Hnu]; [done|]. destruct (mp0 !! "E"); [|done]. by rewrite Hnu.
  - intros [E0 ->] [v0 ->] Hempty.
    destruct (np_max (concat edof0)) as [nd|e] eqn:Hmax.
    + apply np_max_spec in Hmax as [Hin _].
      destruct Hempty as [Hnil | Hneg].
      * rewrite Hnil in Hin. by apply elem_of_nil in Hin.
      * rewrite Forall_forall in Hneg. specialize (Hneg _ Hin).
        by destruct (Z.ltb_spec nd 0); [|lia].
    + by apply np_max_Raise in Hmax as ->.
  - intros e.
    destruct (mp0 !! "E"); [|intros H; inversion H; auto].
    destruct (mp0 !! "nu"); [|intros H; inversion H; auto].
    destruct (np_max (concat edof0)) as [nd|e'] eqn:Hmax;
      [|apply np_max_Raise in Hmax as ->; intros H; inversion H; auto].
    destruct (nd <? 0); [intros H; inversion H; auto|].
    destruct (py_nth edof0 0) as [row0|e'] eqn:Hrow;
      [|unfold py_nth in Hrow; destruct (edof0 !! 0%nat); [done|];
        inversion Hrow; intros H; inversion H; auto].
    destruct (length row0 =? 6)%nat.
    + destruct (elem_coords _ _ edof0) as [tables|e'] eqn:Htab; [done|].
      apply elem_coords_Raise in Htab as ->. intros H; inversion H; auto.
    + destruct (length row0 =? 8)%nat; [|intros H; inversion H; auto 6].
      destruct (elem_coords _ _ edof0) as [tables|e'] eqn:Htab; [done|].
      apply elem_coords_Raise in Htab as ->. intros H; inversion H; auto.
Qed.

Local Open Scope Z_scope.

(** ** More about [fe] and [fe_nl] *)

Lemma free_write_update_rel (free : list Z) :
  Forall (fun d => 0 <= d) free -> update_rel free (free_write free).
Proof.
  intros Hfree. destruct (free_update_rel free Hfree) as [Hr Ht Hp]. split.
  - intros a. split; [done|apply Hr].
  - intros a b c [Hl1 H1] [Hl2 H2]. split; [congruence|by eapply Ht].
  - intros a w a' Hput. split; [by eapply np_put_length|by eapply Hp].
Qed.

(** X4. A model that [__init__] has built keeps its fixed DOFs at zero: after
    [fe], and after [fe_nl] however it ends, [self.U] still has [ndof]
    entries and the entry at every fixed DOF of the range is exactly zero. *)
Theorem fixed_dofs_zero_after_init (power : R -> R -> R)
    (spsolve : list (list R) -> list R -> list R)
    (edof0 : list (list Z)) (coords : list (R * R)) (mp0 : gmap string R)
    (fixdofs : list Z) (h h1 : store) (s : self)
    (x : list R) (p : R) (F : loc) (ep : list R)
    (elementFun : element_fun) (materialFun : material_fun) (eq : option (list R)) :
  __init__ edof0 coords mp0 fixdofs h = (Ok s, h1) ->
  fixed_dofs_zero s fixdofs h1
  /\ fixed_dofs_zero s fixdofs
       (fe power spsolve s x p F ep elementFun materialFun eq h1).2
  /\ (forall fuel r h2,
        fe_nl power spsolve fuel s x p F ep elementFun materialFun eq h1 = Some (r, h2) ->
        fixed_dofs_zero s fixdofs h2).
Proof.
  intros Hinit.
  destruct (init_Ok_inv _ _ _ _ _ _ _ Hinit)
    as (tables & row0 & _ & _ & _ & Hnn & _ & _ & _ & Hs & Hh).
  assert (HU : U s = length h) by (by rewrite Hs).
  assert (Hfree : freedofs s = setdiff1d (py_range (ndof s)) fixdofs)
    by (by rewrite Hs at 1).
  assert (Hpos : Forall (fun d => 0 <= d) (freedofs s)).
  { rewrite Hfree. apply Forall_forall. intros d Hd.
    apply elem_of_setdiff1d in Hd as [Hd _]. apply elem_of_py_range in Hd. lia. }
  pose proof (free_write_update_rel _ Hpos) as HQ.
  assert (HU1 : h1 !! U s = Some (replicate (Z.to_nat (ndof s)) 0%R)).
  { rewrite Hh, HU. by rewrite lookup_app_r, Nat.sub_diag. }
  assert (Hlt : (U s < length h1)%nat) by (by eapply lookup_lt_Some).
  assert (Hgen : forall h2, upd (length h1) (free_write (freedofs s)) (U s) h1 h2 ->
                   fixed_dofs_zero s fixdofs h2).
  { intros h2 (_ & _ & Hown). destruct (Hown _ Hlt HU1) as (u & Hu & Hlen & Hoff).
    exists u. split; [done|]. rewrite length_replicate in Hlen. split; [done|].
    intros d Hd Hrange. rewrite Hoff.
    - apply lookup_replicate. split; [done|]. lia.
    - rewrite Z2Nat.id by lia. rewrite Hfree, elem_of_setdiff1d. tauto. }
  split; [|split].
  - apply Hgen. apply (upd_refl _ _ _ _ HQ).
  - apply Hgen.
    apply (fe_keeps power spsolve s x p F ep elementFun materialFun eq _ _ HQ h1 (le_n _)).
  - intros fuel r h2 Hrun. apply Hgen.
    by apply (fe_nl_keeps power spsolve s x p F ep elementFun materialFun eq _ _ HQ
                fuel h1 h2 r (le_n _)).
Qed.

Lemma fixed_dofs_zero_after_init_witness :
  __init__ ex_edof ex_coords ex_mp ex_fixdofs [] = (Ok ex_self, [replicate 6 0%R])
  /\ fixed_dofs_zero ex_self ex_fixdofs [replicate 6 0%R]
  /\ fixed_dofs_zero ex_self ex_fixdofs
       (fe Rpower diag_solve ex_self [(1 / 2)%R] 3 0%nat ex_ep_nonlinear
           (ex_elementFun 1) ex_materialFun None [replicate 6 0%R]).2
  /\ (forall fuel r h2,
        fe_nl Rpower diag_solve fuel ex_self [(1 / 2)%R] 3 0%nat ex_ep_nonlinear
          (ex_elementFun 1) ex_materialFun None [replicate 6 0%R] = Some (r, h2) ->
        fixed_dofs_zero ex_self ex_fixdofs h2).
Proof.
  split; [exact ex_init_run|].
  exact (fixed_dofs_zero_after_init Rpower diag_solve ex_edof ex_coords ex_mp
           ex_fixdofs [] _ ex_self [(1 / 2)%R] 3 0%nat ex_ep_nonlinear
           (ex_elementFun 1) ex_materialFun None ex_init_run).
Defined.

(** *** A failed call of [fe] changes nothing *)

Lemma eq_update_rel : update_rel [] (@Logic.eq (list R)).
Proof.
  split; [done|congruence|]. intros a w a' Hput. unfold np_put in Hput.
  simpl in Hput. apply rbind_Ok in Hput as (w' & _ & Hput). by inversion Hput.
Qed.

Lemma upd_eq_lookup (n : nat) (u : loc) (h h' : store) (l : loc) :
  (n <= length h)%nat -> upd n Logic.eq u h h' -> (l < n)%nat -> h' !! l = h !! l.
Proof.
  intros Hn (_ & Hoth & Hown) Hl. destruct (decide (l = u)) as [->|Hne]; [|by apply Hoth].
  destruct (lookup_lt_is_Some_2 h u ltac:(lia)) as [a Ha].
  destruct (Hown a Hl Ha) as (a' & Ha' & ->). by rewrite Ha, Ha'.
Qed.

Lemma fails_clean_bind {A B} (n : nat) (u : loc) (P : A -> Prop) (m : M A)
    (k : A -> M B) :
  keeps n Logic.eq u P m -> (forall a, P a -> fails_clean n (k a)) ->
  fails_clean n (bind m k).
Proof.
  intros Hm Hk h e Hn Hraise l Hl. destruct (Hm h Hn) as [Hu HP].
  unfold bind in *. destruct (m h) as [[a|e'] h1] eqn:Hmh; simpl in *.
  - rewrite (Hk a (HP a eq_refl) h1 e) by (done || destruct Hu; lia).
    by eapply upd_eq_lookup.
  - by eapply upd_eq_lookup.
Qed.

Lemma fails_clean_put_ret {A} (n : nat) (l : loc) (idx : list Z) (w : list R) (r : A) :
  fails_clean n (bind (put_at l idx w) (fun _ => ret r)).
Proof.
  intros h e Hn Hraise l' Hl'. cbv [bind put_at load lift write ret] in *.
  destruct (np_put (default [] (h !! l)) idx w) as [a'|e']; simpl in *;
    [discriminate|done].
Qed.

Section FeFails.
Context (power : R -> R -> R) (spsolve : list (list R) -> list R -> list R).
Context (s : self) (x : list R) (p : R) (F : loc) (ep : list R).
Context (elementFun : element_fun) (materialFun : material_fun).
Context (eq : option (list R)).
Context (n : nat).

Local Abbreviation HQ0 := eq_update_rel.

Lemma fe_elem_pure (epLin : list R) (fg ft : loc) (t : triplets) (elem : nat) :
  (n <= fg)%nat -> (n <= ft)%nat ->
  keeps n Logic.eq (U s) (fun _ => True)
    (fe_elem power s x p epLin elementFun materialFun eq fg ft t elem).
Proof.
  intros Hfg Hft. unfold fe_elem.
  do 4 (eapply (keeps_bind _ _ _ _ HQ0); [apply (keeps_lift _ _ _ _ HQ0)|]; intros ? _).
  eapply (keeps_bind _ _ _ _ HQ0); [by apply (keeps_iadd_at _ _ _ _ HQ0)|]; intros _ _.
  eapply (keeps_bind _ _ _ _ HQ0); [by apply (keeps_iadd_at _ _ _ _ HQ0)|]; intros _ _.
  by apply (keeps_ret _ _ _ _ HQ0).
Qed.

Lemma fe_fails_clean :
  fails_clean n (fe power spsolve s x p F ep elementFun materialFun eq).
Proof.
  unfold fe.
  eapply fails_clean_bind; [apply (keeps_lift _ _ (U s) _ HQ0)|]; intros epLin _.
  eapply fails_clean_bind; [apply (keeps_np_copy _ _ (U s) _ HQ0)|]; intros fg Hfg.
  eapply fails_clean_bind; [apply (keeps_np_zeros_like _ _ (U s) _ HQ0)|]; intros ft Hft.
  eapply fails_clean_bind;
    [apply (keeps_for_elems _ _ (U s) _ HQ0); intros; by apply fe_elem_pure|].
  intros t _.
  eapply fails_clean_bind; [apply (keeps_lift _ _ (U s) _ HQ0)|]; intros m _.
  eapply fails_clean_bind; [apply (keeps_load _ _ (U s) _ HQ0)|]; intros fgv _.
  eapply fails_clean_bind; [apply (keeps_lift _ _ (U s) _ HQ0)|]; intros sol _.
  apply fails_clean_put_ret.
Qed.

End FeFails.

(** X6. A call of [fe] that raises an exception has changed no array that
    existed before the call: the displacement vector [self.U] is written
    by the last statement only, after everything that can fail, and all
    other writes go to arrays that the call has created.  The same holds
    for a call of [fe_nl] that fails inside its call of [fe]. *)
Theorem fe_failure_changes_nothing (power : R -> R -> R)
    (spsolve : list (list R) -> list R -> list R)
    (s : self) (x : list R) (p : R) (F : loc) (ep : list R)
    (elementFun : element_fun) (materialFun : material_fun)
    (eq : option (list R)) (h : store) (e : exn) :
  (fe power spsolve s x p F ep elementFun materialFun eq h).1 = Raise e ->
  (forall l, (l < length h)%nat ->
     (fe power spsolve s x p F ep elementFun materialFun eq h).2 !! l = h !! l)
  /\ (forall fuel,
        exists h', fe_nl power spsolve fuel s x p F ep elementFun materialFun eq h
                   = Some (Raise e, h')
          /\ forall l, (l < length h)%nat -> h' !! l = h !! l).
Proof.
  intros Hraise.
  pose proof (fe_fails_clean power spsolve s x p F ep elementFun materialFun eq
                (length h) h e (le_n _) Hraise) as Hclean.
  split; [done|]. intros fuel. unfold fe_nl.
  destruct (fe power spsolve s x p F ep elementFun materialFun eq h) as [[r|e'] h1];
    simpl in *; [done|].
  inversion Hraise; subst. by exists h1.
Qed.

Lemma fe_failure_changes_nothing_witness :
  (fe Rpower diag_solve ex_self [] 3 1%nat ex_ep_linear
      (ex_elementFun 0) ex_materialFun None ex_store).1 = Raise IndexError
  /\ (forall l, (l < length ex_store)%nat ->
        (fe Rpower diag_solve ex_self [] 3 1%nat ex_ep_linear
            (ex_elementFun 0) ex_materialFun None ex_store).2 !! l = ex_store !! l)
  /\ (forall fuel,
        exists h', fe_nl Rpower diag_solve fuel ex_self [] 3 1%nat ex_ep_linear
                     (ex_elementFun 0) ex_materialFun None ex_store
                   = Some (Raise IndexError, h')
          /\ forall l, (l < length ex_store)%nat -> h' !! l = ex_store !! l).
Proof.
  assert ((fe Rpower diag_solve ex_self [] 3 1%nat ex_ep_linear
             (ex_elementFun 0) ex_materialFun None ex_store).1 = Raise IndexError)
    as Hraise by (py_eval; reflexivity).
  split; [exact Hraise|].
  exact (fe_failure_changes_nothing Rpower diag_solve ex_self [] 3 1%nat ex_ep_linear
           (ex_elementFun 0) ex_materialFun None ex_store IndexError Hraise).
Defined.

(** X7. The property array [ep] needs four entries, since [fe] sets
    [epLin[3]]: with fewer, [fe] and [fe_nl] raise an IndexError at their
    first statement, before anything is created. *)
Theorem short_ep_IndexError (power : R -> R -> R)
    (spsolve : list (list R) -> list R -> list R)
    (s : self) (x : list R) (p : R) (F : loc) (ep : list R)
    (elementFun : element_fun) (materialFun : material_fun)
    (eq : option (list R)) (h : store) :
  (length ep <= 3)%nat ->
  fe power spsolve s x p F ep elementFun materialFun eq h = (Raise IndexError, h)
  /\ forall fuel,
       fe_nl power spsolve fuel s x p F ep elementFun materialFun eq h
       = Some (Raise IndexError, h).
Proof.
  intros Hlen.
  assert (Hfe : fe power spsolve s x p F ep elementFun materialFun eq h
                = (Raise IndexError, h)).
  { unfold fe, force_linear, py_set, bind, lift.
    by destruct (Nat.ltb_spec 3 (length ep)); [lia|]. }
  split; [done|]. intros fuel. unfold fe_nl. by rewrite Hfe.
Qed.

Lemma short_ep_IndexError_witness :
  (length [1; 1; 2]%R <= 3)%nat
  /\ fe Rpower diag_solve ex_self [1%R] 3 1%nat [1; 1; 2]%R
        (ex_elementFun 0) ex_materialFun None ex_store = (Raise IndexError, ex_store)
  /\ forall fuel,
       fe_nl Rpower diag_solve fuel ex_self [1%R] 3 1%nat [1; 1; 2]%R
         (ex_elementFun 0) ex_materialFun None ex_store
       = Some (Raise IndexError, ex_store).
Proof.
  split; [simpl; lia|].
  apply (short_ep_IndexError Rpower diag_solve ex_self [1%R] 3 1%nat [1; 1; 2]%R
           (ex_elementFun 0) ex_materialFun None ex_store).
  simpl. lia.
Defined.

(** *** What [fe] writes into the displacement vector *)

Lemma np_put_seq_lookup (ks : list nat) (w a : list R) (k j : nat) (c : R) :
  NoDup ks -> ks !! k = Some j -> w !! k = Some c -> (j < length a)%nat ->
  np_put_seq a ks w !! j = Some c.
Proof.
  intros Hnd. revert w a k. induction Hnd as [|k0 ks Hk0 Hnd IH];
    intros w a k Hk Hw Hj; [done|].
  destruct w as [|c0 w]; [done|]. simpl. destruct k as [|k]; simpl in Hk, Hw.
  - inversion Hk; inversion Hw; subst.
    rewrite np_put_seq_notin by done. by apply list_lookup_insert_eq.
  - apply (IH w _ k); [done..|]. by rewrite length_insert.
Qed.

Lemma np_take_intro (a : list R) (idx : list Z) (w : list R) :
  length w = length idx ->
  (forall k i, idx !! k = Some i -> exists c, w !! k = Some c /\ py_get a i = Ok c) ->
  np_take a idx = Ok w.
Proof.
  revert w. induction idx as [|i idx IH]; intros w Hlen Hall.
  - by destruct w.
  - destruct w as [|c w]; [done|]. simpl.
    destruct (Hall O i eq_refl) as (c' & Hc' & ->). inversion Hc'; subst c'. simpl.
    rewrite (IH w); [done|simpl in Hlen; lia|].
    intros k j Hk. by apply (Hall (S k) j).
Qed.

(** Reading back through the indices that were written returns what was
    written. *)
Lemma np_take_put (a : list R) (idx : list Z) (w a' : list R) :
  NoDup idx -> Forall (fun d => 0 <= d) idx -> length w = length idx ->
  np_put a idx w = Ok a' -> np_take a' idx = Ok w.
Proof.
  intros Hnd Hnn Hlen Hput. unfold np_put in Hput.
  apply rbind_Ok in Hput as (ks & Hks & Hput).
  apply rbind_Ok in Hput as (w' & Hw' & Hput). inversion Hput; subst a'. clear Hput.
  rewrite broadcast_same in Hw' by done. inversion Hw'; subst w'.
  destruct (py_idxs_nonneg _ _ _ Hnn Hks) as [-> Hlt].
  apply np_take_intro; [done|]. intros k i Hk.
  destruct (lookup_lt_is_Some_2 w k) as [c Hc];
    [rewrite Hlen; by eapply lookup_lt_Some|].
  exists c. split; [done|].
  assert (0 <= i) as Hi by (rewrite Forall_forall in Hnn; apply Hnn;
                            by eapply list_elem_of_lookup_2).
  assert (Hjlt : (Z.to_nat i < length a)%nat).
  { rewrite Forall_forall in Hlt. apply Hlt. apply list_elem_of_fmap.
    exists i. split; [done|]. by eapply list_elem_of_lookup_2. }
  unfold py_get, py_idx. rewrite np_put_seq_length.
  destruct (Z.leb_spec 0 i); [|lia]. destruct (Z.ltb_spec i (Z.of_nat (length a))); [|lia].
  simpl.
  rewrite (np_put_seq_lookup _ w a k (Z.to_nat i) c); [done| | |done|done].
  - apply NoDup_fmap_2_strong; [|done]. intros d1 d2 H1 H2 Heq.
    rewrite Forall_forall in Hnn. pose proof (Hnn _ H1). pose proof (Hnn _ H2). lia.
  - by rewrite list_lookup_fmap, Hk.
Qed.

Section FeSolution.
Context (power : R -> R -> R) (spsolve : list (list R) -> list R -> list R).
Context (s : self) (x : list R) (p : R) (F : loc) (ep : list R).
Context (elementFun : element_fun) (materialFun : material_fun).
Context (eq : option (list R)).

(** The last two statements of a successful call of [fe] *)
Lemma fe_solve_inv (h h' : store) (f u : list R) (U0 ft fg : loc)
    (K0 : list (list R)) :
  h !! F = Some f ->
  h !! U s = Some u ->
  fe power spsolve s x p F ep elementFun materialFun eq h = (Ok (U0, ft, fg, K0), h') ->
  exists g sol u',
    U0 = U s /\ h' !! fg = Some g
    /\ solve_free spsolve s K0 g = Ok sol
    /\ np_put u (freedofs s) sol = Ok u'
    /\ h' !! U s = Some u'.
Proof.
  intros HF HU Hrun. unfold fe in Hrun.
  assert (HUlt : (U s < length h)%nat) by (by eapply lookup_lt_Some).
  apply bind_Ok in Hrun as (epLin & h1 & HepLin & Hrun).
  apply lift_Ok in HepLin as [HepLin ->].
  apply bind_Ok in Hrun as (fg' & h1 & Hcopy & Hrun).
  apply np_copy_Ok in Hcopy as [-> ->]. rewrite HF in Hrun. simpl in Hrun.
  apply bind_Ok in Hrun as (ft' & h2 & Hzeros & Hrun).
  apply np_zeros_like_Ok in Hzeros as [-> ->].
  rewrite lookup_app_l, HF in Hrun by (by eapply lookup_lt_Some).
  simpl in Hrun. rewrite length_app in Hrun. simpl in Hrun.
  replace (length h + 1)%nat with (S (length h)) in Hrun by lia.
  apply bind_Ok in Hrun as (t & h3 & Hloop & Hrun).
  apply (fe_loop_inv _ _ _ _ _ _ _ _ _ _ f (replicate (length f) 0%R)) in Hloop
    as (Hlen & Hoth & Hfg & Hft & -> & Hsome);
    [|lia| |].
  2:{ rewrite lookup_app_l by (rewrite length_app; simpl; lia).
      by rewrite lookup_app_r, Nat.sub_diag. }
  2:{ rewrite lookup_app_r by (rewrite length_app; simpl; lia).
      rewrite length_app. simpl.
      by replace (S (length h) - (length h + 1))%nat with O by lia. }
  apply bind_Ok in Hrun as (m & h4 & Hcoo & Hrun).
  apply lift_Ok in Hcoo as [Hcoo ->].
  apply bind_Ok in Hrun as (fgv & h4 & Hload & Hrun).
  apply load_Ok in Hload as [-> ->].
  apply bind_Ok in Hrun as (sol & h4 & Hsol & Hrun).
  apply lift_Ok in Hsol as [Hsol ->].
  apply bind_Ok in Hrun as (r & h4 & Hput & Hrun).
  apply put_at_Ok in Hput as (u' & Hput & ->).
  unfold ret in Hrun. inversion Hrun; subst. clear Hrun.
  assert (HU3 : h3 !! U s = Some u).
  { rewrite Hoth by lia. by rewrite !lookup_app_l by (rewrite ?length_app; simpl; lia). }
  rewrite HU3 in Hput. simpl in Hput.
  destruct Hfg as (g & Hg & _). rewrite Hg in Hsol. simpl in Hsol.
  exists g, sol, u'. split; [done|].
  split; [rewrite list_lookup_insert_ne by lia; done|].
  split; [done|]. split; [done|].
  apply list_lookup_insert_eq. by eapply lookup_lt_Some.
Qed.

(** X5. After a successful call of [fe] the displacement vector holds, at the
    free DOFs, exactly what the solver has returned for the stiffness
    matrix and the force vector restricted to the free DOFs (both as
    returned by the call); its other entries and its length are as before.
    So the result does not depend on what the vector held at the free DOFs
    before the call.  The free DOFs are distinct and not negative, as
    [__init__] makes them. *)
Theorem fe_solution (h h' : store) (f u : list R) (U0 ft fg : loc)
    (K0 : list (list R)) :
  h !! F = Some f ->
  h !! U s = Some u ->
  NoDup (freedofs s) ->
  Forall (fun d => 0 <= d) (freedofs s) ->
  fe power spsolve s x p F ep elementFun materialFun eq h = (Ok (U0, ft, fg, K0), h') ->
  exists g Kff bf u',
    h' !! fg = Some g
    /\ np_take_rows K0 (freedofs s) (freedofs s) = Ok Kff
    /\ np_take g (freedofs s) = Ok bf
    /\ h' !! U0 = Some u' /\ length u' = length u
    /\ np_take u' (freedofs s) = Ok (spsolve Kff bf)
    /\ unchanged_off (freedofs s) u u'.
Proof.
  intros HF HU Hnd Hnn Hrun.
  destruct (fe_solve_inv _ _ _ _ _ _ _ _ HF HU Hrun)
    as (g & sol & u' & -> & Hg & Hsol & Hput & HU').
  unfold solve_free in Hsol.
  apply rbind_Ok in Hsol as (Kff & HKff & Hsol).
  apply rbind_Ok in Hsol as (bf & Hbf & Hsol).
  apply reshape_Ok in Hsol as [-> Hlen].
  exists g, Kff, bf, u'. repeat split; try done.
  - by eapply np_put_length.
  - by apply (np_take_put u).
  - destruct (free_update_rel _ Hnn) as [_ _ Hp]. by eapply Hp.
Qed.

End FeSolution.

Lemma fe_solution_witness :
  exists K0 h',
    fe Rpower diag_solve ex_self [(1 / 2)%R] 3 1%nat ex_ep_linear
       (ex_elementFun 0) ex_materialFun None ex_store
    = (Ok (0%nat, 3%nat, 2%nat, K0), h')
    /\ exists g Kff bf u',
         h' !! 2%nat = Some g
         /\ np_take_rows K0 (freedofs ex_self) (freedofs ex_self) = Ok Kff
         /\ np_take g (freedofs ex_self) = Ok bf
         /\ h' !! 0%nat = Some u' /\ length u' = length (replicate 6 0%R)
         /\ np_take u' (freedofs ex_self) = Ok (diag_solve Kff bf)
         /\ unchanged_off (freedofs ex_self) (replicate 6 0%R) u'.
Proof.
  destruct ex_fe_run as (K0 & u & Hrun). exists K0. eexists.
  split; [exact Hrun|].
  eapply (fe_solution Rpower diag_solve ex_self [(1 / 2)%R] 3 1%nat ex_ep_linear
            (ex_elementFun 0) ex_materialFun None ex_store _
            [0; 0; 0; 0; 0; 1]%R (replicate 6 0%R) 0%nat 3%nat 2%nat K0).
  - reflexivity.
  - reflexivity.
  - repeat constructor. apply not_elem_of_nil.
  - repeat constructor. lia.
  - exact Hrun.
Defined.

Local Open Scope R_scope.

(** ** More about the Newton loop *)

Section NewtonStiffness.
Context (power : R -> R -> R).
Context (s : self) (x : list R) (p : R) (F : loc) (ep : list R).
Context (elementFun : element_fun) (materialFun : material_fun).
Context (eq : option (list R)).
Context (u : list R).

Local Abbreviation o := (nl_elem_out s ep elementFun materialFun eq u).
Local Abbreviation idx := (edofIndex s).

(** X9. The stiffness matrix of a Newton iteration, which [fe_nl] returns
    after its last iteration, is assembled like that of [fe], but from the
    element matrices that the element function returns for the current
    displacements [u] and the caller's own [ep]: position (i, j) holds the
    sum over all elements of the entries sent there, times
    [x[e] ** SIMP_const].  It equals its transpose if every element matrix
    does. *)
Theorem newton_stiffness (st st1 : nl_state) (h h1 : store) (f : list R) :
  h !! F = Some f ->
  h !! U s = Some u ->
  (forall e, (e < nElem s)%nat -> square (length (idx e)) (Ke (o e))) ->
  newton_assemble power s x p F ep elementFun materialFun eq st h = (Ok st1, h1) ->
  (forall i j, (Z.of_nat i < ndof s)%Z -> (Z.of_nat j < ndof s)%Z ->
     mat_entry (K st1) i j
     = Rsum ((fun e => block_sum (idx e) (Ke (o e)) (power (density x e) p)
                         (Z.of_nat i) (Z.of_nat j)) <$> seq 0 (nElem s)))
  /\ ((forall e, (e < nElem s)%nat ->
         Ke (o e) = transpose (length (idx e)) (Ke (o e))) ->
      K st1 = transpose (Z.to_nat (ndof s)) (K st1)).
Proof.
  intros HF HU Hsq Hrun.
  destruct (newton_assemble_Ok_inv power s x p F ep elementFun materialFun eq u
              st st1 h h1 f HF HU Hrun)
    as (_ & _ & _ & (m & Hcoo & HK) & _).
  cbv zeta in Hcoo. apply coo_matrix_Ok in Hcoo as (-> & _ & _). rewrite HK.
  split.
  - intros i j Hi Hj. rewrite tocsc_entry by done. simpl.
    by destruct (coo_sum_triplets_upto idx (fun e => Ke (o e))
                   (fun e => power (density x e) p) (nElem s)
                   (Z.of_nat i) (Z.of_nat j) Hsq) as (_ & _ & ->).
  - intros Hsym. apply tocsc_transpose; [done|]. intros i j. simpl.
    destruct (coo_sum_triplets_upto idx (fun e => Ke (o e))
                (fun e => power (density x e) p) (nElem s) i j Hsq) as (_ & _ & ->).
    destruct (coo_sum_triplets_upto idx (fun e => Ke (o e))
                (fun e => power (density x e) p) (nElem s) j i Hsq) as (_ & _ & ->).
    apply Rsum_ext. intros e He. apply list_elem_of_In, in_seq in He.
    apply block_sum_symmetric, Hsym. lia.
Qed.

End NewtonStiffness.

Lemma newton_stiffness_witness :
  exists st1 h1,
    newton_assemble Rpower ex_self [1] 3 1%nat ex_ep_nonlinear
      (ex_elementFun 1e-9) ex_materialFun None ex_st0 ex_nl_store = (Ok st1, h1)
    /\ (forall i j, (Z.of_nat i < ndof ex_self)%Z -> (Z.of_nat j < ndof ex_self)%Z ->
          mat_entry (K st1) i j
          = Rsum ((fun e =>
              block_sum (edofIndex ex_self e)
                (Ke (nl_elem_out ex_self ex_ep_nonlinear (ex_elementFun 1e-9)
                       ex_materialFun None [0; 0; 0; 0; 0; 2] e))
                (Rpower (density [1] e) 3) (Z.of_nat i) (Z.of_nat j))
              <$> seq 0 (nElem ex_self)))
    /\ K st1 = transpose (Z.to_nat (ndof ex_self)) (K st1).
Proof.
  destruct ex_newton_iteration as (st1 & h1 & _ & _ & Hasm & _).
  exists st1, h1. split; [exact Hasm|].
  assert (Hsq : forall e, (e < nElem ex_self)%nat ->
            square (length (edofIndex ex_self e))
              (Ke (nl_elem_out ex_self ex_ep_nonlinear (ex_elementFun 1e-9)
                     ex_materialFun None [0; 0; 0; 0; 0; 2] e))).
  { intros e He. assert (e = O) as -> by (simpl in He; lia).
    split; [reflexivity|]. by repeat constructor. }
  destruct (newton_stiffness Rpower ex_self [1] 3 1%nat ex_ep_nonlinear
              (ex_elementFun 1e-9) ex_materialFun None [0; 0; 0; 0; 0; 2]
              ex_st0 st1 ex_nl_store h1 [0; 0; 0; 0; 0; 1]
              eq_refl eq_refl Hsq Hasm) as [Hent Hsym].
  split; [exact Hent|]. apply Hsym.
  intros e He. assert (e = O) as -> by (simpl in He; lia). reflexivity.
Defined.

Section NewtonEnd.
Context (power : R -> R -> R) (spsolve : list (list R) -> list R -> list R).
Context (s : self) (x : list R) (p : R) (F : loc) (ep : list R).
Context (elementFun : element_fun) (materialFun : material_fun).
Context (eq : option (list R)).

Lemma newton_assemble_frame (st st1 : nl_state) (h h1 : store) :
  (F < length h)%nat -> (U s < length h)%nat ->
  newton_assemble power s x p F ep elementFun materialFun eq st h = (Ok st1, h1) ->
  (length h <= length h1)%nat /\ forall l, (l < length h)%nat -> h1 !! l = h !! l.
Proof.
  intros HF HU Hrun.
  destruct (lookup_lt_is_Some_2 h F HF) as [f Hf].
  destruct (lookup_lt_is_Some_2 h (U s) HU) as [u Hu].
  destruct (newton_assemble_Ok_inv power s x p F ep elementFun materialFun eq u
              st st1 h h1 f Hf Hu Hrun) as ((_ & _ & _ & _ & _ & Hsame) & _).
  split; [|done].
  destruct (newton_assemble_keeps power s x p F ep elementFun materialFun eq
              (length h) _ (true_update_rel _) st h (le_n _)) as [(Hlen & _) _].
  by rewrite Hrun in Hlen.
Qed.

(** X10. How the loop of [fe_nl] ends.  The state it is left with stems from
    one last assembly, made at the displacements [ha !! U s]: the matrix
    [K], [dR], [sig_VM], [eps_h], the force vectors and [err] are those of
    that assembly.  If the loop ends at the cap of 100 iterations, the
    displacement vector is still the one of that assembly.  If it ends
    because the tolerance is met, the vector has been updated once more
    after the assembly, by the Newton step
    [U[free] - spsolve(K[free, free], R[free])]: the displacements that
    [fe_nl] returns are then one step ahead of the other outputs. *)
Theorem newton_last_iteration (fuel : nat) (st st' : nl_state) (h h' : store) :
  (F < length h)%nat -> (U s < length h)%nat ->
  err st > TOL st ->
  newton power spsolve fuel s x p F ep elementFun materialFun eq st h
  = Some (Ok st', h') ->
  exists sta ha st1 h1,
    newton_assemble power s x p F ep elementFun materialFun eq sta ha = (Ok st1, h1)
    /\ h1 !! U s = ha !! U s
    /\ (K st' = K st1 /\ dR st' = dR st1 /\ sig_VM st' = sig_VM st1
        /\ eps_h st' = eps_h st1 /\ fextGlobal st' = fextGlobal st1
        /\ fext_tilde st' = fext_tilde st1 /\ err st' = err st1)
    /\ ((newtonIt st' = 100%Z /\ h' = h1)
        \/ (newtonIt st' <> 100%Z /\ ~ err st' > TOL st'
            /\ exists Kff Rf Uf u',
                 np_take_rows (K st1) (freedofs s) (freedofs s) = Ok Kff
                 /\ np_take (R_ st1) (freedofs s) = Ok Rf
                 /\ np_take (default [] (h1 !! U s)) (freedofs s) = Ok Uf
                 /\ np_put (default [] (h1 !! U s)) (freedofs s)
                           (zip_with Rminus Uf (spsolve Kff Rf)) = Ok u'
                 /\ h' = <[U s := u']> h1)).
Proof.
  revert st h. induction fuel as [|fuel IH]; intros st h HF HU Hgt; cbn [newton];
    destruct (Rgt_dec (err st) (TOL st)) as [_|Hn]; try done.
  destruct (newton_assemble power s x p F ep elementFun materialFun eq st h)
    as [[st1|e] h1] eqn:Hasm; [|done].
  destruct (newton_assemble_frame _ _ _ _ HF HU Hasm) as [Hlen1 Hsame1].
  destruct (Z.eqb_spec (newtonIt st1) 100) as [H100|Hn100].
  - intros Hrun. inversion Hrun; subst st' h'.
    exists st, h, st1, h1. split; [done|]. split; [by apply Hsame1|].
    split; [done|]. by left.
  - destruct (newton_update spsolve s st1 h1) as [[st2|e] h2] eqn:Hupd; [|done].
    pose proof Hupd as Hinv.
    apply newton_update_Ok_inv in Hinv
      as (_ & Herr2 & Hit2 & (Kff & Rf & step & Uf & u' & HKff & HRf & Hstep & HUf & Hput & Hh2)).
    destruct (Rgt_dec (err st2) (TOL st2)) as [Hgt2|Hle2].
    + intros Hrun. apply IH in Hrun; [done| | |done].
      * rewrite Hh2, length_insert. lia.
      * rewrite Hh2, length_insert. lia.
    + rewrite newton_exit by done. intros Hrun. inversion Hrun; subst st' h'.
      exists st, h, st1, h1. split; [done|]. split; [by apply Hsame1|].
      assert (Hfields : K st2 = K st1 /\ dR st2 = dR st1 /\ sig_VM st2 = sig_VM st1
                /\ eps_h st2 = eps_h st1 /\ fextGlobal st2 = fextGlobal st1
                /\ fext_tilde st2 = fext_tilde st1).
      { unfold newton_update in Hupd.
        repeat (apply bind_Ok in Hupd as (? & ? & _ & Hupd)).
        unfold ret in Hupd. by inversion Hupd. }
      split; [tauto|]. right. split; [lia|]. split; [done|].
      apply reshape_Ok in Hstep as [-> _].
      exists Kff, Rf, Uf, u'. done.
Qed.

End NewtonEnd.

Lemma newton_last_iteration_witness :
  exists st' h',
    newton Rpower diag_solve 2 ex_self [1] 3 1%nat ex_ep_nonlinear
      (ex_elementFun 1e-9) ex_materialFun None ex_st0 ex_nl_store = Some (Ok st', h')
    /\ exists sta ha st1 h1,
         newton_assemble Rpower ex_self [1] 3 1%nat ex_ep_nonlinear
           (ex_elementFun 1e-9) ex_materialFun None sta ha = (Ok st1, h1)
         /\ h1 !! U ex_self = ha !! U ex_self
         /\ (K st' = K st1 /\ dR st' = dR st1 /\ sig_VM st' = sig_VM st1
             /\ eps_h st' = eps_h st1 /\ fextGlobal st' = fextGlobal st1
             /\ fext_tilde st' = fext_tilde st1 /\ err st' = err st1)
         /\ ((newtonIt st' = 100%Z /\ h' = h1)
             \/ (newtonIt st' <> 100%Z /\ ~ err st' > TOL st'
                 /\ exists Kff Rf Uf u',
                      np_take_rows (K st1) (freedofs ex_self) (freedofs ex_self) = Ok Kff
                      /\ np_take (R_ st1) (freedofs ex_self) = Ok Rf
                      /\ np_take (default [] (h1 !! U ex_self)) (freedofs ex_self) = Ok Uf
                      /\ np_put (default [] (h1 !! U ex_self)) (freedofs ex_self)
                                (zip_with Rminus Uf (diag_solve Kff Rf)) = Ok u'
                      /\ h' = <[U ex_self := u']> h1)).
Proof.
  destruct ex_newton_iteration
    as (st1 & h1 & st2 & h2 & Hasm & Hupd & Hit & Herr1 & HTOL2 & Herr2).
  assert (Hgt0 : err ex_st0 > TOL ex_st0) by (simpl; lra).
  assert (Hit' : newtonIt st1 <> 100%Z) by lia.
  assert (Hrun : newton Rpower diag_solve 2 ex_self [1] 3 1%nat ex_ep_nonlinear
                   (ex_elementFun 1e-9) ex_materialFun None ex_st0 ex_nl_store
                 = Some (Ok st2, h2)).
  { rewrite (newton_step _ _ _ _ _ _ _ _ _ _ _ _ _ _ _ _ _ Hgt0 Hasm Hit' Hupd).
    apply newton_exit. rewrite Herr2, HTOL2. lra. }
  exists st2, h2. split; [exact Hrun|].
  apply (newton_last_iteration Rpower diag_solve ex_self [1] 3 1%nat ex_ep_nonlinear
           (ex_elementFun 1e-9) ex_materialFun None 2 ex_st0 st2 ex_nl_store h2);
    [simpl; lia | simpl; lia | exact Hgt0 | exact Hrun].
Defined.

Section EmptyInternalForce.
Context (power : R -> R -> R) (spsolve : list (list R) -> list R -> list R).
Context (s : self) (x : list R) (p : R) (F : loc) (ep : list R).
Context (elementFun : element_fun) (materialFun : material_fun).
Context (eq : option (list R)).

(** With an element function that returns no internal force, the Newton
    loop cannot run: its first [fintGlobal[...] += fint * ...] fails. *)
Lemma empty_fint_raises (fuel : nat) (h : store) (flag : R) :
  ep !! 3%nat = Some flag -> flag <> 1 ->
  (0 < nElem s)%nat -> np_size1 (edof s) <> 0%nat ->
  (forall ue ex ey, fint (elementFun ue ex ey ep (mp s) materialFun eq) = []) ->
  exists e h',
    fe_nl power spsolve (S fuel) s x p F ep elementFun materialFun eq h
    = Some (Raise e, h').
Proof.
  intros Hflag Hne HnE Hsize Hfint. unfold fe_nl.
  destruct (fe power spsolve s x p F ep elementFun materialFun eq h)
    as [[[[[U0 ft0] fg0] K0]|e] h1]; [|eauto].
  unfold py_nth. rewrite Hflag.
  destruct (Req_dec_T flag 1) as [|_]; [done|].
  cbn [newton].
  destruct (Rgt_dec (err (nl_init x ft0 fg0 K0)) (TOL (nl_init x ft0 fg0 K0)))
    as [_|Hn]; [|exfalso; apply Hn; simpl; lra].
  destruct (newton_assemble power s x p F ep elementFun materialFun eq
              (nl_init x ft0 fg0 K0) h1) as [[st1|e] h2] eqn:Hasm; [|eauto].
  exfalso. unfold newton_assemble in Hasm.
  apply bind_Ok in Hasm as (ft & h3 & _ & Hasm).
  apply bind_Ok in Hasm as (fg & h4 & _ & Hasm).
  apply bind_Ok in Hasm as (fi & h5 & _ & Hasm).
  apply bind_Ok in Hasm as (a & h6 & Hloop & _).
  destruct (for_elems_Ok_each _ _ _ _ _ _ Hloop O HnE) as (a0 & h7 & a1 & h8 & Hbody).
  apply fe_nl_elem_Ok in Hbody as ((_ & _ & _ & Hlen & _) & _).
  unfold nl_elem_out in Hlen. rewrite Hfint in Hlen. simpl in Hlen. lia.
Qed.

End EmptyInternalForce.

Local Open Scope Z_scope.

(** ** Calling [fe] again *)

Lemma np_put_twice (a : list R) (idx : list Z) (w a1 a2 : list R) :
  NoDup idx -> Forall (fun d => 0 <= d) idx ->
  np_put a idx w = Ok a1 -> np_put a1 idx w = Ok a2 -> a2 = a1.
Proof.
  intros Hnd Hnn Hput1 Hput2. unfold np_put in *.
  apply rbind_Ok in Hput1 as (ks1 & Hks1 & Hput1).
  apply rbind_Ok in Hput1 as (w1 & Hw1 & Hput1). inversion Hput1; subst a1.
  apply rbind_Ok in Hput2 as (ks2 & Hks2 & Hput2).
  apply rbind_Ok in Hput2 as (w2 & Hw2 & Hput2). inversion Hput2; subst a2.
  rewrite Hw1 in Hw2. inversion Hw2; subst w2.
  destruct (py_idxs_nonneg _ _ _ Hnn Hks1) as [-> Hlt].
  destruct (py_idxs_nonneg _ _ _ Hnn Hks2) as [-> _].
  assert (Hndk : NoDup (Z.to_nat <$> idx)).
  { apply NoDup_fmap_2_strong; [|done]. intros d1 d2 H1 H2 Heq.
    rewrite Forall_forall in Hnn. pose proof (Hnn _ H1). pose proof (Hnn _ H2). lia. }
  apply list_eq. intros j.
  destruct (decide (j ∈ Z.to_nat <$> idx)) as [Hin|Hnin];
    [|by rewrite np_put_seq_notin].
  apply list_elem_of_lookup in Hin as [k Hk].
  destruct (w1 !! k) as [c|] eqn:Hc.
  - assert (Hj : (j < length a)%nat).
    { rewrite Forall_forall in Hlt. apply Hlt. by eapply list_elem_of_lookup_2. }
    rewrite (np_put_seq_lookup _ w1 _ k j c); try done.
    + symmetry. by apply (np_put_seq_lookup _ w1 _ k j c).
    + by rewrite np_put_seq_length.
  - assert (Hlenw : length w1 = length idx).
    { clear -Hw1. unfold broadcast in Hw1.
      destruct (Nat.eqb_spec (length w) (length idx)); [by inversion Hw1; subst|].
      destruct w as [|c [|? ?]]; try discriminate.
      inversion Hw1. by rewrite length_replicate. }
    apply lookup_ge_None in Hc. apply lookup_lt_Some in Hk.
    rewrite length_fmap in Hk. lia.
Qed.

Lemma iadd_all_det (g0 : list R) (cs : list (list Z * list R)) (l1 l2 : loc)
    (h1 h2 : store) :
  acc_inv l1 g0 cs h1 -> acc_inv l2 g0 cs h2 -> h2 !! l2 = h1 !! l1.
Proof. intros (g1 & -> & H1) (g2 & -> & H2). congruence. Qed.

Section FeAgain.
Context (power : R -> R -> R) (spsolve : list (list R) -> list R -> list R).
Context (s : self) (x : list R) (p : R) (F : loc) (ep : list R).
Context (elementFun : element_fun) (materialFun : material_fun).
Context (eq : option (list R)).

Lemma fe_Ok_epLin (h h' : store) (r : loc * loc * loc * list (list R)) :
  fe power spsolve s x p F ep elementFun materialFun eq h = (Ok r, h') ->
  exists epLin, force_linear ep = Ok epLin.
Proof.
  unfold fe. intros Hrun. apply bind_Ok in Hrun as (epLin & h1 & HepLin & _).
  apply lift_Ok in HepLin as [HepLin _]. eauto.
Qed.

(** X8. [fe] has no memory: a second call with the same arguments, right after
    a successful first one, returns the same stiffness matrix and force
    vectors and leaves the displacement vector exactly as the first call
    has left it.  What [self.U] held at the free DOFs before a call has no
    influence on the result, and the first call has not changed [F].  The
    free DOFs are distinct and not negative, as [__init__] makes them, and
    [F] is not the displacement array itself. *)
Theorem fe_repeatable (h h1 h2 : store) (f u : list R)
    (U1 ft1 fg1 U2 ft2 fg2 : loc) (K1 K2 : list (list R)) :
  h !! F = Some f ->
  h !! U s = Some u ->
  F <> U s ->
  NoDup (freedofs s) ->
  Forall (fun d => 0 <= d) (freedofs s) ->
  fe power spsolve s x p F ep elementFun materialFun eq h = (Ok (U1, ft1, fg1, K1), h1) ->
  fe power spsolve s x p F ep elementFun materialFun eq h1 = (Ok (U2, ft2, fg2, K2), h2) ->
  K2 = K1 /\ U2 = U1
  /\ h2 !! fg2 = h1 !! fg1 /\ h2 !! ft2 = h1 !! ft1
  /\ h2 !! U2 = h1 !! U1
  /\ h2 !! F = Some f.
Proof.
  intros HF HU Hne Hnd Hnn Hrun1 Hrun2.
  destruct (fe_Ok_epLin _ _ _ Hrun1) as [epLin HepLin].
  assert (HUlt : (U s < length h)%nat) by (by eapply lookup_lt_Some).
  assert (HFlt : (F < length h)%nat) by (by eapply lookup_lt_Some).
  destruct (fe_Ok_inv power spsolve s x p F ep elementFun materialFun eq epLin
              h h1 f U1 ft1 fg1 K1 HF HUlt Hrun1 HepLin)
    as (m1 & -> & Hfg1 & Hft1 & Hasm1 & _ & Hoth1).
  cbv zeta in Hasm1. destruct Hasm1 as (Hcoo1 & HK1 & Hacc1 & Hacct1).
  assert (HF1 : h1 !! F = Some f) by (by rewrite Hoth1).
  destruct (fe_solve_inv power spsolve s x p F ep elementFun materialFun eq
              h h1 f u (U s) ft1 fg1 K1 HF HU Hrun1)
    as (g1 & sol1 & u1 & _ & Hg1 & Hsol1 & Hput1 & HU1).
  assert (HUlt1 : (U s < length h1)%nat) by (by eapply lookup_lt_Some).
  destruct (fe_Ok_inv power spsolve s x p F ep elementFun materialFun eq epLin
              h1 h2 f U2 ft2 fg2 K2 HF1 HUlt1 Hrun2 HepLin)
    as (m2 & -> & Hfg2 & Hft2 & Hasm2 & _ & Hoth2).
  cbv zeta in Hasm2. destruct Hasm2 as (Hcoo2 & HK2 & Hacc2 & Hacct2).
  destruct (fe_solve_inv power spsolve s x p F ep elementFun materialFun eq
              h1 h2 f u1 (U s) ft2 fg2 K2 HF1 HU1 Hrun2)
    as (g2 & sol2 & u2 & _ & Hg2 & Hsol2 & Hput2 & HU2).
  assert (HK : K2 = K1) by congruence.
  pose proof (iadd_all_det _ _ _ _ _ _ Hacc1 Hacc2) as Hg.
  pose proof (iadd_all_det _ _ _ _ _ _ Hacct1 Hacct2) as Hgt.
  split; [done|]. split; [done|]. split; [done|]. split; [done|].
  assert (HFlt1 : (F < length h1)%nat) by (by eapply lookup_lt_Some).
  split; [|by rewrite Hoth2].
  rewrite HU1, HU2. f_equal.
  assert (g2 = g1) as -> by congruence. rewrite HK in Hsol2.
  assert (sol2 = sol1) as -> by congruence.
  by apply (np_put_twice u (freedofs s) sol1).
Qed.

End FeAgain.

Lemma ex_fe_run_twice :
  exists K1 K2 h1 h2,
    fe Rpower diag_solve ex_self [(1 / 2)%R] 3 1%nat ex_ep_linear
       (ex_elementFun 0) ex_materialFun None ex_store
    = (Ok (0%nat, 3%nat, 2%nat, K1), h1)
    /\ fe Rpower diag_solve ex_self [(1 / 2)%R] 3 1%nat ex_ep_linear
         (ex_elementFun 0) ex_materialFun None h1
       = (Ok (0%nat, 5%nat, 4%nat, K2), h2).
Proof.
  do 4 eexists. split; [py_eval; reflexivity|]. py_eval. reflexivity.
Qed.

Lemma fe_repeatable_witness :
  exists K1 K2 h1 h2,
    (fe Rpower diag_solve ex_self [(1 / 2)%R] 3 1%nat ex_ep_linear
        (ex_elementFun 0) ex_materialFun None ex_store
     = (Ok (0%nat, 3%nat, 2%nat, K1), h1)
     /\ fe Rpower diag_solve ex_self [(1 / 2)%R] 3 1%nat ex_ep_linear
          (ex_elementFun 0) ex_materialFun None h1
        = (Ok (0%nat, 5%nat, 4%nat, K2), h2))
    /\ K2 = K1 /\ 0%nat = 0%nat
    /\ h2 !! 4%nat = h1 !! 2%nat /\ h2 !! 5%nat = h1 !! 3%nat
    /\ h2 !! 0%nat = h1 !! 0%nat
    /\ h2 !! 1%nat = Some [0; 0; 0; 0; 0; 1]%R.
Proof.
  destruct ex_fe_run_twice as (K1 & K2 & h1 & h2 & Hrun1 & Hrun2).
  exists K1, K2, h1, h2. split; [by split|].
  eapply (fe_repeatable Rpower diag_solve ex_self [(1 / 2)%R] 3 1%nat ex_ep_linear
            (ex_elementFun 0) ex_materialFun None ex_store h1 h2
            [0; 0; 0; 0; 0; 1]%R (replicate 6 0%R)).
  - reflexivity.
  - reflexivity.
  - simpl. lia.
  - repeat constructor. apply not_elem_of_nil.
  - repeat constructor. lia.
  - exact Hrun1.
  - exact Hrun2.
Defined.

Local Open Scope R_scope.

(** ** The Newton loop on a linear problem

    If the internal force of every element is its stiffness matrix times
    the element displacements, the assembled internal force is the
    assembled stiffness matrix times the displacement vector. *)



















Section LinearProblem.
Context (power : R -> R -> R) (spsolve : list (list R) -> list R -> list R).
Context (s : self) (x : list R) (p : R) (F : loc) (ep : list R).
Context (elementFun : element_fun) (materialFun : material_fun).
Context (eq : option (list R)).
Context (Kel : nat -> list (list R)) (fel : nat -> list R).
Context (Hwf : well_formed spsolve s x ep elementFun materialFun eq).
Context (Hlin : forall e ue ep', (e < nElem s)%nat -> length ue = np_size1 (edof s) ->
  let o := elementFun ue (default [] (elemX s !! e)) (default [] (elemY s !! e))
                      ep' (mp s) materialFun eq in
  Ke o = Kel e /\ fext o = fel e /\ fint o = (fun r => dot r ue) <$> Kel e).
Context (Hsym : forall e, (e < nElem s)%nat ->
  Kel e = transpose (np_size1 (edof s)) (Kel e)).

Local Abbreviation nd := (Z.to_nat (ndof s)).
Local Abbreviation idx := (edofIndex s).
Local Abbreviation c := (fun e => power (density x e) p).







End LinearProblem.

(** *** The one-triangle model as a linear problem: unit stiffness, internal
    force equal to the displacement *)





Local Open Scope R_scope.

(** ** A capped run and a converged run that return the same values *)

Section NewtonInvariant.
Context (power : R -> R -> R) (spsolve : list (list R) -> list R -> list R).
Context (s : self) (x : list R) (p : R) (F : loc) (ep : list R).
Context (elementFun : element_fun) (materialFun : material_fun).
Context (eq : option (list R)).
Context (P P' : nl_state -> store -> Prop).

(** An invariant of the loop head and one of the state after the assembly
    hold where the loop is left: at the head if the test failed, after the
    assembly if the cap stopped the loop. *)
Lemma newton_invariant (fuel : nat) (st st' : nl_state) (h h' : store) :
  (forall st h st1 h1, P st h ->
     newton_assemble power s x p F ep elementFun materialFun eq st h = (Ok st1, h1) ->
     P' st1 h1) ->
  (forall st1 h1 st2 h2, P' st1 h1 -> newtonIt st1 <> 100%Z ->
     newton_update spsolve s st1 h1 = (Ok st2, h2) -> P st2 h2) ->
  P st h ->
  newton power spsolve fuel s x p F ep elementFun materialFun eq st h
  = Some (Ok st', h') ->
  (P st' h' /\ ~ err st' > TOL st') \/ (P' st' h' /\ newtonIt st' = 100%Z).
Proof using Type.
  intros Hasm Hupd. revert st h.
  induction fuel as [|fuel IH]; intros st h HP; cbn [newton];
    destruct (Rgt_dec (err st) (TOL st)) as [Hgt|Hn]; intros Hrun;
    try discriminate;
    try (inversion Hrun; subst st' h'; by left).
  destruct (newton_assemble _ _ _ _ _ _ _ _ _ _ h) as [[st1|e] h1] eqn:Ha;
    [|discriminate].
  pose proof (Hasm _ _ _ _ HP Ha) as HP1.
  destruct (Z.eqb_spec (newtonIt st1) 100) as [H100|Hn100].
  - inversion Hrun; subst st' h'. by right.
  - destruct (newton_update spsolve s st1 h1) as [[st2|e] h2] eqn:Hu;
      [|discriminate].
    apply (IH st2 h2); [|done]. by eapply Hupd.
Qed.

Lemma newton_assemble_lengths (st st1 : nl_state) (h h1 : store) :
  newton_assemble power s x p F ep elementFun materialFun eq st h = (Ok st1, h1) ->
  length (dR st1) = nElem s
  /\ length (sig_VM st1) = length (sig_VM st)
  /\ length (eps_h st1) = length (eps_h st).
Proof using Type.
  unfold newton_assemble. intros Hrun.
  apply bind_Ok in Hrun as (ft & h2 & _ & Hrun).
  apply bind_Ok in Hrun as (fg & h3 & _ & Hrun).
  apply bind_Ok in Hrun as (fi & h4 & _ & Hrun).
  apply bind_Ok in Hrun as (a & h5 & Hloop & Hrun).
  apply (for_elems_seq_inv _ (fun _ a _ =>
           length (a_dR a) = nElem s
           /\ length (a_sig_VM a) = length (sig_VM st)
           /\ length (a_eps_h a) = length (eps_h st))) in Hloop.
  - apply bind_Ok in Hrun as (m & h6 & _ & Hrun).
    apply bind_Ok in Hrun as (fiv & h7 & _ & Hrun).
    apply bind_Ok in Hrun as (fgv & h8 & _ & Hrun).
    apply bind_Ok in Hrun as (Rv & h9 & _ & Hrun).
    apply bind_Ok in Hrun as (Rf & h10 & _ & Hrun).
    unfold ret in Hrun. inversion Hrun; subst st1 h1. exact Hloop.
  - intros k a1 h6 a2 h7 Hk (H1 & H2 & H3) Hbody.
    apply fe_nl_elem_Ok in Hbody as (_ & _ & (vm & _ & _ & _ & _ & ->)).
    simpl. by rewrite !length_insert.
  - simpl. by rewrite length_replicate.
Qed.

Lemma newton_update_fields (st1 st2 : nl_state) (h1 h2 : store) :
  newton_update spsolve s st1 h1 = (Ok st2, h2) ->
  K st2 = K st1 /\ dR st2 = dR st1 /\ sig_VM st2 = sig_VM st1
  /\ eps_h st2 = eps_h st1 /\ fextGlobal st2 = fextGlobal st1
  /\ fext_tilde st2 = fext_tilde st1.
Proof using Type.
  intros Hupd. unfold newton_update in Hupd.
  repeat (apply bind_Ok in Hupd as (? & ? & _ & Hupd)).
  unfold ret in Hupd. by inversion Hupd.
Qed.

End NewtonInvariant.

Ltac py_eval_rhs H :=
  match type of H with
  | ?l = ?r =>
      let r' := eval cbv - [IZR Rplus Rmult Rminus Rdiv Rinv Ropp Rabs Rmax sqrt
                            Rpower pow Rgt_dec Req_dec_T ex_mp] in r in
      change (l = r') in H
  end.

Lemma singleton_lookup {A} (l : list A) (a : A) :
  length l = 1%nat -> l !! 0%nat = Some a -> l = [a].
Proof.
  destruct l as [|b [|c l]]; try discriminate. intros _ Hb. by inversion Hb.
Qed.

(** One assembly with [ex_switch_elementFun a], density 1 and penalty [p],
    at the displacement [u5] of the free DOF *)
Lemma ex_switch_assemble (a p u5 : R) (st st1 : nl_state) (h h1 : store) :
  h !! 0%nat = Some [0; 0; 0; 0; 0; u5] ->
  h !! 1%nat = Some [0; 0; 0; 0; 0; 1] ->
  length (sig_VM st) = 1%nat -> length (eps_h st) = 1%nat ->
  newton_assemble Rpower ex_self [1] p 1%nat ex_ep_nonlinear
    (ex_switch_elementFun a) ex_materialFun None st h = (Ok st1, h1) ->
  exists f5,
    f5 = (if Req_dec_T u5 2 then 3 else a)
    /\ h1 !! 0%nat = Some [0; 0; 0; 0; 0; u5]
    /\ h1 !! 1%nat = Some [0; 0; 0; 0; 0; 1]
    /\ newtonIt st1 = (newtonIt st + 1)%Z /\ TOL st1 = TOL st
    /\ err st1 = Rabs (f5 - 2)
    /\ R_ st1 = [-1; -1; -1; -1; -1; f5 - 2]
    /\ dR st1 = [[-1; -1; -1; -1; -1; p * f5 - 1]]
    /\ K st1 = identity 6
    /\ sig_VM st1 = [sqrt 3] /\ eps_h st1 = [3]
    /\ fextGlobal st1 <> 0%nat /\ fext_tilde st1 <> 0%nat
    /\ h1 !! fext_tilde st1 = Some [1; 1; 1; 1; 1; 1]
    /\ h1 !! fextGlobal st1 = Some [1; 1; 1; 1; 1; 2].
Proof.
  intros Hu HF Hsv Heh Hasm.
  destruct (newton_assemble_lengths _ _ _ _ _ _ _ _ _ _ _ _ _ Hasm)
    as (HdRl & Hsvl & Hehl).
  destruct (newton_assemble_Ok_inv Rpower ex_self [1] p 1%nat ex_ep_nonlinear
              (ex_switch_elementFun a) ex_materialFun None [0; 0; 0; 0; 0; u5]
              st st1 h h1 _ HF Hu Hasm)
    as ((Hftl & Hfgl & _ & Hit & HTOL1 & Hkeep) & (Hfg & Hfi & Hft) & Hel
        & (m & Hcoo & HK) & (fiv & fgv & Rf & Hfiv & Hfgv & HR & HRf & Herr)).
  assert (Hlt : (1 < length h)%nat) by (by eapply lookup_lt_Some).
  destruct Hfg as (g & Hg & Hgall). rewrite Hfgv in Hg. inversion Hg; subst g.
  destruct Hfi as (g & Hg' & Hfiall). rewrite Hfiv in Hg'. inversion Hg'; subst g.
  destruct Hft as (ftv & Hftv & Hftall).
  clear Hg Hg'.
  destruct (Hel O ltac:(simpl; lia))
    as (_ & _ & _ & _ & _ & HdR & (vm & Hvm & Hsv1) & Heh1).
  cbv zeta in Hcoo. apply coo_matrix_Ok in Hcoo as (-> & _ & _).
  py_eval_in Hgall. py_eval_in Hfiall. py_eval_in Hftall.
  py_eval_rhs HdR. py_eval_in Hvm. py_eval_rhs Heh1. py_eval_rhs HK.
  inversion Hgall; subst fgv. inversion Hfiall; subst fiv.
  inversion Hftall; subst ftv. inversion Hvm; subst vm.
  clear Hgall Hfiall Hftall Hvm.
  remember (R_ st1) as Rv eqn:HRv.
  py_eval_in HR. inversion HR as [HRc]. clear HR.
  rewrite <- HRc in HRf, HRv. clear HRc Rv.
  py_eval_in HRf. inversion HRf as [HRfc]. clear HRf.
  rewrite <- HRfc in Herr. clear HRfc Rf.
  exists (if Req_dec_T u5 2 then 3 else a). split; [done|].
  set (f5 := if Req_dec_T u5 2 then 3 else a).
  let t := eval cbv - [IZR Req_dec_T] in (if Req_dec_T u5 2 then 3 else a) in
  change t with f5 in Herr, HdR; change t with f5.
  clearbody f5.
  split; [rewrite Hkeep; [done|lia]|]. split; [rewrite Hkeep; [done|lia]|].
  split; [done|]. split; [done|].
  rewrite Rpower_1_l in *.
  split.
  { rewrite Herr. unfold norm. simpl.
    replace ((0 + f5 * 1 - (1 + 1 * 1)) * (0 + f5 * 1 - (1 + 1 * 1)) + 0)
      with (Rsqr (f5 - 2)) by (unfold Rsqr; lra).
    apply sqrt_Rsqr_abs. }
  split; [repeat (f_equal; try lra)|].
  split.
  { rewrite (singleton_lookup _ _ HdRl HdR).
    repeat (f_equal; try lra). }
  split.
  { rewrite HK. py_eval. repeat (f_equal; try lra). }
  split.
  { rewrite (singleton_lookup _ _ (eq_trans Hsvl Hsv) Hsv1). do 2 f_equal. lra. }
  split.
  { rewrite (singleton_lookup _ _ (eq_trans Hehl Heh) Heh1). f_equal. lra. }
  split; [lia|]. split; [lia|].
  split; [rewrite Hftv; repeat (f_equal; try lra)
         |rewrite Hfgv; repeat (f_equal; try lra)].
Qed.

(** The Newton step that follows *)
Lemma ex_switch_update (u5 r5 : R) (st1 st2 : nl_state) (h1 h2 : store) :
  h1 !! 0%nat = Some [0; 0; 0; 0; 0; u5] ->
  K st1 = identity 6 ->
  R_ st1 = [-1; -1; -1; -1; -1; r5] ->
  fextGlobal st1 <> 0%nat ->
  h1 !! fextGlobal st1 = Some [1; 1; 1; 1; 1; 2] ->
  newton_update diag_solve ex_self st1 h1 = (Ok st2, h2) ->
  (exists u5', h2 !! 0%nat = Some [0; 0; 0; 0; 0; u5'] /\ u5' = u5 - r5)
  /\ (forall l, l <> 0%nat -> h2 !! l = h1 !! l)
  /\ TOL st2 = 1e-7 /\ err st2 = err st1 /\ newtonIt st2 = newtonIt st1.
Proof.
  intros Hu HK HR Hfgne Hfg Hupd.
  destruct (newton_update_Ok_inv diag_solve ex_self st1 st2 h1 h2 Hupd)
    as ((m & Hm & HTOL2) & Herr2 & Hit2
        & (Kff & Rf & step & Uf & u' & HKff & HRf & Hstep & HUf & Hput & ->)).
  rewrite Hfg in Hm. simpl in Hm. inversion Hm as [Hm']. clear Hm.
  assert (HT : TOL st2 = 1e-7).
  { rewrite HTOL2, <- Hm'. rewrite Rmax_right; [lra|].
    repeat apply Rmax_lub; unfold Rabs; destruct (Rcase_abs _); lra. }
  rewrite HK in HKff. py_eval_in HKff. inversion HKff as [HKc]. clear HKff.
  rewrite HR in HRf. py_eval_in HRf. inversion HRf as [HRc]. clear HRf.
  rewrite <- HKc, <- HRc in Hstep. py_eval_in Hstep. inversion Hstep as [Hsc].
  clear Hstep.
  change (U ex_self) with 0%nat in HUf, Hput. rewrite Hu in HUf, Hput.
  py_eval_in HUf. inversion HUf as [HUc]. clear HUf.
  rewrite <- HUc, <- Hsc in Hput. py_eval_in Hput. inversion Hput as [Hpc].
  clear Hput.
  split; [|split; [|done]].
  - eexists. split.
    + change (U ex_self) with 0%nat. apply list_lookup_insert_eq.
      by eapply lookup_lt_Some.
    + lra.
  - intros l Hl. change (U ex_self) with 0%nat. by rewrite list_lookup_insert_ne.
Qed.

Lemma ex_switch_well_formed (a : R) (x : list R) (ep : list R) :
  (1 <= length x)%nat -> (3 < length ep)%nat ->
  well_formed diag_solve ex_self x ep (ex_switch_elementFun a) ex_materialFun None.
Proof.
  intros Hx Hep.
  split; try done; try (repeat constructor; simpl; lia).
  intros K b. unfold diag_solve. apply length_imap.
Qed.

(** The call of [fe] that [fe_nl] starts with leaves the displacement 2 at
    the free DOF, whatever [a] and the penalty. *)
Lemma ex_switch_fe (a p : R) :
  exists K0 u5 fg ft,
    fe Rpower diag_solve ex_self [1] p 1%nat ex_ep_nonlinear
       (ex_switch_elementFun a) ex_materialFun None ex_store
    = (Ok (U ex_self, 3%nat, 2%nat, K0),
       [[0; 0; 0; 0; 0; u5]; [0; 0; 0; 0; 0; 1]; fg; ft])
    /\ u5 = 2 /\ length fg = 6%nat /\ length ft = 6%nat.
Proof.
  do 4 eexists. split; [py_eval; reflexivity|].
  split; [rewrite Rpower_1_l; lra|]. split; reflexivity.
Qed.

Lemma ex_cycle_assemble (st st1 : nl_state) (h h1 : store) :
  ex_cycle_head st h ->
  newton_assemble Rpower ex_self [1] 2 1%nat ex_ep_nonlinear
    (ex_switch_elementFun 1) ex_materialFun None st h = (Ok st1, h1) ->
  ex_cycle_mid st1 h1.
Proof.
  intros ((u5 & Hu & Hpar) & HF & Hsv & Heh & HTOL & Hgt) Hasm.
  destruct (ex_switch_assemble 1 2 u5 st st1 h h1 Hu HF Hsv Heh Hasm)
    as (f5 & Hf5 & Hu1 & HF1 & Hit & HTOL1 & Herr & HR & HdR & HK & Hsv1 & Heh1
        & Hfgne & Hftne & Hft & Hfg).
  assert (Hcase : (Z.even (newtonIt st1) = false /\ u5 = 2 /\ f5 = 3)
                  \/ (Z.even (newtonIt st1) = true /\ u5 = 1 /\ f5 = 1)).
  { rewrite Hit, Z.even_add. destruct Hpar as [[Hev ->]|[Hev ->]]; rewrite Hev.
    - left. split; [done|]. split; [done|].
      rewrite Hf5. destruct (Req_dec_T 2 2); [done|lra].
    - right. split; [done|]. split; [done|].
      rewrite Hf5. destruct (Req_dec_T 1 2); [lra|done]. }
  split; [exists u5, f5; done|]. split; [done|].
  split.
  { rewrite Herr. destruct Hcase as [(_ & _ & ->)|(_ & _ & ->)].
    - unfold Rabs. destruct (Rcase_abs _); lra.
    - unfold Rabs. destruct (Rcase_abs _); lra. }
  split; [by rewrite HTOL1|]. done.
Qed.

Lemma ex_cycle_update (st1 st2 : nl_state) (h1 h2 : store) :
  ex_cycle_mid st1 h1 ->
  newton_update diag_solve ex_self st1 h1 = (Ok st2, h2) ->
  ex_cycle_head st2 h2.
Proof.
  intros ((u5 & f5 & Hu & HR & HdR & Hcase) & HF & Herr & HTOL & HK & Hsv & Heh
          & Hfgne & Hftne & Hft & Hfg) Hupd.
  destruct (ex_switch_update u5 (f5 - 2) st1 st2 h1 h2 Hu HK HR Hfgne Hfg Hupd)
    as ((u5' & Hu' & Hu5') & Hoth & HTOL2 & Herr2 & Hit2).
  destruct (newton_update_fields _ _ _ _ _ _ Hupd) as (_ & _ & Hsv2 & Heh2 & _).
  split.
  { exists u5'. split; [done|]. rewrite Hit2, Hu5'.
    destruct Hcase as [(Hev & -> & ->)|(Hev & -> & ->)].
    - right. split; [done|lra].
    - left. split; [done|lra]. }
  split; [by rewrite Hoth|].
  split; [by rewrite Hsv2, Hsv|]. split; [by rewrite Heh2, Heh|].
  split; [rewrite HTOL2; lra|]. rewrite Herr2, Herr, HTOL2. lra.
Qed.

(** With [ex_switch_elementFun 1] and penalty 2 the displacement at the
    free DOF goes 2, 1, 2, 1, ... and the residual norm is 1 in every
    iteration: the cap stops the loop after the 100th assembly, made at
    the displacement 1. *)
Lemma ex_cycle_run :
  exists ft0 fg0 K0 h1 st' h',
    fe Rpower diag_solve ex_self [1] 2 1%nat ex_ep_nonlinear
       (ex_switch_elementFun 1) ex_materialFun None ex_store
    = (Ok (U ex_self, ft0, fg0, K0), h1)
    /\ newton Rpower diag_solve 100 ex_self [1] 2 1%nat ex_ep_nonlinear
         (ex_switch_elementFun 1) ex_materialFun None (nl_init [1] ft0 fg0 K0) h1
       = Some (Ok st', h')
    /\ newtonIt st' = 100%Z /\ err st' = 1 /\ TOL st' < 1
    /\ returned_values (nl_return ex_self (U ex_self) st') h'
       = (Some [0; 0; 0; 0; 0; 1], [[-1; -1; -1; -1; -1; 1]], [sqrt 3],
          Some [1; 1; 1; 1; 1; 1], Some [1; 1; 1; 1; 1; 2], [3], [5%Z],
          identity 6).
Proof.
  destruct (ex_switch_fe 1 2) as (K0 & u5 & fg & ft & Hfe & -> & Hfgl & Hftl).
  set (h1 := [[0; 0; 0; 0; 0; 2]; [0; 0; 0; 0; 0; 1]; fg; ft]) in Hfe.
  destruct (newton_total Rpower diag_solve ex_self [1] 2 1%nat ex_ep_nonlinear
              (ex_switch_elementFun 1) ex_materialFun None
              (ex_switch_well_formed 1 [1] ex_ep_nonlinear ltac:(simpl; lia)
                 ltac:(simpl; lia))
              100 (nl_init [1] 3%nat 2%nat K0) h1) as (st' & h' & Hrun).
  { unfold loop_inv. simpl. split; [by eexists|]. split; [by eexists|]. lia. }
  { simpl. lia. }
  { simpl. lia. }
  exists 3%nat, 2%nat, K0, h1, st', h'. split; [exact Hfe|]. split; [exact Hrun|].
  destruct (newton_invariant Rpower diag_solve ex_self [1] 2 1%nat ex_ep_nonlinear
              (ex_switch_elementFun 1) ex_materialFun None
              ex_cycle_head ex_cycle_mid 100 (nl_init [1] 3%nat 2%nat K0) st' h1 h'
              (fun st h st1 h1 => ex_cycle_assemble st st1 h h1)
              (fun st1 h1 st2 h2 Hmid _ Hupd => ex_cycle_update st1 st2 h1 h2 Hmid Hupd))
    as [[Hhead Hn]|[Hmid H100]]; [| exact Hrun | |].
  { split; [exists 2; split; [done|by left]|]. split; [done|].
    simpl. split; [done|]. split; [done|]. lra. }
  { destruct Hhead as (_ & _ & _ & _ & _ & Hgt). done. }
  destruct Hmid as ((u5 & f5 & Hu & HR & HdR & Hcase) & HF & Herr & HTOL & HK & Hsv
                    & Heh & Hfgne & Hftne & Hft & Hfg).
  split; [done|]. split; [done|]. split; [done|].
  rewrite H100 in Hcase. destruct Hcase as [(Hev & _)|(_ & -> & ->)];
    [discriminate Hev|].
  unfold returned_values, nl_return. cbn [out_U out_dR out_sig_VM out_fext_tilde
    out_fextGlobal out_eps_h out_freedofs out_K].
  change (U ex_self) with 0%nat. rewrite Hu, HdR, Hsv, Hft, Hfg, Heh, HK.
  repeat (f_equal; try lra).
Qed.

(** With [ex_switch_elementFun 2] and penalty 1 the second assembly, made
    at the displacement 1, has the residual 0: the loop is left after two
    iterations. *)
Lemma ex_settle_run :
  exists ft0 fg0 K0 h1 st' h',
    fe Rpower diag_solve ex_self [1] 1 1%nat ex_ep_nonlinear
       (ex_switch_elementFun 2) ex_materialFun None ex_store
    = (Ok (U ex_self, ft0, fg0, K0), h1)
    /\ newton Rpower diag_solve 100 ex_self [1] 1 1%nat ex_ep_nonlinear
         (ex_switch_elementFun 2) ex_materialFun None (nl_init [1] ft0 fg0 K0) h1
       = Some (Ok st', h')
    /\ newtonIt st' = 2%Z /\ err st' = 0 /\ TOL st' = 1e-7
    /\ returned_values (nl_return ex_self (U ex_self) st') h'
       = (Some [0; 0; 0; 0; 0; 1], [[-1; -1; -1; -1; -1; 1]], [sqrt 3],
          Some [1; 1; 1; 1; 1; 1], Some [1; 1; 1; 1; 1; 2], [3], [5%Z],
          identity 6).
Proof.
  destruct (ex_switch_fe 2 1) as (K0 & u5 & fg & ft & Hfe & -> & Hfgl & Hftl).
  set (h1 := [[0; 0; 0; 0; 0; 2]; [0; 0; 0; 0; 0; 1]; fg; ft]) in Hfe.
  pose proof (ex_switch_well_formed 2 [1] ex_ep_nonlinear ltac:(simpl; lia)
                ltac:(simpl; lia)) as Hwf.
  set (st0 := nl_init [1] 3%nat 2%nat K0).
  assert (Hinv0 : loop_inv ex_self 1%nat st0 h1).
  { unfold loop_inv. simpl. split; [by eexists|]. split; [by eexists|]. lia. }
  (* first iteration, at the displacement 2 *)
  destruct (newton_assemble_total Rpower diag_solve ex_self [1] 1 1%nat
              ex_ep_nonlinear (ex_switch_elementFun 2) ex_materialFun None Hwf
              st0 h1 Hinv0) as (st1 & h1' & Hasm1 & Hinv1 & Hfga1 & HKt1 & HRl1).
  destruct (ex_switch_assemble 2 1 2 st0 st1 h1 h1' eq_refl eq_refl eq_refl eq_refl
              Hasm1)
    as (f5 & Hf5 & Hu1 & HF1 & Hit1 & HTOL1 & Herr1 & HR1 & HdR1 & HK1 & Hsv1 & Heh1
        & Hfgne1 & Hftne1 & Hft1 & Hfg1).
  destruct (Req_dec_T 2 2) as [_|Hne]; [|lra]. subst f5.
  destruct (newton_update_total diag_solve ex_self [1] 1%nat ex_ep_nonlinear
              (ex_switch_elementFun 2) ex_materialFun None Hwf
              st1 h1' Hinv1 Hfga1 HKt1 HRl1) as (st2 & h2 & Hupd1 & Hinv2).
  destruct (ex_switch_update 2 (3 - 2) st1 st2 h1' h2 Hu1 HK1 HR1 Hfgne1 Hfg1 Hupd1)
    as ((u5 & Hu2 & Hu5) & Hoth2 & HTOL2 & Herr2 & Hit2).
  destruct (newton_update_fields _ _ _ _ _ _ Hupd1) as (_ & _ & Hsv2 & Heh2 & _).
  replace u5 with 1 in Hu2 by lra. clear Hu5 u5.
  (* second iteration, at the displacement 1 *)
  destruct (newton_assemble_total Rpower diag_solve ex_self [1] 1 1%nat
              ex_ep_nonlinear (ex_switch_elementFun 2) ex_materialFun None Hwf
              st2 h2 Hinv2) as (st3 & h3 & Hasm3 & Hinv3 & Hfga3 & HKt3 & HRl3).
  destruct (ex_switch_assemble 2 1 1 st2 st3 h2 h3 Hu2)
    as (f5 & Hf5 & Hu3 & HF3 & Hit3 & HTOL3 & Herr3 & HR3 & HdR3 & HK3 & Hsv3 & Heh3
        & Hfgne3 & Hftne3 & Hft3 & Hfg3);
    [by rewrite Hoth2|by rewrite Hsv2, Hsv1|by rewrite Heh2, Heh1|exact Hasm3|].
  destruct (Req_dec_T 1 2) as [Heq|_]; [lra|]. subst f5.
  destruct (newton_update_total diag_solve ex_self [1] 1%nat ex_ep_nonlinear
              (ex_switch_elementFun 2) ex_materialFun None Hwf
              st3 h3 Hinv3 Hfga3 HKt3 HRl3) as (st4 & h4 & Hupd3 & Hinv4).
  destruct (ex_switch_update 1 (2 - 2) st3 st4 h3 h4 Hu3 HK3 HR3 Hfgne3 Hfg3 Hupd3)
    as ((u5 & Hu4 & Hu5) & Hoth4 & HTOL4 & Herr4 & Hit4).
  destruct (newton_update_fields _ _ _ _ _ _ Hupd3)
    as (HK4 & HdR4 & Hsv4 & Heh4 & Hfg4 & Hft4).
  replace u5 with 1 in Hu4 by lra. clear Hu5 u5.
  assert (He1 : err st1 = 1)
    by (rewrite Herr1; unfold Rabs; destruct (Rcase_abs _); lra).
  assert (He3 : err st3 = 0)
    by (rewrite Herr3; unfold Rabs; destruct (Rcase_abs _); lra).
  exists 3%nat, 2%nat, K0, h1, st4, h4. split; [exact Hfe|].
  split.
  { fold st0.
    rewrite (newton_step Rpower diag_solve ex_self [1] 1 1%nat ex_ep_nonlinear
               (ex_switch_elementFun 2) ex_materialFun None 99 st0 st1 st2 h1 h1' h2);
      [|simpl; lra|exact Hasm1|rewrite Hit1; simpl; lia|exact Hupd1].
    rewrite (newton_step Rpower diag_solve ex_self [1] 1 1%nat ex_ep_nonlinear
               (ex_switch_elementFun 2) ex_materialFun None 98 st2 st3 st4 h2 h3 h4);
      [|rewrite Herr2, He1, HTOL2; lra|exact Hasm3
       |rewrite Hit3, Hit2, Hit1; simpl; lia|exact Hupd3].
    apply newton_exit. rewrite Herr4, He3, HTOL4. lra. }
  split; [rewrite Hit4, Hit3, Hit2, Hit1; reflexivity|].
  split; [by rewrite Herr4|]. split; [done|].
  unfold returned_values, nl_return. cbn [out_U out_dR out_sig_VM out_fext_tilde
    out_fextGlobal out_eps_h out_freedofs out_K].
  change (U ex_self) with 0%nat.
  rewrite Hu4, HdR4, HdR3, Hsv4, Hsv3, Heh4, Heh3, HK4, HK3, Hft4, Hfg4.
  rewrite !Hoth4 by done. rewrite Hft3, Hfg3.
  repeat (f_equal; try lra).
Qed.

Lemma ex_switch_fe_nl (a p : R) (ft0 fg0 : loc) (K0 : list (list R))
    (h1 h' : store) (st' : nl_state) :
  fe Rpower diag_solve ex_self [1] p 1%nat ex_ep_nonlinear
     (ex_switch_elementFun a) ex_materialFun None ex_store
  = (Ok (U ex_self, ft0, fg0, K0), h1) ->
  newton Rpower diag_solve 100 ex_self [1] p 1%nat ex_ep_nonlinear
     (ex_switch_elementFun a) ex_materialFun None (nl_init [1] ft0 fg0 K0) h1
  = Some (Ok st', h') ->
  fe_nl Rpower diag_solve 100 ex_self [1] p 1%nat ex_ep_nonlinear
     (ex_switch_elementFun a) ex_materialFun None ex_store
  = Some (Ok (nl_return ex_self (U ex_self) st'), h')
  /\ fe_nl_console Rpower diag_solve 100 ex_self [1] p 1%nat ex_ep_nonlinear
       (ex_switch_elementFun a) ex_materialFun None ex_store
     = Some ([("N.iters:    ", PyInt (newtonIt st'));
              ("Final error:", PyFloat (err st'))],
             Ok (nl_return ex_self (U ex_self) st'), h').
Proof.
  intros Hfe Hrun. unfold fe_nl, fe_nl_console. rewrite Hfe.
  cbn [py_nth ex_ep_nonlinear lookup list_lookup].
  destruct (Req_dec_T _ _) as [H01|_]; [lra|].
  by rewrite Hrun.
Qed.

(** Two calls of [fe_nl] on the one-triangle model that differ in the
    element function and the penalty.  The first is stopped by the cap
    with the residual norm 1; the second leaves the loop after two
    iterations with the residual norm 0.  They print different lines, but
    the eight values they return are the same: nothing that is returned
    tells the caller that the cap was reached. *)
Lemma max_iterations_status_fails :
  (exists outA hA outB hB,
     fe_nl_console Rpower diag_solve 100 ex_self [1] 2 1%nat ex_ep_nonlinear
       (ex_switch_elementFun 1) ex_materialFun None ex_store
     = Some ([("N.iters:    ", PyInt 100); ("Final error:", PyFloat 1)],
             Ok outA, hA)
     /\ fe_nl_console Rpower diag_solve 100 ex_self [1] 1 1%nat ex_ep_nonlinear
          (ex_switch_elementFun 2) ex_materialFun None ex_store
        = Some ([("N.iters:    ", PyInt 2); ("Final error:", PyFloat 0)],
                Ok outB, hB)
     /\ returned_values outA hA = returned_values outB hB)
  /\ ~ max_iterations_status.
Proof.
  destruct ex_cycle_run
    as (ftA & fgA & KA & h1A & stA & hA & HfeA & HrunA & HitA & HerrA & HTOLA & HrvA).
  destruct ex_settle_run
    as (ftB & fgB & KB & h1B & stB & hB & HfeB & HrunB & HitB & HerrB & HTOLB & HrvB).
  destruct (ex_switch_fe_nl 1 2 _ _ _ _ _ _ HfeA HrunA) as [HnlA HconA].
  destruct (ex_switch_fe_nl 2 1 _ _ _ _ _ _ HfeB HrunB) as [HnlB HconB].
  rewrite HitA, HerrA in HconA. rewrite HitB, HerrB in HconB.
  split.
  - exists (nl_return ex_self (U ex_self) stA), hA,
           (nl_return ex_self (U ex_self) stB), hB.
    split; [exact HconA|]. split; [exact HconB|]. by rewrite HrvA, HrvB.
  - intros (status & Hstatus).
    assert (Hflag : ex_ep_nonlinear !! 3%nat <> Some 1).
    { simpl. intros Heq. injection Heq. lra. }
    destruct (Hstatus Rpower diag_solve ex_self [1] 2 1%nat ex_ep_nonlinear
                (ex_switch_elementFun 1) ex_materialFun None ex_store
                _ _ _ _ _ _ _ Hflag HfeA HrunA HnlA) as [HA _].
    destruct (Hstatus Rpower diag_solve ex_self [1] 1 1%nat ex_ep_nonlinear
                (ex_switch_elementFun 2) ex_materialFun None ex_store
                _ _ _ _ _ _ _ Hflag HfeB HrunB HnlB) as [_ HB].
    specialize (HA HitA ltac:(rewrite HerrA; lra)).
    specialize (HB ltac:(rewrite HitB; lia)).
    rewrite HrvA in HA. rewrite HrvB in HB. congruence.
Qed.

End FE.

(** * Facts about the material routines *)

(** Evaluates the list structure of a goal and leaves the real-number
    expressions as they are *)
Ltac mat_eval :=
  cbv - [IZR Rplus Rmult Rminus Rdiv Rinv Ropp Rabs Rmax sqrt Rpower pow exp
         Rgt_dec Rlt_dec Req_dec_T].

Ltac mat_eval_in H :=
  cbv - [IZR Rplus Rmult Rminus Rdiv Rinv Ropp Rabs Rmax sqrt Rpower pow exp
         Rgt_dec Rlt_dec Req_dec_T] in H.

(** Equality of nested lists of reals, entry by entry *)
Ltac Rlists tac :=
  repeat first
    [ reflexivity
    | match goal with |- @eq R _ _ => tac end
    | match goal with |- @eq (list _) _ _ => f_equal end
    | match goal with |- @eq (_ * _) _ _ => f_equal end
    | match goal with |- @eq (outcome _) _ _ => f_equal end ].

Lemma py_div_Return (a b : R) : b <> 0%R -> py_div a b = Return (a / b)%R.
Proof. intros Hb. unfold py_div. by destruct (Req_dec_T b 0). Qed.

Lemma py_div_Throw (a b : R) : b = 0%R -> py_div a b = Throw ZeroDivisionError.
Proof. intros ->. unfold py_div. by destruct (Req_dec_T 0 0). Qed.

Module Material_Elastic_Facts.
Import Material_Elastic.
Local Open Scope R_scope.

Lemma elastic_value (mp : gmap string R) (E nu e0 e1 e2 e3 e4 e5 : R) :
  mp !! "E" = Some E -> mp !! "nu" = Some nu -> nu <> -1 -> nu <> 1 / 2 ->
  elastic [e0; e1; e2; e3; e4; e5] mp
  = Return (isotropic_stress E nu [e0; e1; e2; e3; e4; e5], isotropic E nu).
Proof.
  intros HE Hnu Hn1 Hn2. unfold elastic, getitem. rewrite HE, Hnu.
  cbn [of_result obind]. rewrite !py_div_Return by lra. cbn [obind].
  mat_eval. Rlists ltac:(field; lra).
Qed.

Lemma elastic_Return_inv (eps : list R) (mp : gmap string R) (r : list R * list (list R)) :
  elastic eps mp = Return r ->
  exists E nu e0 e1 e2 e3 e4 e5,
    mp !! "E" = Some E /\ mp !! "nu" = Some nu /\ nu <> -1 /\ nu <> 1 / 2
    /\ eps = [e0; e1; e2; e3; e4; e5].
Proof.
  unfold elastic, getitem.
  destruct (mp !! "E") as [E|]; [|discriminate].
  destruct (mp !! "nu") as [nu|]; [|discriminate].
  cbn [of_result obind]. unfold py_div.
  destruct (Req_dec_T (2 * (1 + nu)) 0) as [|Hn1]; [discriminate|].
  destruct (Req_dec_T (3 * (1 - 2 * nu)) 0) as [|Hn2]; [discriminate|].
  cbn [obind]. intros Hrun.
  exists E, nu.
  destruct eps as [|e0 [|e1 [|e2 [|e3 [|e4 [|e5 [|e6 eps]]]]]]];
    try (mat_eval_in Hrun; discriminate Hrun).
  exists e0, e1, e2, e3, e4, e5. repeat split; try done; lra.
Qed.


(** X11. The stress-strain law of [elastic] is Hooke's law for an isotropic
    material: for a strain of six components and a Poisson ratio other
    than -1 and 1/2 the routine returns the stress
    [lam * tr(eps) + 2 * mu * eps_i] (normal components) and [mu * eps_i]
    (shear components) together with the stiffness matrix of that law,
    which is symmetric. *)
Theorem elastic_hooke (mp : gmap string R) (E nu : R) (eps : list R) :
  mp !! "E" = Some E -> mp !! "nu" = Some nu -> nu <> -1 -> nu <> 1 / 2 ->
  length eps = 6%nat ->
  elastic eps mp = Return (isotropic_stress E nu eps, isotropic E nu)
  /\ isotropic E nu = transpose 6 (isotropic E nu).
Proof.
  intros HE Hnu Hn1 Hn2 Hlen. split; [|reflexivity].
  destruct eps as [|e0 [|e1 [|e2 [|e3 [|e4 [|e5 [|e6 eps]]]]]]]; try discriminate.
  by apply elastic_value.
Qed.

Lemma elastic_hooke_witness :
  elastic [1; 0; 0; 0; 0; 0] FE.ex_mp
  = Return (isotropic_stress 1 (3 / 10) [1; 0; 0; 0; 0; 0], isotropic 1 (3 / 10))
  /\ isotropic 1 (3 / 10) = transpose 6 (isotropic 1 (3 / 10)).
Proof.
  apply (elastic_hooke FE.ex_mp 1 (3 / 10) [1; 0; 0; 0; 0; 0]);
    [reflexivity | reflexivity | lra | lra | reflexivity].
Defined.

Lemma elastic_zero_division (eps : list R) (mp : gmap string R) (E nu : R) :
  mp !! "E" = Some E -> mp !! "nu" = Some nu ->
  nu = -1 \/ nu = 1 / 2 -> elastic eps mp = Throw ZeroDivisionError.
Proof.
  intros HE Hnu. unfold elastic, getitem. rewrite HE, Hnu. cbn [of_result obind].
  intros [-> | ->].
  - rewrite py_div_Throw by lra. done.
  - rewrite py_div_Return by lra. cbn [obind]. rewrite py_div_Throw by lra. done.
Qed.

(** X12. How [elastic] ends.  A missing key ['E'] or ['nu'] is a KeyError; a
    Poisson ratio of -1 or 1/2 makes one of the two moduli a division by
    zero; a strain that has not six components is a ValueError of the
    matrix product; in every other case the routine returns a stress of six
    components and a 6 by 6 matrix. *)
Theorem elastic_outcome (eps : list R) (mp : gmap string R) :
  (mp !! "E" = None \/ mp !! "nu" = None ->
     elastic eps mp = Throw (Builtin KeyError))
  /\ (forall E nu, mp !! "E" = Some E -> mp !! "nu" = Some nu ->
        (nu = -1 \/ nu = 1 / 2 -> elastic eps mp = Throw ZeroDivisionError)
        /\ (nu <> -1 -> nu <> 1 / 2 -> length eps <> 6%nat ->
            elastic eps mp = Throw (Builtin ValueError))
        /\ (nu <> -1 -> nu <> 1 / 2 -> length eps = 6%nat ->
            exists sigma D, elastic eps mp = Return (sigma, D)
              /\ length sigma = 6%nat /\ length D = 6%nat
              /\ Forall (fun r => length r = 6%nat) D)).
Proof.
  split.
  - unfold elastic, getitem. intros [-> | Hnu]; [done|].
    destruct (mp !! "E"); [|done]. by rewrite Hnu.
  - intros E nu HE Hnu. split; [|split].
    + by apply (elastic_zero_division eps mp E nu).
    + intros Hn1 Hn2 Hlen. unfold elastic, getitem. rewrite HE, Hnu.
      cbn [of_result obind]. rewrite !py_div_Return by lra. cbn [obind].
      destruct eps as [|e0 [|e1 [|e2 [|e3 [|e4 [|e5 [|e6 eps]]]]]]];
        try (mat_eval; reflexivity).
      done.
    + intros Hn1 Hn2 Hlen.
      destruct eps as [|e0 [|e1 [|e2 [|e3 [|e4 [|e5 [|e6 eps]]]]]]]; try discriminate.
      eexists _, _. split; [by apply elastic_value|].
      split; [reflexivity|]. split; [reflexivity|]. by repeat constructor.
Qed.

Lemma pow2_zero (y : R) : y ^ 2 = 0 -> y = 0.
Proof.
  intros Hy. simpl in Hy. rewrite Rmult_1_r in Hy.
  by apply Rmult_integral in Hy as [?|?].
Qed.

Lemma dot_isotropic (E nu e0 e1 e2 e3 e4 e5 : R) :
  nu <> -1 -> nu <> 1 / 2 ->
  dot [e0; e1; e2; e3; e4; e5] (isotropic_stress E nu [e0; e1; e2; e3; e4; e5])
  = E / (3 * (1 - 2 * nu)) * (e0 + e1 + e2) ^ 2
    + E / (2 * (1 + nu))
      * (2 / 3 * ((e0 - e1) ^ 2 + (e1 - e2) ^ 2 + (e2 - e0) ^ 2)
         + (e3 ^ 2 + e4 ^ 2 + e5 ^ 2)).
Proof.
  intros Hn1 Hn2. mat_eval. field. lra.
Qed.

(** X13. The strain energy density of the elastic law is positive: for a
    positive Young's modulus and a Poisson ratio between -1 and 1/2 the
    product [eps . sigma] of a strain with the stress that [elastic]
    returns for it is never negative, and it is zero for the zero strain
    only. *)
Theorem elastic_energy_positive (mp : gmap string R) (E nu : R)
    (eps sigma : list R) (D : list (list R)) :
  mp !! "E" = Some E -> mp !! "nu" = Some nu ->
  0 < E -> -1 < nu < 1 / 2 ->
  elastic eps mp = Return (sigma, D) ->
  0 <= dot eps sigma /\ (dot eps sigma = 0 -> eps = replicate 6 0).
Proof.
  intros HE Hnu HEpos [Hlo Hhi] Hrun.
  destruct (elastic_Return_inv _ _ _ Hrun)
    as (E' & nu' & e0 & e1 & e2 & e3 & e4 & e5 & HE' & Hnu' & Hn1 & Hn2 & ->).
  rewrite HE in HE'. rewrite Hnu in Hnu'. inversion HE'; inversion Hnu'; subst E' nu'.
  rewrite (elastic_value mp E nu) in Hrun by done. inversion Hrun; subst sigma D.
  rewrite dot_isotropic by done.
  assert (0 < E / (3 * (1 - 2 * nu))) as HK
    by (apply Rdiv_lt_0_compat; lra).
  assert (0 < E / (2 * (1 + nu))) as HG
    by (apply Rdiv_lt_0_compat; lra).
  set (K := E / (3 * (1 - 2 * nu))) in *. set (G := E / (2 * (1 + nu))) in *.
  assert (0 <= (e0 + e1 + e2) ^ 2) as Ht by apply pow2_ge_0.
  assert (0 <= (e0 - e1) ^ 2) as H01 by apply pow2_ge_0.
  assert (0 <= (e1 - e2) ^ 2) as H12 by apply pow2_ge_0.
  assert (0 <= (e2 - e0) ^ 2) as H20 by apply pow2_ge_0.
  assert (0 <= e3 ^ 2) as H3 by apply pow2_ge_0.
  assert (0 <= e4 ^ 2) as H4 by apply pow2_ge_0.
  assert (0 <= e5 ^ 2) as H5 by apply pow2_ge_0.
  set (t := (e0 + e1 + e2) ^ 2) in *.
  set (d := 2 / 3 * ((e0 - e1) ^ 2 + (e1 - e2) ^ 2 + (e2 - e0) ^ 2)
            + (e3 ^ 2 + e4 ^ 2 + e5 ^ 2)) in *.
  assert (0 <= d) as Hd by (subst d; lra).
  assert (0 <= K * t) as HKt by (apply Rmult_le_pos; lra).
  assert (0 <= G * d) as HGd by (apply Rmult_le_pos; lra).
  split; [lra|]. intros Hz.
  assert (K * t = 0) as HKt0 by lra. assert (G * d = 0) as HGd0 by lra.
  apply Rmult_integral in HKt0 as [?|Ht0]; [lra|].
  apply Rmult_integral in HGd0 as [?|Hd0]; [lra|].
  subst t d.
  assert ((e0 - e1) ^ 2 = 0) as E01 by lra.
  assert ((e1 - e2) ^ 2 = 0) as E12 by lra.
  assert (e3 ^ 2 = 0) as E3 by lra.
  assert (e4 ^ 2 = 0) as E4 by lra.
  assert (e5 ^ 2 = 0) as E5 by lra.
  apply pow2_zero in Ht0, E01, E12, E3, E4, E5.
  simpl. repeat f_equal; lra.
Qed.

Lemma elastic_energy_positive_witness :
  elastic [1; 0; 0; 0; 0; 0] FE.ex_mp
  = Return (isotropic_stress 1 (3 / 10) [1; 0; 0; 0; 0; 0], isotropic 1 (3 / 10))
  /\ 0 <= dot [1; 0; 0; 0; 0; 0] (isotropic_stress 1 (3 / 10) [1; 0; 0; 0; 0; 0])
  /\ (dot [1; 0; 0; 0; 0; 0] (isotropic_stress 1 (3 / 10) [1; 0; 0; 0; 0; 0]) = 0 ->
      [1; 0; 0; 0; 0; 0] = replicate 6 0).
Proof.
  assert (elastic [1; 0; 0; 0; 0; 0] FE.ex_mp
          = Return (isotropic_stress 1 (3 / 10) [1; 0; 0; 0; 0; 0],
                    isotropic 1 (3 / 10))) as Hrun
    by (apply elastic_value; [reflexivity | reflexivity | lra | lra]).
  split; [exact Hrun|].
  apply (elastic_energy_positive FE.ex_mp 1 (3 / 10) [1; 0; 0; 0; 0; 0] _
           (isotropic 1 (3 / 10)));
    [reflexivity | reflexivity | lra | lra | exact Hrun].
Defined.

Lemma von_mises_isotropic (E nu e0 e1 e2 e3 e4 e5 : R) :
  nu <> -1 -> nu <> 1 / 2 ->
  FE.von_mises (isotropic_stress E nu [e0; e1; e2; e3; e4; e5])
  = Ok (sqrt ((E / (2 * (1 + nu))) ^ 2
              * (2 * ((e0 - e1) ^ 2 + (e1 - e2) ^ 2 + (e2 - e0) ^ 2)
                 + 3 * (e3 ^ 2 + e4 ^ 2 + e5 ^ 2)))).
Proof.
  intros Hn1 Hn2. mat_eval. do 2 f_equal. field. lra.
Qed.

(** X14. The von Mises stress that [fe_nl] computes (line 223 of FE.py) from a
    stress returned by [elastic] depends on the deviatoric part of the
    strain only: adding a volumetric strain [c * I_v] to the strain changes
    neither the stiffness matrix nor the von Mises stress, and a purely
    volumetric strain has von Mises stress zero. *)
Theorem elastic_von_mises_volumetric (mp : gmap string R) (eps sigma : list R)
    (D : list (list R)) (c : R) :
  elastic eps mp = Return (sigma, D) ->
  (exists sigma',
     elastic (zip_with Rplus eps (scale c I_v)) mp = Return (sigma', D)
     /\ FE.von_mises sigma' = FE.von_mises sigma)
  /\ (exists sigma0,
        elastic (scale c I_v) mp = Return (sigma0, D)
        /\ FE.von_mises sigma0 = Ok 0).
Proof.
  intros Hrun.
  destruct (elastic_Return_inv _ _ _ Hrun)
    as (E & nu & e0 & e1 & e2 & e3 & e4 & e5 & HE & Hnu & Hn1 & Hn2 & ->).
  rewrite (elastic_value mp E nu) in Hrun by done. inversion Hrun; subst sigma D.
  split.
  - change (zip_with Rplus [e0; e1; e2; e3; e4; e5] (scale c I_v))
      with [e0 + 1 * c; e1 + 1 * c; e2 + 1 * c; e3 + 0 * c; e4 + 0 * c; e5 + 0 * c].
    eexists. split; [by apply elastic_value|].
    rewrite !von_mises_isotropic by done. do 2 f_equal. ring.
  - change (scale c I_v) with [1 * c; 1 * c; 1 * c; 0 * c; 0 * c; 0 * c].
    eexists. split; [by apply elastic_value|].
    rewrite von_mises_isotropic by done. f_equal.
    transitivity (sqrt 0); [f_equal; ring | apply sqrt_0].
Qed.

Lemma elastic_von_mises_volumetric_witness :
  elastic [1; 0; 0; 0; 0; 0] FE.ex_mp
  = Return (isotropic_stress 1 (3 / 10) [1; 0; 0; 0; 0; 0], isotropic 1 (3 / 10))
  /\ (exists sigma',
        elastic (zip_with Rplus [1; 0; 0; 0; 0; 0] (scale 2 I_v)) FE.ex_mp
        = Return (sigma', isotropic 1 (3 / 10))
        /\ FE.von_mises sigma'
           = FE.von_mises (isotropic_stress 1 (3 / 10) [1; 0; 0; 0; 0; 0]))
  /\ (exists sigma0,
        elastic (scale 2 I_v) FE.ex_mp = Return (sigma0, isotropic 1 (3 / 10))
        /\ FE.von_mises sigma0 = Ok 0).
Proof.
  assert (elastic [1; 0; 0; 0; 0; 0] FE.ex_mp
          = Return (isotropic_stress 1 (3 / 10) [1; 0; 0; 0; 0; 0],
                    isotropic 1 (3 / 10))) as Hrun
    by (apply elastic_value; [reflexivity | reflexivity | lra | lra]).
  split; [exact Hrun|].
  exact (elastic_von_mises_volumetric FE.ex_mp [1; 0; 0; 0; 0; 0] _ _ 2 Hrun).
Defined.

End Material_Elastic_Facts.

Module ErikTestMaterial_Facts.
Import ErikTestMaterial.
Local Open Scope R_scope.

Lemma Dfun_value (E nu : R) :
  nu <> -1 -> nu <> 1 / 2 ->
  Dfun E nu
  = Return (scal_l (E / ((1 + nu) * (1 - 2 * nu)))
              [[1 - nu; nu; nu; 0]; [nu; 1 - nu; nu; 0]; [nu; nu; 1 - nu; 0];
               [0; 0; 0; (1 - 2 * nu) / 2]]).
Proof.
  intros Hn1 Hn2. unfold Dfun. rewrite py_div_Return; [done|].
  intros H0. apply Rmult_integral in H0 as [?|?]; lra.
Qed.

Lemma tension_weight_code (eh : R) :
  ~ eh < 0.0005 ->
  1 - exp (- (4500 * (eh - 0.0005)) + 4) / (1 + exp (- (4500 * (eh - 0.0005)) + 4))
  = tension_weight eh.
Proof.
  intros Hge. unfold tension_weight. destruct (Rlt_dec eh 0.0005); [done|].
  replace (- (4500 * (eh - 0.0005)) + 4) with (4 - 4500 * (eh - 0.0005)) by ring.
  pose proof (exp_pos (4 - 4500 * (eh - 0.0005))). field. lra.
Qed.

Lemma ten_quote_value (eh : R) :
  ten_quote eh 0.0005
  = (if Rlt_dec eh 0.0005 then [PStr "comp"]
     else [PStr "ten"; PFloat (tension_weight eh)],
     Return (tension_weight eh)).
Proof.
  unfold ten_quote. destruct (Rlt_dec eh 0.0005) as [Hlt|Hge].
  - unfold tension_weight. by destruct (Rlt_dec eh 0.0005).
  - cbn. by rewrite tension_weight_code.
Qed.

Lemma mat_value (E : R) (rest : list R) (e0 e1 e2 e3 e4 e5 : R) :
  let eh := eps_h [e0; e1; e2; e3; e4; e5] in
  let D := scal_l (effective_modulus E eh / ((1 + 0.3) * (1 - 2 * 0.3)))
             [[1 - 0.3; 0.3; 0.3; 0]; [0.3; 1 - 0.3; 0.3; 0]; [0.3; 0.3; 1 - 0.3; 0];
              [0; 0; 0; (1 - 2 * 0.3) / 2]] in
  mat [e0; e1; e2; e3; e4; e5] (E :: rest)
  = (if Rlt_dec eh 0.0005 then [PStr "comp"]
     else [PStr "ten"; PFloat (tension_weight eh)],
     Return (((fun r => dot r [e0; e1; e2; e3]) <$> D) ++ [0; 0], D)).
Proof.
  intros eh D. unfold mat. cbn [py_get]. 
  change (py_get (E :: rest) 0) with (Ok E). cbn [of_result plift pbind fst snd app].
  rewrite !Dfun_value by lra. cbn [plift pbind fst snd app].
  fold eh. rewrite ten_quote_value. subst D. unfold effective_modulus.
  generalize (tension_weight eh). intros q. clearbody eh.
  destruct (Rlt_dec eh 0.0005); mat_eval; Rlists ltac:(field).
Qed.


Lemma mat_run (E : R) (rest eps : list R) :
  let q := tension_weight (eps_h eps) in
  let D := mat_add
             (scal_r (scal_l (E * 3 / ((1 + 0.3) * (1 - 2 * 0.3)))
                        [[1 - 0.3; 0.3; 0.3; 0]; [0.3; 1 - 0.3; 0.3; 0];
                         [0.3; 0.3; 1 - 0.3; 0]; [0; 0; 0; (1 - 2 * 0.3) / 2]])
                     (1 - q))
             (scal_r (scal_l (E / ((1 + 0.3) * (1 - 2 * 0.3)))
                        [[1 - 0.3; 0.3; 0.3; 0]; [0.3; 1 - 0.3; 0.3; 0];
                         [0.3; 0.3; 1 - 0.3; 0]; [0; 0; 0; (1 - 2 * 0.3) / 2]])
                     q) in
  mat eps (E :: rest)
  = (if Rlt_dec (eps_h eps) 0.0005 then [PStr "comp"]
     else [PStr "ten"; PFloat q],
     let! s4 := of_result (matmul D (take 4 eps)) in
     let! sigma := of_result (set_prefix (replicate (length eps) 0) 4 s4) in
     let! sigma := of_result (reshape 6 sigma) in
     Return (sigma, D)).
Proof.
  intros q D. unfold mat.
  change (py_get (E :: rest) 0) with (Ok E). cbn [of_result plift pbind fst snd app].
  rewrite !Dfun_value by lra. cbn [plift pbind fst snd app].
  rewrite ten_quote_value. fold q. cbn [pbind fst snd]. fold D.
  generalize (if Rlt_dec (eps_h eps) 0.0005 then [PStr "comp"]
              else [PStr "ten"; PFloat q]). intros pr.
  destruct (matmul D (take 4 eps)) as [s4|e]; cbn; [|by rewrite app_nil_r].
  destruct (set_prefix _ 4 s4) as [sg|e]; cbn; [|by rewrite app_nil_r].
  destruct (reshape 6 sg) as [sg'|e]; cbn; by rewrite app_nil_r.
Qed.

Lemma mat_Throw_length (E : R) (rest eps : list R) :
  length eps <> 6%nat -> (mat eps (E :: rest)).2 = Throw (Builtin ValueError).
Proof.
  intros Hlen. rewrite mat_run. cbn [fst snd].
  generalize (tension_weight (eps_h eps)). intros q.
  destruct eps as [|e0 [|e1 [|e2 [|e3 [|e4 [|e5 [|e6 eps]]]]]]];
    try (mat_eval; reflexivity).
  done.
Qed.

Lemma mat_Return_length (E : R) (rest eps : list R) (r : list R * list (list R)) :
  (mat eps (E :: rest)).2 = Return r -> length eps = 6%nat.
Proof.
  intros Hrun. destruct (Nat.eq_dec (length eps) 6%nat) as [|Hne]; [done|].
  rewrite (mat_Throw_length _ _ _ Hne) in Hrun. discriminate.
Qed.

(** X16. How [mat] ends and what it prints.  An empty [mp] is an IndexError
    before anything is printed.  Otherwise the routine prints [comp] when
    the hydrostatic strain [sum(eps[:2])/3] is below 0.0005, and [ten]
    followed by the weight of the tension stiffness when it is not; it then
    returns a stress of six components and a 4 by 4 matrix if the strain
    has six components, and raises a ValueError if it has not. *)
Theorem mat_outcome (eps mp : list R) :
  (mp = [] -> mat eps mp = ([], Throw (Builtin IndexError)))
  /\ (mp <> [] ->
      (mat eps mp).1
      = (if Rlt_dec (eps_h eps) 0.0005 then [PStr "comp"]
         else [PStr "ten"; PFloat (tension_weight (eps_h eps))])
      /\ (length eps <> 6%nat -> (mat eps mp).2 = Throw (Builtin ValueError))
      /\ (length eps = 6%nat ->
          exists sigma D, (mat eps mp).2 = Return (sigma, D)
            /\ length sigma = 6%nat /\ length D = 4%nat
            /\ Forall (fun r => length r = 4%nat) D)).
Proof.
  split; [by intros ->|]. intros Hmp. destruct mp as [|E rest]; [done|].
  split; [by rewrite mat_run|]. split; [apply mat_Throw_length|].
  intros Hlen.
  destruct eps as [|e0 [|e1 [|e2 [|e3 [|e4 [|e5 [|e6 eps]]]]]]]; try discriminate.
  rewrite mat_value. cbn [snd]. eexists _, _. split; [reflexivity|].
  split; [reflexivity|]. split; [reflexivity|]. by repeat constructor.
Qed.


Lemma tension_weight_range (eh : R) : 0 <= tension_weight eh <= 1.
Proof.
  unfold tension_weight. destruct (Rlt_dec eh 0.0005); [lra|].
  pose proof (exp_pos (4 - 4500 * (eh - 0.0005))) as Hpos.
  split.
  - apply Rlt_le, Rdiv_lt_0_compat; lra.
  - assert (/ (1 + exp (4 - 4500 * (eh - 0.0005))) <= / 1) as Hinv
      by (apply Rinv_le_contravar; lra).
    rewrite Rinv_1 in Hinv. unfold Rdiv. lra.
Qed.

Lemma tension_weight_mono (eh eh' : R) :
  eh <= eh' -> tension_weight eh <= tension_weight eh'.
Proof.
  intros Hle. pose proof (tension_weight_range eh') as [H0 _].
  unfold tension_weight in *.
  destruct (Rlt_dec eh 0.0005); [done|].
  destruct (Rlt_dec eh' 0.0005); [lra|].
  pose proof (exp_pos (4 - 4500 * (eh - 0.0005))) as Hpos.
  pose proof (exp_pos (4 - 4500 * (eh' - 0.0005))) as Hpos'.
  assert (exp (4 - 4500 * (eh' - 0.0005)) <= exp (4 - 4500 * (eh - 0.0005))) as Hexp.
  { destruct Hle as [Hlt | ->]; [|lra].
    apply Rlt_le, exp_increasing. lra. }
  unfold Rdiv. rewrite !Rmult_1_l. apply Rinv_le_contravar; lra.
Qed.


(** X17. The matrix that [mat] returns is the plane stiffness [Dfun] of one
    effective modulus and Poisson ratio 0.3: the mix of [D_com] and [D_ten]
    is [Dfun((3 - 2 * ten_quote) * E_ten, 0.3)].  Below the strain limit the
    modulus is the compression modulus [3 * E_ten]; for a nonnegative
    [E_ten] it always lies between [E_ten] and [3 * E_ten]. *)
Theorem mat_effective_modulus (E : R) (rest eps : list R) :
  length eps = 6%nat ->
  exists sigma D,
    (mat eps (E :: rest)).2 = Return (sigma, D)
    /\ Dfun (effective_modulus E (eps_h eps)) 0.3 = Return D
    /\ (eps_h eps < 0.0005 -> effective_modulus E (eps_h eps) = 3 * E)
    /\ (0 <= E -> E <= effective_modulus E (eps_h eps) <= 3 * E).
Proof.
  intros Hlen.
  destruct eps as [|e0 [|e1 [|e2 [|e3 [|e4 [|e5 [|e6 eps]]]]]]]; try discriminate.
  rewrite mat_value. cbn [snd]. eexists _, _. split; [reflexivity|].
  split; [by rewrite Dfun_value by lra|].
  pose proof (tension_weight_range (eps_h [e0; e1; e2; e3; e4; e5])) as [Hq0 Hq1].
  unfold effective_modulus. split.
  - intros Hlt. unfold tension_weight.
    destruct (Rlt_dec (eps_h [e0; e1; e2; e3; e4; e5]) 0.0005); [lra|done].
  - intros HE. nra.
Qed.

Lemma mat_effective_modulus_witness :
  exists sigma D,
    (mat [0; 0; 0; 0; 0; 0] [1]).2 = Return (sigma, D)
    /\ Dfun (effective_modulus 1 (eps_h [0; 0; 0; 0; 0; 0])) 0.3 = Return D
    /\ (eps_h [0; 0; 0; 0; 0; 0] < 0.0005 ->
        effective_modulus 1 (eps_h [0; 0; 0; 0; 0; 0]) = 3 * 1)
    /\ (0 <= 1 -> 1 <= effective_modulus 1 (eps_h [0; 0; 0; 0; 0; 0]) <= 3 * 1).
Proof.
  apply (mat_effective_modulus 1 [] [0; 0; 0; 0; 0; 0]). reflexivity.
Defined.

(** X18. [mat] is a plane law: the stress it returns has the four plane
    components [D . eps[:4]] and two zeros, and neither the stress, the
    matrix nor the output depends on the last two strain components. *)
Theorem mat_plane_components (E : R) (rest : list R) (e0 e1 e2 e3 e4 e5 e4' e5' : R) :
  exists s0 s1 s2 s3 D,
    (mat [e0; e1; e2; e3; e4; e5] (E :: rest)).2 = Return ([s0; s1; s2; s3; 0; 0], D)
    /\ matmul D [e0; e1; e2; e3] = Ok [s0; s1; s2; s3]
    /\ mat [e0; e1; e2; e3; e4'; e5'] (E :: rest)
       = mat [e0; e1; e2; e3; e4; e5] (E :: rest).
Proof.
  rewrite !mat_value. cbn [snd].
  change (eps_h [e0; e1; e2; e3; e4'; e5']) with (eps_h [e0; e1; e2; e3; e4; e5]).
  eexists _, _, _, _, _. split; [reflexivity|]. split; reflexivity.
Qed.

(** X19. Hydrostatic tension softens the material: of two strains, the one with
    the larger hydrostatic strain gets a matrix whose entries are all at
    most those of the other (for a nonnegative modulus), and the matrices
    on the two sides of the strain limit differ (for a positive modulus):
    the stiffness jumps at the switch. *)
Theorem mat_softening (E : R) (rest eps eps' sigma sigma' : list R)
    (D D' : list (list R)) :
  0 <= E ->
  eps_h eps <= eps_h eps' ->
  (mat eps (E :: rest)).2 = Return (sigma, D) ->
  (mat eps' (E :: rest)).2 = Return (sigma', D') ->
  Forall2 (Forall2 Rle) D' D
  /\ (0 < E -> eps_h eps < 0.0005 <= eps_h eps' -> D' <> D).
Proof.
  intros HE Hle Hrun Hrun'.
  pose proof (mat_Return_length _ _ _ _ Hrun) as Hlen.
  pose proof (mat_Return_length _ _ _ _ Hrun') as Hlen'.
  destruct eps as [|e0 [|e1 [|e2 [|e3 [|e4 [|e5 [|e6 eps]]]]]]]; try discriminate.
  destruct eps' as [|f0 [|f1 [|f2 [|f3 [|f4 [|f5 [|f6 eps']]]]]]]; try discriminate.
  rewrite mat_value in Hrun, Hrun'. cbn [snd] in Hrun, Hrun'.
  inversion Hrun; subst sigma D. inversion Hrun'; subst sigma' D'. clear Hrun Hrun'.
  pose proof (tension_weight_mono _ _ Hle) as Hmono.
  pose proof (tension_weight_range (eps_h [e0; e1; e2; e3; e4; e5])) as [Hq0 Hq1].
  pose proof (tension_weight_range (eps_h [f0; f1; f2; f3; f4; f5])) as [Hq0' Hq1'].
  unfold effective_modulus.
  set (q := tension_weight (eps_h [e0; e1; e2; e3; e4; e5])) in *.
  set (q' := tension_weight (eps_h [f0; f1; f2; f3; f4; f5])) in *.
  assert (q * E <= q' * E) as Hprod by nra.
  split.
  - repeat (constructor; [repeat (constructor; [lra|]); constructor|]).
    constructor.
  - intros HEpos [Hlt Hge] Heq.
    assert (q = 0) as Hq.
    { subst q. unfold tension_weight.
      by destruct (Rlt_dec (eps_h [e0; e1; e2; e3; e4; e5]) 0.0005). }
    assert (0 < q') as Hq'.
    { subst q'. unfold tension_weight.
      destruct (Rlt_dec (eps_h [f0; f1; f2; f3; f4; f5]) 0.0005); [lra|].
      pose proof (exp_pos (4 - 4500 * (eps_h [f0; f1; f2; f3; f4; f5] - 0.0005))).
      apply Rdiv_lt_0_compat; lra. }
    inversion Heq as [Hentry]. nra.
Qed.


Lemma mat_softening_witness :
  exists sigma sigma' D D',
    (mat [0; 0; 0; 0; 0; 0] [1]).2 = Return (sigma, D)
    /\ (mat [3; 0; 0; 0; 0; 0] [1]).2 = Return (sigma', D')
    /\ Forall2 (Forall2 Rle) D' D
    /\ (0 < 1 -> eps_h [0; 0; 0; 0; 0; 0] < 0.0005 <= eps_h [3; 0; 0; 0; 0; 0] ->
        D' <> D).
Proof.
  eexists _, _, _, _.
  split; [rewrite mat_value; reflexivity|].
  split; [rewrite mat_value; reflexivity|].
  eapply (mat_softening 1 [] [0; 0; 0; 0; 0; 0] [3; 0; 0; 0; 0; 0]).
  - lra.
  - unfold eps_h. simpl. lra.
  - rewrite mat_value. reflexivity.
  - rewrite mat_value. reflexivity.
Defined.

(** X15. [Dfun] is the plane part of the elastic law of [Material_Elastic]:
    for the moduli of [mp] it returns the upper left 4 by 4 block of the
    matrix that [elastic] returns, and it divides by zero for exactly the
    Poisson ratios (-1 and 1/2) for which [elastic] does. *)
Theorem Dfun_elastic_block (mp : gmap string R) (E nu : R) (eps : list R) :
  mp !! "E" = Some E -> mp !! "nu" = Some nu ->
  length eps = 6%nat ->
  match Material_Elastic.elastic eps mp with
  | Return (_, D) => Dfun E nu = Return (take 4 <$> take 4 D)
  | Throw e => e = ZeroDivisionError /\ Dfun E nu = Throw ZeroDivisionError
  end.
Proof.
  intros HE Hnu Hlen.
  destruct (Req_dec_T nu (-1)) as [->|Hn1]; [|destruct (Req_dec_T nu (1 / 2)) as [->|Hn2]].
  - rewrite (Material_Elastic_Facts.elastic_zero_division eps mp E (-1)) by (done || by left).
    split; [done|]. unfold Dfun. rewrite py_div_Throw; [done|lra].
  - rewrite (Material_Elastic_Facts.elastic_zero_division eps mp E (1 / 2)) by (done || by right).
    split; [done|]. unfold Dfun. rewrite py_div_Throw; [done|lra].
  - destruct eps as [|e0 [|e1 [|e2 [|e3 [|e4 [|e5 [|e6 eps]]]]]]]; try discriminate.
    rewrite (Material_Elastic_Facts.elastic_value mp E nu) by done.
    rewrite Dfun_value by done. mat_eval. Rlists ltac:(field; lra).
Qed.

Lemma Dfun_elastic_block_witness :
  match Material_Elastic.elastic [1; 0; 0; 0; 0; 0] FE.ex_mp with
  | Return (_, D) => Dfun 1 (3 / 10) = Return (take 4 <$> take 4 D)
  | Throw e => e = ZeroDivisionError /\ Dfun 1 (3 / 10) = Throw ZeroDivisionError
  end.
Proof.
  apply (Dfun_elastic_block FE.ex_mp 1 (3 / 10) [1; 0; 0; 0; 0; 0]); reflexivity.
Defined.

End ErikTestMaterial_Facts.

Module Element_Routine_Selection_Facts.
Import Element_Routine_Selection.

Section Linear.
Context (hooke : R -> R -> R -> result (list (list R))).
Context (plante plani4e :
  list R -> list R -> list R -> list (list R) -> list R
  -> result (list (list R) * list R)).

(** X20. The edge cases of the two linear routines, whatever the calfem
    functions do.  An empty [ep] is an IndexError and a missing key ['E']
    or ['nu'] a KeyError, both raised while the arguments of [hooke] are
    evaluated, so before any calfem function is called; a body force [eq]
    that is left out stands for [[0, 0]]; the displacements and the
    material function are not looked at; and a result carries an empty
    internal force, stress and strain and an external force of six
    ([LinTri]) or eight ([LinQuad]) entries. *)
Theorem linear_routines_edge_cases (ue ex ey ep : list R) (mp : gmap string R)
    (materialFun : material_fun) (eq : option (list R)) :
  (ep = [] ->
     LinTri hooke plante ue ex ey ep mp materialFun eq = Raise IndexError
     /\ LinQuad hooke plani4e ue ex ey ep mp materialFun eq = Raise IndexError)
  /\ (ep <> [] -> mp !! "E" = None \/ mp !! "nu" = None ->
      LinTri hooke plante ue ex ey ep mp materialFun eq = Raise KeyError
      /\ LinQuad hooke plani4e ue ex ey ep mp materialFun eq = Raise KeyError)
  /\ (LinTri hooke plante ue ex ey ep mp materialFun None
      = LinTri hooke plante ue ex ey ep mp materialFun (Some [0%R; 0%R])
      /\ LinQuad hooke plani4e ue ex ey ep mp materialFun None
         = LinQuad hooke plani4e ue ex ey ep mp materialFun (Some [0%R; 0%R]))
  /\ (forall ue' materialFun',
        LinTri hooke plante ue' ex ey ep mp materialFun' eq
        = LinTri hooke plante ue ex ey ep mp materialFun eq
        /\ LinQuad hooke plani4e ue' ex ey ep mp materialFun' eq
           = LinQuad hooke plani4e ue ex ey ep mp materialFun eq)
  /\ (forall o, LinTri hooke plante ue ex ey ep mp materialFun eq = Ok o ->
        fint o = [] /\ sig o = [] /\ epsilon o = [] /\ length (fext o) = 6%nat)
  /\ (forall o, LinQuad hooke plani4e ue ex ey ep mp materialFun eq = Ok o ->
        fint o = [] /\ sig o = [] /\ epsilon o = [] /\ length (fext o) = 8%nat).
Proof.
  split; [by intros ->|]. split.
  { intros Hep Hmp. unfold LinTri, LinQuad, getitem.
    destruct ep as [|t ep]; [done|]. change (py_get (t :: ep) 0) with (Ok t).
    cbn [rbind]. destruct Hmp as [-> | Hnu]; [done|].
    destruct (mp !! "E"); [|done]. by rewrite Hnu. }
  split; [done|]. split; [done|].
  split.
  - intros o Hrun. unfold LinTri in Hrun.
    do 5 (apply FE.rbind_Ok in Hrun as (? & _ & Hrun)).
    apply FE.rbind_Ok in Hrun as (fe & Hfe & Hrun). apply FE.reshape_Ok in Hfe as [-> Hlen].
    by inversion Hrun.
  - intros o Hrun. unfold LinQuad in Hrun.
    do 5 (apply FE.rbind_Ok in Hrun as (? & _ & Hrun)).
    apply FE.rbind_Ok in Hrun as (fe & Hfe & Hrun). apply FE.reshape_Ok in Hfe as [-> Hlen].
    by inversion Hrun.
Qed.

(** X21. The linear routines cannot serve the Newton loop.  If the element
    function passed to [fe_nl] is [LinTri] or [LinQuad] and the linear flag
    [ep[3]] is not 1, the call raises an exception (at the latest in the
    first iteration, when the empty internal force is added to
    [fintGlobal]); these routines work with [fe], and with [fe_nl] for
    [ep[3] == 1], only. *)
Theorem linear_routines_not_for_newton (power : R -> R -> R)
    (spsolve : list (list R) -> list R -> list R)
    (fuel : nat) (s : FE.self) (x : list R) (p : R) (F : nat) (ep : list R)
    (elementFun : element_fun) (materialFun : material_fun)
    (eq : option (list R)) (h : list (list R)) (flag : R) :
  (forall ue ex ey,
     LinTri hooke plante ue ex ey ep (FE.mp s) materialFun eq
     = Ok (elementFun ue ex ey ep (FE.mp s) materialFun eq))
  \/ (forall ue ex ey,
        LinQuad hooke plani4e ue ex ey ep (FE.mp s) materialFun eq
        = Ok (elementFun ue ex ey ep (FE.mp s) materialFun eq)) ->
  ep !! 3%nat = Some flag -> flag <> 1%R ->
  (0 < FE.nElem s)%nat -> np_size1 (FE.edof s) <> 0%nat ->
  exists e h',
    FE.fe_nl power spsolve (S fuel) s x p F ep elementFun materialFun eq h
    = Some (Raise e, h').
Proof.
  intros Hlin Hflag Hne HnE Hsize.
  apply (FE.empty_fint_raises power spsolve s x p F ep elementFun materialFun eq
           fuel h flag Hflag Hne HnE Hsize).
  intros ue ex ey. destruct Hlin as [Htri | Hquad].
  - specialize (Htri ue ex ey). unfold LinTri in Htri.
    do 5 (apply FE.rbind_Ok in Htri as (? & _ & Htri)).
    apply FE.rbind_Ok in Htri as (fe & _ & Htri). by inversion Htri.
  - specialize (Hquad ue ex ey). unfold LinQuad in Hquad.
    do 5 (apply FE.rbind_Ok in Hquad as (? & _ & Hquad)).
    apply FE.rbind_Ok in Hquad as (fe & _ & Hquad). by inversion Hquad.
Qed.

End Linear.

Lemma linear_routines_not_for_newton_witness :
  (forall ue ex ey,
     LinTri ex_hooke ex_plante ue ex ey FE.ex_ep_nonlinear (FE.mp FE.ex_self)
       FE.ex_materialFun None
     = Ok (ex_LinTri ue ex ey FE.ex_ep_nonlinear (FE.mp FE.ex_self)
             FE.ex_materialFun None))
  /\ exists e h',
       FE.fe_nl Rpower FE.diag_solve 1 FE.ex_self [1%R] 3 1%nat FE.ex_ep_nonlinear
         ex_LinTri FE.ex_materialFun None FE.ex_store = Some (Raise e, h').
Proof.
  assert (Hlin : forall ue ex ey,
            LinTri ex_hooke ex_plante ue ex ey FE.ex_ep_nonlinear (FE.mp FE.ex_self)
              FE.ex_materialFun None
            = Ok (ex_LinTri ue ex ey FE.ex_ep_nonlinear (FE.mp FE.ex_self)
                    FE.ex_materialFun None)) by reflexivity.
  split; [exact Hlin|].
  apply (linear_routines_not_for_newton ex_hooke ex_plante ex_plante Rpower
           FE.diag_solve 0 FE.ex_self [1%R] 3 1%nat FE.ex_ep_nonlinear ex_LinTri
           FE.ex_materialFun None FE.ex_store 0%R).
  - left. exact Hlin.
  - reflexivity.
  - lra.
  - simpl. lia.
  - simpl. lia.
Defined.

End Element_Routine_Selection_Facts.

